(** * Axis-algebra layout transforms of factorizer/factorization/operations.py

    A shallow embedding of [Reshape], [Matricize], [Tensorize], the
    shifted-window wrappers [SWMatricize] / [SWTensorize], the contraction
    primitives [cp] / [khatri_rao] and the transposition [t], with the
    properties of the specification stated over it and further properties
    of the code after them.

    Python integers are [Z] ([//] is [Z.div], both floor), keyword-argument
    dictionaries are [gmap string Z], [Optional] values are [option], and a
    raised exception is the [Err] branch of [result]. *)

From Stdlib Require Import ZArith Ascii String List Lia DecimalString DecimalNat.
From stdpp Require Import base option list gmap strings fin_maps.

Local Open Scope string_scope.
Local Open Scope list_scope.
Local Open Scope Z_scope.

(** ** Exceptions *)

(** The spec's taxonomy next to the Python exceptions behind it. *)
Inductive error : Type :=
  | MalformedEquationError   (* EinopsError raised while a pattern is parsed and checked *)
  | AxesLengthsError         (* EinopsError: a length hint names no axis, or a group has two unknowns *)
  | ConfigurationError       (* AssertionError of Matricize / Tensorize *)
  | ShapeMismatchError       (* EinopsError / RuntimeError raised on a tensor at call time *)
  | ZeroDivisionError
  | TypeError
  | ValueError
  | IndexError.

Inductive result (T : Type) : Type :=
  | Ok (x : T)
  | Err (e : error).
Arguments Ok {T} x.
Arguments Err {T} e.

Definition bind {T U : Type} (m : result T) (k : T -> result U) : result U :=
  match m with
  | Ok x => k x
  | Err e => Err e
  end.

Notation "'let*' x ':=' m 'in' k" := (bind m (fun x => k))
  (at level 10, x pattern, m at level 100, k at level 200).

Definition guard (b : bool) (e : error) : result unit :=
  if b then Ok tt else Err e.

Fixpoint mapR {T U : Type} (f : T -> result U) (l : list T) : result (list U) :=
  match l with
  | [] => Ok []
  | x :: l' => let* y := f x in let* ys := mapR f l' in Ok (y :: ys)
  end.

(** ** Characters and strings, as Python sees them *)

Module Str.

Definition code (c : ascii) : nat := nat_of_ascii c.

Definition between (lo hi : nat) (c : ascii) : bool :=
  (Nat.leb lo (code c)) && (Nat.leb (code c) hi).

Definition is_char (n : nat) (c : ascii) : bool := Nat.eqb (code c) n.

Definition is_digit (c : ascii) : bool := between 48%nat 57%nat c.
Definition is_alpha (c : ascii) : bool := between 65%nat 90%nat c || between 97%nat 122%nat c.
Definition is_underscore (c : ascii) : bool := is_char 95%nat c.

(** [\w] on ASCII text. *)
Definition is_word (c : ascii) : bool := is_alpha c || is_digit c || is_underscore c.

(** The characters [str.split()] and [str.strip()] treat as blank. *)
Definition is_space (c : ascii) : bool :=
  between 9%nat 13%nat c || between 28%nat 32%nat c.

Definition is_lparen (c : ascii) : bool := is_char 40%nat c.
Definition is_rparen (c : ascii) : bool := is_char 41%nat c.
Definition is_blank (c : ascii) : bool := is_char 32%nat c.

Fixpoint span (p : ascii -> bool) (s : list ascii) : list ascii * list ascii :=
  match s with
  | [] => ([], [])
  | c :: r =>
      if p c then let '(a, b) := span p r in (c :: a, b) else ([], s)
  end.

Definition to_string (l : list ascii) : string := string_of_list_ascii l.
Definition of_string (s : string) : list ascii := list_ascii_of_string s.

(** [str.split()]: maximal runs of non-blank characters. *)
Fixpoint split_ws_aux (s : list ascii) (cur : list ascii) : list string :=
  match s with
  | [] => match cur with [] => [] | _ => [to_string (rev cur)] end
  | c :: r =>
      if is_space c
      then match cur with
           | [] => split_ws_aux r []
           | _ => to_string (rev cur) :: split_ws_aux r []
           end
      else split_ws_aux r (c :: cur)
  end.

Definition split_ws (s : list ascii) : list string := split_ws_aux s [].

Fixpoint lstrip (s : list ascii) : list ascii :=
  match s with
  | c :: r => if is_space c then lstrip r else s
  | [] => []
  end.

Definition rstrip (s : list ascii) : list ascii := rev (lstrip (rev s)).

(** [s.split("->")] *)
Fixpoint split_arrow_aux (s : list ascii) (cur : list ascii) : list (list ascii) :=
  match s with
  | [] => [rev cur]
  | c :: r =>
      match r with
      | d :: r' =>
          if is_char 45%nat c && is_char 62%nat d
          then rev cur :: split_arrow_aux r' []
          else split_arrow_aux r (c :: cur)
      | [] => [rev (c :: cur)]
      end
  end.

Definition split_arrow (s : list ascii) : list (list ascii) := split_arrow_aux s [].

(** [" ".join(l)] *)
Fixpoint join_sp (l : list string) : string :=
  match l with
  | [] => ""
  | [x] => x
  | x :: l' => x +:+ " " +:+ join_sp l'
  end.

(** [str(n)] for a natural number. *)
Definition of_nat (n : nat) : string := NilEmpty.string_of_uint (Nat.to_uint n).

End Str.

(** ** [re.findall(r"\(([^)]+)\)|(\w+)", pattern)] *)

(** The first alternative, tried where the text holds an opening parenthesis:
    [r] is what follows it. The greedy [[^)]+] runs to the next closing
    parenthesis, which has to be there, and takes at least one character. *)
Definition match_paren (r : list ascii) : option (list ascii * list ascii) :=
  let '(body, rest) := Str.span (fun c => negb (Str.is_rparen c)) r in
  match body, rest with
  | _ :: _, _ :: rest' => Some (body, rest')
  | _, _ => None
  end.

(** One pair per match, the group that did not take part being empty; where
    neither alternative matches the scan moves on by one character. *)
Fixpoint findall_fuel (fuel : nat) (s : list ascii) : list (string * string) :=
  match fuel with
  | O => []
  | S fuel' =>
      match s with
      | [] => []
      | c :: r =>
          if Str.is_lparen c then
            match match_paren r with
            | Some (body, rest) => (Str.to_string body, "") :: findall_fuel fuel' rest
            | None => findall_fuel fuel' r
            end
          else if Str.is_word c then
            let '(w, rest) := Str.span Str.is_word r in
            ("", Str.to_string (c :: w)) :: findall_fuel fuel' rest
          else findall_fuel fuel' r
      end
  end.

Definition findall (pattern : string) : list (string * string) :=
  let s := Str.of_string pattern in findall_fuel (length s) s.

(** [group[0].split() if group[0] else [group[1]]] *)
Definition group_dims (group : string * string) : list string :=
  match fst group with
  | EmptyString => [snd group]
  | _ => Str.split_ws (Str.of_string (fst group))
  end.

(** ** [Reshape.infer_dims] and [Reshape.compute_size] *)

(** [len([d for d in dims if d in dim_lengths])] *)
Definition count_known (dims : list string) (dim_lengths : gmap string Z) : Z :=
  Z.of_nat (length (filter (fun d => is_Some (dim_lengths !! d)) dims)).

(** [reduce(lambda x, y: x * y, (dim_lengths[d] for d in dims if d in dim_lengths), 1)] *)
Definition known_product (dims : list string) (dim_lengths : gmap string Z) : Z :=
  fold_left Z.mul (omap (fun d => dim_lengths !! d) dims) 1.

(** The two inner [for d in dims] loops. *)
Definition copy_known (dims : list string) (dim_lengths inferred : gmap string Z)
  : gmap string Z :=
  fold_left (fun acc d =>
               match dim_lengths !! d with
               | Some v => <[d := v]> acc
               | None => acc
               end) dims inferred.

Definition fill_dims (dims : list string) (dim_lengths : gmap string Z)
  (unknown_dim : Z) (inferred : gmap string Z) : gmap string Z :=
  fold_left (fun acc d => <[d := default unknown_dim (dim_lengths !! d)]> acc)
            dims inferred.

(** The loop over [zip(groups, size)], threading [inferred_dims]. *)
Fixpoint infer_loop (groups : list (string * string)) (size : list (option Z))
  (dim_lengths inferred : gmap string Z) : result (gmap string Z) :=
  match groups, size with
  | group :: groups', s :: size' =>
      let dims := group_dims group in
      match s with
      | None =>
          infer_loop groups' size' dim_lengths (copy_known dims dim_lengths inferred)
      | Some s =>
          if count_known dims dim_lengths <? Z.of_nat (length dims) - 1
          then infer_loop groups' size' dim_lengths (copy_known dims dim_lengths inferred)
          else
            let kp := known_product dims dim_lengths in
            if kp =? 0 then Err ZeroDivisionError
            else infer_loop groups' size' dim_lengths
                   (fill_dims dims dim_lengths (s / kp) inferred)
      end
  | _, _ => Ok inferred
  end.

Definition infer_dims (pattern : string) (size : list (option Z))
  (dim_lengths : gmap string Z) : result (gmap string Z) :=
  infer_loop (findall pattern) size dim_lengths ∅.

(** [reduce(lambda x, y: x * y, seq)] without an initial value: a [TypeError]
    on the empty sequence. *)
Definition reduce_mul (l : list Z) : result Z :=
  match l with
  | [] => Err TypeError
  | x :: l' => Ok (fold_left Z.mul l' x)
  end.

Definition group_size (dim_lengths : gmap string Z) (dims : list string)
  : result (option Z) :=
  if forallb (fun d => bool_decide (is_Some (dim_lengths !! d))) dims
  then let* p := reduce_mul (omap (fun d => dim_lengths !! d) dims) in Ok (Some p)
  else Ok None.

Definition compute_size (pattern : string) (dim_lengths : gmap string Z)
  : result (list (option Z)) :=
  mapR (fun group => group_size dim_lengths (group_dims group)) (findall pattern).

(** ** Dense tensors *)

(** A tensor is its shape and its elements in row-major order. *)
Record tensor (A : Type) : Type := Tensor { shape : list nat; data : list A }.
Arguments Tensor {A} shape data.
Arguments shape {A} t.
Arguments data {A} t.

Definition numel (sh : list nat) : nat := fold_right Nat.mul 1%nat sh.

Definition wf_tensor {A : Type} (t : tensor A) : Prop :=
  length (data t) = numel (shape t).

(** Flat position of a multi-index, and back. *)
Fixpoint ravel (sh idx : list nat) : nat :=
  match sh, idx with
  | _ :: sh', i :: idx' => (i * numel sh' + ravel sh' idx')%nat
  | _, _ => 0%nat
  end.

Fixpoint unravel (sh : list nat) (k : nat) : list nat :=
  match sh with
  | [] => []
  | _ :: sh' => (k / numel sh')%nat :: unravel sh' (k mod numel sh')%nat
  end.

(** The output holds, at each of its [n] flat positions [k], the input element
    at flat position [src k]. *)
Definition gather {A : Type} (n : nat) (src : nat -> nat) (d : list A) : result (list A) :=
  mapR (fun k => match d !! src k with
                 | Some v => Ok v
                 | None => Err ShapeMismatchError
                 end) (seq 0 n).

(** *** [torch.roll] *)

Definition wrap_dim (rank : nat) (d : Z) : result nat :=
  if (- Z.of_nat rank <=? d) && (d <? Z.of_nat rank)
  then Ok (Z.to_nat (d mod Z.of_nat rank))
  else Err IndexError.

(** Rolling one axis: the element at position [i] comes from position
    [(i - shift) mod n]. *)
Definition roll_index (sh : list nat) (shift : Z) (dim : nat) (idx : list nat) : list nat :=
  let n := Z.of_nat (nth dim sh 0%nat) in
  let i := Z.of_nat (nth dim idx 0%nat) in
  <[dim := Z.to_nat ((i - shift) mod n)]> idx.

Definition roll1 {A : Type} (x : tensor A) (shift : Z) (dim : nat) : result (tensor A) :=
  let sh := shape x in
  let* d := gather (numel sh) (fun k => ravel sh (roll_index sh shift dim (unravel sh k))) (data x) in
  Ok (Tensor sh d).

Fixpoint roll_each {A : Type} (x : tensor A) (shifts dims : list Z) : result (tensor A) :=
  match shifts, dims with
  | [], [] => Ok x
  | s :: shifts', d :: dims' =>
      let* dim := wrap_dim (length (shape x)) d in
      let* x' := roll1 x s dim in
      roll_each x' shifts' dims'
  | _, _ => Err ShapeMismatchError
  end.

(** [torch.roll(x, shifts, dims)]; [dims = None] reaches the library as an
    empty list, where a single shift rolls the flattened tensor. *)
Definition roll {A : Type} (x : tensor A) (shifts : list Z) (dims : option (list Z))
  : result (tensor A) :=
  match shifts, default [] dims with
  | [], _ => Err ShapeMismatchError
  | [s], [] =>
      let* y := roll1 (Tensor [numel (shape x)] (data x)) s 0%nat in
      Ok (Tensor (shape x) (data y))
  | _, ds => roll_each x shifts ds
  end.

(** *** [torch.cat] along axis 0 and slicing of axis 0 *)

Definition cat {A : Type} (ts : list (tensor A)) : result (tensor A) :=
  match ts with
  | [] => Err ShapeMismatchError
  | t0 :: _ =>
      match shape t0 with
      | [] => Err ShapeMismatchError
      | _ :: tail =>
          if forallb (fun t => bool_decide (drop 1 (shape t) = tail)
                               && negb (bool_decide (shape t = []))) ts
          then Ok (Tensor (foldr (fun t n => (hd 0%nat (shape t) + n)%nat) 0%nat ts :: tail)
                          (concat (map data ts)))
          else Err ShapeMismatchError
      end
  end.

(** [x[start:stop]] on axis 0, the bounds being natural numbers here. *)
Definition slice0 {A : Type} (x : tensor A) (start stop : nat) : result (tensor A) :=
  match shape x with
  | [] => Err IndexError
  | b :: tail =>
      let lo := Nat.min start b in
      let hi := Nat.max lo (Nat.min stop b) in
      let row := numel tail in
      Ok (Tensor ((hi - lo)%nat :: tail)
                 (take ((hi - lo) * row)%nat (drop (lo * row)%nat (data x))))
  end.

(** ** The pattern layer behind [Rearrange]

    Modelled from the spec: the parser and the layer [Rearrange] of the einops
    library, which [Reshape] calls and which are not part of the source. A
    side of an equation is a space-separated list of tokens, a token being a
    bare identifier or a parenthesised, space-separated, non-empty list of
    identifiers; unbalanced parentheses, a name repeated on one side and
    sides naming different axes are rejected when the layer is built. *)

Definition is_identifier (w : list ascii) : bool :=
  match w with
  | [] => false
  | c :: _ =>
      forallb Str.is_word w && negb (Str.is_digit c)
      && negb (Str.is_underscore c) && negb (Str.is_underscore (List.last w c))
  end.

(** The inside of a pair of parentheses. *)
Definition parse_bracket (body : list ascii) : result (list string) :=
  if forallb (fun c => Str.is_word c || Str.is_blank c) body then
    match Str.split_ws body with
    | [] => Err MalformedEquationError
    | toks =>
        if forallb (fun t => is_identifier (Str.of_string t)) toks
        then Ok toks else Err MalformedEquationError
    end
  else Err MalformedEquationError.

Fixpoint parse_fuel (fuel : nat) (s : list ascii) : result (list (list string)) :=
  match s with
  | [] => Ok []
  | c :: r =>
      match fuel with
      | O => Err MalformedEquationError
      | S fuel' =>
          if Str.is_blank c then parse_fuel fuel' r
          else if Str.is_lparen c then
            let '(body, rest) := Str.span (fun c => negb (Str.is_rparen c)) r in
            match rest with
            | [] => Err MalformedEquationError
            | _ :: rest' =>
                let* g := parse_bracket body in
                let* gs := parse_fuel fuel' rest' in
                Ok (g :: gs)
            end
          else if Str.is_word c then
            let '(w, rest) := Str.span Str.is_word r in
            if is_identifier (c :: w)
            then let* gs := parse_fuel fuel' rest in Ok ([Str.to_string (c :: w)] :: gs)
            else Err MalformedEquationError
          else Err MalformedEquationError
      end
  end.

(** One side of an equation: its groups, no name twice. *)
Definition parse_side (s : list ascii) : result (list (list string)) :=
  let* gs := parse_fuel (length s) s in
  let* _ := guard (bool_decide (NoDup (concat gs))) MalformedEquationError in
  Ok gs.

Record Rearrange : Type := {
  re_left : list (list string);
  re_right : list (list string);
  re_lengths : gmap string Z
}.

(** The members of a group that have no length yet. *)
Definition unknown_axes (lengths : gmap string Z) (g : list string) : list string :=
  filter (fun d => lengths !! d = None) g.

Definition Rearrange_init (pattern : string) (axes_lengths : gmap string Z)
  : result Rearrange :=
  match Str.split_arrow (Str.of_string pattern) with
  | [l; r] =>
      let* lft := parse_side l in
      let* rgt := parse_side r in
      let* _ := guard (forallb (fun d => bool_decide (d ∈ concat rgt)) (concat lft)
                       && forallb (fun d => bool_decide (d ∈ concat lft)) (concat rgt))
                      MalformedEquationError in
      let* _ := guard (forallb (fun kv => is_identifier (Str.of_string (fst kv))
                                          && bool_decide (fst kv ∈ concat lft))
                               (map_to_list axes_lengths))
                      AxesLengthsError in
      let* _ := guard (forallb (fun g => Nat.leb (length (unknown_axes axes_lengths g)) 1) lft)
                      AxesLengthsError in
      Ok {| re_left := lft; re_right := rgt; re_lengths := axes_lengths |}
  | _ => Err ValueError
  end.

(** The lengths of all axes, from the hints and the shape of the tensor at
    hand: a group with every member known has to multiply to the axis it
    describes, a group with one unknown member has to divide it. *)
Definition resolve_group (lengths : gmap string Z) (g : list string) (len : nat)
  (env : gmap string Z) : result (gmap string Z) :=
  let kp := known_product g lengths in
  match unknown_axes lengths g with
  | [] => if kp =? Z.of_nat len then Ok env else Err ShapeMismatchError
  | u :: _ =>
      if kp =? 0 then Err ZeroDivisionError
      else if Z.of_nat len mod kp =? 0 then Ok (<[u := Z.of_nat len / kp]> env)
      else Err ShapeMismatchError
  end.

Fixpoint resolve_groups (lengths : gmap string Z) (gs : list (list string))
  (sh : list nat) (env : gmap string Z) : result (gmap string Z) :=
  match gs, sh with
  | [], [] => Ok env
  | g :: gs', len :: sh' =>
      let* env' := resolve_group lengths g len env in
      resolve_groups lengths gs' sh' env'
  | _, _ => Err ShapeMismatchError
  end.

Definition resolve_axes (r : Rearrange) (sh : list nat) : result (gmap string Z) :=
  let* env := resolve_groups (re_lengths r) (re_left r) sh (re_lengths r) in
  let* _ := guard (forallb (fun d => bool_decide (0 <= default (-1) (env !! d)))
                           (concat (re_left r)))
                  ShapeMismatchError in
  Ok env.

Definition axis_len (env : gmap string Z) (d : string) : nat :=
  Z.to_nat (default 0 (env !! d)).

(** The index an axis name carries, the names and indices being listed in
    the same order. *)
Fixpoint axis_index (names : list string) (idx : list nat) (d : string) : nat :=
  match names, idx with
  | m :: names', i :: idx' => if String.eqb m d then i else axis_index names' idx' d
  | _, _ => 0%nat
  end.

(** Split every axis into its members, carry each member axis to its place on
    the right, merge the groups of the right. *)
Definition rearrange_apply {A : Type} (r : Rearrange) (x : tensor A) : result (tensor A) :=
  let* env := resolve_axes r (shape x) in
  let names_in := concat (re_left r) in
  let names_out := concat (re_right r) in
  let sh_in := map (axis_len env) names_in in
  let sh_out := map (axis_len env) names_out in
  let* d := gather (numel sh_out)
              (fun k => ravel sh_in (map (axis_index names_out (unravel sh_out k)) names_in))
              (data x) in
  Ok (Tensor (map (fun g => numel (map (axis_len env) g)) (re_right r)) d).

(** A layer that is [nn.Identity] when no equation is given. *)
Definition layer_apply {A : Type} (l : option Rearrange) (x : tensor A) : result (tensor A) :=
  match l with
  | Some r => rearrange_apply r x
  | None => Ok x
  end.

(** ** [Reshape] *)

Record Reshape : Type := {
  input_size : list (option Z);
  rearrange : option Rearrange;         (* [None]: [nn.Identity] *)
  rearrange_inv : option Rearrange;
  output_size : list (option Z);
  dim_lengths : gmap string Z;
  shifts : option (list Z);             (* [None]: the attribute is not set *)
  shifts_inv : option (list Z);
  dims : option (list Z)
}.

Definition strip (s : list ascii) : string :=
  Str.to_string (Str.lstrip (Str.rstrip s)).

Definition Reshape_init (input_size : list (option Z)) (equation : option string)
  (shifts : option (list Z)) (dims : option (list Z)) (kwargs : gmap string Z)
  : result Reshape :=
  let shifts_inv := fmap (map Z.opp) shifts in
  let dims := match shifts with Some _ => dims | None => None end in
  match equation with
  | None =>
      Ok {| input_size := input_size; rearrange := None; rearrange_inv := None;
            output_size := input_size; dim_lengths := ∅;
            shifts := shifts; shifts_inv := shifts_inv; dims := dims |}
  | Some equation =>
      match Str.split_arrow (Str.of_string equation) with
      | [l; r] =>
          let lft := strip l in
          let rgt := strip r in
          let* rearrange := Rearrange_init equation kwargs in
          let* dim_lengths := infer_dims lft input_size kwargs in
          let* output_size := compute_size rgt dim_lengths in
          let equation_inv := rgt +:+ " -> " +:+ lft in
          let* rearrange_inv := Rearrange_init equation_inv dim_lengths in
          Ok {| input_size := input_size; rearrange := Some rearrange;
                rearrange_inv := Some rearrange_inv;
                output_size := output_size; dim_lengths := dim_lengths;
                shifts := shifts; shifts_inv := shifts_inv; dims := dims |}
      | _ => Err ValueError
      end
  end.

Definition forward {A : Type} (self : Reshape) (x : tensor A) : result (tensor A) :=
  let* x := match shifts self with
            | Some s => roll x s (dims self)
            | None => Ok x
            end in
  layer_apply (rearrange self) x.

Definition inverse_forward {A : Type} (self : Reshape) (x : tensor A) : result (tensor A) :=
  let* out := layer_apply (rearrange_inv self) x in
  match shifts_inv self with
  | Some s => roll out s (dims self)
  | None => Ok out
  end.

(** ** [Matricize] and [Tensorize] *)

(** [Union[int, Sequence[int], None]] arguments; the entries of a sequence
    may themselves be [None]. *)
Inductive size_arg : Type :=
  | SInt (z : Z)
  | SSeq (l : list (option Z)).

Inductive shift_arg : Type :=
  | ShInt (z : Z)
  | ShSeq (l : list Z).

(** [_ntuple(n)(x)]: an iterable is taken as it is, anything else repeated. *)
Definition to_ntuple (n : nat) (x : option size_arg) : list (option Z) :=
  match x with
  | None => repeat None n
  | Some (SInt z) => repeat (Some z) n
  | Some (SSeq l) => l
  end.

Definition shifts_to_ntuple (n : nat) (x : shift_arg) : list Z :=
  match x with
  | ShInt z => repeat z n
  | ShSeq l => l
  end.

(** [f"g{i}"] and the like. *)
Definition axis (prefix : string) (i : nat) : string := prefix +:+ Str.of_nat i.

Definition left_equation (spatial_dim : nat) : string :=
  "b (h d) " +:+
  Str.join_sp (map (fun i => "(" +:+ axis "g" i +:+ " " +:+ axis "p" i +:+ ")")
                   (seq 0 spatial_dim)).

Definition Matricize_equation (spatial_dim : nat) : string :=
  let right := "(b h) " in
  let right := right +:+ ("(" +:+ Str.join_sp (map (axis "g") (seq 0 spatial_dim)) +:+ ") ") in
  let right := right +:+ ("d (" +:+ Str.join_sp (map (axis "p") (seq 0 spatial_dim)) +:+ ")") in
  left_equation spatial_dim +:+ " -> " +:+ right.

(** The second assignment to [right] replaces the first. *)
Definition Tensorize_equation (spatial_dim : nat) : string :=
  let right := "(b h) " in
  let right := "(" +:+ Str.join_sp (map (axis "g") (seq 0 spatial_dim)) +:+ ") " in
  let right := right +:+ ("d " +:+ Str.join_sp (map (axis "p") (seq 0 spatial_dim))) in
  left_equation spatial_dim +:+ " -> " +:+ right.

(** [for j, v in enumerate(values): if v is not None: dims_lengths[f"{prefix}{j}"] = max(v, 1)] *)
Fixpoint set_axes (prefix : string) (j : nat) (values : list (option Z))
  (dims_lengths : gmap string Z) : gmap string Z :=
  match values with
  | [] => dims_lengths
  | v :: values' =>
      set_axes prefix (S j) values'
        match v with
        | Some v => <[axis prefix j := Z.max v 1]> dims_lengths
        | None => dims_lengths
        end
  end.

Definition window_dims_lengths (spatial_dim : nat) (num_heads head_dim : option Z)
  (grid_size patch_size : option size_arg) : gmap string Z :=
  let dims_lengths := ∅ in
  let dims_lengths := match num_heads with
                      | Some n => <["h" := Z.max n 1]> dims_lengths
                      | None => dims_lengths
                      end in
  let dims_lengths := match head_dim with
                      | Some n => <["d" := Z.max n 1]> dims_lengths
                      | None => dims_lengths
                      end in
  let dims_lengths := set_axes "g" 0 (to_ntuple spatial_dim grid_size) dims_lengths in
  set_axes "p" 0 (to_ntuple spatial_dim patch_size) dims_lengths.

(** [f(..., **dims_lengths, **kwargs)]: a name given twice is a [TypeError],
    as is one that [Reshape.__init__] already receives by keyword. ([kwargs]
    is what the caller gave beside the parameters of the constructor, so in a
    call of the code it never holds [shifts] or another of their names.) *)
Definition merge_kwargs (dims_lengths kwargs : gmap string Z) : result (gmap string Z) :=
  if forallb (fun kv => bool_decide (dims_lengths !! fst kv = None)
                        && negb (bool_decide (fst kv ∈ ["equation"; "shifts"; "dims"])))
             (map_to_list kwargs)
  then Ok (dims_lengths ∪ kwargs)
  else Err TypeError.

(** What the two constructors share from the assertions on. *)
Definition window_init (equation : nat -> string) (input_size : list (option Z))
  (num_heads head_dim : option Z) (grid_size patch_size : option size_arg)
  (shifts : option shift_arg) (kwargs : gmap string Z) : result Reshape :=
  let* _ := guard (negb (bool_decide (num_heads = None /\ head_dim = None)))
                  ConfigurationError in
  let* _ := guard (negb (bool_decide (grid_size = None /\ patch_size = None)))
                  ConfigurationError in
  let spatial_dim := (length input_size - 2)%nat in
  let dims_lengths := window_dims_lengths spatial_dim num_heads head_dim grid_size patch_size in
  let dims := match shifts with
              | Some _ => Some (map (fun j => Z.of_nat j + 2) (seq 0 spatial_dim))
              | None => None
              end in
  let shifts := fmap (shifts_to_ntuple spatial_dim) shifts in
  let* kw := merge_kwargs dims_lengths kwargs in
  Reshape_init input_size (Some (equation spatial_dim)) shifts dims kw.

Definition Matricize_init := window_init Matricize_equation.
Definition Tensorize_init := window_init Tensorize_equation.

(** ** Element arithmetic *)

(** The elements of a tensor and the operations the module applies to them:
    the Python float [0.0], [+], [*] and division by an [int]. No law is
    assumed of them. *)
Class Scalar (A : Type) : Type := {
  zero : A;
  add : A -> A -> A;
  mul : A -> A -> A;
  div_int : A -> Z -> A
}.

(** ** [SWMatricize] and [SWTensorize] *)

Record ShiftedWindows : Type := {
  shifted_windows : list Reshape;
  sw_output_size : list (option Z)
}.

Definition window_ctor : Type :=
  list (option Z) -> option Z -> option Z -> option size_arg -> option size_arg ->
  option shift_arg -> gmap string Z -> result Reshape.

(** [[None, tuple(s // 2 for s in patch_size)]] *)
Definition default_shifts (patch_size : list (option Z)) : result (list (option shift_arg)) :=
  let* halves := mapR (fun s => match s with
                                | Some s => Ok (s / 2)
                                | None => Err TypeError
                                end) patch_size in
  Ok [None; Some (ShSeq halves)].

Definition SW_init (ctor : window_ctor) (input_size : list (option Z))
  (num_heads head_dim : option Z) (grid_size patch_size : option size_arg)
  (shifts : option (list (option shift_arg))) (kwargs : gmap string Z)
  : result ShiftedWindows :=
  let spatial_dim := (length input_size - 2)%nat in
  let patch_size := to_ntuple spatial_dim patch_size in
  let grid_size := to_ntuple spatial_dim grid_size in
  let* shifts := match shifts with
                 | Some l => Ok l
                 | None => default_shifts patch_size
                 end in
  let* windows := mapR (fun s => ctor input_size num_heads head_dim
                                   (Some (SSeq grid_size)) (Some (SSeq patch_size)) s kwargs)
                       shifts in
  match windows with
  | [] => Err IndexError
  | w :: _ => Ok {| shifted_windows := windows; sw_output_size := output_size w |}
  end.

Definition SWMatricize_init := SW_init Matricize_init.
Definition SWTensorize_init := SW_init Tensorize_init.

Definition SW_forward {A : Type} (self : ShiftedWindows) (x : tensor A) : result (tensor A) :=
  let* out := mapR (fun shifted_window => forward shifted_window x) (shifted_windows self) in
  cat out.

Section Averaging.
Context {A : Type} `{Scalar A}.

(** [out + t], where [out] is still the float [0.0] ([None]) or already a
    tensor. The variants of one wrapper return equal shapes; broadcasting
    between unequal shapes is not modelled and is an error here. *)
Definition accumulate (out : option (tensor A)) (t : tensor A) : result (tensor A) :=
  match out with
  | None => Ok (Tensor (shape t) (map (add zero) (data t)))
  | Some o =>
      if bool_decide (shape o = shape t)
      then Ok (Tensor (shape o) (zip_with add (data o) (data t)))
      else Err ShapeMismatchError
  end.

(** The body of [for j in range(num_shifts)], from variant [j] on. *)
Fixpoint inverse_loop (windows : list Reshape) (j b num_shifts : nat)
  (x : tensor A) (out : option (tensor A)) : result (option (tensor A)) :=
  match windows with
  | [] => Ok out
  | w :: windows' =>
      let* z := slice0 x (j * (b / num_shifts))%nat ((j + 1) * (b / num_shifts))%nat in
      let* t := inverse_forward w z in
      let* out' := accumulate out t in
      inverse_loop windows' (S j) b num_shifts x (Some out')
  end.

Definition SW_inverse_forward (self : ShiftedWindows) (x : tensor A) : result (tensor A) :=
  match shape x with
  | [] => Err IndexError
  | b :: _ =>
      let num_shifts := length (shifted_windows self) in
      let* out := inverse_loop (shifted_windows self) 0 b num_shifts x None in
      match out with
      | None => Err ZeroDivisionError
      | Some out =>
          Ok (Tensor (shape out) (map (fun v => div_int v (Z.of_nat num_shifts)) (data out)))
      end
  end.

(** ** [cp] and [khatri_rao]

    Both functions write a contraction in the interleaved form of
    [oe.contract]: each operand followed by the names of its legs, then the
    legs of the output. The opt_einsum library is not part of the source; the
    spec gives its result as the direct nested sum, and [contract] is that
    sum for any operands and legs. Rounding under another order of
    contraction is outside the model: no law is assumed of the arithmetic. *)

Definition tget (t : tensor A) (idx : list nat) : A :=
  nth (ravel (shape t) idx) (data t) zero.

Definition tabulate (sh : list nat) (f : list nat -> A) : tensor A :=
  Tensor sh (map (fun k => f (unravel sh k)) (seq 0 (numel sh))).

(** An operand and the names of its legs. *)
Definition operand : Type := tensor A * list string.

(** The extents the operands give the legs: an operand has a leg for each
    of its axes, and a leg met again has the extent it had. *)
Fixpoint bind_legs (legs : list string) (sh : list nat) (sizes : gmap string nat)
  : result (gmap string nat) :=
  match legs, sh with
  | [], [] => Ok sizes
  | l :: legs', n :: sh' =>
      match sizes !! l with
      | Some n' => if Nat.eqb n n' then bind_legs legs' sh' sizes else Err ValueError
      | None => bind_legs legs' sh' (<[l := n]> sizes)
      end
  | _, _ => Err ValueError
  end.

Fixpoint leg_sizes (operands : list operand) (sizes : gmap string nat)
  : result (gmap string nat) :=
  match operands with
  | [] => Ok sizes
  | (u, legs) :: operands' =>
      let* sizes := bind_legs legs (shape u) sizes in
      leg_sizes operands' sizes
  end.

(** The entry of an operand at the positions [env] gives its legs. *)
Definition operand_entry (env : gmap string nat) (op : operand) : A :=
  tget (fst op) (map (fun l => default 0%nat (env !! l)) (snd op)).

(** The product of the entries of the operands, in their order. *)
Fixpoint entry_product (env : gmap string nat) (operands : list operand) : A :=
  match operands with
  | [] => zero
  | [op] => operand_entry env op
  | op :: operands' => mul (operand_entry env op) (entry_product env operands')
  end.

(** [oe.contract(u0, legs0, u1, legs1, ..., out_legs)]: the entry of the
    output at an assignment of [out_legs] is the product of the entries of the
    operands, summed over the assignments of the legs that are not in
    [out_legs], in row-major order; with no such leg it is the product itself.
    No operand, an output leg named twice or carried by no operand, an
    operand with another number of legs than axes, and operands that disagree
    on the extent of a leg are errors (an extent of 1 is not broadcast here). *)
Definition contract (operands : list operand) (out_legs : list string) : result (tensor A) :=
  match operands with
  | [] => Err ValueError
  | _ :: _ =>
      let* _ := guard (bool_decide (NoDup out_legs)) ValueError in
      let* sizes := leg_sizes operands ∅ in
      let* out_shape := mapR (fun l => match sizes !! l with
                                       | Some n => Ok n
                                       | None => Err ValueError
                                       end) out_legs in
      let summed := remove_dups (filter (fun l => l ∉ out_legs) (concat (map snd operands))) in
      let sum_shape := map (fun l => default 0%nat (sizes !! l)) summed in
      Ok (tabulate out_shape
            (fun idx =>
               match summed with
               | [] => entry_product (list_to_map (zip out_legs idx)) operands
               | _ :: _ =>
                   fold_left
                     (fun acc k =>
                        add acc (entry_product
                                   (list_to_map (zip (out_legs ++ summed)
                                                     (idx ++ unravel sum_shape k)))
                                   operands))
                     (seq 0 (numel sum_shape)) zero
               end))
  end.

(** The loop [for m, u in enumerate(factor_matrices)] of both functions:
    [args] gets each matrix with its legs [b i{m} r], [legs] the leg [i{m}]. *)
Definition contraction_args (factor_matrices : list (tensor A))
  : list operand * list string :=
  fold_left (fun '(args, legs) '(m, u) =>
               (args ++ [(u, ["b"; axis "i" m; "r"])], legs ++ [axis "i" m]))
            (zip (seq 0 (length factor_matrices)) factor_matrices)
            ([], ["b"]).

Definition cp (factor_matrices : list (tensor A)) : result (tensor A) :=
  let '(args, legs) := contraction_args factor_matrices in
  contract args legs.

(** [torch.flatten(out, start_dim=1, end_dim=-2)] on a tensor of rank at
    least 3: the elements stay, the middle axes merge. *)
Definition flatten_middle (t : tensor A) : tensor A :=
  match shape t with
  | b :: rest =>
      Tensor [b; numel (removelast rest); List.last rest 1%nat] (data t)
  | [] => t
  end.

Definition khatri_rao (factor_matrices : list (tensor A)) : result (tensor A) :=
  let '(args, legs) := contraction_args factor_matrices in
  let legs := legs ++ ["r"] in
  let* out := contract args legs in
  Ok (flatten_middle out).

(** *** The nested sum of the spec

    What the spec asks of the two functions, in its own words: for each rank
    column the outer product of the per-axis vectors, that is the product
    over the factor matrices of [u_m[b, i_m, r]], and for [cp] its sum over
    the rank. Neither function is defined through them. *)
Fixpoint spec_outer_product (factor_matrices : list (tensor A)) (b : nat) (idx : list nat)
  (r : nat) : A :=
  match factor_matrices, idx with
  | [u], i :: _ => tget u [b; i; r]
  | u :: us, i :: idx' => mul (tget u [b; i; r]) (spec_outer_product us b idx' r)
  | _, _ => zero
  end.

Definition spec_rank_sum (rank : nat) (f : nat -> A) : A :=
  fold_left (fun acc r => add acc (f r)) (seq 0 rank) zero.

End Averaging.

(** ** [t]

    [x.transpose(-2, -1)]: the last two axes change places; a tensor with
    fewer than two axes has no such pair, an [IndexError]. *)

(** A list with its last two entries exchanged. *)
Definition swap_last2 {T : Type} (l : list T) : option (list T) :=
  match rev l with
  | a :: b :: r => Some (rev r ++ [a; b])
  | _ => None
  end.

Definition t {A : Type} (x : tensor A) : result (tensor A) :=
  match swap_last2 (shape x) with
  | None => Err IndexError
  | Some sh =>
      let* d := gather (numel sh)
                  (fun k => ravel (shape x) (default [] (swap_last2 (unravel sh k))))
                  (data x) in
      Ok (Tensor sh d)
  end.

(** ** Vocabulary of the statements *)

(** *** Exceptions and constructors *)

(** [raises_only P m]: if [m] is an exception, it is one of [P]. *)
Definition raises_only {T : Type} (P : error -> Prop) (m : result T) : Prop :=
  forall e, m = Err e -> P e.

Definition not_configuration (e : error) : Prop := e <> ConfigurationError.

(** The guard of the two constructors, as a proposition. *)
Definition pair_missing (num_heads head_dim : option Z)
  (grid_size patch_size : option size_arg) : Prop :=
  (num_heads = None /\ head_dim = None) \/ (grid_size = None /\ patch_size = None).

(** The output shape a constructor settles on, when it returns. *)
Definition built_output_size (m : result Reshape) : result (list (option Z)) :=
  let* r := m in Ok (output_size r).

(** A value that is not positive, taken to one: the clamping, in the words of
    the specification, that [max(value, 1)] is to perform. *)
Definition to_one (v : Z) : Z := if v <=? 0 then 1 else v.

Definition size_to_one (x : option size_arg) : option size_arg :=
  match x with
  | None => None
  | Some (SInt z) => Some (SInt (to_one z))
  | Some (SSeq l) => Some (SSeq (map (fmap to_one) l))
  end.

(** The lengths [lengths] have 1 for every axis whose value is not
    positive: [h] for the heads, [d] for the head dimension, [g{i}] and
    [p{i}] for the entries of the grid and of the patch sizes. *)
Definition hints_clamped (n : nat) (num_heads head_dim : option Z)
  (grid_size patch_size : option size_arg) (lengths : gmap string Z) : Prop :=
  (forall v, num_heads = Some v -> v <= 0 -> lengths !! "h" = Some 1)
  /\ (forall v, head_dim = Some v -> v <= 0 -> lengths !! "d" = Some 1)
  /\ (forall i v, to_ntuple n grid_size !! i = Some (Some v) -> v <= 0 ->
                  lengths !! axis "g" i = Some 1)
  /\ (forall i v, to_ntuple n patch_size !! i = Some (Some v) -> v <= 0 ->
                  lengths !! axis "p" i = Some 1).

(** *** Patterns *)

(** What the parser accepts, one rule per branch of [parse_fuel]. *)
Inductive parses : list ascii -> list (list string) -> Prop :=
  | parses_nil : parses [] []
  | parses_blank c s gs :
      Str.is_blank c = true -> parses s gs -> parses (c :: s) gs
  | parses_bracket c r body c' rest g gs :
      Str.is_blank c = false -> Str.is_lparen c = true ->
      Str.span (fun c => negb (Str.is_rparen c)) r = (body, c' :: rest) ->
      parse_bracket body = Ok g -> parses rest gs ->
      parses (c :: r) (g :: gs)
  | parses_word c r w rest gs :
      Str.is_blank c = false -> Str.is_lparen c = false -> Str.is_word c = true ->
      Str.span Str.is_word r = (w, rest) ->
      is_identifier (c :: w) = true -> parses rest gs ->
      parses (c :: r) ([Str.to_string (c :: w)] :: gs).

(** The checks [Rearrange] makes when it is built. *)
Record well_formed (r : Rearrange) : Prop := {
  wf_left_nodup : NoDup (concat (re_left r));
  wf_right_nodup : NoDup (concat (re_right r));
  wf_left_right : forall d, d ∈ concat (re_left r) -> d ∈ concat (re_right r);
  wf_right_left : forall d, d ∈ concat (re_right r) -> d ∈ concat (re_left r);
  wf_hints : forall d v, re_lengths r !! d = Some v -> d ∈ concat (re_left r);
  wf_unknowns : Forall (fun g => (length (unknown_axes (re_lengths r) g) <= 1)%nat)
                       (re_left r)
}.

(** Every character of [s] passes [p]. *)
Definition all_chars (p : ascii -> bool) (s : string) : bool :=
  forallb p (Str.of_string s).

(** The right sides the two constructors write. *)
Definition Matricize_right (spatial_dim : nat) : string :=
  ("(b h) " +:+ ("(" +:+ Str.join_sp (map (axis "g") (seq 0 spatial_dim)) +:+ ") "))
  +:+ ("d (" +:+ Str.join_sp (map (axis "p") (seq 0 spatial_dim)) +:+ ")").

Definition Tensorize_right (spatial_dim : nat) : string :=
  ("(" +:+ Str.join_sp (map (axis "g") (seq 0 spatial_dim)) +:+ ") ")
  +:+ ("d " +:+ Str.join_sp (map (axis "p") (seq 0 spatial_dim))).

(** Predicates that hold of the digits, of the blank, of the parentheses and
    of the letters the constructors use, [b] and [h] apart. *)
Record plain (p : ascii -> bool) : Prop := {
  plain_digit : forall c, Str.is_digit c = true -> p c = true;
  plain_blank : p " "%char = true;
  plain_open : p "("%char = true;
  plain_close : p ")"%char = true;
  plain_d : p "d"%char = true;
  plain_g : p "g"%char = true;
  plain_p : p "p"%char = true
}.

Definition no_dash (c : ascii) : bool := negb (Str.is_char 45%nat c).
Definition not_b (c : ascii) : bool := negb (Str.is_char 98%nat c).


(** *** Axis lengths *)

(** The product of a list of lengths. *)
Definition zprod (l : list Z) : Z := foldr Z.mul 1 l.

(** The length an environment gives an axis. *)
Definition extent (env : gmap string Z) (d : string) : Z := default 0 (env !! d).

(** What resolving the group [g] against an axis of length [len] means: the
    hinted members multiply to it, or divide it with the quotient going to
    the member without a hint. *)
Definition resolved (lengths env : gmap string Z) (g : list string) (len : nat) : Prop :=
  match unknown_axes lengths g with
  | [] => known_product g lengths = Z.of_nat len
  | u :: _ =>
      known_product g lengths <> 0
      /\ Z.of_nat len mod known_product g lengths = 0
      /\ env !! u = Some (Z.of_nat len / known_product g lengths)
  end.

(** [sub] holds no entry that [env] does not hold. *)
Definition included (sub env : gmap string Z) : Prop :=
  forall d v, sub !! d = Some v -> env !! d = Some v.

(** Every entry of [m] is a positive length of the environment [env]. *)
Definition sound (env m : gmap string Z) : Prop :=
  forall d v, m !! d = Some v -> env !! d = Some v /\ 0 < v.

(** The known entries of an input size are those of the shape, and positive. *)
Definition consistent (input_size : list (option Z)) (sh : list nat) : Prop :=
  Forall2 (fun s n => forall v, s = Some v -> v = Z.of_nat n /\ 0 < v) input_size sh.

(** *** Indices and shifts *)

(** [idx] is a multi-index of the shape [sh]. *)
Abbreviation in_bounds idx sh := (Forall2 lt idx sh).

(** A multi-index moved back by [delta], axis by axis and around the end. *)
Fixpoint shift_index (sh : list nat) (delta : list Z) (idx : list nat) : list nat :=
  match sh, delta, idx with
  | n :: sh', s :: delta', i :: idx' =>
      Z.to_nat ((Z.of_nat i - s) mod Z.of_nat n) :: shift_index sh' delta' idx'
  | _, _, _ => []
  end.

(** The offset [s] on axis [dim] and none elsewhere. *)
Definition unit_shift (rank dim : nat) (s : Z) : list Z := <[dim := s]> (replicate rank 0).

(** [x'] holds at every multi-index the element of [x] found [delta] back. *)
Definition pulled {A : Type} (sh : list nat) (delta : list Z) (x x' : tensor A) : Prop :=
  shape x = sh /\ shape x' = sh /\ length (data x') = numel sh
  /\ forall k, (k < numel sh)%nat ->
       data x' !! k = data x !! ravel sh (shift_index sh delta (unravel sh k)).

(** *** Shifted windows *)

(** The extent of axis 0, the batch axis. *)
Definition batch {A : Type} (t : tensor A) : nat := hd 0%nat (shape t).

Definition sum_batches {A : Type} (ts : list (tensor A)) : nat :=
  foldr (fun t n => (batch t + n)%nat) 0%nat ts.

(** Tensors of rank at least one that agree beyond axis 0. *)
Definition stackable {A : Type} (tail : list nat) (ts : list (tensor A)) : Prop :=
  Forall (fun t => shape t = batch t :: tail) ts.

(** Rows [j*c, (j+1)*c) of axis 0: the chunk of variant [j]. *)
Definition chunk {A : Type} (x : tensor A) (j c : nat) : tensor A :=
  let row := numel (tl (shape x)) in
  Tensor (c :: tl (shape x)) (take (c * row)%nat (drop (j * c * row)%nat (data x))).

(** The first [n] rows of axis 0. *)
Definition leading_rows {A : Type} (x : tensor A) (n : nat) : tensor A :=
  Tensor (n :: tl (shape x)) (take (n * numel (tl (shape x)))%nat (data x)).

(** The elements at flat position [i] of a list of tensors, if all have one. *)
Fixpoint column {A : Type} (ts : list (tensor A)) (i : nat) : option (list A) :=
  match ts with
  | [] => Some []
  | t :: ts' =>
      match data t !! i, column ts' i with
      | Some v, Some vs => Some (v :: vs)
      | _, _ => None
      end
  end.

(** The inverse of variant [j] applied to chunk [j], for every variant. *)
Definition inverted_chunks {A : Type} (windows : list Reshape) (x : tensor A) (c : nat)
  (first : nat) (ts : list (tensor A)) : Prop :=
  Forall2 (fun jw t => inverse_forward (snd jw) (chunk x (fst jw) c) = Ok t)
          (zip (seq first (length windows)) windows) ts.

(** The sum, from [0.0] on and in variant order, divided by the number of
    variants. *)
Definition averaged `{Scalar A} (col : list A) (num : nat) : A :=
  div_int (fold_left add col zero) (Z.of_nat num).

(** What [out] holds after the inverted chunks [prev] have been added. *)
Definition summed `{Scalar A} (prev : list (tensor A)) (out : option (tensor A)) : Prop :=
  match out with
  | None => prev = []
  | Some o =>
      prev <> []
      /\ Forall (fun t => shape t = shape o) prev
      /\ forall i, data o !! i = (fun col => fold_left add col zero) <$> column prev i
  end.

(** *** The lengths [Matricize] settles on *)

(** The length of one member of a group of two, the extent of the group
    being [s]: the caller's value taken to 1 where it is smaller, or else
    the floor quotient of [s] by the length of the other member. *)
Definition settled_length (own other : option Z) (s : Z) : Z :=
  match own with
  | Some v => Z.max v 1
  | None => s / match other with Some w => Z.max w 1 | None => 1 end
  end.

(** *** The inputs of the examples *)

(** Integer elements, for the examples. [Z.div] stands for the division of
    [out / num_shifts] only where it is exact: an example that states
    elements divides sums that are multiples of the number of variants. *)
Definition Z_scalar : Scalar Z :=
  {| zero := 0; add := Z.add; mul := Z.mul; div_int := Z.div |}.
#[global] Existing Instance Z_scalar.

(** The shifted-window wrapper of the examples: two heads, patches of two by
    two, the default pair of shifts. *)
Definition two_head_windows : ShiftedWindows :=
  match SWMatricize_init [Some 1; Some 2; Some 2; Some 2] (Some 2) None
          None (Some (SInt 2)) None ∅ with
  | Ok sw => sw
  | Err _ => {| shifted_windows := []; sw_output_size := [] |}
  end.

(** The same with a single head. *)
Definition one_head_windows : ShiftedWindows :=
  match SWMatricize_init [Some 1; Some 1; Some 2; Some 2] (Some 1) None
          None (Some (SInt 2)) None ∅ with
  | Ok sw => sw
  | Err _ => {| shifted_windows := []; sw_output_size := [] |}
  end.

(** A transform with a shift, and what it makes of a tensor, for the examples. *)
Definition shifted_reshape : Reshape :=
  match Reshape_init [Some 2; Some 6] (Some "a (b c) -> (c a) b") (Some [1; -1])
          (Some [1; 0]) (<["b" := 2]> ∅) with
  | Ok self => self
  | Err _ => {| input_size := []; rearrange := None; rearrange_inv := None;
                output_size := []; dim_lengths := ∅;
                shifts := None; shifts_inv := None; dims := None |}
  end.

Definition shifted_input : tensor Z :=
  Tensor [2; 6]%nat [1; 2; 3; 4; 5; 6; 7; 8; 9; 10; 11; 12].

Definition shifted_output : tensor Z :=
  match forward shifted_reshape shifted_input with
  | Ok y => y
  | Err _ => shifted_input
  end.

(** One transform of two heads, patches of two by two and a shift of one. *)
Definition two_head_matricize : Reshape :=
  match Matricize_init [Some 1; Some 2; Some 2; Some 2] (Some 2) None
          None (Some (SInt 2)) (Some (ShInt 1)) ∅ with
  | Ok self => self
  | Err _ => shifted_reshape
  end.

(** * Properties *)

(** ** The error monad *)

Lemma bind_Ok {T U : Type} (m : result T) (k : T -> result U) (y : U) :
  bind m k = Ok y -> exists x, m = Ok x /\ k x = Ok y.
Proof. destruct m as [x|e]; simpl; [eauto | discriminate]. Qed.

Lemma bind_Err {T U : Type} (m : result T) (k : T -> result U) (e : error) :
  bind m k = Err e -> m = Err e \/ exists x, m = Ok x /\ k x = Err e.
Proof. destruct m as [x|e']; simpl; [eauto | intros [= ->]; auto]. Qed.

Lemma guard_Ok (b : bool) (e : error) (u : unit) : guard b e = Ok u -> b = true.
Proof. destruct b; [reflexivity | discriminate]. Qed.

Lemma guard_Err (b : bool) (e e' : error) : guard b e = Err e' -> e' = e /\ b = false.
Proof. destruct b; simpl; [discriminate | intros [= ->]; auto]. Qed.

Lemma mapR_Err {T U : Type} (f : T -> result U) (l : list T) (e : error) :
  mapR f l = Err e -> exists x, x ∈ l /\ f x = Err e.
Proof.
  induction l as [|x l IH]; simpl; [discriminate |].
  intros Hb. apply bind_Err in Hb as [Hx | (y & _ & Hb)].
  - exists x. split; [left | exact Hx].
  - apply bind_Err in Hb as [Hl | (ys & _ & Hb)]; [| discriminate].
    destruct (IH Hl) as (z & Hz & Hfz). exists z. split; [right; exact Hz | exact Hfz].
Qed.

Lemma mapR_Ok {T U : Type} (f : T -> result U) (l : list T) (ys : list U) :
  mapR f l = Ok ys -> Forall2 (fun x y => f x = Ok y) l ys.
Proof.
  revert ys. induction l as [|x l IH]; simpl; intros ys.
  - intros [= <-]. constructor.
  - intros Hb. apply bind_Ok in Hb as (y & Hy & Hb).
    apply bind_Ok in Hb as (ys' & Hys & [= <-]).
    constructor; [exact Hy | apply IH, Hys].
Qed.

Lemma Forall2_mapR {T U : Type} (f : T -> result U) (l : list T) (ys : list U) :
  Forall2 (fun x y => f x = Ok y) l ys -> mapR f l = Ok ys.
Proof.
  induction 1 as [|x y l ys Hxy _ IH]; simpl; [reflexivity |].
  rewrite Hxy. simpl. rewrite IH. reflexivity.
Qed.

(** ** Which exceptions a constructor can raise *)


Lemma raises_only_Ok {T : Type} (P : error -> Prop) (x : T) : raises_only P (Ok x).
Proof. intros e; discriminate. Qed.

Lemma raises_only_Err {T : Type} (P : error -> Prop) (e : error) :
  P e -> raises_only P (@Err T e).
Proof. intros HP e' [= <-]. exact HP. Qed.

Lemma raises_only_bind {T U : Type} (P : error -> Prop) (m : result T) (k : T -> result U) :
  raises_only P m -> (forall x, raises_only P (k x)) -> raises_only P (bind m k).
Proof.
  intros Hm Hk e Hb. apply bind_Err in Hb as [He | (x & _ & He)].
  - apply Hm, He.
  - apply (Hk x), He.
Qed.

Lemma raises_only_guard (P : error -> Prop) (b : bool) (e : error) :
  P e -> raises_only P (guard b e).
Proof. intros HP e' He. apply guard_Err in He as [-> _]. exact HP. Qed.

Lemma raises_only_mapR {T U : Type} (P : error -> Prop) (f : T -> result U) (l : list T) :
  (forall x, raises_only P (f x)) -> raises_only P (mapR f l).
Proof.
  intros Hf e He. apply mapR_Err in He as (x & _ & He). apply (Hf x), He.
Qed.


Ltac raises_only_step :=
  first
    [ apply raises_only_Ok
    | apply raises_only_Err; discriminate
    | apply raises_only_guard; discriminate
    | apply raises_only_bind; [| intros ?]
    | apply raises_only_mapR; intros ? ].

Lemma parse_fuel_raises (fuel : nat) (s : list ascii) :
  raises_only not_configuration (parse_fuel fuel s).
Proof.
  revert s. induction fuel as [|fuel IH]; intros [|c r]; cbn [parse_fuel];
    try (apply raises_only_Ok); try (apply raises_only_Err; discriminate).
  destruct (Str.is_blank c); [apply IH |].
  destruct (Str.is_lparen c).
  - destruct (Str.span _ r) as [body [|c' rest]];
      [apply raises_only_Err; discriminate |].
    apply raises_only_bind.
    + unfold parse_bracket. destruct (forallb _ body);
        [| apply raises_only_Err; discriminate].
      destruct (Str.split_ws body); [apply raises_only_Err; discriminate |].
      destruct (forallb _ _); [apply raises_only_Ok | apply raises_only_Err; discriminate].
    + intros g. apply raises_only_bind; [apply IH | intros gs; apply raises_only_Ok].
  - destruct (Str.is_word c); [| apply raises_only_Err; discriminate].
    destruct (Str.span _ r) as [w rest].
    destruct (is_identifier (c :: w)); [| apply raises_only_Err; discriminate].
    apply raises_only_bind; [apply IH | intros gs; apply raises_only_Ok].
Qed.

Lemma parse_side_raises (s : list ascii) : raises_only not_configuration (parse_side s).
Proof.
  unfold parse_side. apply raises_only_bind; [apply parse_fuel_raises | intros gs].
  repeat raises_only_step.
Qed.

Lemma Rearrange_init_raises (pattern : string) (axes_lengths : gmap string Z) :
  raises_only not_configuration (Rearrange_init pattern axes_lengths).
Proof.
  unfold Rearrange_init.
  destruct (Str.split_arrow _) as [|l [|r [|? ?]]];
    try (apply raises_only_Err; discriminate).
  apply raises_only_bind; [apply parse_side_raises | intros lft].
  apply raises_only_bind; [apply parse_side_raises | intros rgt].
  repeat raises_only_step.
Qed.

Lemma infer_loop_raises groups size (dl inferred : gmap string Z) :
  raises_only not_configuration (infer_loop groups size dl inferred).
Proof.
  revert size inferred. induction groups as [|g groups IH]; intros [|[s|] size] inferred;
    simpl; try (apply raises_only_Ok); try (apply IH).
  destruct (_ <? _); [apply IH |].
  destruct (_ =? _); [apply raises_only_Err; discriminate | apply IH].
Qed.

Lemma compute_size_raises pattern (dl : gmap string Z) :
  raises_only not_configuration (compute_size pattern dl).
Proof.
  unfold compute_size. apply raises_only_mapR. intros g. unfold group_size.
  destruct (forallb _ _); [| apply raises_only_Ok].
  apply raises_only_bind; [| intros p; apply raises_only_Ok].
  unfold reduce_mul. destruct (omap _ _);
    [apply raises_only_Err; discriminate | apply raises_only_Ok].
Qed.

Lemma Reshape_init_raises input_size equation shifts dims (kwargs : gmap string Z) :
  raises_only not_configuration (Reshape_init input_size equation shifts dims kwargs).
Proof.
  unfold Reshape_init. destruct equation as [eq|]; [| apply raises_only_Ok].
  destruct (Str.split_arrow _) as [|l [|r [|? ?]]];
    try (apply raises_only_Err; discriminate).
  apply raises_only_bind; [apply Rearrange_init_raises | intros re].
  apply raises_only_bind; [apply infer_loop_raises | intros dl].
  apply raises_only_bind; [apply compute_size_raises | intros os].
  apply raises_only_bind; [apply Rearrange_init_raises | intros re'].
  apply raises_only_Ok.
Qed.

Lemma merge_kwargs_raises (dl kwargs : gmap string Z) :
  raises_only not_configuration (merge_kwargs dl kwargs).
Proof.
  unfold merge_kwargs. destruct (forallb _ _);
    [apply raises_only_Ok | apply raises_only_Err; discriminate].
Qed.


Lemma window_init_configuration equation input_size num_heads head_dim
  grid_size patch_size shifts (kwargs : gmap string Z) :
  window_init equation input_size num_heads head_dim grid_size patch_size shifts kwargs
    = Err ConfigurationError
  <-> pair_missing num_heads head_dim grid_size patch_size.
Proof.
  unfold window_init, pair_missing. split.
  - intros He. apply bind_Err in He as [He | (u & _ & He)].
    { apply guard_Err in He as [_ Hb]. apply negb_false_iff, bool_decide_eq_true in Hb.
      left. exact Hb. }
    apply bind_Err in He as [He | (u' & _ & He)].
    { apply guard_Err in He as [_ Hb]. apply negb_false_iff, bool_decide_eq_true in Hb.
      right. exact Hb. }
    exfalso.
    exact (raises_only_bind not_configuration _ _ (merge_kwargs_raises _ _)
             (fun kw => Reshape_init_raises _ _ _ _ kw) _ He eq_refl).
  - intros [Hn | Hg].
    + rewrite (bool_decide_eq_true_2 _ Hn). reflexivity.
    + destruct (bool_decide (num_heads = None /\ head_dim = None)); [reflexivity |].
      simpl. rewrite (bool_decide_eq_true_2 _ Hg). reflexivity.
Qed.

(** ** Construction: the guard, the clamping, the end-to-end shapes *)

(** C8 (as amended). Matricize and Tensorize construction fails with a
    ConfigurationError exactly when neither of numHeads / headDim, or neither
    of gridSize / patchSize, is supplied; supplying both members of a pair
    passes the guard. *)
Theorem constructors_require_one_of_each_pair input_size num_heads head_dim
  grid_size patch_size shifts (kwargs : gmap string Z) :
  (Matricize_init input_size num_heads head_dim grid_size patch_size shifts kwargs
     = Err ConfigurationError
   <-> pair_missing num_heads head_dim grid_size patch_size)
  /\ (Tensorize_init input_size num_heads head_dim grid_size patch_size shifts kwargs
        = Err ConfigurationError
      <-> pair_missing num_heads head_dim grid_size patch_size).
Proof. split; apply window_init_configuration. Qed.


(** C8 (as stated) fails: with both numHeads and headDim and both gridSize
    and patchSize supplied, Matricize is built. *)
Lemma both_of_a_pair_accepted :
  built_output_size
    (Matricize_init [Some 1; Some 4; Some 8; Some 8] (Some 2) (Some 2)
       (Some (SInt 2)) (Some (SInt 4)) None ∅)
  = Ok [Some 2; Some 4; Some 2; Some 16]
  /\ Matricize_init [Some 1; Some 4; Some 8; Some 8] (Some 2) (Some 2)
       (Some (SInt 2)) (Some (SInt 4)) None ∅ <> Err ConfigurationError.
Proof.
  split; [vm_compute; reflexivity |].
  intros He.
  apply (proj1 (window_init_configuration _ _ _ _ _ _ _ _)) in He.
  destruct He as [[? _] | [? _]]; discriminate.
Qed.

Lemma max_to_one (v : Z) : Z.max (to_one v) 1 = Z.max v 1.
Proof. unfold to_one. destruct (Z.leb_spec v 0); lia. Qed.

Lemma set_axes_to_one prefix (j : nat) (values : list (option Z)) (dl : gmap string Z) :
  set_axes prefix j (map (fmap to_one) values) dl = set_axes prefix j values dl.
Proof.
  revert j dl. induction values as [|[v|] values IH]; intros j dl; simpl;
    [reflexivity | rewrite max_to_one; apply IH | apply IH].
Qed.

Lemma to_ntuple_to_one (n : nat) (x : option size_arg) :
  to_ntuple n (size_to_one x) = map (fmap to_one) (to_ntuple n x).
Proof.
  destruct x as [[z|l]|]; simpl; [| reflexivity |].
  - induction n as [|n IH]; simpl; [reflexivity | f_equal; exact IH].
  - induction n as [|n IH]; simpl; [reflexivity | f_equal; exact IH].
Qed.

Lemma window_dims_lengths_to_one (n : nat) num_heads head_dim grid_size patch_size :
  window_dims_lengths n (to_one <$> num_heads) (to_one <$> head_dim)
    (size_to_one grid_size) (size_to_one patch_size)
  = window_dims_lengths n num_heads head_dim grid_size patch_size.
Proof.
  unfold window_dims_lengths.
  rewrite !to_ntuple_to_one, !set_axes_to_one.
  destruct num_heads as [a|], head_dim as [b|]; simpl; rewrite ?max_to_one; reflexivity.
Qed.

Lemma window_init_to_one equation input_size num_heads head_dim grid_size patch_size
  shifts (kwargs : gmap string Z) :
  window_init equation input_size (to_one <$> num_heads) (to_one <$> head_dim)
    (size_to_one grid_size) (size_to_one patch_size) shifts kwargs
  = window_init equation input_size num_heads head_dim grid_size patch_size shifts kwargs.
Proof.
  unfold window_init. rewrite window_dims_lengths_to_one.
  assert (Hn : bool_decide (to_one <$> num_heads = None /\ to_one <$> head_dim = None)
               = bool_decide (num_heads = None /\ head_dim = None)).
  { apply bool_decide_ext. destruct num_heads, head_dim; simpl; intuition congruence. }
  assert (Hg : bool_decide (size_to_one grid_size = None /\ size_to_one patch_size = None)
               = bool_decide (grid_size = None /\ patch_size = None)).
  { apply bool_decide_ext.
    destruct grid_size as [[?|?]|], patch_size as [[?|?]|]; simpl; intuition congruence. }
  rewrite Hn, Hg. reflexivity.
Qed.

(** numHeads = 0 behaves as numHeads = 1. *)
Example zero_heads_is_one_head input_size head_dim grid_size patch_size shifts
  (kwargs : gmap string Z) :
  Matricize_init input_size (Some 0) head_dim grid_size patch_size shifts kwargs
  = Matricize_init input_size (Some 1) head_dim grid_size patch_size shifts kwargs.
Proof.
  unfold Matricize_init.
  rewrite <- (window_init_to_one _ _ (Some 0)).
  rewrite <- (window_init_to_one _ _ (Some 1) head_dim grid_size patch_size).
  reflexivity.
Qed.

(** C2. For input shape (1, 4, 8, 8), numHeads = 2, headDim = 2, gridSize = 2,
    patchSize = 4 and no shift, Matricize is built with output shape
    (2, 4, 2, 16). Tensorize is not built: the right side of its equation is
    "(g0 g1) d p0 p1", which lacks the axes b and h of the left side, and
    describes the shape (4, 2, 4, 4) rather than (2, 4, 2, 4, 4). *)
Theorem end_to_end_scenario :
  built_output_size
    (Matricize_init [Some 1; Some 4; Some 8; Some 8] (Some 2) (Some 2)
       (Some (SInt 2)) (Some (SInt 4)) None ∅)
  = Ok [Some 2; Some 4; Some 2; Some 16]
  /\ Tensorize_equation 2 = "b (h d) (g0 p0) (g1 p1) -> (g0 g1) d p0 p1"
  /\ built_output_size
       (Tensorize_init [Some 1; Some 4; Some 8; Some 8] (Some 2) (Some 2)
          (Some (SInt 2)) (Some (SInt 4)) None ∅)
     = Err MalformedEquationError
  /\ compute_size "(g0 g1) d p0 p1"
       (window_dims_lengths 2 (Some 2) (Some 2) (Some (SInt 2)) (Some (SInt 4)))
     = Ok [Some 4; Some 2; Some 4; Some 4].
Proof. repeat split; vm_compute; reflexivity. Qed.

(** C9. The equation "(a b -> a b", with its unbalanced parenthesis, and the
    equation "a b -> a c", whose sides name different axes, are rejected with
    a MalformedEquationError when the transform is built, whatever the other
    arguments, before any tensor is seen. *)
Theorem malformed_equations_rejected input_size shifts dims (kwargs : gmap string Z) :
  Reshape_init input_size (Some "(a b -> a b") shifts dims kwargs
  = Err MalformedEquationError
  /\ Reshape_init input_size (Some "a b -> a c") shifts dims kwargs
     = Err MalformedEquationError.
Proof. split; vm_compute; reflexivity. Qed.

(** ** Dimension inference *)

Lemma copy_known_lookup_notin dims (dl inferred : gmap string Z) (d : string) :
  d ∉ dims -> copy_known dims dl inferred !! d = inferred !! d.
Proof.
  unfold copy_known. revert inferred.
  induction dims as [|a dims IH]; intros inferred Hd; simpl; [reflexivity |].
  apply not_elem_of_cons in Hd as [Hne Hd]. rewrite (IH _ Hd).
  destruct (dl !! a); [apply lookup_insert_ne; congruence | reflexivity].
Qed.

Lemma fill_dims_lookup_notin dims (dl inferred : gmap string Z) (u : Z) (d : string) :
  d ∉ dims -> fill_dims dims dl u inferred !! d = inferred !! d.
Proof.
  unfold fill_dims. revert inferred.
  induction dims as [|a dims IH]; intros inferred Hd; simpl; [reflexivity |].
  apply not_elem_of_cons in Hd as [Hne Hd]. rewrite (IH _ Hd).
  apply lookup_insert_ne. congruence.
Qed.

Lemma fill_dims_lookup_in dims (dl inferred : gmap string Z) (u : Z) (d : string) :
  d ∈ dims -> fill_dims dims dl u inferred !! d = Some (default u (dl !! d)).
Proof.
  unfold fill_dims. revert inferred.
  induction dims as [|a dims IH]; intros inferred Hd; simpl; [inversion Hd |].
  destruct (decide (d ∈ dims)) as [Hin | Hnin]; [apply IH, Hin |].
  apply elem_of_cons in Hd as [-> | Hd]; [| contradiction].
  change (fill_dims dims dl u (<[a := default u (dl !! a)]> inferred) !! a = Some (default u (dl !! a))).
  rewrite (fill_dims_lookup_notin _ _ _ _ _ Hnin). apply lookup_insert_eq.
Qed.

Lemma copy_known_lookup_in dims (dl inferred : gmap string Z) (d : string) (v : Z) :
  d ∈ dims -> dl !! d = Some v -> copy_known dims dl inferred !! d = Some v.
Proof.
  unfold copy_known. revert inferred.
  induction dims as [|a dims IH]; intros inferred Hd Hv; simpl; [inversion Hd |].
  destruct (decide (d ∈ dims)) as [Hin | Hnin]; [apply IH; assumption |].
  apply elem_of_cons in Hd as [-> | Hd]; [| contradiction].
  rewrite Hv.
  change (copy_known dims dl (<[a := v]> inferred) !! a = Some v).
  rewrite (copy_known_lookup_notin _ _ _ _ Hnin). apply lookup_insert_eq.
Qed.

Lemma fold_mul_nonzero (l : list Z) (a : Z) :
  a <> 0 -> Forall (fun v => v <> 0) l -> fold_left Z.mul l a <> 0.
Proof.
  revert a. induction l as [|v l IH]; intros a Ha Hl; simpl; [exact Ha |].
  inversion Hl; subst. apply IH; [nia | assumption].
Qed.

Lemma known_product_nonzero dims (dl : gmap string Z) :
  (forall k v, dl !! k = Some v -> v <> 0) -> known_product dims dl <> 0.
Proof.
  intros Hdl. unfold known_product. apply fold_mul_nonzero; [lia |].
  apply Forall_forall. intros v Hv.
  apply list_elem_of_omap in Hv as (k & _ & Hk). exact (Hdl k v Hk).
Qed.

(** Without a zero among the hints, inference returns. *)
Lemma infer_loop_total groups size (dl inferred : gmap string Z) :
  (forall k v, dl !! k = Some v -> v <> 0) ->
  exists res, infer_loop groups size dl inferred = Ok res.
Proof.
  intros Hdl. revert size inferred.
  induction groups as [|g groups IH]; intros [|[s|] size] inferred; simpl; eauto.
  destruct (_ <? _); [apply IH |].
  destruct (Z.eqb_spec (known_product (group_dims g) dl) 0) as [Hz | _]; [| apply IH].
  exfalso. exact (known_product_nonzero _ _ Hdl Hz).
Qed.

(** Groups that do not name [d] leave its entry alone. *)
Lemma infer_loop_preserve groups size (dl inferred res : gmap string Z) (d : string) :
  (forall g, g ∈ groups -> d ∉ group_dims g) ->
  infer_loop groups size dl inferred = Ok res ->
  res !! d = inferred !! d.
Proof.
  revert size inferred.
  induction groups as [|g groups IH]; intros [|[s|] size] inferred Hd; simpl;
    try (intros [= <-]; reflexivity).
  - destruct (_ <? _).
    + intros Hr. rewrite (IH _ _ (fun g' Hg' => Hd g' (list_elem_of_further _ _ _ Hg')) Hr).
      apply copy_known_lookup_notin, Hd. left.
    + destruct (_ =? _); [discriminate |].
      intros Hr. rewrite (IH _ _ (fun g' Hg' => Hd g' (list_elem_of_further _ _ _ Hg')) Hr).
      apply fill_dims_lookup_notin, Hd. left.
  - intros Hr. rewrite (IH _ _ (fun g' Hg' => Hd g' (list_elem_of_further _ _ _ Hg')) Hr).
    apply copy_known_lookup_notin, Hd. left.
Qed.

Lemma known_unknown_length dims (dl : gmap string Z) :
  (length (filter (fun d => is_Some (dl !! d)) dims) + length (unknown_axes dl dims))%nat
  = length dims.
Proof.
  unfold unknown_axes. induction dims as [|a dims IH]; simpl; [reflexivity |].
  rewrite !filter_cons. destruct (dl !! a) as [v|] eqn:Ha.
  - destruct (decide (is_Some (Some v))) as [_ | Hn]; [| exfalso; apply Hn; eauto].
    destruct (decide (Some v = None)); [discriminate |]. simpl. lia.
  - destruct (decide (is_Some (@None Z))) as [Hs | _]; [destruct Hs; discriminate |].
    destruct (decide (@None Z = None)); [| congruence]. simpl. lia.
Qed.

Lemma infer_loop_floor groups size (dl inferred : gmap string Z) (i : nat)
  group (s : Z) (d : string) :
  (forall k v, dl !! k = Some v -> v <> 0) ->
  groups !! i = Some group ->
  size !! i = Some (Some s) ->
  unknown_axes dl (group_dims group) = [d] ->
  (forall j g, (i < j)%nat -> groups !! j = Some g -> d ∉ group_dims g) ->
  exists res, infer_loop groups size dl inferred = Ok res
              /\ res !! d = Some (s / known_product (group_dims group) dl).
Proof.
  intros Hdl. revert size inferred i.
  induction groups as [|g groups IH]; intros size inferred i Hg Hs Hu Hlater;
    [discriminate |].
  destruct size as [|s0 size]; [destruct i; discriminate |].
  destruct i as [|i].
  - injection Hg as ->. injection Hs as ->. simpl.
    pose proof (known_unknown_length (group_dims group) dl) as Hlen.
    rewrite Hu in Hlen. simpl in Hlen.
    destruct (Z.ltb_spec (count_known (group_dims group) dl)
                (Z.of_nat (length (group_dims group)) - 1)) as [Hlt | _];
      [unfold count_known in Hlt; lia |].
    destruct (Z.eqb_spec (known_product (group_dims group) dl) 0) as [Hz | _];
      [exfalso; exact (known_product_nonzero _ _ Hdl Hz) |].
    destruct (infer_loop_total groups size dl
                (fill_dims (group_dims group) dl
                   (s / known_product (group_dims group) dl) inferred) Hdl) as [res Hres].
    exists res. split; [exact Hres |].
    rewrite (infer_loop_preserve _ _ _ _ _ d
               (fun g Hg => match proj1 (list_elem_of_lookup _ _) Hg with
                            | ex_intro _ j Hj => Hlater (S j) g ltac:(lia) Hj
                            end) Hres).
    assert (Hd : d ∈ unknown_axes dl (group_dims group)) by (rewrite Hu; left).
    apply list_elem_of_filter in Hd as [Hnone Hin].
    rewrite (fill_dims_lookup_in _ _ _ _ _ Hin), Hnone. reflexivity.
  - assert (Hl : forall j g', (i < j)%nat -> groups !! j = Some g' -> d ∉ group_dims g').
    { intros j g' Hj Hg'. apply (Hlater (S j) g'); [lia | exact Hg']. }
    simpl in Hg, Hs. simpl.
    destruct s0 as [s0|].
    + destruct (_ <? _); [eapply IH; eassumption |].
      destruct (Z.eqb_spec (known_product (group_dims g) dl) 0) as [Hz | _];
        [exfalso; exact (known_product_nonzero _ _ Hdl Hz) |].
      eapply IH; eassumption.
    + eapply IH; eassumption.
Qed.



(** A declared size that the hint does not divide is floored, not refused. *)
Example infer_dims_not_divisible :
  (let* res := infer_dims "b (h d)" [None; Some 7] (<["h" := 2]> ∅) in Ok (res !! "d"))
  = Ok (Some 3).
Proof. vm_compute. reflexivity. Qed.

(** ** Concatenation and the forward pass of the shifted windows *)

Lemma cat_Ok {A : Type} (ts : list (tensor A)) (y : tensor A) :
  cat ts = Ok y <->
  ts <> [] /\ exists tail, stackable tail ts
                           /\ y = Tensor (sum_batches ts :: tail) (concat (map data ts)).
Proof.
  unfold cat, stackable. destruct ts as [|t0 ts].
  { split; [discriminate | intros [Hne _]; destruct (Hne eq_refl)]. }
  destruct (shape t0) as [|n tail] eqn:Ht0.
  - split; [discriminate |]. intros (_ & tail & Hst & _).
    inversion Hst as [|? ? H0 _]; subst. rewrite Ht0 in H0. discriminate.
  - destruct (forallb _ (t0 :: ts)) eqn:Hall.
    + split; [intros [= <-] | intros (_ & tail' & Hst & ->)].
      * split; [discriminate |]. exists tail. split; [| reflexivity].
        apply Forall_forall. intros t Ht.
        apply (proj1 (forallb_forall _ _)) with (x := t) in Hall;
          [| apply list_elem_of_In, Ht].
        apply andb_true_iff in Hall as [H1 H2].
        apply bool_decide_eq_true in H1. apply negb_true_iff, bool_decide_eq_false in H2.
        unfold batch. destruct (shape t) as [|m sh]; [contradiction |].
        simpl in *. rewrite drop_0 in H1. subst. reflexivity.
      * inversion Hst as [|? ? H0 _]; subst. rewrite Ht0 in H0.
        injection H0 as _ <-. reflexivity.
    + split; [discriminate |]. intros (_ & tail' & Hst & _). exfalso.
      assert (tail' = tail) as ->.
      { inversion Hst as [|? ? H0 _]; subst. rewrite Ht0 in H0. congruence. }
      apply not_true_iff_false in Hall. apply Hall, forallb_forall.
      intros t Ht. apply list_elem_of_In in Ht.
      apply (proj1 (Forall_forall _ _) Hst) in Ht. rewrite Ht. simpl. rewrite drop_0.
      rewrite ?bool_decide_eq_true_2 by reflexivity.
      rewrite ?bool_decide_eq_false_2 by discriminate. reflexivity.
Qed.

Lemma sum_batches_uniform {A : Type} (ts : list (tensor A)) (n : nat) :
  Forall (fun t => batch t = n) ts -> sum_batches ts = (n * length ts)%nat.
Proof.
  induction 1 as [|t ts Ht _ IH]; simpl; [lia |]. rewrite IH, Ht. lia.
Qed.

Lemma SW_forward_Ok {A : Type} (self : ShiftedWindows) (x y : tensor A) :
  SW_forward self x = Ok y <->
  exists ys tail,
    Forall2 (fun w yj => forward w x = Ok yj) (shifted_windows self) ys
    /\ ys <> [] /\ stackable tail ys
    /\ shape y = sum_batches ys :: tail
    /\ data y = concat (map data ys).
Proof.
  unfold SW_forward. split.
  - intros Hb. apply bind_Ok in Hb as (ys & Hys & Hcat).
    apply mapR_Ok in Hys. apply cat_Ok in Hcat as (Hne & tail & Hst & ->).
    exists ys, tail. repeat split; assumption.
  - intros (ys & tail & Hys & Hne & Hst & Hsh & Hd).
    rewrite (Forall2_mapR _ _ _ Hys). simpl. apply cat_Ok. split; [exact Hne |].
    exists tail. split; [exact Hst |]. destruct y as [sh d]. simpl in *. congruence.
Qed.

Lemma SW_forward_uniform_batch {A : Type} (self : ShiftedWindows) (x y : tensor A) (n : nat) :
  SW_forward self x = Ok y ->
  (forall w yj, w ∈ shifted_windows self -> forward w x = Ok yj -> batch yj = n) ->
  batch y = (n * length (shifted_windows self))%nat.
Proof.
  intros Hy Hn. apply SW_forward_Ok in Hy as (ys & tail & Hys & _ & _ & Hsh & _).
  unfold batch at 1. rewrite Hsh. simpl.
  rewrite (Forall2_length _ _ _ Hys). apply sum_batches_uniform.
  apply Forall_forall. intros yj Hyj.
  apply list_elem_of_lookup in Hyj as [j Hj].
  destruct (Forall2_lookup_r _ _ _ _ _ Hys Hj) as (w & Hw & Hwy).
  apply (Hn w yj); [apply list_elem_of_lookup; eauto | exact Hwy].
Qed.

(** C4 (as amended). [apply] runs every variant on the same input, in variant
    order, and concatenates the results along axis 0: it returns exactly when
    every variant returns and the results agree beyond axis 0, and the
    extent of axis 0 of the output is the sum of theirs, V times the extent
    [n] of axis 0 of one variant's output when they agree. *)
Theorem SW_forward_concatenates {A : Type} (self : ShiftedWindows) (x y : tensor A) :
  (SW_forward self x = Ok y <->
   exists ys tail,
     Forall2 (fun w yj => forward w x = Ok yj) (shifted_windows self) ys
     /\ ys <> [] /\ stackable tail ys
     /\ shape y = sum_batches ys :: tail
     /\ data y = concat (map data ys))
  /\ (SW_forward self x = Ok y ->
      forall n, (forall w yj, w ∈ shifted_windows self -> forward w x = Ok yj -> batch yj = n) ->
                batch y = (n * length (shifted_windows self))%nat).
Proof.
  split; [apply SW_forward_Ok |].
  intros Hy n Hn. apply (SW_forward_uniform_batch self x y n Hy Hn).
Qed.

(** C4 (as stated) fails: a batch of one, two variants, and an output batch
    of four, the heads being merged into axis 0. *)
Lemma apply_batch_counts_heads :
  length (shifted_windows two_head_windows) = 2%nat
  /\ exists y, SW_forward two_head_windows (Tensor [1; 2; 2; 2]%nat [1; 2; 3; 4; 5; 6; 7; 8])
               = Ok y
               /\ batch y = 4%nat /\ batch y <> (1 * 2)%nat.
Proof.
  split; [vm_compute; reflexivity |].
  eexists. split; [vm_compute; reflexivity |]. split; [reflexivity | discriminate].
Qed.

Lemma SW_forward_concatenates_witness :
  batch (Tensor [4; 1; 1; 4]%nat [1; 2; 3; 4; 5; 6; 7; 8; 4; 3; 2; 1; 8; 7; 6; 5])
  = (2 * length (shifted_windows two_head_windows))%nat.
Proof.
  apply (proj2 (SW_forward_concatenates two_head_windows
                  (Tensor [1; 2; 2; 2]%nat [1; 2; 3; 4; 5; 6; 7; 8])
                  (Tensor [4; 1; 1; 4]%nat
                     [1; 2; 3; 4; 5; 6; 7; 8; 4; 3; 2; 1; 8; 7; 6; 5]))).
  - vm_compute. reflexivity.
  - intros w yj Hw.
    let l := eval vm_compute in (shifted_windows two_head_windows) in
    change (shifted_windows two_head_windows) with l in Hw.
    apply elem_of_cons in Hw as [-> | Hw];
      [| apply elem_of_cons in Hw as [-> | Hw]; [| inversion Hw]];
      vm_compute; intros [= <-]; reflexivity.
Defined.

(** ** The inverse pass of the shifted windows *)

Lemma slice0_chunk {A : Type} (x : tensor A) (b j c : nat) (tail : list nat) :
  shape x = b :: tail -> ((j + 1) * c <= b)%nat ->
  slice0 x (j * c)%nat ((j + 1) * c)%nat = Ok (chunk x j c).
Proof.
  intros Hsh Hle. unfold slice0, chunk. rewrite Hsh. simpl tl.
  replace (Nat.min (j * c) b) with (j * c)%nat by lia.
  replace (Nat.max (j * c) (Nat.min ((j + 1) * c) b)) with ((j + 1) * c)%nat by lia.
  replace ((j + 1) * c - j * c)%nat with c by lia. reflexivity.
Qed.

Lemma chunk_leading_rows {A : Type} (x : tensor A) (n j c : nat) :
  ((j + 1) * c <= n)%nat -> chunk (leading_rows x n) j c = chunk x j c.
Proof.
  intros Hle. unfold chunk, leading_rows. simpl. f_equal.
  set (row := numel (tl (shape x))).
  rewrite !take_drop_commute, take_take. f_equal. f_equal. nia.
Qed.

Section AveragingProperties.
Context {A : Type} `{Scalar A}.
Local Open Scope nat_scope.

Lemma inverse_loop_leading_rows (ws : list Reshape) (j b q : nat) (x : tensor A)
  (out : option (tensor A)) (tail : list nat) :
  shape x = b :: tail -> q <> 0 -> j + length ws <= q ->
  inverse_loop ws j b q x out
  = inverse_loop ws j (q * (b / q)) q (leading_rows x (q * (b / q))) out.
Proof.
  intros Hsh Hq. revert j out.
  assert (Hc : (q * (b / q)) / q = b / q).
  { rewrite Nat.mul_comm. apply Nat.div_mul. exact Hq. }
  pose proof (Nat.Div0.mul_div_le b q) as Hb.
  induction ws as [|w ws IH]; intros j out Hle; [reflexivity |].
  cbn [inverse_loop]. rewrite Hc. simpl length in Hle.
  rewrite (slice0_chunk x b j (b / q) tail Hsh) by nia.
  rewrite (slice0_chunk (leading_rows x (q * (b / q))) (q * (b / q)) j (b / q) tail)
    by (try nia; unfold leading_rows; rewrite Hsh; reflexivity).
  rewrite chunk_leading_rows by nia.
  simpl. destruct (inverse_forward w (chunk x j (b / q))) as [t|e]; [| reflexivity].
  simpl. destruct (accumulate out t) as [o|e]; [| reflexivity].
  simpl. apply IH. lia.
Qed.

(** C5 (as amended). [applyInverse] makes no divisibility check: with V
    variants and a batch of b rows it works on chunks of floor(b / V) rows
    and never reads the b mod V rows that remain, so that it returns, or
    fails, exactly as it does on the first V * floor(b / V) rows. *)
Theorem SW_inverse_ignores_trailing_rows (self : ShiftedWindows) (b : nat)
  (tail : list nat) (d : list A) :
  let x := Tensor (b :: tail) d in
  let num_shifts := length (shifted_windows self) in
  SW_inverse_forward self x
  = SW_inverse_forward self (leading_rows x (num_shifts * (b / num_shifts))).
Proof.
  intros x num_shifts. unfold SW_inverse_forward. simpl shape.
  destruct (Nat.eq_dec num_shifts 0) as [Hz | Hnz].
  - apply length_zero_iff_nil in Hz. rewrite Hz. reflexivity.
  - fold num_shifts.
    rewrite (inverse_loop_leading_rows _ 0 b num_shifts x None tail eq_refl Hnz)
      by (simpl; reflexivity).
    reflexivity.
Qed.

Lemma column_snoc (ts : list (tensor A)) (t : tensor A) (i : nat) :
  column (ts ++ [t]) i
  = match column ts i, data t !! i with
    | Some vs, Some v => Some (vs ++ [v])
    | _, _ => None
    end.
Proof.
  induction ts as [|t' ts IH]; simpl.
  - destruct (data t !! i); reflexivity.
  - rewrite IH. destruct (data t' !! i); [| reflexivity].
    destruct (column ts i); [| reflexivity]. destruct (data t !! i); reflexivity.
Qed.

Lemma accumulate_summed (prev : list (tensor A)) (out : option (tensor A))
  (t o' : tensor A) :
  summed prev out -> accumulate out t = Ok o' ->
  summed (prev ++ [t]) (Some o') /\ shape t = shape o'.
Proof.
  unfold accumulate. destruct out as [o|]; simpl.
  - intros (Hne & Hsh & Hd). destruct (bool_decide_reflect (shape o = shape t)) as [Heq | _];
      [| discriminate].
    intros [= <-]. simpl. split; [| symmetry; exact Heq].
    split; [destruct prev; discriminate |]. split.
    + apply Forall_app. split; [exact Hsh |]. constructor; [symmetry; exact Heq | constructor].
    + intros i. rewrite lookup_zip_with, column_snoc, Hd.
      destruct (column prev i) as [vs|]; simpl; [| reflexivity].
      destruct (data t !! i) as [v|]; simpl; [| reflexivity].
      rewrite fold_left_app. reflexivity.
  - intros -> [= <-]. simpl. split; [| reflexivity].
    split; [discriminate |]. split; [constructor; [reflexivity | constructor] |].
    intros i. rewrite list_lookup_fmap. destruct (data t !! i); reflexivity.
Qed.

Lemma accumulate_total (prev : list (tensor A)) (out : option (tensor A)) (t : tensor A) :
  summed prev out -> Forall (fun p => shape p = shape t) prev ->
  exists o', accumulate out t = Ok o'.
Proof.
  unfold accumulate. destruct out as [o|]; simpl; [| eauto].
  intros (Hne & Hsh & _) Hall.
  destruct prev as [|p prev]; [contradiction |].
  inversion Hsh; subst. inversion Hall; subst.
  rewrite bool_decide_eq_true_2 by congruence. eauto.
Qed.

Lemma inverse_loop_summed (ws : list Reshape) (j b q : nat) (x : tensor A)
  (out out' : option (tensor A)) (prev : list (tensor A)) (n : nat) (tail : list nat) :
  shape x = n :: tail -> (j + length ws) * (b / q) <= n ->
  summed prev out ->
  inverse_loop ws j b q x out = Ok out' ->
  exists ts, inverted_chunks ws x (b / q) j ts /\ summed (prev ++ ts) out'.
Proof.
  intros Hsh. revert j out prev.
  induction ws as [|w ws IH]; intros j out prev Hle Hsum; cbn [inverse_loop].
  - intros [= <-]. exists []. split; [constructor | rewrite app_nil_r; exact Hsum].
  - simpl length in Hle.
    rewrite (slice0_chunk x n j (b / q) tail Hsh) by nia. simpl.
    intros Hb. apply bind_Ok in Hb as (t & Ht & Hb).
    apply bind_Ok in Hb as (o & Ho & Hb).
    destruct (accumulate_summed _ _ _ _ Hsum Ho) as [Hsum' _].
    destruct (IH (S j) (Some o) (prev ++ [t]) ltac:(nia) Hsum' Hb) as (ts & Hts & Hfin).
    exists (t :: ts). split.
    + unfold inverted_chunks. simpl. constructor; [exact Ht | exact Hts].
    + rewrite <- app_assoc in Hfin. exact Hfin.
Qed.

Lemma inverse_loop_total (ws : list Reshape) (j b q : nat) (x : tensor A)
  (out : option (tensor A)) (prev ts : list (tensor A)) (n : nat) (tail s : list nat) :
  shape x = n :: tail -> (j + length ws) * (b / q) <= n ->
  summed prev out ->
  inverted_chunks ws x (b / q) j ts ->
  Forall (fun t => shape t = s) (prev ++ ts) ->
  exists out', inverse_loop ws j b q x out = Ok out'.
Proof.
  intros Hsh. revert j out prev ts.
  induction ws as [|w ws IH]; intros j out prev ts Hle Hsum Hts Hall; cbn [inverse_loop];
    [eauto |].
  simpl length in Hle.
  rewrite (slice0_chunk x n j (b / q) tail Hsh) by nia. simpl.
  unfold inverted_chunks in Hts. simpl in Hts.
  inversion Hts as [|? t ? ts' Ht Hts']; subst. simpl in Ht. rewrite Ht. simpl.
  apply Forall_app in Hall as [Hprev Hnew]. inversion Hnew as [|? ? Hst Hnew']; subst.
  destruct (accumulate_total prev out t Hsum) as [o Ho].
  { eapply Forall_impl; [exact Hprev |]. simpl. intros p Hp. congruence. }
  rewrite Ho. simpl.
  destruct (accumulate_summed _ _ _ _ Hsum Ho) as [Hsum' _].
  apply (IH (S j) (Some o) (prev ++ [t]) ts' ltac:(nia) Hsum' Hts').
  rewrite <- app_assoc. apply Forall_app. split; [exact Hprev | exact Hnew].
Qed.

Lemma SW_inverse_forward_chunks (self : ShiftedWindows) (x y : tensor A) (B : nat)
  (tail : list nat) :
  let V := length (shifted_windows self) in
  V <> 0 ->
  shape x = (B * V) :: tail ->
  (SW_inverse_forward self x = Ok y ->
   exists ts,
     inverted_chunks (shifted_windows self) x B 0 ts
     /\ Forall (fun t => shape t = shape y) ts
     /\ forall i, data y !! i = (fun col => averaged col V) <$> column ts i)
  /\ (forall ts s,
        inverted_chunks (shifted_windows self) x B 0 ts ->
        Forall (fun t => shape t = s) ts ->
        exists y', SW_inverse_forward self x = Ok y').
Proof.
  intros V HV Hsh. unfold SW_inverse_forward. rewrite Hsh. fold V.
  assert (Hq : (B * V) / V = B) by (apply Nat.div_mul; exact HV).
  assert (Hfit : (0 + length (shifted_windows self)) * ((B * V) / V) <= B * V).
  { rewrite Hq. fold V. simpl. lia. }
  split.
  - intros Hb. apply bind_Ok in Hb as (out & Hloop & Hout).
    destruct (inverse_loop_summed _ 0 (B * V) V x None out [] (B * V) tail Hsh
                Hfit eq_refl Hloop) as (ts & Hts & Hsum).
    rewrite Hq in Hts. simpl in Hsum.
    destruct out as [o|]; [| discriminate]. injection Hout as <-.
    destruct Hsum as (_ & Hshape & Hd).
    exists ts. split; [exact Hts |]. split; [exact Hshape |].
    intros i. simpl. rewrite list_lookup_fmap, Hd.
    destruct (column ts i); reflexivity.
  - intros ts s Hts Hall.
    destruct (inverse_loop_total (shifted_windows self) 0 (B * V) V x None [] ts
                (B * V) tail s Hsh Hfit eq_refl
                ltac:(rewrite Hq; exact Hts) Hall) as [out Hloop].
    rewrite Hloop. simpl.
    destruct (inverse_loop_summed _ 0 (B * V) V x None out [] (B * V) tail Hsh
                Hfit eq_refl Hloop) as (ts' & Hts' & Hsum).
    destruct out as [o|]; [eauto |].
    simpl in Hsum. subst ts'. unfold inverted_chunks in Hts'.
    apply Forall2_length in Hts'. rewrite length_zip, length_seq in Hts'.
    simpl in Hts'. fold V in Hts'. lia.
Qed.

(** C3 (as amended). On an input whose batch size is B*V, [applyInverse]
    with V variants takes the V contiguous chunks of B rows of axis 0 in
    variant order, applies the inverse of variant j to chunk j, sums the
    results elementwise from 0.0 on and divides by V. It returns exactly when
    every inverse returns and the results agree in shape, and what it
    returns has the shape of one inverted chunk. *)
Theorem SW_inverse_averages (self : ShiftedWindows) (x y : tensor A) (B : nat)
  (tail : list nat) :
  let V := length (shifted_windows self) in
  V <> 0 ->
  shape x = (B * V) :: tail ->
  (SW_inverse_forward self x = Ok y ->
   exists ts,
     inverted_chunks (shifted_windows self) x B 0 ts
     /\ Forall (fun t => shape t = shape y) ts
     /\ forall i, data y !! i = (fun col => averaged col V) <$> column ts i)
  /\ (forall ts s,
        inverted_chunks (shifted_windows self) x B 0 ts ->
        Forall (fun t => shape t = s) ts ->
        exists y', SW_inverse_forward self x = Ok y').
Proof.
  intros V HV Hsh. exact (SW_inverse_forward_chunks self x y B tail HV Hsh).
Qed.

End AveragingProperties.

(** C3 (as stated) fails: two variants, an input batch of 2*2, and a result
    whose batch is 1, not 2: the inverse of a variant splits the merged
    (batch heads) axis again. *)
Lemma inverse_batch_divides_heads :
  length (shifted_windows two_head_windows) = 2%nat
  /\ exists y,
       SW_inverse_forward (H := Z_scalar) two_head_windows
         (Tensor [4; 1; 1; 4]%nat [1; 2; 3; 4; 5; 6; 7; 8; 4; 3; 2; 1; 8; 7; 6; 5]) = Ok y
       /\ batch y = 1%nat /\ batch y <> 2%nat.
Proof.
  split; [vm_compute; reflexivity |].
  eexists. split; [vm_compute; reflexivity |]. split; [reflexivity | discriminate].
Qed.

Lemma SW_inverse_averages_witness :
  exists ts,
    inverted_chunks (shifted_windows two_head_windows)
      (Tensor [4; 1; 1; 4]%nat [1; 2; 3; 4; 5; 6; 7; 8; 4; 3; 2; 1; 8; 7; 6; 5]) 2 0 ts
    /\ Forall (fun t => shape t = [1; 2; 2; 2]%nat) ts
    /\ forall i, [1; 2; 3; 4; 5; 6; 7; 8] !! i
                 = (fun col => averaged (H := Z_scalar) col 2) <$> column ts i.
Proof.
  apply (proj1 (SW_inverse_averages (H := Z_scalar) two_head_windows
                  (Tensor [4; 1; 1; 4]%nat
                     [1; 2; 3; 4; 5; 6; 7; 8; 4; 3; 2; 1; 8; 7; 6; 5])
                  (Tensor [1; 2; 2; 2]%nat [1; 2; 3; 4; 5; 6; 7; 8])
                  2 [1; 1; 4]%nat ltac:(vm_compute; discriminate) eq_refl)).
  vm_compute. reflexivity.
Defined.

(** C5 (as stated) fails: two variants and a batch of three rows, which two
    does not divide, and [applyInverse] returns. The chunks are the rows 0
    and 1; the third row is not read. Both inverted chunks are
    [[2, 4], [6, 8]], so that the sums 4, 8, 12 and 16 are halved exactly. *)
Lemma indivisible_batch_accepted :
  length (shifted_windows one_head_windows) = 2%nat
  /\ (3 mod 2 <> 0)%nat
  /\ SW_inverse_forward (H := Z_scalar) one_head_windows
       (Tensor [3; 1; 1; 4]%nat [2; 4; 6; 8; 8; 6; 4; 2; 7; 7; 7; 7])
     = Ok (Tensor [1; 1; 2; 2]%nat [2; 4; 6; 8])
  /\ mapR (fun w => inverse_forward w (Tensor [1; 1; 1; 4]%nat [2; 4; 6; 8]))
       (take 1 (shifted_windows one_head_windows))
     = Ok [Tensor [1; 1; 2; 2]%nat [2; 4; 6; 8]]
  /\ mapR (fun w => inverse_forward w (Tensor [1; 1; 1; 4]%nat [8; 6; 4; 2]))
       (drop 1 (shifted_windows one_head_windows))
     = Ok [Tensor [1; 1; 2; 2]%nat [2; 4; 6; 8]].
Proof.
  split; [vm_compute; reflexivity |]. split; [discriminate |].
  repeat split; vm_compute; reflexivity.
Qed.

(** ** Flat positions and multi-indices *)

Section Indices.
Local Open Scope nat_scope.

Lemma numel_app (sh1 sh2 : list nat) : numel (sh1 ++ sh2) = numel sh1 * numel sh2.
Proof. induction sh1 as [|n sh1 IH]; simpl; [lia | rewrite IH; lia]. Qed.

Lemma ravel_lt (sh idx : list nat) : in_bounds idx sh -> ravel sh idx < numel sh.
Proof.
  intros Hb. induction Hb as [|i n idx sh Hi _ IH]; simpl; [lia | nia].
Qed.

Lemma unravel_ravel (sh idx : list nat) :
  in_bounds idx sh -> unravel sh (ravel sh idx) = idx.
Proof.
  intros Hb. induction Hb as [|i n idx sh Hi Hb IH]; simpl; [reflexivity |].
  pose proof (ravel_lt _ _ Hb) as Hlt.
  assert (Hq : (i * numel sh + ravel sh idx) / numel sh = i).
  { symmetry. apply (Nat.div_unique _ _ _ (ravel sh idx)); [exact Hlt | lia]. }
  assert (Hr : (i * numel sh + ravel sh idx) mod numel sh = ravel sh idx).
  { symmetry. apply (Nat.mod_unique _ _ i); [exact Hlt | lia]. }
  rewrite Hq, Hr, IH. reflexivity.
Qed.

Lemma unravel_in_bounds (sh : list nat) (k : nat) :
  k < numel sh -> in_bounds (unravel sh k) sh.
Proof.
  revert k. induction sh as [|n sh IH]; intros k Hk; simpl; [constructor |].
  simpl in Hk. assert (Hpos : numel sh <> 0) by nia.
  constructor.
  - apply Nat.Div0.div_lt_upper_bound. lia.
  - apply IH, Nat.mod_upper_bound, Hpos.
Qed.

Lemma ravel_unravel (sh : list nat) (k : nat) :
  k < numel sh -> ravel sh (unravel sh k) = k.
Proof.
  revert k. induction sh as [|n sh IH]; intros k Hk; simpl in *; [lia |].
  assert (Hpos : numel sh <> 0) by nia.
  rewrite IH by (apply Nat.mod_upper_bound, Hpos).
  pose proof (Nat.div_mod_eq k (numel sh)). lia.
Qed.

Lemma unravel_length (sh : list nat) (k : nat) : length (unravel sh k) = length sh.
Proof. revert k. induction sh as [|n sh IH]; intros k; simpl; [| rewrite IH]; reflexivity. Qed.

Lemma ravel_snoc (sh idx : list nat) (n i : nat) :
  length idx = length sh ->
  ravel (sh ++ [n]) (idx ++ [i]) = ravel sh idx * n + i.
Proof.
  revert idx. induction sh as [|m sh IH]; intros [|j idx] Hlen; simpl in *;
    try discriminate; [lia |].
  rewrite IH by lia. rewrite numel_app. simpl. lia.
Qed.

Lemma in_bounds_snoc (sh idx : list nat) (n i : nat) :
  in_bounds idx sh -> i < n -> in_bounds (idx ++ [i]) (sh ++ [n]).
Proof. intros Hb Hi. apply Forall2_app; [exact Hb | constructor; [exact Hi | constructor]]. Qed.

End Indices.

(** ** The parser and the regular expression agree *)

Ltac by_ascii c :=
  destruct c as [[] [] [] [] [] [] [] []]; vm_compute; intros;
  first [reflexivity | discriminate].

Lemma blank_is_space c : Str.is_blank c = true -> Str.is_space c = true.
Proof. by_ascii c. Qed.

Lemma blank_not_word c : Str.is_blank c = true -> Str.is_word c = false.
Proof. by_ascii c. Qed.

Lemma blank_not_lparen c : Str.is_blank c = true -> Str.is_lparen c = false.
Proof. by_ascii c. Qed.

Lemma blank_not_rparen c : Str.is_blank c = true -> Str.is_rparen c = false.
Proof. by_ascii c. Qed.

Lemma lparen_not_space c : Str.is_lparen c = true -> Str.is_space c = false.
Proof. by_ascii c. Qed.

Lemma lparen_not_word c : Str.is_lparen c = true -> Str.is_word c = false.
Proof. by_ascii c. Qed.

Lemma word_not_space c : Str.is_word c = true -> Str.is_space c = false.
Proof. by_ascii c. Qed.

Lemma word_not_rparen c : Str.is_word c = true -> Str.is_rparen c = false.
Proof. by_ascii c. Qed.

Lemma space_not_rparen c : Str.is_space c = true -> Str.is_rparen c = false.
Proof. by_ascii c. Qed.

Lemma word_not_dash c : Str.is_word c = true -> Str.is_char 45 c = false.
Proof. by_ascii c. Qed.

Lemma blank_not_dash c : Str.is_blank c = true -> Str.is_char 45 c = false.
Proof. by_ascii c. Qed.

Lemma lparen_not_dash c : Str.is_lparen c = true -> Str.is_char 45 c = false.
Proof. by_ascii c. Qed.

Lemma rparen_not_dash c : Str.is_rparen c = true -> Str.is_char 45 c = false.
Proof. by_ascii c. Qed.

Lemma span_app (p : ascii -> bool) (s a b : list ascii) :
  Str.span p s = (a, b) -> s = a ++ b.
Proof.
  revert a b. induction s as [|c s IH]; simpl; intros a b.
  - intros [= <- <-]. reflexivity.
  - destruct (p c); [| intros [= <- <-]; reflexivity].
    destruct (Str.span p s) as [a' b']. intros [= <- <-].
    simpl. f_equal. apply IH. reflexivity.
Qed.

Lemma span_length_rest (p : ascii -> bool) (s a b : list ascii) :
  Str.span p s = (a, b) -> (length b <= length s)%nat.
Proof. intros Hs. rewrite (span_app _ _ _ _ Hs), length_app. lia. Qed.

(** A span that stops inside the text is not changed by what is appended. *)
Lemma span_app_stop (p : ascii -> bool) (s a rest t : list ascii) (c : ascii) :
  Str.span p s = (a, c :: rest) -> Str.span p (s ++ t) = (a, c :: rest ++ t).
Proof.
  revert a. induction s as [|c0 s IH]; simpl; intros a; [discriminate |].
  destruct (p c0).
  - destruct (Str.span p s) as [a' b'] eqn:Hs. intros [= <- ->].
    rewrite (IH a' eq_refl). reflexivity.
  - intros [= <- <- <-]. reflexivity.
Qed.

Lemma span_snoc_false (p : ascii -> bool) (s a rest : list ascii) (b : ascii) :
  Str.span p s = (a, rest) -> p b = false -> Str.span p (s ++ [b]) = (a, rest ++ [b]).
Proof.
  revert a rest. induction s as [|c0 s IH]; simpl; intros a rest.
  - intros [= <- <-] ->. reflexivity.
  - destruct (p c0).
    + destruct (Str.span p s) as [a' b'] eqn:Hs. intros [= <- <-] Hb.
      rewrite (IH a' b' eq_refl Hb). reflexivity.
    + intros [= <- <-] _. reflexivity.
Qed.

Lemma span_snoc_true (p : ascii -> bool) (s a : list ascii) (b : ascii) :
  Str.span p s = (a, []) -> p b = true -> Str.span p (s ++ [b]) = (a ++ [b], []).
Proof.
  revert a. induction s as [|c0 s IH]; simpl; intros a.
  - intros [= <-] ->. reflexivity.
  - destruct (p c0); [| discriminate].
    destruct (Str.span p s) as [a' b'] eqn:Hs. intros [= <- ->] Hb.
    rewrite (IH a' eq_refl Hb). reflexivity.
Qed.

Lemma list_ascii_round (s : list ascii) : Str.of_string (Str.to_string s) = s.
Proof. apply list_ascii_of_string_of_list_ascii. Qed.

Lemma parse_bracket_Ok (body : list ascii) (g : list string) :
  parse_bracket body = Ok g -> g = Str.split_ws body /\ body <> [].
Proof.
  unfold parse_bracket. destruct (forallb _ body); [| discriminate].
  destruct body as [|c body]; [discriminate |].
  destruct (Str.split_ws (c :: body)) as [|t toks]; [discriminate |].
  destruct (forallb _ (t :: toks)); [| discriminate].
  intros [= <-]. split; [reflexivity | discriminate].
Qed.

Lemma parse_fuel_parses (fuel : nat) (s : list ascii) (gs : list (list string)) :
  parse_fuel fuel s = Ok gs -> parses s gs.
Proof.
  revert s gs. induction fuel as [|fuel IH]; intros [|c r] gs; cbn [parse_fuel];
    try discriminate; try (intros [= <-]; constructor).
  destruct (Str.is_blank c) eqn:Hbl.
  { intros Hp. apply parses_blank; [exact Hbl | apply IH, Hp]. }
  destruct (Str.is_lparen c) eqn:Hlp.
  - destruct (Str.span _ r) as [body [|c' rest]] eqn:Hsp; [discriminate |].
    intros Hb. apply bind_Ok in Hb as (g & Hg & Hb).
    apply bind_Ok in Hb as (gs' & Hgs & [= <-]).
    eapply parses_bracket; eauto.
  - destruct (Str.is_word c) eqn:Hw; [| discriminate].
    destruct (Str.span Str.is_word r) as [w rest] eqn:Hsp.
    destruct (is_identifier (c :: w)) eqn:Hid; [| discriminate].
    intros Hb. apply bind_Ok in Hb as (gs' & Hgs & [= <-]).
    eapply parses_word; eauto.
Qed.

Lemma parses_parse_fuel (s : list ascii) (gs : list (list string)) :
  parses s gs -> forall fuel, (length s <= fuel)%nat -> parse_fuel fuel s = Ok gs.
Proof.
  induction 1 as [| c s gs Hbl _ IH
                  | c r body c' rest g gs Hbl Hlp Hsp Hg _ IH
                  | c r w rest gs Hbl Hlp Hw Hsp Hid _ IH];
    intros fuel Hf; [destruct fuel; reflexivity | | |];
    (destruct fuel as [|fuel]; [simpl in Hf; lia |]); cbn [parse_fuel];
    rewrite Hbl; simpl in Hf.
  - apply IH. lia.
  - rewrite Hlp, Hsp, Hg. simpl. pose proof (span_length_rest _ _ _ _ Hsp) as Hlen.
    simpl in Hlen. rewrite IH by lia. reflexivity.
  - rewrite Hlp, Hw, Hsp, Hid. pose proof (span_length_rest _ _ _ _ Hsp) as Hlen.
    rewrite IH by lia. reflexivity.
Qed.

Lemma parses_findall (s : list ascii) (gs : list (list string)) :
  parses s gs -> forall fuel, (length s <= fuel)%nat ->
  map group_dims (findall_fuel fuel s) = gs.
Proof.
  induction 1 as [| c s gs Hbl _ IH
                  | c r body c' rest g gs Hbl Hlp Hsp Hg _ IH
                  | c r w rest gs Hbl Hlp Hw Hsp Hid _ IH];
    intros fuel Hf; [destruct fuel; reflexivity | | |];
    (destruct fuel as [|fuel]; [simpl in Hf; lia |]); cbn [findall_fuel];
    simpl in Hf.
  - rewrite (blank_not_lparen _ Hbl), (blank_not_word _ Hbl). apply IH. lia.
  - rewrite Hlp. unfold match_paren. rewrite Hsp.
    apply parse_bracket_Ok in Hg as [-> Hne].
    destruct body as [|b body]; [contradiction |].
    pose proof (span_length_rest _ _ _ _ Hsp) as Hlen. simpl in Hlen.
    cbn [map]. rewrite IH by lia. f_equal.
    unfold group_dims. cbn [fst]. 
    change (Str.to_string (b :: body)) with (String b (Str.to_string body)).
    cbv iota. change (String b (Str.to_string body)) with (Str.to_string (b :: body)).
    rewrite list_ascii_round. reflexivity.
  - rewrite Hlp, Hw, Hsp. pose proof (span_length_rest _ _ _ _ Hsp) as Hlen.
    cbn [map]. rewrite IH by lia. reflexivity.
Qed.

Lemma span_prefix_all (p : ascii -> bool) (s a b : list ascii) :
  Str.span p s = (a, b) -> forallb p a = true.
Proof.
  revert a b. induction s as [|c s IH]; simpl; intros a b.
  - intros [= <- <-]. reflexivity.
  - destruct (p c) eqn:Hc; [| intros [= <- <-]; reflexivity].
    destruct (Str.span p s) as [a' b']. intros [= <- <-].
    simpl. rewrite Hc. apply (IH a' b' eq_refl).
Qed.

Lemma span_stop_false (p : ascii -> bool) (s a rest : list ascii) (c : ascii) :
  Str.span p s = (a, c :: rest) -> p c = false.
Proof.
  revert a. induction s as [|c0 s IH]; simpl; intros a; [discriminate |].
  destruct (p c0) eqn:Hc.
  - destruct (Str.span p s) as [a' b']. intros [= <- ->]. apply (IH a' eq_refl).
  - intros [= <- <- <-]. exact Hc.
Qed.

Lemma parses_nil_inv (gs : list (list string)) : parses [] gs -> gs = [].
Proof. inversion 1. reflexivity. Qed.

Lemma parses_snoc_blank (s : list ascii) (gs : list (list string)) (b : ascii) :
  parses s gs -> Str.is_blank b = true -> parses (s ++ [b]) gs.
Proof.
  intros Hp Hb.
  induction Hp as [| c s gs Hbl _ IH
                   | c r body c' rest g gs Hbl Hlp Hsp Hg _ IH
                   | c r w rest gs Hbl Hlp Hw Hsp Hid _ IH]; simpl.
  - apply parses_blank; [exact Hb | constructor].
  - apply parses_blank; assumption.
  - eapply parses_bracket; eauto. apply span_app_stop, Hsp.
  - eapply parses_word; eauto. apply span_snoc_false; [exact Hsp |].
    apply blank_not_word, Hb.
Qed.

Lemma parses_drop_space (u : list ascii) (gs : list (list string)) :
  parses u gs -> forall s c, u = s ++ [c] -> Str.is_space c = true -> parses s gs.
Proof.
  induction 1 as [| c0 u gs Hbl Hu IH
                  | c0 r body c' rest g gs Hbl Hlp Hsp Hg Hrest IH
                  | c0 r w rest gs Hbl Hlp Hw Hsp Hid Hrest IH];
    intros s c Heq Hc.
  - destruct s; discriminate.
  - destruct s as [|c1 s]; simpl in Heq; injection Heq as <- ->.
    + apply parses_nil_inv in Hu as ->. constructor.
    + apply parses_blank; [exact Hbl | eapply IH; eauto].
  - destruct s as [|c1 s]; simpl in Heq; injection Heq as <- ->.
    + discriminate.
    + destruct (Str.span (fun c => negb (Str.is_rparen c)) s) as [body0 rest0] eqn:Hs0.
      destruct rest0 as [|c'' rest0].
      * rewrite (span_snoc_true _ _ _ c Hs0) in Hsp
          by (rewrite (space_not_rparen _ Hc); reflexivity).
        discriminate.
      * rewrite (span_app_stop _ _ _ _ [c] _ Hs0) in Hsp. injection Hsp as <- <- <-.
        eapply parses_bracket; eauto.
  - destruct s as [|c1 s]; simpl in Heq; injection Heq as <- ->.
    + rewrite (word_not_space _ Hw) in Hc. discriminate.
    + destruct (Str.span Str.is_word s) as [w0 rest0] eqn:Hs0.
      rewrite (span_snoc_false _ _ _ _ c Hs0) in Hsp.
      2: { destruct (Str.is_word c) eqn:Hwc; [| reflexivity].
           rewrite (word_not_space _ Hwc) in Hc. discriminate. }
      injection Hsp as <- <-. eapply parses_word; eauto.
Qed.

Lemma rstrip_snoc (s : list ascii) (c : ascii) :
  Str.rstrip (s ++ [c]) = if Str.is_space c then Str.rstrip s else s ++ [c].
Proof.
  unfold Str.rstrip. rewrite rev_app_distr. simpl.
  destruct (Str.is_space c); [reflexivity |].
  simpl. rewrite rev_involutive. reflexivity.
Qed.

Lemma parses_rstrip (s : list ascii) (gs : list (list string)) :
  parses s gs -> parses (Str.rstrip s) gs.
Proof.
  induction s as [|c s IH] using rev_ind; intros Hp; [exact Hp |].
  rewrite rstrip_snoc. destruct (Str.is_space c) eqn:Hc; [| exact Hp].
  apply IH. eapply parses_drop_space; eauto.
Qed.

Lemma parses_lstrip (s : list ascii) (gs : list (list string)) :
  parses s gs -> parses (Str.lstrip s) gs.
Proof.
  induction 1 as [| c s gs Hbl Hp IH
                  | c r body c' rest g gs Hbl Hlp Hsp Hg Hrest IH
                  | c r w rest gs Hbl Hlp Hw Hsp Hid Hrest IH]; simpl.
  - constructor.
  - rewrite (blank_is_space _ Hbl). exact IH.
  - rewrite (lparen_not_space _ Hlp). eapply parses_bracket; eauto.
  - rewrite (word_not_space _ Hw). eapply parses_word; eauto.
Qed.

(** The stripped side is read as the side itself. *)
Lemma parses_strip (s : list ascii) (gs : list (list string)) :
  parses s gs -> parses (Str.of_string (strip s)) gs.
Proof.
  intros Hp. unfold strip. rewrite list_ascii_round.
  apply parses_lstrip, parses_rstrip, Hp.
Qed.

Lemma parses_no_dash (s : list ascii) (gs : list (list string)) :
  parses s gs -> Forall (fun c => Str.is_char 45 c = false) s.
Proof.
  induction 1 as [| c s gs Hbl Hp IH
                  | c r body c' rest g gs Hbl Hlp Hsp Hg Hrest IH
                  | c r w rest gs Hbl Hlp Hw Hsp Hid Hrest IH].
  - constructor.
  - constructor; [apply blank_not_dash, Hbl | exact IH].
  - constructor; [apply lparen_not_dash, Hlp |].
    rewrite (span_app _ _ _ _ Hsp). apply Forall_app. split.
    + unfold parse_bracket in Hg.
      destruct (forallb _ body) eqn:Hall; [| discriminate].
      apply Forall_forall. intros x Hx.
      apply (proj1 (forallb_forall _ _)) with (x := x) in Hall;
        [| apply list_elem_of_In, Hx].
      apply orb_true_iff in Hall as [Hx' | Hx'];
        [apply word_not_dash, Hx' | apply blank_not_dash, Hx'].
    + constructor; [| exact IH].
      apply rparen_not_dash. apply span_stop_false in Hsp.
      apply negb_false_iff in Hsp. exact Hsp.
  - constructor; [apply word_not_dash, Hw |].
    rewrite (span_app _ _ _ _ Hsp). apply Forall_app. split; [| exact IH].
    apply span_prefix_all in Hsp. apply Forall_forall. intros x Hx.
    apply word_not_dash. apply (proj1 (forallb_forall _ _) Hsp), list_elem_of_In, Hx.
Qed.

(** ** What [Reshape.__init__] leaves behind *)

Lemma split_arrow_aux_no_dash (s t cur : list ascii) :
  Forall (fun c => Str.is_char 45 c = false) s ->
  Str.split_arrow_aux (s ++ t) cur = Str.split_arrow_aux t (rev s ++ cur).
Proof.
  intros Hs. revert cur. induction Hs as [|c s Hc _ IH]; intros cur; [reflexivity |].
  cbn [app Str.split_arrow_aux]. rewrite Hc. cbn [andb].
  destruct (s ++ t) as [|d r'] eqn:Hst.
  - apply app_eq_nil in Hst as [-> ->]. reflexivity.
  - rewrite IH. simpl. rewrite <- app_assoc. reflexivity.
Qed.

Lemma of_string_app (a b : string) :
  Str.of_string (a +:+ b) = Str.of_string a ++ Str.of_string b.
Proof. induction a as [|c a IH]; simpl; [reflexivity | f_equal; exact IH]. Qed.

Lemma split_arrow_aux_whole (s cur : list ascii) :
  Forall (fun c => Str.is_char 45 c = false) s ->
  Str.split_arrow_aux s cur = [rev cur ++ s].
Proof.
  intros Hs. rewrite <- (app_nil_r s) at 1. rewrite split_arrow_aux_no_dash by exact Hs.
  simpl. rewrite rev_app_distr, rev_involutive. reflexivity.
Qed.

Lemma split_arrow_join (s1 s2 : list ascii) :
  Forall (fun c => Str.is_char 45 c = false) s1 ->
  Forall (fun c => Str.is_char 45 c = false) s2 ->
  Str.split_arrow (s1 ++ Str.of_string " -> " ++ s2) = [s1 ++ [" "%char]; " "%char :: s2].
Proof.
  intros H1 H2. unfold Str.split_arrow.
  change (s1 ++ Str.of_string " -> " ++ s2)
    with (s1 ++ [" "%char] ++ "-"%char :: ">"%char :: " "%char :: s2).
  rewrite app_assoc, split_arrow_aux_no_dash.
  2: { apply Forall_app. split; [exact H1 | constructor; [reflexivity | constructor]]. }
  rewrite app_nil_r.
  change (Str.split_arrow_aux ("-"%char :: ">"%char :: " "%char :: s2) (rev (s1 ++ [" "%char])))
    with (rev (rev (s1 ++ [" "%char])) :: Str.split_arrow_aux (" "%char :: s2) []).
  rewrite rev_involutive.
  rewrite split_arrow_aux_whole by (constructor; [reflexivity | exact H2]).
  reflexivity.
Qed.

Lemma parse_side_Ok (s : list ascii) (gs : list (list string)) :
  parse_side s = Ok gs <-> parses s gs /\ NoDup (concat gs).
Proof.
  unfold parse_side. split.
  - intros Hb. apply bind_Ok in Hb as (gs' & Hp & Hb).
    apply bind_Ok in Hb as (u & Hg & [= <-]).
    apply guard_Ok, bool_decide_eq_true in Hg.
    split; [eapply parse_fuel_parses, Hp | exact Hg].
  - intros [Hp Hnd]. rewrite (parses_parse_fuel _ _ Hp) by lia. simpl.
    rewrite (bool_decide_eq_true_2 _ Hnd). reflexivity.
Qed.

Lemma Rearrange_init_Ok (pattern : string) (axes_lengths : gmap string Z) (r : Rearrange) :
  Rearrange_init pattern axes_lengths = Ok r ->
  exists sl sr,
    Str.split_arrow (Str.of_string pattern) = [sl; sr]
    /\ parses sl (re_left r) /\ parses sr (re_right r)
    /\ re_lengths r = axes_lengths /\ well_formed r.
Proof.
  unfold Rearrange_init.
  destruct (Str.split_arrow _) as [|sl [|sr [|? ?]]]; try discriminate.
  intros Hb. apply bind_Ok in Hb as (lft & Hl & Hb).
  apply bind_Ok in Hb as (rgt & Hr & Hb).
  apply bind_Ok in Hb as (u1 & Hsame & Hb).
  apply bind_Ok in Hb as (u2 & Hhints & Hb).
  apply bind_Ok in Hb as (u3 & Hunk & [= <-]).
  apply parse_side_Ok in Hl as [Hl Hlnd]. apply parse_side_Ok in Hr as [Hr Hrnd].
  apply guard_Ok, andb_true_iff in Hsame as [Hlr Hrl].
  apply guard_Ok in Hhints. apply guard_Ok in Hunk.
  exists sl, sr. repeat split; try assumption; simpl.
  - intros d Hd. apply list_elem_of_In in Hd.
    apply (proj1 (forallb_forall _ _) Hlr), bool_decide_eq_true in Hd. exact Hd.
  - intros d Hd. apply list_elem_of_In in Hd.
    apply (proj1 (forallb_forall _ _) Hrl), bool_decide_eq_true in Hd. exact Hd.
  - intros d v Hd.
    assert (Hin : In (d, v) (map_to_list axes_lengths))
      by (apply list_elem_of_In, elem_of_map_to_list; exact Hd).
    apply (proj1 (forallb_forall _ _) Hhints), andb_true_iff in Hin as [_ Hin].
    apply bool_decide_eq_true in Hin. exact Hin.
  - apply Forall_forall. intros g Hg. apply list_elem_of_In in Hg.
    apply (proj1 (forallb_forall _ _) Hunk), Nat.leb_le in Hg. exact Hg.
Qed.

Lemma parses_deterministic (s : list ascii) (g1 g2 : list (list string)) :
  parses s g1 -> parses s g2 -> g1 = g2.
Proof.
  intros H1 H2.
  pose proof (parses_parse_fuel _ _ H1 (length s) (le_n _)) as E1.
  pose proof (parses_parse_fuel _ _ H2 (length s) (le_n _)) as E2.
  congruence.
Qed.

(** With an equation, the transform holds the layer of the equation, the
    layer of the swapped equation with the inferred lengths as hints, and
    lengths inferred from the groups of the left side. *)
Lemma Reshape_init_Ok input_size (equation : string) shifts dims (kwargs : gmap string Z)
  (self : Reshape) :
  Reshape_init input_size (Some equation) shifts dims kwargs = Ok self ->
  exists fw bw groups,
    rearrange self = Some fw /\ rearrange_inv self = Some bw
    /\ well_formed fw /\ well_formed bw
    /\ re_lengths fw = kwargs /\ re_lengths bw = dim_lengths self
    /\ re_left bw = re_right fw /\ re_right bw = re_left fw
    /\ map group_dims groups = re_left fw
    /\ infer_loop groups input_size kwargs ∅ = Ok (dim_lengths self).
Proof.
  unfold Reshape_init.
  destruct (Str.split_arrow (Str.of_string equation)) as [|l [|r [|? ?]]] eqn:Hsplit;
    try discriminate.
  intros Hb. apply bind_Ok in Hb as (fw & Hfw & Hb).
  apply bind_Ok in Hb as (dl & Hdl & Hb).
  apply bind_Ok in Hb as (os & Hos & Hb).
  apply bind_Ok in Hb as (bw & Hbw & [= <-]). simpl.
  apply Rearrange_init_Ok in Hfw as (sl & sr & Hsp & Hl & Hr & Hlen & Hwf).
  rewrite Hsplit in Hsp. injection Hsp as <- <-.
  apply Rearrange_init_Ok in Hbw as (sl' & sr' & Hsp' & Hl' & Hr' & Hlen' & Hwf').
  rewrite !of_string_app in Hsp'.
  rewrite split_arrow_join in Hsp'
    by (eapply parses_no_dash, parses_strip; eassumption).
  injection Hsp' as <- <-.
  exists fw, bw, (findall (strip l)).
  split; [reflexivity |]. split; [reflexivity |].
  split; [exact Hwf |]. split; [exact Hwf' |].
  split; [exact Hlen |]. split; [exact Hlen' |].
  split; [| split; [| split; [| exact Hdl]]].
  - eapply parses_deterministic; [exact Hl' |].
    apply parses_snoc_blank; [apply parses_strip, Hr | reflexivity].
  - eapply parses_deterministic; [exact Hr' |].
    apply parses_blank; [reflexivity | apply parses_strip, Hl].
  - unfold findall. apply parses_findall; [apply parses_strip, Hl | lia].
Qed.

(** ** Gathering *)

Section Gather.
Context {A : Type}.
Local Open Scope nat_scope.

Lemma mapR_lookup {T U : Type} (f : T -> result U) (l : list T) (ys : list U) :
  mapR f l = Ok ys <->
  length ys = length l /\ forall k x, l !! k = Some x -> exists y, ys !! k = Some y /\ f x = Ok y.
Proof.
  split.
  - intros Hm. apply mapR_Ok in Hm. split; [symmetry; eapply Forall2_length, Hm |].
    intros k x Hk. destruct (Forall2_lookup_l _ _ _ _ _ Hm Hk) as (y & Hy & Hxy). eauto.
  - intros [Hlen Hk]. apply Forall2_mapR. apply Forall2_same_length_lookup_2.
    + symmetry. exact Hlen.
    + intros k x y Hx Hy. destruct (Hk k x Hx) as (y' & Hy' & Hf). congruence.
Qed.

(** [gather] returns the list that holds, at each position [k] below [n],
    the element of [d] at [src k]; every such element has to exist. *)
Lemma gather_Ok (n : nat) (src : nat -> nat) (d d' : list A) :
  gather n src d = Ok d' <->
  length d' = n /\ forall k, k < n -> d' !! k = d !! src k.
Proof.
  unfold gather. rewrite mapR_lookup, length_seq. split.
  - intros [Hlen Hk]. split; [exact Hlen |]. intros k Hlt.
    destruct (Hk k k) as (y & Hy & Hf); [apply lookup_seq_lt; exact Hlt |].
    rewrite Hy. destruct (d !! src k); [congruence | discriminate].
  - intros [Hlen Hk]. split; [exact Hlen |]. intros k x Hx.
    apply lookup_seq in Hx as [-> Hlt]. simpl.
    destruct (lookup_lt_is_Some_2 d' k ltac:(lia)) as [y Hy].
    exists y. split; [exact Hy |]. rewrite <- (Hk k Hlt), Hy. reflexivity.
Qed.

(** Gathering along [src] and then along [src'] gives the list back when
    [src (src' k) = k]. *)
Lemma gather_round_trip (n m : nat) (src src' : nat -> nat) (d d1 : list A) :
  length d = m ->
  gather n src d = Ok d1 ->
  (forall k, k < m -> src' k < n /\ src (src' k) = k) ->
  gather m src' d1 = Ok d.
Proof.
  intros Hlen Hg Hsrc. apply gather_Ok in Hg as [Hlen1 Hk1].
  apply gather_Ok. split; [exact Hlen |]. intros k Hk.
  destruct (Hsrc k Hk) as [Hlt Heq].
  rewrite (Hk1 _ Hlt), Heq. reflexivity.
Qed.

End Gather.

(** ** Carrying axes across the arrow *)

Section Transposition.
Local Open Scope nat_scope.

Lemma axis_index_map (names : list string) (f : string -> nat) (d : string) :
  d ∈ names -> axis_index names (map f names) d = f d.
Proof.
  induction names as [|m names IH]; intros Hd; [inversion Hd |]. simpl.
  destruct (String.eqb_spec m d) as [-> | Hne]; [reflexivity |].
  apply IH. apply elem_of_cons in Hd as [-> | Hd]; [contradiction | exact Hd].
Qed.

Lemma map_axis_index_self (names : list string) (idx : list nat) :
  NoDup names -> length idx = length names ->
  map (axis_index names idx) names = idx.
Proof.
  intros Hnd. revert idx. induction Hnd as [|m names Hm _ IH]; intros [|i idx] Hlen;
    simpl in Hlen; try discriminate; [reflexivity |].
  simpl. rewrite String.eqb_refl. f_equal.
  transitivity (map (axis_index names idx) names); [| apply IH; lia].
  apply map_ext_in. intros d Hd. apply list_elem_of_In in Hd.
  destruct (String.eqb_spec m d) as [-> | _]; [contradiction | reflexivity].
Qed.

Lemma axis_index_bound (names : list string) (e : string -> nat) (idx : list nat)
  (d : string) :
  in_bounds idx (map e names) -> d ∈ names -> axis_index names idx d < e d.
Proof.
  revert idx. induction names as [|m names IH]; intros idx Hb Hd; [inversion Hd |].
  simpl in Hb. inversion Hb as [|i n idx' sh Hi Hb']; subst. simpl.
  destruct (String.eqb_spec m d) as [-> | Hne]; [exact Hi |].
  apply IH; [exact Hb' |].
  apply elem_of_cons in Hd as [-> | Hd]; [contradiction | exact Hd].
Qed.

Lemma in_bounds_map (names : list string) (f e : string -> nat) :
  (forall d, d ∈ names -> f d < e d) -> in_bounds (map f names) (map e names).
Proof.
  induction names as [|m names IH]; intros Hf; simpl; constructor.
  - apply Hf. left.
  - apply IH. intros d Hd. apply Hf. right. exact Hd.
Qed.

(** Going to the order of the right side and back is the identity on flat
    positions. *)
Lemma transpose_back (L R : list string) (e : string -> nat) (k : nat) :
  NoDup L -> (forall d, d ∈ L -> d ∈ R) -> (forall d, d ∈ R -> d ∈ L) ->
  k < numel (map e L) ->
  let back := ravel (map e R) (map (axis_index L (unravel (map e L) k)) R) in
  back < numel (map e R)
  /\ ravel (map e L) (map (axis_index R (unravel (map e R) back)) L) = k.
Proof.
  intros HL HLR HRL Hk back.
  pose proof (unravel_in_bounds _ _ Hk) as HbL.
  assert (HbR : in_bounds (map (axis_index L (unravel (map e L) k)) R) (map e R)).
  { apply in_bounds_map. intros d Hd. apply axis_index_bound; [exact HbL | apply HRL, Hd]. }
  split; [apply ravel_lt, HbR |].
  subst back. rewrite unravel_ravel by exact HbR.
  assert (Heq : map (axis_index R (map (axis_index L (unravel (map e L) k)) R)) L
                = unravel (map e L) k).
  { transitivity (map (axis_index L (unravel (map e L) k)) L).
    - apply map_ext_in. intros d Hd. apply list_elem_of_In in Hd.
      apply axis_index_map, HLR, Hd.
    - apply map_axis_index_self; [exact HL |].
      rewrite unravel_length, length_map. reflexivity. }
  rewrite Heq. apply ravel_unravel, Hk.
Qed.

Lemma numel_concat (e : string -> nat) (gs : list (list string)) :
  numel (map e (concat gs)) = numel (map (fun g => numel (map e g)) gs).
Proof.
  induction gs as [|g gs IH]; simpl; [reflexivity |].
  rewrite map_app, numel_app, IH. reflexivity.
Qed.

End Transposition.

(** ** Resolving axis lengths *)

Lemma fold_left_mul (l : list Z) (a : Z) : fold_left Z.mul l a = a * zprod l.
Proof.
  revert a. induction l as [|v l IH]; intros a; simpl; [lia |]. rewrite IH. lia.
Qed.

Lemma known_product_zprod (g : list string) (lengths : gmap string Z) :
  known_product g lengths = zprod (omap (fun d => lengths !! d) g).
Proof. unfold known_product. rewrite fold_left_mul. lia. Qed.

Lemma included_refl (env : gmap string Z) : included env env.
Proof. intros d v Hd. exact Hd. Qed.

Lemma included_insert (sub env : gmap string Z) (u : string) (q : Z) :
  included sub env -> sub !! u = None -> included sub (<[u := q]> env).
Proof.
  intros Hinc Hu d v Hd. rewrite lookup_insert_ne; [apply Hinc, Hd |].
  intros ->. congruence.
Qed.

Lemma unknown_axes_cons (lengths : gmap string Z) (d : string) (g : list string) :
  unknown_axes lengths (d :: g)
  = match lengths !! d with
    | Some _ => unknown_axes lengths g
    | None => d :: unknown_axes lengths g
    end.
Proof.
  unfold unknown_axes. rewrite filter_cons.
  destruct (lengths !! d) as [v|]; destruct (decide _); congruence.
Qed.

(** The product over a group, split into the hinted members and the one
    without a hint. *)
Lemma zprod_group (lengths env : gmap string Z) (g : list string) :
  included lengths env ->
  match unknown_axes lengths g with
  | [] => zprod (map (extent env) g) = known_product g lengths
  | [u] => zprod (map (extent env) g) = known_product g lengths * extent env u
  | _ => True
  end.
Proof.
  intros Hinc. rewrite known_product_zprod.
  induction g as [|d g IH]; [reflexivity |].
  rewrite unknown_axes_cons.
  assert (Hk : zprod (omap (fun d => lengths !! d) (d :: g))
               = match lengths !! d with
                 | Some v => v * zprod (omap (fun d => lengths !! d) g)
                 | None => zprod (omap (fun d => lengths !! d) g)
                 end) by (simpl; destruct (lengths !! d); reflexivity).
  rewrite Hk.
  change (zprod (map (extent env) (d :: g)))
    with (extent env d * zprod (map (extent env) g)).
  destruct (lengths !! d) as [v|] eqn:Hd.
  - assert (He : extent env d = v) by (unfold extent; rewrite (Hinc d v Hd); reflexivity).
    rewrite He.
    destruct (unknown_axes lengths g) as [|u [|? ?]]; [| | exact I]; rewrite IH; lia.
  - destruct (unknown_axes lengths g) as [|u rest]; [| exact I].
    rewrite IH. lia.
Qed.

Lemma resolve_group_Ok (lengths env0 env1 : gmap string Z) (g : list string) (len : nat) :
  resolve_group lengths g len env0 = Ok env1 ->
  resolved lengths env1 g len
  /\ match unknown_axes lengths g with
     | [] => env1 = env0
     | u :: _ => env1 = <[u := Z.of_nat len / known_product g lengths]> env0
     end.
Proof.
  unfold resolve_group, resolved.
  destruct (unknown_axes lengths g) as [|u rest].
  - destruct (Z.eqb_spec (known_product g lengths) (Z.of_nat len)); [| discriminate].
    intros [= <-]. split; [assumption | reflexivity].
  - destruct (Z.eqb_spec (known_product g lengths) 0); [discriminate |].
    destruct (Z.eqb_spec (Z.of_nat len mod known_product g lengths) 0); [| discriminate].
    intros [= <-]. split; [| reflexivity].
    split; [assumption |]. split; [assumption | apply lookup_insert_eq].
Qed.

Lemma unknown_axes_subset (lengths : gmap string Z) (g : list string) (u : string) :
  u ∈ unknown_axes lengths g -> u ∈ g /\ lengths !! u = None.
Proof. intros Hu. apply list_elem_of_filter in Hu as [Hn Hin]. split; assumption. Qed.

Lemma resolve_groups_Ok (lengths : gmap string Z) (gs : list (list string)) (sh : list nat) :
  forall env0 env,
    resolve_groups lengths gs sh env0 = Ok env ->
    included lengths env0 -> NoDup (concat gs) ->
    Forall2 (resolved lengths env) gs sh
    /\ included lengths env
    /\ (forall d, d ∉ concat gs -> env !! d = env0 !! d).
Proof.
  revert sh. induction gs as [|g gs IH]; intros [|len sh] env0 env; simpl;
    try discriminate.
  - intros [= <-] Hinc _. split; [constructor |]. split; [exact Hinc | reflexivity].
  - intros Hb Hinc Hnd. apply bind_Ok in Hb as (env1 & Hg & Hrest).
    apply NoDup_app in Hnd as (Hg_nd & Hdisj & Hgs_nd).
    apply resolve_group_Ok in Hg as [Hres Henv1].
    assert (Hinc1 : included lengths env1).
    { destruct (unknown_axes lengths g) as [|u rest] eqn:Hu; [subst; exact Hinc |].
      subst env1. apply included_insert; [exact Hinc |].
      apply (unknown_axes_subset lengths g). rewrite Hu. left. }
    destruct (IH sh env1 env Hrest Hinc1 Hgs_nd) as (Hall & Hinc' & Hout).
    split; [| split; [exact Hinc' |]].
    + constructor; [| exact Hall].
      unfold resolved in *. destruct (unknown_axes lengths g) as [|u rest] eqn:Hu;
        [exact Hres |].
      destruct Hres as (Hk & Hm & Hq). split; [exact Hk |]. split; [exact Hm |].
      rewrite Hout; [exact Hq |]. apply Hdisj.
      apply (unknown_axes_subset lengths g). rewrite Hu. left.
    + intros d Hd. apply not_elem_of_app in Hd as [Hdg Hdgs].
      rewrite (Hout d Hdgs).
      destruct (unknown_axes lengths g) as [|u rest] eqn:Hu; [subst; reflexivity |].
      subst env1. apply lookup_insert_ne. intros ->. apply Hdg.
      apply (unknown_axes_subset lengths g). rewrite Hu. left.
Qed.

Lemma numel_zprod (env : gmap string Z) (g : list string) :
  (forall d, d ∈ g -> 0 <= extent env d) ->
  Z.of_nat (numel (map (axis_len env) g)) = zprod (map (extent env) g).
Proof.
  induction g as [|d g IH]; intros Hpos; [reflexivity |].
  simpl. rewrite Nat2Z.inj_mul, IH by (intros d' Hd'; apply Hpos; right; exact Hd').
  unfold axis_len. fold (extent env d). rewrite Z2Nat.id by (apply Hpos; left).
  reflexivity.
Qed.

Lemma group_shape (lengths env : gmap string Z) (g : list string) (len : nat) :
  included lengths env -> resolved lengths env g len ->
  (length (unknown_axes lengths g) <= 1)%nat ->
  (forall d, d ∈ g -> 0 <= extent env d) ->
  numel (map (axis_len env) g) = len.
Proof.
  intros Hinc Hres Hone Hpos. apply Nat2Z.inj. rewrite numel_zprod by exact Hpos.
  pose proof (zprod_group lengths env g Hinc) as Hprod. unfold resolved in Hres.
  destruct (unknown_axes lengths g) as [|u [|? ?]]; [| | simpl in Hone; lia].
  - rewrite Hprod. exact Hres.
  - destruct Hres as (Hk & Hm & Hq). rewrite Hprod. unfold extent. rewrite Hq. simpl.
    symmetry. apply Z_div_exact_full_2; assumption.
Qed.

Lemma resolve_axes_Ok (r : Rearrange) (sh : list nat) (env : gmap string Z) :
  well_formed r -> resolve_axes r sh = Ok env ->
  included (re_lengths r) env
  /\ Forall2 (resolved (re_lengths r) env) (re_left r) sh
  /\ (forall d, d ∈ concat (re_left r) -> exists v, env !! d = Some v /\ 0 <= v).
Proof.
  intros Hwf. unfold resolve_axes. intros Hb.
  apply bind_Ok in Hb as (env' & Hres & Hb).
  apply bind_Ok in Hb as (u & Hg & [= <-]).
  destruct (resolve_groups_Ok _ _ _ _ _ Hres (included_refl _) (wf_left_nodup r Hwf))
    as (Hall & Hinc & _).
  split; [exact Hinc |]. split; [exact Hall |].
  intros d Hd. apply guard_Ok in Hg. apply list_elem_of_In in Hd.
  apply (proj1 (forallb_forall _ _) Hg), bool_decide_eq_true in Hd.
  destruct (env' !! d) as [v|]; simpl in Hd; [eauto | lia].
Qed.

Lemma extent_nonneg (env : gmap string Z) (names : list string) :
  (forall d, d ∈ names -> exists v, env !! d = Some v /\ 0 <= v) ->
  forall d, d ∈ names -> 0 <= extent env d.
Proof.
  intros Hn d Hd. destruct (Hn d Hd) as (v & Hv & Hpos). unfold extent. rewrite Hv. exact Hpos.
Qed.

(** The shape the left side describes is the shape of the tensor. *)
Lemma resolved_shape (lengths env : gmap string Z) (gs : list (list string)) (sh : list nat) :
  included lengths env ->
  Forall2 (resolved lengths env) gs sh ->
  Forall (fun g => (length (unknown_axes lengths g) <= 1)%nat) gs ->
  (forall d, d ∈ concat gs -> 0 <= extent env d) ->
  map (fun g => numel (map (axis_len env) g)) gs = sh.
Proof.
  intros Hinc Hres. induction Hres as [|g len gs sh Hg _ IH]; intros Hone Hpos;
    [reflexivity |].
  inversion Hone; subst. simpl. f_equal.
  - apply (group_shape lengths); try assumption.
    intros d Hd. apply Hpos. simpl. apply elem_of_app. left. exact Hd.
  - apply IH; [assumption |]. intros d Hd. apply Hpos. simpl. apply elem_of_app.
    right. exact Hd.
Qed.

Lemma zprod_pos (l : list Z) : Forall (fun v => 0 < v) l -> 0 < zprod l.
Proof. induction 1 as [|v l Hv _ IH]; simpl; [lia | nia]. Qed.

Lemma known_product_pos (g : list string) (lengths : gmap string Z) :
  (forall d v, lengths !! d = Some v -> 0 < v) -> 0 < known_product g lengths.
Proof.
  intros Hpos. rewrite known_product_zprod. apply zprod_pos, Forall_forall.
  intros v Hv. apply list_elem_of_omap in Hv as (d & _ & Hd). exact (Hpos d v Hd).
Qed.

Lemma unknown_axes_known (lengths : gmap string Z) (g : list string) (d : string) :
  d ∈ g -> d ∉ unknown_axes lengths g -> is_Some (lengths !! d).
Proof.
  intros Hd Hn. destruct (lengths !! d) as [v|] eqn:Hl; [eauto |].
  exfalso. apply Hn. apply list_elem_of_filter. split; assumption.
Qed.

(** The lengths of the forward pass resolve the output shape again, from
    hints that are among them. *)
Lemma resolve_back (lengths envf : gmap string Z) (gs : list (list string)) :
  (forall d v, lengths !! d = Some v -> 0 < v) ->
  included lengths envf ->
  (forall d, d ∈ concat gs -> exists v, envf !! d = Some v /\ 0 <= v) ->
  Forall (fun g => (length (unknown_axes lengths g) <= 1)%nat) gs ->
  forall env0, included lengths env0 -> included env0 envf ->
  exists env,
    resolve_groups lengths gs (map (fun g => numel (map (axis_len envf) g)) gs) env0 = Ok env
    /\ included env envf
    /\ (forall d, d ∈ concat gs -> is_Some (env !! d))
    /\ included env0 env.
Proof.
  intros Hpos Hinc. induction gs as [|g gs IH]; intros Hdef Hone env0 H0 H0f.
  - exists env0. split; [reflexivity |]. split; [exact H0f |].
    split; [intros d Hd; inversion Hd | apply included_refl].
  - inversion Hone as [|? ? Hg Hgs]; subst. cbn [map resolve_groups].
    assert (Hdefg : forall d, d ∈ g -> exists v, envf !! d = Some v /\ 0 <= v).
    { intros d Hd. apply Hdef. simpl. apply elem_of_app. left. exact Hd. }
    assert (Hlen : Z.of_nat (numel (map (axis_len envf) g)) = zprod (map (extent envf) g)).
    { apply numel_zprod. apply (extent_nonneg envf g Hdefg). }
    pose proof (zprod_group lengths envf g Hinc) as Hprod.
    pose proof (known_product_pos g lengths Hpos) as Hkp.
    assert (Hstep : exists env1,
               resolve_group lengths g (numel (map (axis_len envf) g)) env0 = Ok env1
               /\ included lengths env1 /\ included env1 envf /\ included env0 env1
               /\ forall d, d ∈ g -> is_Some (env1 !! d)).
    { unfold resolve_group. rewrite Hlen.
      destruct (unknown_axes lengths g) as [|u [|? ?]] eqn:Hu; [| | simpl in Hg; lia].
      - rewrite Hprod, Z.eqb_refl. exists env0.
        split; [reflexivity |]. split; [exact H0 |]. split; [exact H0f |].
        split; [apply included_refl |]. intros d Hd.
        destruct (unknown_axes_known lengths g d Hd) as [v Hv];
          [rewrite Hu; inversion 1 |].
        exists v. apply H0, Hv.
      - assert (Hug : u ∈ g /\ lengths !! u = None)
          by (apply unknown_axes_subset; rewrite Hu; left).
        destruct Hug as [Hug Hun]. destruct (Hdefg u Hug) as (q & Hq & _).
        assert (Heq : extent envf u = q) by (unfold extent; rewrite Hq; reflexivity).
        rewrite Hprod, Heq.
        destruct (Z.eqb_spec (known_product g lengths) 0) as [Hz | _]; [lia |].
        rewrite Z.mul_comm, Z_mod_mult, Z.eqb_refl, Z_div_mult by lia.
        exists (<[u := q]> env0). split; [reflexivity |].
        split; [apply included_insert; assumption |]. split; [| split].
        + intros d v Hd. destruct (decide (u = d)) as [<- | Hne].
          * rewrite lookup_insert_eq in Hd. congruence.
          * rewrite lookup_insert_ne in Hd by exact Hne. apply H0f, Hd.
        + intros d v Hd. destruct (decide (u = d)) as [<- | Hne].
          * rewrite lookup_insert_eq. apply H0f in Hd. congruence.
          * rewrite lookup_insert_ne by exact Hne. exact Hd.
        + intros d Hd. destruct (decide (u = d)) as [<- | Hne].
          * rewrite lookup_insert_eq. eauto.
          * rewrite lookup_insert_ne by exact Hne.
            destruct (unknown_axes_known lengths g d Hd) as [v Hv].
            { rewrite Hu. intros Hin. apply elem_of_cons in Hin as [-> | Hin];
                [contradiction | inversion Hin]. }
            exists v. apply H0, Hv. }
    destruct Hstep as (env1 & Hstep & H1 & H1f & H01 & Hg1).
    rewrite Hstep. cbn [bind].
    destruct (IH ltac:(intros d Hd; apply Hdef; simpl; apply elem_of_app; right; exact Hd)
                Hgs env1 H1 H1f) as (env & Hres & Henvf & Hnames & H1env).
    exists env. split; [exact Hres |]. split; [exact Henvf |]. split.
    + intros d Hd. simpl in Hd. apply elem_of_app in Hd as [Hd | Hd].
      * destruct (Hg1 d Hd) as [v Hv]. exists v. apply H1env, Hv.
      * apply Hnames, Hd.
    + intros d v Hd. apply H1env, H01, Hd.
Qed.

(** ** Inference agrees with the lengths of the forward pass *)

Lemma sound_insert (env m : gmap string Z) (d : string) (v : Z) :
  sound env m -> env !! d = Some v -> 0 < v -> sound env (<[d := v]> m).
Proof.
  intros Hm Hd Hv d' v' Hl. destruct (decide (d = d')) as [<- | Hne].
  - rewrite lookup_insert_eq in Hl. injection Hl as <-. auto.
  - rewrite lookup_insert_ne in Hl by exact Hne. apply Hm, Hl.
Qed.

Lemma copy_known_sound (env kwargs inferred : gmap string Z) (dims : list string) :
  sound env kwargs -> sound env inferred -> sound env (copy_known dims kwargs inferred).
Proof.
  intros Hk. unfold copy_known. revert inferred.
  induction dims as [|d dims IH]; intros inferred Hi; simpl; [exact Hi |].
  apply IH. destruct (kwargs !! d) as [v|] eqn:Hd; [| exact Hi].
  destruct (Hk d v Hd). apply sound_insert; assumption.
Qed.

Lemma fill_dims_sound (env kwargs inferred : gmap string Z) (dims : list string) (ud : Z) :
  (forall d, d ∈ dims ->
     env !! d = Some (default ud (kwargs !! d)) /\ 0 < default ud (kwargs !! d)) ->
  sound env inferred -> sound env (fill_dims dims kwargs ud inferred).
Proof.
  unfold fill_dims. revert inferred.
  induction dims as [|d dims IH]; intros inferred Hd Hi; simpl; [exact Hi |].
  apply IH; [intros d' Hd'; apply Hd; right; exact Hd' |].
  destruct (Hd d) as [He Hp]; [left |]. apply sound_insert; assumption.
Qed.

Lemma infer_loop_sound (env kwargs : gmap string Z) (groups : list (string * string)) :
  sound env kwargs ->
  forall size sh inferred dl,
    Forall (fun g => (length (unknown_axes kwargs g) <= 1)%nat) (map group_dims groups) ->
    Forall2 (resolved kwargs env) (map group_dims groups) sh ->
    consistent size sh ->
    sound env inferred ->
    infer_loop groups size kwargs inferred = Ok dl ->
    sound env dl.
Proof.
  intros Hk. induction groups as [|group groups IH];
    intros size sh inferred dl Hone Hres Hcons Hinf; simpl.
  - destruct size; intros [= <-]; exact Hinf.
  - destruct size as [|s size]; [intros [= <-]; exact Hinf |].
    simpl in Hone, Hres. inversion Hone as [|? ? Hg Hgs]; subst.
    inversion Hres as [|? len ? sh' Hrg Hrgs]; subst.
    inversion Hcons as [|? ? ? ? Hs Hcons']; subst.
    assert (Hcopy : sound env (copy_known (group_dims group) kwargs inferred))
      by (apply copy_known_sound; assumption).
    destruct s as [s|]; [| apply (IH size sh'); assumption].
    destruct (_ <? _); [apply (IH size sh'); assumption |].
    destruct (Z.eqb_spec (known_product (group_dims group) kwargs) 0) as [| Hkp];
      [discriminate |].
    apply (IH size sh'); try assumption.
    apply fill_dims_sound; [| exact Hinf].
    intros d Hd. destruct (kwargs !! d) as [v|] eqn:Hdv; simpl; [apply Hk, Hdv |].
    assert (Hdu : d ∈ unknown_axes kwargs (group_dims group))
      by (apply list_elem_of_filter; split; assumption).
    unfold resolved in Hrg.
    destruct (unknown_axes kwargs (group_dims group)) as [|u [|? ?]];
      [inversion Hdu | | simpl in Hg; lia].
    apply elem_of_cons in Hdu as [-> | Hdu]; [| inversion Hdu].
    destruct Hrg as (_ & Hmod & Hq). destruct (Hs s eq_refl) as [-> Hpos].
    split; [exact Hq |].
    assert (Hkpos : 0 < known_product (group_dims group) kwargs).
    { apply known_product_pos. intros d v Hd'. apply (Hk d v Hd'). }
    apply Z.div_str_pos. split; [exact Hkpos |].
    apply Z.divide_pos_le; [exact Hpos |]. apply Z.mod_divide; [lia | exact Hmod].
Qed.

(** ** The round trip through the two layers *)

Lemma axis_len_agree (env envf : gmap string Z) (names : list string) :
  included env envf -> (forall d, d ∈ names -> is_Some (env !! d)) ->
  map (axis_len env) names = map (axis_len envf) names.
Proof.
  intros Hinc Hdef. apply map_ext_in. intros d Hd. apply list_elem_of_In in Hd.
  destruct (Hdef d Hd) as [v Hv]. unfold axis_len. rewrite Hv, (Hinc d v Hv). reflexivity.
Qed.

Lemma group_shapes_agree (env envf : gmap string Z) (gs : list (list string)) :
  included env envf -> (forall d, d ∈ concat gs -> is_Some (env !! d)) ->
  map (fun g => numel (map (axis_len env) g)) gs
  = map (fun g => numel (map (axis_len envf) g)) gs.
Proof.
  intros Hinc Hdef. apply map_ext_in. intros g Hg.
  rewrite (axis_len_agree env envf g Hinc); [reflexivity |].
  intros d Hd. apply Hdef. apply list_elem_of_In, in_concat.
  exists g. split; [exact Hg | apply list_elem_of_In, Hd].
Qed.

Lemma rearrange_round_trip {A : Type} (fw bw : Rearrange) (x y : tensor A)
  (input_size : list (option Z)) (groups : list (string * string)) :
  well_formed fw -> well_formed bw ->
  re_left bw = re_right fw -> re_right bw = re_left fw ->
  (forall d v, re_lengths fw !! d = Some v -> 0 < v) ->
  map group_dims groups = re_left fw ->
  infer_loop groups input_size (re_lengths fw) ∅ = Ok (re_lengths bw) ->
  consistent input_size (shape x) ->
  wf_tensor x ->
  rearrange_apply fw x = Ok y -> rearrange_apply bw y = Ok x.
Proof.
  intros Hfw Hbw Hl Hr Hpos Hgroups Hinfer Hcons Hwf Hy.
  unfold rearrange_apply in Hy.
  apply bind_Ok in Hy as (envf & Henvf & Hy). apply bind_Ok in Hy as (d1 & Hd1 & [= <-]).
  destruct (resolve_axes_Ok fw (shape x) envf Hfw Henvf) as (Hinc & Hres & Hdef).
  assert (Hkw : sound envf (re_lengths fw)).
  { intros d v Hd. split; [apply Hinc, Hd | apply (Hpos d v Hd)]. }
  assert (Hdl : sound envf (re_lengths bw)).
  { apply (infer_loop_sound envf (re_lengths fw) groups Hkw input_size (shape x) ∅);
      try assumption.
    - rewrite Hgroups. apply (wf_unknowns fw Hfw).
    - rewrite Hgroups. exact Hres.
    - intros d v Hd. rewrite lookup_empty in Hd. discriminate. }
  assert (Hdefr : forall d, d ∈ concat (re_left bw) -> exists v, envf !! d = Some v /\ 0 <= v).
  { intros d Hd. apply Hdef. rewrite Hl in Hd. apply (wf_right_left fw Hfw), Hd. }
  destruct (resolve_back (re_lengths bw) envf (re_left bw)
              (fun d v Hd => proj2 (Hdl d v Hd)) (fun d v Hd => proj1 (Hdl d v Hd))
              Hdefr (wf_unknowns bw Hbw) (re_lengths bw) (included_refl _)
              (fun d v Hd => proj1 (Hdl d v Hd)))
    as (envi & Hresi & Hinci & Hnames & _).
  assert (Hnamesl : forall d, d ∈ concat (re_right bw) -> is_Some (envi !! d)).
  { intros d Hd. apply Hnames, (wf_right_left bw Hbw), Hd. }
  unfold rearrange_apply, resolve_axes. simpl shape.
  rewrite <- Hl. rewrite Hresi. cbn [bind].
  assert (Hguard : forallb (fun d => bool_decide (0 <= default (-1) (envi !! d)))
                           (concat (re_left bw)) = true).
  { apply forallb_forall. intros d Hd. apply list_elem_of_In in Hd.
    apply bool_decide_eq_true. destruct (Hnames d Hd) as [v Hv]. rewrite Hv. simpl.
    destruct (Hdefr d Hd) as (v' & Hv' & Hge). rewrite (Hinci d v Hv) in Hv'. congruence. }
  rewrite Hguard. cbn [guard bind].
  rewrite (axis_len_agree envi envf (concat (re_left bw)) Hinci Hnames).
  rewrite (axis_len_agree envi envf (concat (re_right bw)) Hinci Hnamesl).
  rewrite (group_shapes_agree envi envf (re_right bw) Hinci Hnamesl).
  rewrite Hl, Hr.
  assert (Hshape : map (fun g => numel (map (axis_len envf) g)) (re_left fw) = shape x).
  { apply (resolved_shape (re_lengths fw)); try assumption.
    - apply (wf_unknowns fw Hfw).
    - apply (extent_nonneg envf _ Hdef). }
  rewrite (gather_round_trip _ (numel (map (axis_len envf) (concat (re_left fw)))) _ _
             (data x) d1 ltac:(rewrite numel_concat, Hshape; exact Hwf) Hd1).
  - cbn [bind]. rewrite Hshape. destruct x; reflexivity.
  - intros k Hk.
    apply (transpose_back (concat (re_left fw)) (concat (re_right fw)) (axis_len envf) k
             (wf_left_nodup fw Hfw) (wf_left_right fw Hfw) (wf_right_left fw Hfw) Hk).
Qed.

(** ** Cyclic shifts *)

Section Shifts.
Local Open Scope nat_scope.

Lemma shift_index_zero (sh : list nat) (delta : list Z) (idx : list nat) :
  in_bounds idx sh -> Forall (fun s => s = 0%Z) delta -> length delta = length sh ->
  shift_index sh delta idx = idx.
Proof.
  intros Hb. revert delta. induction Hb as [|i n idx sh Hi _ IH]; intros delta Hz Hlen.
  - destruct delta; [reflexivity | discriminate].
  - destruct delta as [|s delta]; [discriminate |]. inversion Hz; subst. simpl.
    rewrite IH by (try assumption; simpl in Hlen; lia).
    rewrite Z.sub_0_r, Z.mod_small by lia. rewrite Nat2Z.id. reflexivity.
Qed.

Lemma shift_index_in_bounds (sh : list nat) (delta : list Z) (idx : list nat) :
  in_bounds idx sh -> length delta = length sh ->
  in_bounds (shift_index sh delta idx) sh.
Proof.
  intros Hb. revert delta. induction Hb as [|i n idx sh Hi _ IH]; intros delta Hlen.
  - destruct delta; constructor.
  - destruct delta as [|s delta]; [discriminate |]. simpl. constructor.
    + pose proof (Z.mod_pos_bound (Z.of_nat i - s) (Z.of_nat n)). lia.
    + apply IH. simpl in Hlen. lia.
Qed.

Lemma shift_index_compose (sh : list nat) (d1 d2 : list Z) (idx : list nat) :
  in_bounds idx sh -> length d1 = length sh -> length d2 = length sh ->
  shift_index sh d1 (shift_index sh d2 idx) = shift_index sh (zip_with Z.add d1 d2) idx.
Proof.
  intros Hb. revert d1 d2. induction Hb as [|i n idx sh Hi _ IH]; intros d1 d2 H1 H2.
  - destruct d1, d2; reflexivity.
  - destruct d1 as [|s1 d1], d2 as [|s2 d2]; try discriminate. simpl.
    rewrite IH by (simpl in *; lia). f_equal.
    pose proof (Z.mod_pos_bound (Z.of_nat i - s2) (Z.of_nat n)).
    rewrite Z2Nat.id by lia. rewrite Zminus_mod_idemp_l. f_equal. f_equal. lia.
Qed.

Lemma unit_shift_length (rank dim : nat) (s : Z) : length (unit_shift rank dim s) = rank.
Proof. unfold unit_shift. rewrite length_insert, length_replicate. reflexivity. Qed.

Lemma roll_index_shift (sh : list nat) (s : Z) (dim : nat) (idx : list nat) :
  in_bounds idx sh ->
  roll_index sh s dim idx = shift_index sh (unit_shift (length sh) dim s) idx.
Proof.
  intros Hb. revert dim. induction Hb as [|i n idx sh Hi Hb IH]; intros dim.
  - destruct dim; reflexivity.
  - destruct dim as [|dim].
    + unfold roll_index, unit_shift. simpl. f_equal. symmetry.
      apply shift_index_zero; [exact Hb | | apply length_replicate].
      apply Forall_forall. intros z Hz. apply elem_of_replicate in Hz as [-> _]. reflexivity.
    + unfold roll_index, unit_shift in *. simpl.
      rewrite (Z.sub_0_r (Z.of_nat i)), (Z.mod_small (Z.of_nat i)) by lia.
      rewrite Nat2Z.id. f_equal. apply IH.
Qed.

Lemma roll_index_in_bounds (sh : list nat) (s : Z) (dim : nat) (idx : list nat) :
  in_bounds idx sh -> in_bounds (roll_index sh s dim idx) sh.
Proof.
  intros Hb. rewrite roll_index_shift by exact Hb.
  apply shift_index_in_bounds; [exact Hb | apply unit_shift_length].
Qed.

Lemma zip_add_opp (delta : list Z) :
  Forall (fun s => s = 0%Z) (zip_with Z.add delta (map Z.opp delta)).
Proof. induction delta as [|s delta IH]; simpl; constructor; [lia | exact IH]. Qed.

Lemma unit_shift_opp (rank dim : nat) (s : Z) :
  map Z.opp (unit_shift rank dim s) = unit_shift rank dim (- s).
Proof.
  unfold unit_shift. revert dim. induction rank as [|rank IH]; intros dim;
    [destruct dim; reflexivity |].
  destruct dim as [|dim]; simpl.
  - f_equal. clear IH. induction rank as [|rank IH]; simpl; [reflexivity | f_equal; exact IH].
  - f_equal. apply IH.
Qed.

Lemma zip_add_opp_distr (a b : list Z) :
  map Z.opp (zip_with Z.add a b) = zip_with Z.add (map Z.opp a) (map Z.opp b).
Proof.
  revert b. induction a as [|x a IH]; intros [|y b]; simpl; try reflexivity.
  rewrite IH. f_equal. lia.
Qed.

End Shifts.

Section Rolling.
Context {A : Type}.
Local Open Scope nat_scope.

Lemma pulled_zero (sh : list nat) (delta : list Z) (x x' : tensor A) :
  pulled sh delta x x' -> Forall (fun s => s = 0%Z) delta -> length delta = length sh ->
  wf_tensor x -> x' = x.
Proof.
  intros (Hx & Hx' & Hlen & Hk) Hz Hd Hwf. unfold wf_tensor in Hwf. rewrite Hx in Hwf.
  destruct x as [shx dx], x' as [shx' dx']. simpl in *. subst shx shx'. f_equal.
  apply list_eq. intros k. destruct (Nat.lt_ge_cases k (numel sh)) as [Hlt | Hge].
  - rewrite (Hk k Hlt), shift_index_zero, ravel_unravel; try assumption; [reflexivity |].
    apply unravel_in_bounds, Hlt.
  - rewrite !lookup_ge_None_2 by lia. reflexivity.
Qed.

Lemma pulled_refl (delta : list Z) (x : tensor A) :
  Forall (fun s => s = 0%Z) delta -> length delta = length (shape x) -> wf_tensor x ->
  pulled (shape x) delta x x.
Proof.
  intros Hz Hd Hwf. split; [reflexivity |]. split; [reflexivity |]. split; [exact Hwf |].
  intros k Hk. rewrite shift_index_zero, ravel_unravel; try assumption; [reflexivity |].
  apply unravel_in_bounds, Hk.
Qed.

Lemma pulled_compose (sh : list nat) (d1 d2 : list Z) (x x' x'' : tensor A) :
  pulled sh d1 x x' -> pulled sh d2 x' x'' ->
  length d1 = length sh -> length d2 = length sh ->
  pulled sh (zip_with Z.add d1 d2) x x''.
Proof.
  intros (Hx & Hx' & Hlen' & Hk') (_ & Hx'' & Hlen'' & Hk'') H1 H2.
  split; [exact Hx |]. split; [exact Hx'' |]. split; [exact Hlen'' |].
  intros k Hk. pose proof (unravel_in_bounds _ _ Hk) as Hb.
  pose proof (shift_index_in_bounds sh d2 _ Hb H2) as Hb2.
  rewrite (Hk'' k Hk), (Hk' _ (ravel_lt _ _ Hb2)), unravel_ravel by exact Hb2.
  rewrite shift_index_compose by assumption. reflexivity.
Qed.

Lemma roll1_Ok (x x' : tensor A) (s : Z) (dim : nat) :
  roll1 x s dim = Ok x' ->
  pulled (shape x) (unit_shift (length (shape x)) dim s) x x'.
Proof.
  unfold roll1. intros Hb. apply bind_Ok in Hb as (d & Hd & [= <-]).
  apply gather_Ok in Hd as [Hlen Hk].
  split; [reflexivity |]. split; [reflexivity |]. split; [exact Hlen |].
  intros k Hlt. simpl. rewrite (Hk k Hlt), roll_index_shift; [reflexivity |].
  apply unravel_in_bounds, Hlt.
Qed.

Lemma roll1_total (x : tensor A) (s : Z) (dim : nat) :
  wf_tensor x -> exists x', roll1 x s dim = Ok x'.
Proof.
  intros Hwf. unfold roll1.
  destruct (gather (numel (shape x))
              (fun k => ravel (shape x) (roll_index (shape x) s dim (unravel (shape x) k)))
              (data x)) as [d|e] eqn:Hg; [eauto |].
  exfalso. unfold gather in Hg. apply mapR_Err in Hg as (k & Hk & Hg).
  apply elem_of_seq in Hk as [_ Hk]. simpl in Hk.
  destruct (data x !! _) eqn:Hl; [discriminate |].
  apply lookup_ge_None in Hl. unfold wf_tensor in Hwf.
  pose proof (ravel_lt _ _ (roll_index_in_bounds _ s dim _ (unravel_in_bounds _ _ Hk))).
  lia.
Qed.

Lemma pulled_wf (sh : list nat) (delta : list Z) (x x' : tensor A) :
  pulled sh delta x x' -> wf_tensor x'.
Proof. intros (_ & Hx' & Hlen & _). unfold wf_tensor. rewrite Hx'. exact Hlen. Qed.

(** A sequence of rolls pulls by the sum of its offsets, and the sequence of
    the negated offsets, on any tensor of that shape, by the negated sum. *)
Lemma roll_each_Ok (shifts dims : list Z) :
  forall x x' : tensor A,
    roll_each x shifts dims = Ok x' -> wf_tensor x ->
    exists delta,
      length delta = length (shape x)
      /\ pulled (shape x) delta x x'
      /\ forall z : tensor A, wf_tensor z -> shape z = shape x ->
           exists z', roll_each z (map Z.opp shifts) dims = Ok z'
                      /\ pulled (shape x) (map Z.opp delta) z z'.
Proof.
  revert dims. induction shifts as [|s shifts IH]; intros [|d dims] x x'; simpl;
    try discriminate.
  - intros [= <-] Hwf. exists (replicate (length (shape x)) 0%Z).
    assert (Hz : Forall (fun s => s = 0%Z) (replicate (length (shape x)) 0%Z)).
    { apply Forall_forall. intros z Hz. apply elem_of_replicate in Hz as [-> _]. reflexivity. }
    split; [apply length_replicate |].
    split; [apply pulled_refl; [exact Hz | apply length_replicate | exact Hwf] |].
    intros z Hwz Hsh. exists z. split; [reflexivity |]. rewrite <- Hsh.
    apply pulled_refl; [| rewrite length_map, length_replicate, Hsh; reflexivity | exact Hwz].
    apply Forall_forall. intros v Hv. apply list_elem_of_fmap in Hv as (v' & -> & Hv').
    apply elem_of_replicate in Hv' as [-> _]. reflexivity.
  - intros Hb Hwf. apply bind_Ok in Hb as (dim & Hdim & Hb).
    apply bind_Ok in Hb as (x1 & Hx1 & Hrest).
    pose proof (roll1_Ok _ _ _ _ Hx1) as Hp1.
    pose proof (pulled_wf _ _ _ _ Hp1) as Hwf1.
    assert (Hsh1 : shape x1 = shape x) by (destruct Hp1 as (_ & H1 & _); exact H1).
    destruct (IH dims x1 x' Hrest Hwf1) as (delta & Hlen & Hp & Hinv).
    rewrite Hsh1 in Hlen, Hp, Hinv.
    exists (zip_with Z.add (unit_shift (length (shape x)) dim s) delta).
    split; [rewrite length_zip_with, unit_shift_length, Hlen; lia |].
    split; [apply (pulled_compose _ _ _ _ x1); try assumption; apply unit_shift_length |].
    intros z Hwz Hsh. rewrite Hsh, Hdim. cbn [bind].
    destruct (roll1_total z (- s) dim Hwz) as [z1 Hz1]. rewrite Hz1. cbn [bind].
    pose proof (roll1_Ok _ _ _ _ Hz1) as Hq1. rewrite Hsh in Hq1.
    pose proof (pulled_wf _ _ _ _ Hq1) as Hwz1.
    assert (Hshz1 : shape z1 = shape x) by (destruct Hq1 as (_ & H1 & _); exact H1).
    destruct (Hinv z1 Hwz1 Hshz1) as (z' & Hz' & Hq).
    exists z'. split; [exact Hz' |].
    rewrite zip_add_opp_distr, unit_shift_opp.
    apply (pulled_compose _ _ _ _ z1); try assumption;
      [apply unit_shift_length | rewrite length_map; exact Hlen].
Qed.

Lemma roll_each_round_trip (shifts dims : list Z) (x x' : tensor A) :
  wf_tensor x -> roll_each x shifts dims = Ok x' ->
  roll_each x' (map Z.opp shifts) dims = Ok x.
Proof.
  intros Hwf Hx'. destruct (roll_each_Ok shifts dims x x' Hx' Hwf) as (delta & Hlen & Hp & Hinv).
  destruct (Hinv x' (pulled_wf _ _ _ _ Hp)) as (z' & Hz' & Hq);
    [destruct Hp as (_ & H1 & _); exact H1 |].
  rewrite Hz'. f_equal.
  apply (pulled_zero (shape x) (zip_with Z.add delta (map Z.opp delta)) x z');
    [| apply zip_add_opp | rewrite length_zip_with, length_map; lia | exact Hwf].
  apply (pulled_compose _ _ _ _ x'); try assumption. rewrite length_map. exact Hlen.
Qed.

End Rolling.

Section RollRoundTrip.
Context {A : Type}.

Lemma roll_each_shape (shifts dims : list Z) (x x' : tensor A) :
  wf_tensor x -> roll_each x shifts dims = Ok x' -> shape x' = shape x /\ wf_tensor x'.
Proof.
  intros Hwf Hx'. destruct (roll_each_Ok shifts dims x x' Hx' Hwf) as (delta & _ & Hp & _).
  split; [destruct Hp as (_ & H1 & _); exact H1 | eapply pulled_wf, Hp].
Qed.

Lemma roll1_single (x y : tensor A) (s : Z) :
  roll_each x [s] [0] = Ok y <-> (shape x <> [] /\ roll1 x s 0 = Ok y).
Proof.
  simpl. unfold wrap_dim. destruct (shape x) as [|n sh] eqn:Hsh; simpl.
  - split; [discriminate | intros [[] _]; reflexivity].
  - rewrite Z.mod_0_l by lia. change (Z.to_nat 0) with 0%nat.
    destruct (roll1 x s 0) as [y'|e]; simpl; split; try discriminate;
      try (intros [_ H]; exact H); try (intros H; split; [discriminate | exact H]).
Qed.

(** Rolling by the offsets and then by the negated offsets gives the tensor
    back. *)
Lemma roll_round_trip (x x' : tensor A) (shifts : list Z) (dims : option (list Z)) :
  wf_tensor x -> roll x shifts dims = Ok x' ->
  roll x' (map Z.opp shifts) dims = Ok x /\ shape x' = shape x /\ wf_tensor x'.
Proof.
  intros Hwf. unfold roll.
  destruct shifts as [|s [|s2 shifts]]; [discriminate | |].
  - destruct (default [] dims) as [|d ds].
    + intros Hb. apply bind_Ok in Hb as (y & Hy & [= <-]). cbn [map shape data].
      set (xf := Tensor [numel (shape x)] (data x)) in *.
      assert (Hwff : wf_tensor xf).
      { unfold wf_tensor, xf. simpl. unfold wf_tensor in Hwf. lia. }
      assert (Hrt : roll_each xf [s] [0] = Ok y)
        by (apply roll1_single; split; [discriminate | exact Hy]).
      pose proof (roll_each_shape _ _ _ _ Hwff Hrt) as [Hshy Hwfy].
      apply roll_each_round_trip in Hrt; [| exact Hwff].
      apply (roll1_single y xf (- s)) in Hrt as [_ Hrt].
      assert (Hy' : Tensor [numel (shape x)] (data y) = y).
      { destruct y as [shy dy]. simpl in *. rewrite Hshy. reflexivity. }
      rewrite Hy', Hrt. cbn [bind]. split; [destruct x; reflexivity |].
      split; [reflexivity |]. unfold wf_tensor in *. simpl in *.
      rewrite Hshy in Hwfy. simpl in Hwfy. lia.
    + intros Hx'. split; [apply (roll_each_round_trip [s] (d :: ds)); assumption |].
      apply (roll_each_shape [s] (d :: ds)); assumption.
  - intros Hx'. cbn [map].
    assert (Hfw : roll_each x (s :: s2 :: shifts) (default [] dims) = Ok x')
      by (destruct (default [] dims); exact Hx').
    split; [| apply (roll_each_shape (s :: s2 :: shifts) (default [] dims)); assumption].
    transitivity (roll_each x' (- s :: - s2 :: map Z.opp shifts) (default [] dims));
      [destruct (default [] dims); reflexivity |].
    apply (roll_each_round_trip (s :: s2 :: shifts)); assumption.
Qed.

End RollRoundTrip.

(** ** The round trip *)

Lemma Reshape_init_shifts input_size equation shift_spec shift_dims (kwargs : gmap string Z)
  (self : Reshape) :
  Reshape_init input_size equation shift_spec shift_dims kwargs = Ok self ->
  shifts_inv self = map Z.opp <$> shifts self.
Proof.
  unfold Reshape_init. destruct equation as [eq|]; [| intros [= <-]; reflexivity].
  destruct (Str.split_arrow _) as [|l [|r [|? ?]]]; try discriminate.
  intros Hb. apply bind_Ok in Hb as (fw & _ & Hb).
  apply bind_Ok in Hb as (dl & _ & Hb). apply bind_Ok in Hb as (os & _ & Hb).
  apply bind_Ok in Hb as (bw & _ & [= <-]). reflexivity.
Qed.

Lemma Reshape_init_identity input_size shift_spec shift_dims (kwargs : gmap string Z) (self : Reshape) :
  Reshape_init input_size None shift_spec shift_dims kwargs = Ok self ->
  rearrange self = None /\ rearrange_inv self = None.
Proof. intros [= <-]. split; reflexivity. Qed.

Lemma forward_inverse {A : Type} input_size equation shift_spec shift_dims (kwargs : gmap string Z)
  (self : Reshape) (x y : tensor A) :
  Reshape_init input_size equation shift_spec shift_dims kwargs = Ok self ->
  map_Forall (fun _ v => 0 < v) kwargs ->
  consistent input_size (shape x) ->
  wf_tensor x ->
  forward self x = Ok y ->
  inverse_forward self y = Ok x.
Proof.
  intros Hinit Hpos Hcons Hwf Hfw.
  pose proof (Reshape_init_shifts _ _ _ _ _ _ Hinit) as Hinv.
  unfold forward in Hfw. apply bind_Ok in Hfw as (x1 & Hx1 & Hy).
  assert (Hroll : shape x1 = shape x /\ wf_tensor x1
                  /\ match shifts_inv self with
                     | Some s => roll x1 s (dims self)
                     | None => Ok x1
                     end = Ok x).
  { rewrite Hinv. destruct (shifts self) as [s|]; simpl.
    - destruct (roll_round_trip x x1 s (dims self) Hwf Hx1) as (H1 & H2 & H3). auto.
    - injection Hx1 as <-. auto. }
  destruct Hroll as (Hsh1 & Hwf1 & Hback).
  unfold inverse_forward.
  assert (Hlayer : layer_apply (rearrange_inv self) y = Ok x1).
  { destruct equation as [eq|].
    - destruct (Reshape_init_Ok _ _ _ _ _ _ Hinit)
        as (fw & bw & groups & Hf & Hb & Hwfw & Hwbw & Hlf & Hlb & Hl & Hr & Hg & Hinfer).
      rewrite Hf in Hy. rewrite Hb. simpl in *.
      apply (rearrange_round_trip fw bw x1 y input_size groups); try assumption.
      + rewrite Hlf. intros d v Hd. exact (Hpos d v Hd).
      + rewrite Hlf, Hlb. exact Hinfer.
      + rewrite Hsh1. exact Hcons.
    - destruct (Reshape_init_identity _ _ _ _ _ Hinit) as [Hf Hb].
      rewrite Hf in Hy. rewrite Hb. simpl in *. congruence. }
  rewrite Hlayer. exact Hback.
Qed.

(** C1. For a transform built by [Reshape] from an equation (or none),
    an input shape, an optional shift and positive length hints, and for a
    tensor [x] whose shape agrees with the known, positive entries of the
    input shape: if [apply] returns [y] on [x], then [applyInverse] returns
    [x] on [y], element for element. *)
Theorem round_trip {A : Type} input_size equation shift_spec shift_dims (kwargs : gmap string Z)
  (self : Reshape) (x y : tensor A) :
  Reshape_init input_size equation shift_spec shift_dims kwargs = Ok self ->
  map_Forall (fun _ v => 0 < v) kwargs ->
  consistent input_size (shape x) ->
  wf_tensor x ->
  forward self x = Ok y ->
  inverse_forward self y = Ok x.
Proof. apply forward_inverse. Qed.

Lemma round_trip_witness : inverse_forward shifted_reshape shifted_output = Ok shifted_input.
Proof.
  apply (round_trip [Some 2; Some 6] (Some "a (b c) -> (c a) b") (Some [1; -1])
           (Some [1; 0]) (<["b" := 2]> ∅) shifted_reshape shifted_input shifted_output).
  - vm_compute. reflexivity.
  - apply (bool_decide_unpack _). vm_compute. exact I.
  - unfold consistent, shifted_input. simpl.
    constructor; [intros v [= <-]; split; [reflexivity | lia] |].
    constructor; [intros v [= <-]; split; [reflexivity | lia] |].
    constructor.
  - reflexivity.
  - vm_compute. reflexivity.
Defined.

(** *** The transforms built by [Matricize] and [Tensorize] *)

Lemma set_axes_positive prefix (j : nat) (values : list (option Z)) (dl : gmap string Z) :
  map_Forall (fun _ v => 0 < v) dl ->
  map_Forall (fun _ v => 0 < v) (set_axes prefix j values dl).
Proof.
  revert j dl. induction values as [|[v|] values IH]; intros j dl Hdl; simpl;
    [exact Hdl | | apply IH, Hdl].
  apply IH. apply map_Forall_insert_2; [lia | exact Hdl].
Qed.

Lemma window_dims_lengths_positive (n : nat) num_heads head_dim grid_size patch_size :
  map_Forall (fun _ v => 0 < v)
    (window_dims_lengths n num_heads head_dim grid_size patch_size).
Proof.
  unfold window_dims_lengths. do 2 apply set_axes_positive.
  destruct num_heads as [a|], head_dim as [b|];
    repeat (apply map_Forall_insert_2; [lia |]); apply map_Forall_empty.
Qed.

Lemma merge_kwargs_positive (dl kwargs kw : gmap string Z) :
  merge_kwargs dl kwargs = Ok kw ->
  map_Forall (fun _ v => 0 < v) dl -> map_Forall (fun _ v => 0 < v) kwargs ->
  map_Forall (fun _ v => 0 < v) kw.
Proof.
  unfold merge_kwargs. destruct (forallb _ _); [| discriminate].
  intros [= <-] Hdl Hkw d v Hd.
  apply lookup_union_Some_raw in Hd as [Hd | [_ Hd]]; [exact (Hdl d v Hd) | exact (Hkw d v Hd)].
Qed.

(** The round trip for a transform built by either constructor, whose hints
    are clamped to be positive. *)
Corollary window_round_trip {A : Type} (equation : nat -> string) input_size
  num_heads head_dim grid_size patch_size shift_spec (kwargs : gmap string Z)
  (self : Reshape) (x y : tensor A) :
  window_init equation input_size num_heads head_dim grid_size patch_size shift_spec kwargs
    = Ok self ->
  map_Forall (fun _ v => 0 < v) kwargs ->
  consistent input_size (shape x) ->
  wf_tensor x ->
  forward self x = Ok y ->
  inverse_forward self y = Ok x.
Proof.
  unfold window_init. intros Hb Hpos Hcons Hwf Hy.
  apply bind_Ok in Hb as (u1 & _ & Hb). apply bind_Ok in Hb as (u2 & _ & Hb).
  apply bind_Ok in Hb as (kw & Hkw & Hinit).
  eapply forward_inverse; try eassumption.
  eapply merge_kwargs_positive; [exact Hkw | apply window_dims_lengths_positive | exact Hpos].
Qed.

(** *** Where the hypotheses matter *)

(** A hint of zero: [apply] returns on an empty tensor, and [applyInverse]
    divides by the zero length it was given. *)
Example zero_hint_breaks_round_trip :
  (let* self := Reshape_init [None; None] (Some "(a b) c -> (a c) b") None None
                  (<["a" := 0]> (<["b" := 3]> ∅)) in
   let* y := forward self (Tensor [0; 5]%nat (@nil Z)) in
   let* x := inverse_forward self y in
   Ok (shape y, shape x))
  = Err ZeroDivisionError
  /\ (let* self := Reshape_init [None; None] (Some "(a b) c -> (a c) b") None None
                     (<["a" := 0]> (<["b" := 3]> ∅)) in
      let* y := forward self (Tensor [0; 5]%nat (@nil Z)) in
      Ok (shape y))
     = Ok [0; 3]%nat.
Proof. split; vm_compute; reflexivity. Qed.

(** A declared size that the hint does not divide: the transform is built,
    with the floored length in its output size, and [apply] refuses the
    tensor of the declared shape. *)
Example indivisible_size_fails_at_apply :
  built_output_size (Reshape_init [Some 7] (Some "(a b) -> a b") None None (<["a" := 2]> ∅))
  = Ok [Some 2; Some 3]
  /\ (let* self := Reshape_init [Some 7] (Some "(a b) -> a b") None None (<["a" := 2]> ∅) in
      forward self (Tensor [7]%nat [1; 2; 3; 4; 5; 6; 7]))
     = Err ShapeMismatchError.
Proof. split; vm_compute; reflexivity. Qed.

(** ** The equations the constructors write *)

Lemma all_chars_app (p : ascii -> bool) (a b : string) :
  all_chars p (a +:+ b) = all_chars p a && all_chars p b.
Proof. unfold all_chars. rewrite of_string_app. apply forallb_app. Qed.

Lemma all_chars_uint (p : ascii -> bool) (d : Decimal.uint) :
  (forall c, Str.is_digit c = true -> p c = true) ->
  all_chars p (NilEmpty.string_of_uint d) = true.
Proof.
  intros Hp. unfold all_chars.
  induction d as [|d IH|d IH|d IH|d IH|d IH|d IH|d IH|d IH|d IH|d IH]; simpl;
    [reflexivity | ..]; rewrite IH, andb_true_r; apply Hp; reflexivity.
Qed.

Lemma all_chars_axis (p : ascii -> bool) (prefix : string) (i : nat) :
  (forall c, Str.is_digit c = true -> p c = true) ->
  all_chars p prefix = true -> all_chars p (axis prefix i) = true.
Proof.
  intros Hp Hpre. unfold axis. rewrite all_chars_app, Hpre. apply all_chars_uint, Hp.
Qed.

Lemma all_chars_join (p : ascii -> bool) (l : list string) :
  p " "%char = true -> Forall (fun s => all_chars p s = true) l ->
  all_chars p (Str.join_sp l) = true.
Proof.
  intros Hsp Hl. induction Hl as [|s l Hs Hl IH]; [reflexivity |].
  destruct l as [|s' l]; [exact Hs |].
  change (Str.join_sp (s :: s' :: l)) with (s +:+ " " +:+ Str.join_sp (s' :: l)).
  rewrite !all_chars_app, Hs, IH. unfold all_chars. simpl. rewrite Hsp. reflexivity.
Qed.

Lemma all_chars_map_axis (p : ascii -> bool) (prefix : string) (l : list nat) :
  (forall c, Str.is_digit c = true -> p c = true) ->
  all_chars p prefix = true ->
  Forall (fun s => all_chars p s = true) (map (axis prefix) l).
Proof.
  intros Hp Hpre. apply Forall_forall. intros s Hs.
  apply list_elem_of_fmap in Hs as (i & -> & _). apply all_chars_axis; assumption.
Qed.

Lemma all_chars_group (p : ascii -> bool) (i : nat) :
  plain p ->
  all_chars p ("(" +:+ axis "g" i +:+ " " +:+ axis "p" i +:+ ")") = true.
Proof.
  intros Hp. rewrite !all_chars_app.
  rewrite !all_chars_axis;
    try (apply (plain_digit p Hp));
    unfold all_chars; simpl;
    rewrite ?(plain_open p Hp), ?(plain_close p Hp), ?(plain_blank p Hp),
      ?(plain_g p Hp), ?(plain_p p Hp); reflexivity.
Qed.

Lemma all_chars_Tensorize_right (p : ascii -> bool) (n : nat) :
  plain p -> all_chars p (Tensorize_right n) = true.
Proof.
  intros Hp. unfold Tensorize_right. rewrite !all_chars_app.
  rewrite !all_chars_join;
    try (apply (plain_blank p Hp));
    try (apply all_chars_map_axis; [apply (plain_digit p Hp) |]);
    unfold all_chars; simpl;
    rewrite ?(plain_open p Hp), ?(plain_close p Hp), ?(plain_blank p Hp),
      ?(plain_g p Hp), ?(plain_p p Hp), ?(plain_d p Hp); reflexivity.
Qed.

Lemma all_chars_left_equation (p : ascii -> bool) (n : nat) :
  plain p -> p "b"%char = true -> p "h"%char = true ->
  all_chars p (left_equation n) = true.
Proof.
  intros Hp Hb Hh. unfold left_equation. rewrite all_chars_app.
  rewrite all_chars_join.
  - unfold all_chars. simpl.
    rewrite Hb, Hh, (plain_open p Hp), (plain_close p Hp), (plain_blank p Hp),
      (plain_d p Hp). reflexivity.
  - apply (plain_blank p Hp).
  - apply Forall_forall. intros s Hs. apply list_elem_of_fmap in Hs as (i & -> & _).
    apply all_chars_group, Hp.
Qed.

Lemma plain_no_dash : plain no_dash.
Proof. split; try reflexivity. intros c. unfold no_dash. by_ascii c. Qed.

Lemma plain_not_b : plain not_b.
Proof. split; try reflexivity. intros c. unfold not_b. by_ascii c. Qed.

Lemma all_chars_no_dash (s : string) :
  all_chars no_dash s = true -> Forall (fun c => Str.is_char 45 c = false) (Str.of_string s).
Proof.
  intros Hs. apply Forall_forall. intros c Hc. apply list_elem_of_In in Hc.
  apply (proj1 (forallb_forall _ _) Hs), negb_true_iff in Hc. exact Hc.
Qed.

(** Where an equation of two dash-free sides is split. *)
Lemma equation_split (lft rgt : string) :
  all_chars no_dash lft = true -> all_chars no_dash rgt = true ->
  Str.split_arrow (Str.of_string (lft +:+ " -> " +:+ rgt))
  = [Str.of_string lft ++ [" "%char]; " "%char :: Str.of_string rgt].
Proof.
  intros Hl Hr. rewrite !of_string_app.
  apply split_arrow_join; apply all_chars_no_dash; assumption.
Qed.

Lemma elem_of_rev (l : list ascii) (c : ascii) : c ∈ rev l -> c ∈ l.
Proof. intros Hc. apply list_elem_of_In, in_rev, list_elem_of_In. exact Hc. Qed.

(** The names the parser returns are made of characters of the text. *)
Lemma split_ws_aux_chars (s cur : list ascii) (t : string) (c : ascii) :
  t ∈ Str.split_ws_aux s cur -> c ∈ Str.of_string t -> c ∈ s \/ c ∈ cur.
Proof.
  revert cur. induction s as [|a s IH]; intros cur Ht Hc; simpl in Ht.
  - destruct cur as [|b cur]; [inversion Ht |].
    apply list_elem_of_singleton in Ht as ->. rewrite list_ascii_round in Hc.
    right. apply elem_of_rev. exact Hc.
  - destruct (Str.is_space a).
    + destruct cur as [|b cur].
      * destruct (IH [] Ht Hc) as [H | H]; [left; right; exact H | inversion H].
      * apply elem_of_cons in Ht as [-> | Ht].
        -- rewrite list_ascii_round in Hc. right. apply elem_of_rev. exact Hc.
        -- destruct (IH [] Ht Hc) as [H | H]; [left; right; exact H | inversion H].
    + destruct (IH (a :: cur) Ht Hc) as [H | H]; [left; right; exact H |].
      apply elem_of_cons in H as [-> | H]; [left; left | right; exact H].
Qed.

Lemma parses_chars (s : list ascii) (gs : list (list string)) :
  parses s gs ->
  forall name c, name ∈ concat gs -> c ∈ Str.of_string name -> c ∈ s.
Proof.
  induction 1 as [| c0 s gs Hbl _ IH
                  | c0 r body c' rest g gs Hbl Hlp Hsp Hg _ IH
                  | c0 r w rest gs Hbl Hlp Hw Hsp Hid _ IH];
    intros name c Hname Hc.
  - inversion Hname.
  - right. eapply IH; eassumption.
  - right. rewrite (span_app _ _ _ _ Hsp). simpl in Hname.
    apply elem_of_app in Hname as [Hname | Hname].
    + apply parse_bracket_Ok in Hg as [-> _]. apply elem_of_app. left.
      destruct (split_ws_aux_chars body [] name c Hname Hc) as [H | H];
        [exact H | inversion H].
    + apply elem_of_app. right. right. eapply IH; eassumption.
  - cbn [concat app] in Hname. apply elem_of_cons in Hname as [-> | Hname].
    + rewrite list_ascii_round in Hc. rewrite (span_app _ _ _ _ Hsp).
      apply elem_of_cons in Hc as [-> | Hc]; [left | right; apply elem_of_app; left; exact Hc].
    + right. rewrite (span_app _ _ _ _ Hsp). apply elem_of_app. right.
      eapply IH; eassumption.
Qed.

(** A side that begins with [b] and a blank has [b] as its first group. *)
Lemma parses_leading_b (t : list ascii) (gs : list (list string)) :
  parses ("b"%char :: " "%char :: t) gs -> exists gs', gs = ["b"] :: gs'.
Proof.
  inversion 1 as [| ? ? ? Hbl | ? ? ? ? ? ? ? Hbl Hlp | ? ? w ? gs' Hbl Hlp Hw Hsp]; subst;
    try discriminate.
  simpl in Hsp. injection Hsp as <- <-. eauto.
Qed.

(** No argument makes [Tensorize] return: the axes [b] and [h] of the left
    side are missing on the right side of its equation. *)
Lemma Tensorize_never_built input_size num_heads head_dim grid_size patch_size
  shift_spec (kwargs : gmap string Z) (self : Reshape) :
  Tensorize_init input_size num_heads head_dim grid_size patch_size shift_spec kwargs
  <> Ok self.
Proof.
  unfold Tensorize_init, window_init. intros Hb.
  apply bind_Ok in Hb as (u1 & _ & Hb). apply bind_Ok in Hb as (u2 & _ & Hb).
  apply bind_Ok in Hb as (kw & _ & Hinit). revert Hinit.
  set (n := (length input_size - 2)%nat). unfold Reshape_init.
  destruct (Str.split_arrow _) as [|l [|r [|? ?]]]; try discriminate.
  intros Hb. apply bind_Ok in Hb as (fw & Hfw & _).
  apply Rearrange_init_Ok in Hfw as (sl & sr & Hsplit & Hl & Hr & _ & Hwf).
  change (Tensorize_equation n)
    with (left_equation n +:+ " -> " +:+ Tensorize_right n) in Hsplit.
  rewrite equation_split in Hsplit.
  2: { apply all_chars_left_equation; [apply plain_no_dash | reflexivity..]. }
  2: { apply all_chars_Tensorize_right, plain_no_dash. }
  injection Hsplit as <- <-.
  assert (Hb : "b" ∈ concat (re_left fw)).
  { unfold left_equation in Hl. rewrite of_string_app in Hl. simpl in Hl.
    apply parses_leading_b in Hl as (gs' & ->). left. }
  apply (wf_left_right fw Hwf) in Hb.
  assert (Hc : "b"%char ∈ " "%char :: Str.of_string (Tensorize_right n)).
  { apply (parses_chars _ _ Hr "b"); [exact Hb | left]. }
  apply elem_of_cons in Hc as [Hc | Hc]; [discriminate |].
  apply list_elem_of_In in Hc.
  pose proof (all_chars_Tensorize_right not_b n plain_not_b) as Hall.
  apply (proj1 (forallb_forall _ _) Hall) in Hc. discriminate.
Qed.

(** ** The batch axis of [Matricize] *)

Lemma all_chars_Matricize_right (p : ascii -> bool) (n : nat) :
  plain p -> p "b"%char = true -> p "h"%char = true ->
  all_chars p (Matricize_right n) = true.
Proof.
  intros Hp Hb Hh. unfold Matricize_right. rewrite !all_chars_app.
  rewrite !all_chars_join;
    try (apply (plain_blank p Hp));
    try (apply all_chars_map_axis; [apply (plain_digit p Hp) |]);
    unfold all_chars; simpl;
    rewrite ?Hb, ?Hh, ?(plain_open p Hp), ?(plain_close p Hp), ?(plain_blank p Hp),
      ?(plain_g p Hp), ?(plain_p p Hp), ?(plain_d p Hp); reflexivity.
Qed.

(** The layer of the equation, and the two sides it was read from. *)
Lemma Reshape_init_layer input_size (equation : string) shift_spec shift_dims
  (kwargs : gmap string Z) (self : Reshape) :
  Reshape_init input_size (Some equation) shift_spec shift_dims kwargs = Ok self ->
  exists fw sl sr,
    rearrange self = Some fw
    /\ Str.split_arrow (Str.of_string equation) = [sl; sr]
    /\ parses sl (re_left fw) /\ parses sr (re_right fw)
    /\ re_lengths fw = kwargs /\ well_formed fw.
Proof.
  unfold Reshape_init.
  destruct (Str.split_arrow (Str.of_string equation)) as [|l [|r [|? ?]]] eqn:Hsplit;
    try discriminate.
  intros Hb. apply bind_Ok in Hb as (fw & Hfw & Hb).
  apply bind_Ok in Hb as (dl & _ & Hb). apply bind_Ok in Hb as (os & _ & Hb).
  apply bind_Ok in Hb as (bw & _ & [= <-]). simpl.
  apply Rearrange_init_Ok in Hfw as (sl & sr & Hsp & Hl & Hr & Hlen & Hwf).
  rewrite Hsplit in Hsp. injection Hsp as <- <-.
  exists fw, l, r. auto 10.
Qed.

Lemma parses_leading_bh (t : list ascii) (gs : list (list string)) :
  parses (" "%char :: "("%char :: "b"%char :: " "%char :: "h"%char :: ")"%char :: t) gs ->
  exists gs', gs = ["b"; "h"] :: gs'.
Proof.
  inversion 1 as [| ? ? ? Hbl Hrest | ? ? ? ? ? ? ? Hbl Hlp
                  | ? ? ? ? ? Hbl Hlp Hw]; subst; try discriminate.
  inversion Hrest as [| ? ? ? Hbl' | ? ? body c' rest g gs' Hbl' Hlp' Hsp Hg
                      | ? ? ? ? ? Hbl' Hlp' Hw']; subst; try discriminate.
  simpl in Hsp. injection Hsp as <- <- <-.
  vm_compute in Hg. injection Hg as <-. eauto.
Qed.

Lemma axis_not_h (prefix : ascii) (i : nat) :
  prefix <> "h"%char -> axis (String prefix "") i <> "h".
Proof.
  intros Hne. unfold axis.
  change (String prefix "" +:+ Str.of_nat i) with (String prefix (Str.of_nat i)).
  intros Heq. injection Heq as H1 _. contradiction.
Qed.

Lemma set_axes_lookup_other prefix (j : nat) (values : list (option Z))
  (dl : gmap string Z) (k : string) :
  (forall i, axis prefix i <> k) -> set_axes prefix j values dl !! k = dl !! k.
Proof.
  intros Hk. revert j dl. induction values as [|[v|] values IH]; intros j dl; simpl;
    [reflexivity | | apply IH].
  rewrite IH. apply lookup_insert_ne, Hk.
Qed.

Lemma window_dims_lengths_heads (n : nat) (heads : Z) head_dim grid_size patch_size :
  window_dims_lengths n (Some heads) head_dim grid_size patch_size !! "h"
  = Some (Z.max heads 1).
Proof.
  unfold window_dims_lengths.
  rewrite !set_axes_lookup_other by (intros i; apply axis_not_h; discriminate).
  destruct head_dim as [d|].
  - rewrite lookup_insert_ne by discriminate. apply lookup_insert_eq.
  - apply lookup_insert_eq.
Qed.

Lemma merge_kwargs_lookup (dl kwargs kw : gmap string Z) (k : string) (v : Z) :
  merge_kwargs dl kwargs = Ok kw -> dl !! k = Some v -> kw !! k = Some v.
Proof.
  unfold merge_kwargs. destruct (forallb _ _); [| discriminate].
  intros [= <-] Hk. apply lookup_union_Some_l, Hk.
Qed.

(** The shapes on the two sides of a layer that returned. *)
Lemma rearrange_apply_shapes {A : Type} (fw : Rearrange) (x y : tensor A) :
  well_formed fw -> rearrange_apply fw x = Ok y ->
  exists env,
    included (re_lengths fw) env
    /\ shape x = map (fun g => numel (map (axis_len env) g)) (re_left fw)
    /\ shape y = map (fun g => numel (map (axis_len env) g)) (re_right fw).
Proof.
  intros Hwf Hy. unfold rearrange_apply in Hy.
  apply bind_Ok in Hy as (env & Henv & Hy). apply bind_Ok in Hy as (d & _ & [= <-]).
  destruct (resolve_axes_Ok fw (shape x) env Hwf Henv) as (Hinc & Hres & Hdef).
  exists env. split; [exact Hinc |]. split; [| reflexivity].
  symmetry. apply (resolved_shape (re_lengths fw)); try assumption.
  - apply (wf_unknowns fw Hwf).
  - apply (extent_nonneg env _ Hdef).
Qed.

(** Axis 0 of what a [Matricize] transform returns is the merged
    (batch heads) axis: the batch of the input times the number of heads. *)
Lemma Matricize_forward_batch {A : Type} input_size num_heads head_dim grid_size
  patch_size shift_spec (kwargs : gmap string Z) (self : Reshape) (x y : tensor A) :
  Matricize_init input_size num_heads head_dim grid_size patch_size shift_spec kwargs
    = Ok self ->
  wf_tensor x ->
  forward self x = Ok y ->
  exists h : nat,
    batch y = (batch x * h)%nat
    /\ forall n, num_heads = Some n -> h = Z.to_nat (Z.max n 1).
Proof.
  unfold Matricize_init, window_init. intros Hb Hwf Hy.
  apply bind_Ok in Hb as (u1 & _ & Hb). apply bind_Ok in Hb as (u2 & _ & Hb).
  apply bind_Ok in Hb as (kw & Hkw & Hinit). revert Hinit.
  set (n := (length input_size - 2)%nat). intros Hinit.
  destruct (Reshape_init_layer _ _ _ _ _ _ Hinit)
    as (fw & sl & sr & Hfw & Hsplit & Hl & Hr & Hlen & Hwfw).
  change (Matricize_equation n)
    with (left_equation n +:+ " -> " +:+ Matricize_right n) in Hsplit.
  rewrite equation_split in Hsplit.
  2: { apply all_chars_left_equation; [apply plain_no_dash | reflexivity..]. }
  2: { apply all_chars_Matricize_right; [apply plain_no_dash | reflexivity..]. }
  injection Hsplit as <- <-.
  unfold left_equation in Hl. rewrite of_string_app in Hl. simpl in Hl.
  apply parses_leading_b in Hl as (gl & Hgl).
  unfold Matricize_right in Hr. rewrite !of_string_app in Hr. simpl in Hr.
  apply parses_leading_bh in Hr as (gr & Hgr).
  unfold forward in Hy. apply bind_Ok in Hy as (x1 & Hx1 & Hy).
  assert (Hsh1 : shape x1 = shape x).
  { destruct (shifts self) as [s|].
    - apply (roll_round_trip x x1 s (dims self) Hwf Hx1).
    - injection Hx1 as <-. reflexivity. }
  rewrite Hfw in Hy. simpl in Hy.
  destruct (rearrange_apply_shapes fw x1 y Hwfw Hy) as (env & Hinc & Hshx & Hshy).
  rewrite Hgl in Hshx. rewrite Hgr in Hshy. rewrite Hsh1 in Hshx.
  exists (axis_len env "h"). split.
  - unfold batch. rewrite Hshx, Hshy. simpl. lia.
  - intros heads ->. unfold axis_len.
    rewrite (Hinc "h" (Z.max heads 1)); [reflexivity |].
    rewrite Hlen. eapply merge_kwargs_lookup; [exact Hkw |].
    apply window_dims_lengths_heads.
Qed.

Lemma SW_init_windows (ctor : window_ctor) input_size num_heads head_dim grid_size
  patch_size shift_specs (kwargs : gmap string Z) (self : ShiftedWindows) :
  SW_init ctor input_size num_heads head_dim grid_size patch_size shift_specs kwargs
    = Ok self ->
  shifted_windows self <> []
  /\ forall w, w ∈ shifted_windows self ->
       exists g p s, ctor input_size num_heads head_dim g p s kwargs = Ok w.
Proof.
  unfold SW_init. intros Hb. apply bind_Ok in Hb as (ss & _ & Hb).
  apply bind_Ok in Hb as (ws & Hws & Hb).
  destruct ws as [|w0 ws]; [discriminate |]. injection Hb as <-. simpl.
  split; [discriminate |]. intros w Hw. apply mapR_Ok in Hws.
  apply list_elem_of_lookup in Hw as [j Hj].
  destruct (Forall2_lookup_r _ _ _ _ _ Hws Hj) as (s & _ & Hs). eauto.
Qed.

(** The batch law of the shifted windows: with [V] variants of [h] heads, a
    batch of [B] comes out as [B * h * V]. *)
Lemma SWMatricize_forward_batch {A : Type} input_size (heads : Z) head_dim grid_size
  patch_size shift_specs (kwargs : gmap string Z) (self : ShiftedWindows)
  (x y : tensor A) :
  SWMatricize_init input_size (Some heads) head_dim grid_size patch_size shift_specs kwargs
    = Ok self ->
  wf_tensor x ->
  SW_forward self x = Ok y ->
  batch y = (batch x * Z.to_nat (Z.max heads 1) * length (shifted_windows self))%nat.
Proof.
  intros Hinit Hwf Hy. apply SW_init_windows in Hinit as [_ Hws].
  apply (SW_forward_uniform_batch self x y _ Hy).
  intros w yj Hw Hyj. destruct (Hws w Hw) as (g & p & s & Hctor).
  destruct (Matricize_forward_batch _ _ _ _ _ _ _ _ x yj Hctor Hwf Hyj) as (h & Hb & Hh).
  rewrite Hb, (Hh heads eq_refl). reflexivity.
Qed.

(** *** The way back *)

Lemma parses_leading_b_hd (t : list ascii) (gs : list (list string)) :
  parses ("b"%char :: " "%char :: "("%char :: "h"%char :: " "%char :: "d"%char
          :: ")"%char :: t) gs ->
  exists gs', gs = ["b"] :: ["h"; "d"] :: gs'.
Proof.
  inversion 1 as [| ? ? ? Hbl | ? ? ? ? ? ? ? Hbl Hlp
                  | ? ? w ? gs1 Hbl Hlp Hw Hsp Hid Hrest]; subst; try discriminate.
  simpl in Hsp. injection Hsp as <- <-.
  inversion Hrest as [| ? ? ? Hbl' Hrest' | ? ? ? ? ? ? ? Hbl' Hlp'
                      | ? ? ? ? ? Hbl' Hlp' Hw']; subst; try discriminate.
  inversion Hrest' as [| ? ? ? Hbl'' | ? ? body c' rest g gs2 Hbl'' Hlp'' Hsp' Hg
                       | ? ? ? ? ? Hbl'' Hlp'' Hw'']; subst; try discriminate.
  simpl in Hsp'. injection Hsp' as <- <- <-.
  vm_compute in Hg. injection Hg as <-. eauto.
Qed.

(** A hint for an axis of a group that inference reaches, and that no later
    group names, is among the inferred lengths. *)
Lemma infer_loop_keeps groups size (dl inferred res : gmap string Z) (i : nat)
  group (s : option Z) (d : string) (v : Z) :
  groups !! i = Some group -> size !! i = Some s ->
  d ∈ group_dims group -> dl !! d = Some v ->
  (forall j g, (i < j)%nat -> groups !! j = Some g -> d ∉ group_dims g) ->
  infer_loop groups size dl inferred = Ok res ->
  res !! d = Some v.
Proof.
  revert size inferred i. induction groups as [|g groups IH];
    intros size inferred i Hg Hs Hd Hv Hlater; [discriminate |].
  destruct size as [|s0 size]; [destruct i; discriminate |].
  destruct i as [|i].
  - injection Hg as ->. injection Hs as ->. simpl.
    assert (Hrest : forall g, g ∈ groups -> d ∉ group_dims g).
    { intros g Hg. apply list_elem_of_lookup in Hg as [j Hj].
      apply (Hlater (S j) g); [lia | exact Hj]. }
    destruct s as [s|].
    + destruct (_ <? _).
      * intros Hr. rewrite (infer_loop_preserve _ _ _ _ _ d Hrest Hr).
        apply copy_known_lookup_in; assumption.
      * destruct (_ =? _); [discriminate |].
        intros Hr. rewrite (infer_loop_preserve _ _ _ _ _ d Hrest Hr).
        rewrite (fill_dims_lookup_in _ _ _ _ _ Hd), Hv. reflexivity.
    + intros Hr. rewrite (infer_loop_preserve _ _ _ _ _ d Hrest Hr).
      apply copy_known_lookup_in; assumption.
  - assert (Hl : forall j g', (i < j)%nat -> groups !! j = Some g' -> d ∉ group_dims g').
    { intros j g' Hj Hg'. apply (Hlater (S j) g'); [lia | exact Hg']. }
    simpl in Hg, Hs. simpl.
    destruct s0 as [s0|].
    + destruct (_ <? _); [eapply IH; eassumption |].
      destruct (_ =? _); [discriminate | eapply IH; eassumption].
    + eapply IH; eassumption.
Qed.

Lemma rearrange_apply_wf {A : Type} (fw : Rearrange) (x y : tensor A) :
  rearrange_apply fw x = Ok y -> wf_tensor y.
Proof.
  unfold rearrange_apply. intros Hy.
  apply bind_Ok in Hy as (env & _ & Hy). apply bind_Ok in Hy as (d & Hd & [= <-]).
  apply gather_Ok in Hd as [Hlen _]. unfold wf_tensor. simpl.
  rewrite Hlen. apply numel_concat.
Qed.

(** The inverse of a [Matricize] transform splits the merged (batch heads)
    axis again: a batch of [B * h] goes back to a batch of [B]. *)
Lemma Matricize_inverse_batch {A : Type} input_size (heads : Z) head_dim grid_size
  patch_size shift_spec (kwargs : gmap string Z) (self : Reshape) (z t : tensor A) :
  Matricize_init input_size (Some heads) head_dim grid_size patch_size shift_spec kwargs
    = Ok self ->
  (2 <= length input_size)%nat ->
  inverse_forward self z = Ok t ->
  batch z = (batch t * Z.to_nat (Z.max heads 1))%nat.
Proof.
  unfold Matricize_init, window_init. intros Hb Hlen2 Ht.
  apply bind_Ok in Hb as (u1 & _ & Hb). apply bind_Ok in Hb as (u2 & _ & Hb).
  apply bind_Ok in Hb as (kw & Hkw & Hinit). revert Hinit.
  set (n := (length input_size - 2)%nat). intros Hinit.
  destruct (Reshape_init_layer _ _ _ _ _ _ Hinit)
    as (fw & sl & sr & Hfw & Hsplit & Hl & Hr & Hlen & Hwfw).
  destruct (Reshape_init_Ok _ _ _ _ _ _ Hinit)
    as (fw' & bw & groups & Hfw' & Hbw & _ & Hwbw & _ & Hlb & Hlbw & Hrbw & Hg & Hinfer).
  rewrite Hfw in Hfw'. injection Hfw' as <-.
  change (Matricize_equation n)
    with (left_equation n +:+ " -> " +:+ Matricize_right n) in Hsplit.
  rewrite equation_split in Hsplit.
  2: { apply all_chars_left_equation; [apply plain_no_dash | reflexivity..]. }
  2: { apply all_chars_Matricize_right; [apply plain_no_dash | reflexivity..]. }
  injection Hsplit as <- <-.
  unfold left_equation in Hl. rewrite of_string_app in Hl. simpl in Hl.
  apply parses_leading_b_hd in Hl as (gl & Hgl).
  unfold Matricize_right in Hr. rewrite !of_string_app in Hr. simpl in Hr.
  apply parses_leading_bh in Hr as (gr & Hgr).
  (* the hint for [h] is among the inferred lengths *)
  assert (Hh : dim_lengths self !! "h" = Some (Z.max heads 1)).
  { rewrite Hgl in Hg.
    destruct groups as [|g0 [|g1 groups]]; try discriminate.
    simpl in Hg. injection Hg as Hg0 Hg1 Hgs.
    destruct input_size as [|s0 [|s1 input_size]]; try (simpl in Hlen2; lia).
    apply (infer_loop_keeps (g0 :: g1 :: groups) (s0 :: s1 :: input_size) kw ∅
             (dim_lengths self) 1 g1 s1 "h" (Z.max heads 1)); try reflexivity.
    - rewrite Hg1. left.
    - eapply merge_kwargs_lookup; [exact Hkw | apply window_dims_lengths_heads].
    - intros j g Hj Hjg Hin.
      destruct j as [|[|j]]; try lia. simpl in Hjg.
      pose proof (wf_left_nodup fw Hwfw) as Hnd. rewrite Hgl in Hnd. simpl in Hnd.
      apply NoDup_cons in Hnd as [_ Hnd]. apply NoDup_cons in Hnd as [Hnh _].
      apply Hnh. right. apply list_elem_of_In, in_concat.
      exists (group_dims g). split; [| apply list_elem_of_In, Hin].
      rewrite <- Hgs. apply in_map, list_elem_of_In, list_elem_of_lookup. eauto.
    - exact Hinfer. }
  unfold inverse_forward in Ht. apply bind_Ok in Ht as (out & Hout & Ht).
  rewrite Hbw in Hout. simpl in Hout.
  assert (Hsh : shape t = shape out).
  { destruct (shifts_inv self) as [s|].
    - apply (roll_round_trip out t s (dims self) (rearrange_apply_wf _ _ _ Hout) Ht).
    - injection Ht as <-. reflexivity. }
  destruct (rearrange_apply_shapes bw z out Hwbw Hout) as (env & Hinc & Hshz & Hsho).
  rewrite Hlbw, Hgr in Hshz. rewrite Hrbw, Hgl in Hsho.
  unfold batch. rewrite Hsh, Hshz, Hsho. simpl.
  assert (He : axis_len env "h" = Z.to_nat (Z.max heads 1)).
  { unfold axis_len. rewrite (Hinc "h" (Z.max heads 1)); [reflexivity |].
    rewrite Hlb. exact Hh. }
  rewrite He. lia.
Qed.

(** The batch law of the way back: with [V] variants of [h] heads, an input
    of [B * V] rows comes back with a batch of [B / h]. *)
Lemma SWMatricize_inverse_batch {A : Type} `{Scalar A} input_size (heads : Z) head_dim
  grid_size patch_size shift_specs (kwargs : gmap string Z) (self : ShiftedWindows)
  (x y : tensor A) (B : nat) (tail : list nat) :
  SWMatricize_init input_size (Some heads) head_dim grid_size patch_size shift_specs kwargs
    = Ok self ->
  (2 <= length input_size)%nat ->
  shape x = (B * length (shifted_windows self))%nat :: tail ->
  SW_inverse_forward self x = Ok y ->
  B = (batch y * Z.to_nat (Z.max heads 1))%nat.
Proof.
  intros Hinit Hlen Hsh Hy. apply SW_init_windows in Hinit as [Hne Hws].
  assert (HV : length (shifted_windows self) <> 0%nat).
  { destruct (shifted_windows self); [congruence | discriminate]. }
  destruct (proj1 (SW_inverse_forward_chunks self x y B tail HV Hsh) Hy)
    as (ts & Hts & Hshape & _).
  unfold inverted_chunks in Hts.
  destruct (shifted_windows self) as [|w ws] eqn:Ew; [congruence |].
  simpl in Hts. inversion Hts as [|? t ? ts' Ht _]; subst. simpl in Ht.
  destruct (Hws w ltac:(left)) as (g & p & s & Hctor).
  pose proof (Matricize_inverse_batch _ _ _ _ _ _ _ _ _ t Hctor Hlen Ht) as Hb.
  inversion Hshape as [|? ? Hst _]; subst.
  unfold batch in Hb |- *. simpl in Hb. rewrite <- Hst. exact Hb.
Qed.

(** [SWTensorize] builds its variants with [Tensorize], so no argument makes
    it return either. *)
Lemma SWTensorize_never_built input_size num_heads head_dim grid_size patch_size
  shift_specs (kwargs : gmap string Z) (self : ShiftedWindows) :
  SWTensorize_init input_size num_heads head_dim grid_size patch_size shift_specs kwargs
  <> Ok self.
Proof.
  intros Hinit. apply SW_init_windows in Hinit as [Hne Hws].
  destruct (shifted_windows self) as [|w ws]; [congruence |].
  destruct (Hws w ltac:(left)) as (g & p & s & Hctor).
  exact (Tensorize_never_built _ _ _ _ _ _ _ _ Hctor).
Qed.

(** * Further properties of the code *)

(** ** What inference returns *)

Lemma copy_known_lookup dims (dl inferred : gmap string Z) (d : string) (v : Z) :
  copy_known dims dl inferred !! d = Some v ->
  inferred !! d = Some v \/ (d ∈ dims /\ dl !! d = Some v).
Proof.
  unfold copy_known. revert inferred.
  induction dims as [|a dims IH]; intros inferred Hl; simpl in Hl; [left; exact Hl |].
  destruct (IH _ Hl) as [Hi | [Hin Hd]]; [| right; split; [right; exact Hin | exact Hd]].
  destruct (dl !! a) as [w|] eqn:Ha; [| left; exact Hi].
  destruct (decide (a = d)) as [-> | Hne].
  - rewrite lookup_insert_eq in Hi. injection Hi as ->. right. split; [left | exact Ha].
  - rewrite lookup_insert_ne in Hi by exact Hne. left. exact Hi.
Qed.

Lemma fill_dims_lookup dims (dl inferred : gmap string Z) (u : Z) (d : string) (v : Z) :
  fill_dims dims dl u inferred !! d = Some v ->
  inferred !! d = Some v \/ (d ∈ dims /\ v = default u (dl !! d)).
Proof.
  intros Hl. destruct (decide (d ∈ dims)) as [Hin | Hnin].
  - rewrite (fill_dims_lookup_in _ _ _ _ _ Hin) in Hl. injection Hl as <-. right. eauto.
  - rewrite (fill_dims_lookup_notin _ _ _ _ _ Hnin) in Hl. left. exact Hl.
Qed.

(** An entry of the result was there before the loop, or belongs to a group
    that the loop paired with an entry of [size], and then a hint decides it. *)
Lemma infer_loop_lookup groups size (dl inferred res : gmap string Z) (d : string) (v : Z) :
  infer_loop groups size dl inferred = Ok res ->
  res !! d = Some v ->
  inferred !! d = Some v
  \/ (exists i group, groups !! i = Some group /\ (i < length size)%nat
                      /\ d ∈ group_dims group)
     /\ (forall h, dl !! d = Some h -> v = h).
Proof.
  revert size inferred.
  induction groups as [|g groups IH]; intros [|s size] inferred Hr Hv; simpl in Hr;
    try (injection Hr as <-; left; exact Hv).
  assert (Hstep : forall inferred',
             infer_loop groups size dl inferred' = Ok res ->
             (inferred' !! d = Some v ->
              inferred !! d = Some v
              \/ (d ∈ group_dims g /\ forall h, dl !! d = Some h -> v = h)) ->
             inferred !! d = Some v
             \/ (exists i group, (g :: groups) !! i = Some group
                                 /\ (i < length (s :: size))%nat /\ d ∈ group_dims group)
                /\ (forall h, dl !! d = Some h -> v = h)).
  { intros inferred' Hr' Hfrom.
    destruct (IH _ _ Hr' Hv) as [Hi | [(i & group & Hg & Hi & Hin) Hh]].
    - destruct (Hfrom Hi) as [Hold | [Hin Hh]]; [left; exact Hold |].
      right. split; [| exact Hh]. exists 0%nat, g. simpl. repeat split; [lia | exact Hin].
    - right. split; [| exact Hh]. exists (S i), group. simpl. repeat split; [exact Hg | lia | exact Hin]. }
  assert (Hcopy : copy_known (group_dims g) dl inferred !! d = Some v ->
                  inferred !! d = Some v
                  \/ (d ∈ group_dims g /\ forall h, dl !! d = Some h -> v = h)).
  { intros Hc. apply copy_known_lookup in Hc as [Hc | [Hin Hd]]; [left; exact Hc |].
    right. split; [exact Hin |]. intros h Hh. congruence. }
  destruct s as [s|]; [| exact (Hstep _ Hr Hcopy)].
  destruct (_ <? _); [exact (Hstep _ Hr Hcopy) |].
  destruct (_ =? _); [discriminate |].
  apply (Hstep _ Hr). intros Hf.
  apply fill_dims_lookup in Hf as [Hf | [Hin ->]]; [left; exact Hf |].
  right. split; [exact Hin |]. intros h Hh. rewrite Hh. reflexivity.
Qed.

(** X1. [infer_dims] never invents an axis and never overrides a hint: an
    entry of its result names a member of a group of the pattern that [zip]
    paired with an entry of [size] (groups beyond the length of [size] are
    not looked at), and where the caller gave a length for that axis, the
    entry is this length. *)
Theorem infer_dims_keeps_hints pattern size (dim_lengths res : gmap string Z)
  (d : string) (v : Z) :
  infer_dims pattern size dim_lengths = Ok res ->
  res !! d = Some v ->
  (exists i group, findall pattern !! i = Some group /\ (i < length size)%nat
                   /\ d ∈ group_dims group)
  /\ (forall h, dim_lengths !! d = Some h -> v = h).
Proof.
  unfold infer_dims. intros Hr Hv.
  destruct (infer_loop_lookup _ _ _ _ _ _ _ Hr Hv) as [He | Hres]; [| exact Hres].
  rewrite lookup_empty in He. discriminate.
Qed.

Lemma infer_dims_keeps_hints_witness :
  (exists i group, findall "b (h d) w" !! i = Some group /\ (i < 2)%nat
                   /\ "h" ∈ group_dims group)
  /\ (forall h, (<["h" := 2]> (<["w" := 5]> ∅) : gmap string Z) !! "h" = Some h -> 2 = h).
Proof.
  apply (infer_dims_keeps_hints "b (h d) w" [None; Some 8]
           (<["h" := 2]> (<["w" := 5]> ∅)) (<["d" := 4]> (<["h" := 2]> ∅)) "h" 2).
  - vm_compute. reflexivity.
  - reflexivity.
Defined.

(** ** When inference raises *)

Lemma zprod_zero (l : list Z) : zprod l = 0 <-> 0 ∈ l.
Proof.
  induction l as [|a l IH]; simpl.
  - split; [lia | inversion 1].
  - rewrite elem_of_cons, <- IH. split; [nia | intros [<- | ->]; lia].
Qed.

Lemma known_product_zero dims (dl : gmap string Z) :
  known_product dims dl = 0 <-> exists d, d ∈ dims /\ dl !! d = Some 0.
Proof.
  rewrite known_product_zprod, zprod_zero. split.
  - intros Hz. apply list_elem_of_omap in Hz as (d & Hd & Hz). eauto.
  - intros (d & Hd & Hz). apply list_elem_of_omap. eauto.
Qed.

Lemma count_known_unknown dims (dl : gmap string Z) :
  (count_known dims dl <? Z.of_nat (length dims) - 1) = false
  <-> (length (unknown_axes dl dims) <= 1)%nat.
Proof.
  pose proof (known_unknown_length dims dl) as Hlen. unfold count_known.
  rewrite Z.ltb_ge. lia.
Qed.

Lemma infer_loop_Err groups size (dl inferred : gmap string Z) (e : error) :
  infer_loop groups size dl inferred = Err e <->
  e = ZeroDivisionError
  /\ exists i group s d,
       groups !! i = Some group /\ size !! i = Some (Some s)
       /\ (length (unknown_axes dl (group_dims group)) <= 1)%nat
       /\ d ∈ group_dims group /\ dl !! d = Some 0.
Proof.
  revert size inferred.
  induction groups as [|g groups IH]; intros size inferred.
  { simpl. split; [discriminate |]. intros (_ & i & ? & ? & ? & Hg & _). discriminate. }
  destruct size as [|s0 size].
  { simpl. split; [discriminate |]. intros (_ & i & ? & ? & ? & _ & Hs & _). discriminate. }
  assert (Hrec : forall inferred',
             (forall s d, s0 = Some s ->
                (length (unknown_axes dl (group_dims g)) <= 1)%nat ->
                d ∈ group_dims g -> dl !! d = Some 0 -> False) ->
             infer_loop groups size dl inferred' = Err e <->
             e = ZeroDivisionError
             /\ exists i group s d,
                  (g :: groups) !! i = Some group /\ (s0 :: size) !! i = Some (Some s)
                  /\ (length (unknown_axes dl (group_dims group)) <= 1)%nat
                  /\ d ∈ group_dims group /\ dl !! d = Some 0).
  { intros inferred' Hhead. rewrite IH. split.
    - intros (-> & i & group & s & d & Hg & Hs & Hu & Hd & Hz). split; [reflexivity |].
      exists (S i), group, s, d. auto.
    - intros (-> & i & group & s & d & Hg & Hs & Hu & Hd & Hz). split; [reflexivity |].
      destruct i as [|i].
      + simpl in Hg, Hs. injection Hg as <-. injection Hs as Hs.
        exfalso. exact (Hhead s d Hs Hu Hd Hz).
      + exists i, group, s, d. auto. }
  simpl. destruct s0 as [s0|]; [| apply Hrec; discriminate].
  destruct (count_known (group_dims g) dl <? Z.of_nat (length (group_dims g)) - 1) eqn:Hc.
  { apply Hrec. intros s d _ Hu _ _. apply count_known_unknown in Hu. congruence. }
  apply count_known_unknown in Hc.
  destruct (Z.eqb_spec (known_product (group_dims g) dl) 0) as [Hz | Hnz].
  - apply known_product_zero in Hz as (d & Hd & Hz). split.
    + intros [= <-]. split; [reflexivity |]. exists 0%nat, g, s0, d. auto.
    + intros [-> _]. reflexivity.
  - apply Hrec. intros s d _ _ Hd Hz. apply Hnz, known_product_zero. eauto.
Qed.

(** X2. [infer_dims] raises nothing but a [ZeroDivisionError], and raises it
    exactly when the hint 0 is given for a member of a group that is paired
    with a known size and has at most one member without a hint. (A zero
    hint in a group whose size is [None], or in one with two members
    without a hint, is copied to the result.) *)
Theorem infer_dims_zero_division pattern size (dim_lengths : gmap string Z) (e : error) :
  infer_dims pattern size dim_lengths = Err e <->
  e = ZeroDivisionError
  /\ exists i group s d,
       findall pattern !! i = Some group /\ size !! i = Some (Some s)
       /\ (length (unknown_axes dim_lengths (group_dims group)) <= 1)%nat
       /\ d ∈ group_dims group /\ dim_lengths !! d = Some 0.
Proof. apply infer_loop_Err. Qed.

(** ** The sizes computed from a pattern *)

Lemma reduce_mul_zprod (l : list Z) : l <> [] -> reduce_mul l = Ok (zprod l).
Proof.
  destruct l as [|x l]; [congruence |]. intros _. simpl.
  rewrite fold_left_mul. reflexivity.
Qed.

Lemma omap_nil_known (dims : list string) (dl : gmap string Z) :
  forallb (fun d => bool_decide (is_Some (dl !! d))) dims = true ->
  omap (fun d => dl !! d) dims = [] -> dims = [].
Proof.
  destruct dims as [|a dims]; [reflexivity |]. simpl.
  intros Hk. apply andb_true_iff in Hk as [Ha _]. apply bool_decide_eq_true in Ha as [v Ha].
  rewrite Ha. discriminate.
Qed.

Lemma group_size_Err (dl : gmap string Z) (dims : list string) (e : error) :
  group_size dl dims = Err e <-> e = TypeError /\ dims = [].
Proof.
  unfold group_size. destruct (forallb _ dims) eqn:Hk.
  - destruct (omap (fun d => dl !! d) dims) as [|x l] eqn:Ho.
    + apply (omap_nil_known _ _ Hk) in Ho. subst dims. simpl.
      split; [intros [= <-]; auto | intros [-> _]; reflexivity].
    + simpl. split; [discriminate |]. intros [_ ->]. discriminate.
  - split; [discriminate |]. intros [_ ->]. discriminate.
Qed.

Lemma group_size_Ok (dl : gmap string Z) (dims : list string) (r : option Z) :
  group_size dl dims = Ok r ->
  match r with
  | Some p => exists vs, Forall2 (fun d v => dl !! d = Some v) dims vs /\ p = zprod vs
  | None => exists d, d ∈ dims /\ dl !! d = None
  end.
Proof.
  unfold group_size. destruct (forallb _ dims) eqn:Hk.
  - intros Hb. apply bind_Ok in Hb as (p & Hp & [= <-]).
    exists (omap (fun d => dl !! d) dims). split.
    + clear Hp. induction dims as [|a dims IH]; simpl; [constructor |].
      simpl in Hk. apply andb_true_iff in Hk as [Ha Hk].
      apply bool_decide_eq_true in Ha as [v Ha]. rewrite Ha. constructor; [exact Ha | auto].
    + destruct (omap (fun d => dl !! d) dims) as [|x l] eqn:Ho; [discriminate |].
      rewrite reduce_mul_zprod in Hp by discriminate. congruence.
  - intros [= <-]. clear -Hk. induction dims as [|a dims IH]; [discriminate |].
    simpl in Hk. apply andb_false_iff in Hk as [Ha | Hk].
    + apply bool_decide_eq_false in Ha. exists a. split; [left |].
      destruct (dl !! a); [exfalso; apply Ha; eauto | reflexivity].
    + destruct (IH Hk) as (d & Hd & Hn). exists d. split; [right; exact Hd | exact Hn].
Qed.

Lemma mapR_one_error {T U : Type} (f : T -> result U) (l : list T) (e0 : error) (x : T) :
  (forall y e, f y = Err e -> e = e0) ->
  x ∈ l -> f x = Err e0 -> mapR f l = Err e0.
Proof.
  intros Hall Hx Hfx. induction l as [|a l IH]; [inversion Hx |]. simpl.
  destruct (f a) as [b|e] eqn:Hfa; simpl.
  - apply elem_of_cons in Hx as [<- | Hx]; [congruence |].
    rewrite (IH Hx). reflexivity.
  - rewrite (Hall a e Hfa). reflexivity.
Qed.

Lemma omap_cons_eq {T U : Type} (f : T -> option U) (a : T) (l : list T) :
  omap f (a :: l) = match f a with Some y => y :: omap f l | None => omap f l end.
Proof. reflexivity. Qed.

Lemma compute_size_Err pattern (dl : gmap string Z) (e : error) :
  compute_size pattern dl = Err e <->
  e = TypeError /\ exists group, group ∈ findall pattern /\ group_dims group = [].
Proof.
  unfold compute_size. split.
  - intros He. apply mapR_Err in He as (group & Hg & He).
    apply group_size_Err in He as [-> Hd]. eauto.
  - intros (-> & group & Hg & Hd).
    apply (mapR_one_error _ _ _ group); [| exact Hg | apply group_size_Err; auto].
    intros y e He. apply group_size_Err in He as [-> _]. reflexivity.
Qed.

(** X3. [compute_size] raises nothing but a [TypeError], and raises it
    exactly when a pair of parentheses of the pattern holds white space
    only: the product of no lengths at all, taken without an initial value.
    When it returns there is one entry per group of the pattern, [None]
    where a member of the group has no length and the product of the
    lengths of the members otherwise. *)
Theorem compute_size_entries pattern (dim_lengths : gmap string Z) :
  (forall e, compute_size pattern dim_lengths = Err e <->
             e = TypeError
             /\ exists group, group ∈ findall pattern /\ group_dims group = [])
  /\ (forall out, compute_size pattern dim_lengths = Ok out ->
        Forall2 (fun group r =>
                   match r with
                   | Some p =>
                       exists vs,
                         Forall2 (fun d v => dim_lengths !! d = Some v) (group_dims group) vs
                         /\ p = zprod vs
                   | None => exists d, d ∈ group_dims group /\ dim_lengths !! d = None
                   end) (findall pattern) out).
Proof.
  split; [intros e; apply compute_size_Err |].
  unfold compute_size. intros out Hout. apply mapR_Ok in Hout.
    eapply Forall2_impl; [exact Hout |]. intros group r Hr. simpl in Hr.
    apply group_size_Ok in Hr. exact Hr.
Qed.

(** ** Inference, then the size of the same pattern *)

Lemma omap_all_known (dims : list string) (dl res : gmap string Z) :
  unknown_axes dl dims = [] ->
  (forall d h, d ∈ dims -> dl !! d = Some h -> res !! d = Some h) ->
  omap (fun d => res !! d) dims = omap (fun d => dl !! d) dims
  /\ forallb (fun d => bool_decide (is_Some (res !! d))) dims = true.
Proof.
  unfold unknown_axes. induction dims as [|a dims IH]; intros Hu Hk; [auto |].
  rewrite filter_cons in Hu. destruct (decide (dl !! a = None)) as [Hn | Hs]; [discriminate |].
  destruct (dl !! a) as [h|] eqn:Ha; [| congruence].
  destruct (IH Hu (fun d h' Hd => Hk d h' (list_elem_of_further _ _ _ Hd))) as [Ho Hf].
  rewrite !omap_cons_eq, (Hk a h ltac:(left) Ha), Ha, Ho. split; [reflexivity |].
  cbn [forallb]. rewrite Hf, andb_true_r, (Hk a h ltac:(left) Ha).
  apply bool_decide_eq_true. eauto.
Qed.

Lemma zprod_one_unknown (dims : list string) (dl res : gmap string Z) (d : string) (q : Z) :
  unknown_axes dl dims = [d] ->
  (forall d' h, d' ∈ dims -> dl !! d' = Some h -> res !! d' = Some h) ->
  res !! d = Some q ->
  zprod (omap (fun d => res !! d) dims) = q * zprod (omap (fun d => dl !! d) dims)
  /\ forallb (fun d => bool_decide (is_Some (res !! d))) dims = true
  /\ omap (fun d => res !! d) dims <> [].
Proof.
  unfold unknown_axes. induction dims as [|a dims IH]; intros Hu Hk Hq; [discriminate |].
  rewrite filter_cons in Hu. destruct (decide (dl !! a = None)) as [Hn | Hs].
  - injection Hu as -> Hu.
    destruct (omap_all_known dims dl res Hu
                (fun d h' Hd => Hk d h' (list_elem_of_further _ _ _ Hd))) as [Ho Hf].
    rewrite !omap_cons_eq, Hq, Hn, Ho. split; [reflexivity |]. split; [| discriminate].
    cbn [forallb]. rewrite Hf, andb_true_r, Hq. apply bool_decide_eq_true. eauto.
  - destruct (dl !! a) as [h|] eqn:Ha; [| congruence].
    destruct (IH Hu (fun d h' Hd => Hk d h' (list_elem_of_further _ _ _ Hd)) Hq)
      as (Hz & Hf & _).
    rewrite !omap_cons_eq, (Hk a h ltac:(left) Ha), Ha. cbn [zprod foldr].
    fold (zprod (omap (fun d => res !! d) dims)). fold (zprod (omap (fun d => dl !! d) dims)).
    rewrite Hz. split; [lia |]. split; [| discriminate].
    cbn [forallb]. rewrite Hf, andb_true_r, (Hk a h ltac:(left) Ha).
    apply bool_decide_eq_true. eauto.
Qed.

Lemma NoDup_concat_later (gs : list (list string)) (i j : nat) (g g' : list string)
  (d : string) :
  NoDup (concat gs) -> gs !! i = Some g -> gs !! j = Some g' -> (i < j)%nat ->
  d ∈ g -> d ∉ g'.
Proof.
  revert i j. induction gs as [|a gs IH]; intros i j Hnd Hi Hj Hlt Hd; [discriminate |].
  simpl in Hnd. apply NoDup_app in Hnd as (_ & Hcross & Hnd).
  destruct j as [|j]; [lia |]. simpl in Hj. destruct i as [|i].
  - injection Hi as ->. intros Hd'. apply (Hcross d Hd).
    apply list_elem_of_In, in_concat. exists g'.
    split; [apply list_elem_of_In, list_elem_of_lookup; eauto | apply list_elem_of_In, Hd'].
  - simpl in Hi. apply (IH i j Hnd Hi Hj ltac:(lia) Hd).
Qed.

(** X4. Inference and [compute_size] agree on a divisible group. Let no axis
    be named twice in the pattern, no hint be zero and no pair of
    parentheses be empty of names. For a group paired with the known size
    [s], with exactly one member without a hint and hints whose product
    divides [s], [compute_size] of the same pattern under the inferred
    lengths returns, and its entry for the group is [s] again. *)
Theorem compute_size_of_inferred pattern size (dim_lengths : gmap string Z) (i : nat)
  group (s : Z) (d : string) :
  NoDup (concat (map group_dims (findall pattern))) ->
  Forall (fun g => group_dims g <> []) (findall pattern) ->
  map_Forall (fun _ v => v <> 0) dim_lengths ->
  findall pattern !! i = Some group ->
  size !! i = Some (Some s) ->
  unknown_axes dim_lengths (group_dims group) = [d] ->
  (known_product (group_dims group) dim_lengths | s) ->
  exists res out,
    infer_dims pattern size dim_lengths = Ok res
    /\ compute_size pattern res = Ok out
    /\ out !! i = Some (Some s).
Proof.
  intros Hnd Hne Hnz Hg Hs Hu Hdiv.
  assert (Hlater : forall d', d' ∈ group_dims group ->
             forall j g, (i < j)%nat -> findall pattern !! j = Some g -> d' ∉ group_dims g).
  { intros d' Hd' j g Hj Hjg.
    apply (NoDup_concat_later (map group_dims (findall pattern)) i j (group_dims group));
      [exact Hnd | | | exact Hj | exact Hd']; rewrite list_lookup_fmap.
    - rewrite Hg. reflexivity.
    - rewrite Hjg. reflexivity. }
  assert (Hd : d ∈ group_dims group).
  { assert (Hin : d ∈ unknown_axes dim_lengths (group_dims group)) by (rewrite Hu; left).
    apply list_elem_of_filter in Hin as [_ Hin]. exact Hin. }
  destruct (infer_loop_floor (findall pattern) size dim_lengths ∅ i group s d
              Hnz Hg Hs Hu (Hlater d Hd)) as (res & Hres & Hq).
  exists res.
  destruct (compute_size pattern res) as [out|e] eqn:Hout.
  2: { apply compute_size_Err in Hout as (_ & g & Hgin & Hnil).
       exfalso. exact (proj1 (Forall_forall _ _) Hne g Hgin Hnil). }
  exists out. split; [exact Hres |]. split; [reflexivity |].
  unfold compute_size in Hout. apply mapR_Ok in Hout.
  destruct (Forall2_lookup_l _ _ _ _ _ Hout Hg) as (r & Hr & Hgs).
  rewrite Hr. f_equal.
  destruct (zprod_one_unknown (group_dims group) dim_lengths res d _ Hu
              (fun d' h Hd' Hh =>
                 infer_loop_keeps _ _ _ _ _ i group (Some s) d' h Hg Hs Hd' Hh
                   (Hlater d' Hd') Hres) Hq) as (Hz & Hf & Hnn).
  unfold group_size in Hgs. rewrite Hf in Hgs.
  rewrite reduce_mul_zprod in Hgs by exact Hnn. simpl in Hgs. injection Hgs as <-.
  rewrite Hz, <- known_product_zprod. f_equal.
  destruct Hdiv as [k ->].
  rewrite Z.div_mul by (apply known_product_nonzero; exact Hnz). reflexivity.
Qed.

Lemma compute_size_of_inferred_witness :
  exists res out,
    infer_dims "b (h d)" [None; Some 8] (<["h" := 2]> ∅) = Ok res
    /\ compute_size "b (h d)" res = Ok out
    /\ out !! 1%nat = Some (Some 8).
Proof.
  apply (compute_size_of_inferred "b (h d)" [None; Some 8] (<["h" := 2]> ∅) 1%nat
           ("h d", "") 8 "d").
  - apply (bool_decide_unpack _). vm_compute. exact I.
  - apply (bool_decide_unpack _). vm_compute. exact I.
  - apply (bool_decide_unpack _). vm_compute. exact I.
  - vm_compute. reflexivity.
  - reflexivity.
  - vm_compute. reflexivity.
  - exists 4. vm_compute. reflexivity.
Defined.

(** ** The arrow of an equation *)

Lemma split_arrow_aux_arrow (s1 s2 cur : list ascii) :
  Forall (fun c => Str.is_char 45 c = false) s1 ->
  Str.split_arrow_aux (s1 ++ "-"%char :: ">"%char :: s2) cur
  = (rev cur ++ s1) :: Str.split_arrow_aux s2 [].
Proof.
  intros Hs. revert cur. induction Hs as [|c s1 Hc _ IH]; intros cur.
  - simpl. rewrite app_nil_r. reflexivity.
  - change ((c :: s1) ++ "-"%char :: ">"%char :: s2)
      with (c :: (s1 ++ "-"%char :: ">"%char :: s2)).
    cbn [Str.split_arrow_aux].
    destruct (s1 ++ "-"%char :: ">"%char :: s2) as [|d r'] eqn:Hr;
      [destruct s1; discriminate |].
    rewrite Hc. cbn [andb]. rewrite IH. simpl. rewrite <- app_assoc. reflexivity.
Qed.

Lemma split_arrow_aux_nonempty (s cur : list ascii) : Str.split_arrow_aux s cur <> [].
Proof.
  revert cur. induction s as [|c s IH]; intros cur; [discriminate |].
  cbn [Str.split_arrow_aux]. destruct s as [|d r']; [discriminate |].
  destruct (_ && _); [discriminate | apply IH].
Qed.

(** X5. The equation is unpacked into exactly two sides around its arrow
    before anything else looks at it: an equation without an arrow, and one
    with a second arrow, are a [ValueError] of [Reshape]. *)
Theorem equation_needs_one_arrow input_size shift_spec shift_dims (kwargs : gmap string Z) :
  (forall equation,
      all_chars no_dash equation = true ->
      Reshape_init input_size (Some equation) shift_spec shift_dims kwargs = Err ValueError)
  /\ (forall lft mid rgt,
        all_chars no_dash lft = true -> all_chars no_dash mid = true ->
        Reshape_init input_size (Some (lft +:+ "->" +:+ mid +:+ "->" +:+ rgt))
          shift_spec shift_dims kwargs = Err ValueError).
Proof.
  split.
  - intros equation Hd. unfold Reshape_init, Str.split_arrow.
    rewrite (split_arrow_aux_whole _ [] (all_chars_no_dash _ Hd)). reflexivity.
  - intros lft mid rgt Hl Hm. unfold Reshape_init, Str.split_arrow.
    rewrite !of_string_app.
    change (Str.of_string "->") with ["-"%char; ">"%char]. cbn [app].
    rewrite (split_arrow_aux_arrow _ _ [] (all_chars_no_dash _ Hl)).
    rewrite (split_arrow_aux_arrow _ _ [] (all_chars_no_dash _ Hm)).
    pose proof (split_arrow_aux_nonempty (Str.of_string rgt) []) as Hne.
    destruct (Str.split_arrow_aux (Str.of_string rgt) []) as [|p [|q l]];
      [congruence | reflexivity | reflexivity].
Qed.

(** ** From the output back to the input, and forth again *)

(** Two layers that read each other's equation backwards undo each other as
    soon as the hints of the second are lengths the first has resolved. *)
Lemma rearrange_inverse_pair {A : Type} (r1 r2 : Rearrange) (x y : tensor A) :
  well_formed r1 -> well_formed r2 ->
  re_left r2 = re_right r1 -> re_right r2 = re_left r1 ->
  (forall env, resolve_axes r1 (shape x) = Ok env -> sound env (re_lengths r2)) ->
  wf_tensor x ->
  rearrange_apply r1 x = Ok y -> rearrange_apply r2 y = Ok x.
Proof.
  intros H1 H2 Hl Hr Hsound Hwf Hy.
  unfold rearrange_apply in Hy.
  apply bind_Ok in Hy as (envf & Henvf & Hy). apply bind_Ok in Hy as (d1 & Hd1 & [= <-]).
  destruct (resolve_axes_Ok r1 (shape x) envf H1 Henvf) as (Hinc & Hres & Hdef).
  pose proof (Hsound envf Henvf) as Hdl.
  assert (Hdefr : forall d, d ∈ concat (re_left r2) -> exists v, envf !! d = Some v /\ 0 <= v).
  { intros d Hd. apply Hdef. rewrite Hl in Hd. apply (wf_right_left r1 H1), Hd. }
  destruct (resolve_back (re_lengths r2) envf (re_left r2)
              (fun d v Hd => proj2 (Hdl d v Hd)) (fun d v Hd => proj1 (Hdl d v Hd))
              Hdefr (wf_unknowns r2 H2) (re_lengths r2) (included_refl _)
              (fun d v Hd => proj1 (Hdl d v Hd)))
    as (envi & Hresi & Hinci & Hnames & _).
  assert (Hnamesl : forall d, d ∈ concat (re_right r2) -> is_Some (envi !! d)).
  { intros d Hd. apply Hnames, (wf_right_left r2 H2), Hd. }
  unfold rearrange_apply, resolve_axes. simpl shape.
  rewrite <- Hl. rewrite Hresi. cbn [bind].
  assert (Hguard : forallb (fun d => bool_decide (0 <= default (-1) (envi !! d)))
                           (concat (re_left r2)) = true).
  { apply forallb_forall. intros d Hd. apply list_elem_of_In in Hd.
    apply bool_decide_eq_true. destruct (Hnames d Hd) as [v Hv]. rewrite Hv. simpl.
    destruct (Hdefr d Hd) as (v' & Hv' & Hge). rewrite (Hinci d v Hv) in Hv'. congruence. }
  rewrite Hguard. cbn [guard bind].
  rewrite (axis_len_agree envi envf (concat (re_left r2)) Hinci Hnames).
  rewrite (axis_len_agree envi envf (concat (re_right r2)) Hinci Hnamesl).
  rewrite (group_shapes_agree envi envf (re_right r2) Hinci Hnamesl).
  rewrite Hl, Hr.
  assert (Hshape : map (fun g => numel (map (axis_len envf) g)) (re_left r1) = shape x).
  { apply (resolved_shape (re_lengths r1)); try assumption.
    - apply (wf_unknowns r1 H1).
    - apply (extent_nonneg envf _ Hdef). }
  rewrite (gather_round_trip _ (numel (map (axis_len envf) (concat (re_left r1)))) _ _
             (data x) d1 ltac:(rewrite numel_concat, Hshape; exact Hwf) Hd1).
  - cbn [bind]. rewrite Hshape. destruct x; reflexivity.
  - intros k Hk.
    apply (transpose_back (concat (re_left r1)) (concat (re_right r1)) (axis_len envf) k
             (wf_left_nodup r1 H1) (wf_left_right r1 H1) (wf_right_left r1 H1) Hk).
Qed.

Lemma map_opp_involutive (l : list Z) : map Z.opp (map Z.opp l) = l.
Proof. induction l as [|a l IH]; simpl; [reflexivity |]. rewrite IH. f_equal. lia. Qed.

Lemma inverse_forward_forward {A : Type} input_size equation shift_spec shift_dims
  (kwargs : gmap string Z) (self : Reshape) (x y : tensor A) :
  Reshape_init input_size equation shift_spec shift_dims kwargs = Ok self ->
  map_Forall (fun _ v => 0 < v) kwargs ->
  (equation <> None -> included kwargs (dim_lengths self)) ->
  wf_tensor y ->
  inverse_forward self y = Ok x ->
  forward self x = Ok y.
Proof.
  intros Hinit Hpos Hinc Hwf Hx.
  pose proof (Reshape_init_shifts _ _ _ _ _ _ Hinit) as Hinv.
  unfold inverse_forward in Hx. apply bind_Ok in Hx as (out & Hout & Hx).
  assert (Hwfo : wf_tensor out /\ layer_apply (rearrange self) out = Ok y).
  { destruct equation as [eq|].
    - destruct (Reshape_init_Ok _ _ _ _ _ _ Hinit)
        as (fw & bw & groups & Hf & Hb & Hwfw & Hwbw & Hlf & Hlb & Hl & Hr & Hg & Hinfer).
      rewrite Hb in Hout. rewrite Hf. simpl in *.
      split; [exact (rearrange_apply_wf _ _ _ Hout) |].
      apply (rearrange_inverse_pair bw fw y out); try assumption.
      + congruence.
      + congruence.
      + intros env Henv d v Hd. rewrite Hlf in Hd. split; [| exact (Hpos d v Hd)].
        destruct (resolve_axes_Ok bw (shape y) env Hwbw Henv) as (Hi & _ & _).
        apply Hi. rewrite Hlb. apply (Hinc ltac:(discriminate) d v Hd).
    - destruct (Reshape_init_identity _ _ _ _ _ Hinit) as [Hf Hb].
      rewrite Hb in Hout. rewrite Hf. simpl in *. injection Hout as <-. auto. }
  destruct Hwfo as [Hwfo Hlayer]. unfold forward.
  rewrite Hinv in Hx. destruct (shifts self) as [s|]; simpl in Hx.
  - destruct (roll_round_trip out x (map Z.opp s) (dims self) Hwfo Hx) as (Hback & _ & _).
    rewrite map_opp_involutive in Hback. rewrite Hback. exact Hlayer.
  - injection Hx as <-. exact Hlayer.
Qed.

(** ** Nothing is lost and nothing is doubled *)

Section Permuting.
Context {A : Type}.
Local Open Scope nat_scope.

Lemma gather_Permutation (n : nat) (src back : nat -> nat) (d d' : list A) :
  length d = n -> gather n src d = Ok d' ->
  (forall k, k < n -> src k < n /\ back (src k) = k) ->
  d' ≡ₚ d.
Proof.
  intros Hlen Hg Hsrc. apply gather_Ok in Hg as [Hlen' Hk].
  apply Permutation_inj. split; [lia |].
  exists (fun k => if decide (k < n) then src k else k). split.
  - intros j k Hjk. destruct (decide (j < n)) as [Hj | Hj], (decide (k < n)) as [Hk' | Hk'].
    + destruct (Hsrc j Hj) as [_ H1], (Hsrc k Hk') as [_ H2]. congruence.
    + destruct (Hsrc j Hj) as [H1 _]. lia.
    + destruct (Hsrc k Hk') as [H1 _]. lia.
    + exact Hjk.
  - intros k. destruct (decide (k < n)) as [Hlt | Hge]; [apply Hk, Hlt |].
    rewrite !lookup_ge_None_2 by lia. reflexivity.
Qed.

Lemma pulled_Permutation (sh : list nat) (delta : list Z) (x x' : tensor A) :
  pulled sh delta x x' -> length delta = length sh -> wf_tensor x ->
  data x' ≡ₚ data x.
Proof.
  intros (Hx & Hx' & Hlen & Hk) Hd Hwf. unfold wf_tensor in Hwf. rewrite Hx in Hwf.
  apply (gather_Permutation (numel sh)
           (fun k => ravel sh (shift_index sh delta (unravel sh k)))
           (fun k => ravel sh (shift_index sh (map Z.opp delta) (unravel sh k))));
    [exact Hwf | apply gather_Ok; split; [exact Hlen | exact Hk] |].
  intros k Hlt. pose proof (unravel_in_bounds _ _ Hlt) as Hb.
  pose proof (shift_index_in_bounds sh delta _ Hb Hd) as Hb'.
  split; [apply ravel_lt, Hb' |].
  rewrite unravel_ravel by exact Hb'.
  rewrite shift_index_compose by (try assumption; rewrite length_map; exact Hd).
  rewrite shift_index_zero; [apply ravel_unravel, Hlt | exact Hb | |].
  - assert (Hz : zip_with Z.add (map Z.opp delta) delta
                 = zip_with Z.add delta (map Z.opp delta)).
    { clear. induction delta as [|s delta IH]; simpl; [reflexivity |].
      rewrite IH. f_equal. lia. }
    rewrite Hz. apply zip_add_opp.
  - rewrite length_zip_with, length_map. lia.
Qed.

Lemma roll_Permutation (x x' : tensor A) (shifts : list Z) (dims : option (list Z)) :
  wf_tensor x -> roll x shifts dims = Ok x' -> data x' ≡ₚ data x.
Proof.
  intros Hwf. unfold roll.
  assert (Heach : forall (z z' : tensor A) ss ds,
             wf_tensor z -> roll_each z ss ds = Ok z' -> data z' ≡ₚ data z).
  { intros z z' ss ds Hwz Hz.
    destruct (roll_each_Ok ss ds z z' Hz Hwz) as (delta & Hlen & Hp & _).
    exact (pulled_Permutation _ _ _ _ Hp Hlen Hwz). }
  destruct shifts as [|s [|s2 shifts]]; [discriminate | |].
  - destruct (default [] dims) as [|d ds]; [| apply Heach, Hwf].
    intros Hb. apply bind_Ok in Hb as (y & Hy & [= <-]). simpl.
    apply roll1_Ok in Hy. simpl in Hy.
    apply (pulled_Permutation _ _ _ _ Hy); [apply unit_shift_length |].
    unfold wf_tensor in *. simpl. lia.
  - intros Hx'. apply (Heach x x' (s :: s2 :: shifts) (default [] dims) Hwf).
    destruct (default [] dims); exact Hx'.
Qed.

Lemma numel_Permutation (l l' : list nat) : l ≡ₚ l' -> numel l = numel l'.
Proof. induction 1; simpl; lia. Qed.

Lemma rearrange_apply_Permutation (r : Rearrange) (x y : tensor A) :
  well_formed r -> wf_tensor x -> rearrange_apply r x = Ok y -> data y ≡ₚ data x.
Proof.
  intros Hr Hwf Hy. unfold rearrange_apply in Hy.
  apply bind_Ok in Hy as (env & Henv & Hy). apply bind_Ok in Hy as (d1 & Hd1 & [= <-]).
  destruct (resolve_axes_Ok r (shape x) env Hr Henv) as (Hinc & Hres & Hdef).
  assert (Hshape : map (fun g => numel (map (axis_len env) g)) (re_left r) = shape x).
  { apply (resolved_shape (re_lengths r)); try assumption.
    - apply (wf_unknowns r Hr).
    - apply (extent_nonneg env _ Hdef). }
  assert (Hperm : concat (re_right r) ≡ₚ concat (re_left r)).
  { apply NoDup_Permutation;
      [apply (wf_right_nodup r Hr) | apply (wf_left_nodup r Hr) |].
    intros d. split; [apply (wf_right_left r Hr) | apply (wf_left_right r Hr)]. }
  assert (Hn : numel (map (axis_len env) (concat (re_right r)))
               = numel (map (axis_len env) (concat (re_left r)))).
  { apply numel_Permutation, fmap_Permutation, Hperm. }
  assert (Hlen : length (data x) = numel (map (axis_len env) (concat (re_right r)))).
  { rewrite Hn, numel_concat, Hshape. exact Hwf. }
  simpl.
  apply (gather_Permutation _ _
           (fun j => ravel (map (axis_len env) (concat (re_right r)))
                       (map (axis_index (concat (re_left r))
                               (unravel (map (axis_len env) (concat (re_left r))) j))
                            (concat (re_right r)))) _ _ Hlen Hd1).
  intros k Hk.
  destruct (transpose_back (concat (re_right r)) (concat (re_left r)) (axis_len env) k
              (wf_right_nodup r Hr) (wf_right_left r Hr) (wf_left_right r Hr) Hk)
    as [Hlt Hback].
  split; [rewrite Hn; exact Hlt | exact Hback].
Qed.

End Permuting.

Lemma forward_Permutation {A : Type} input_size equation shift_spec shift_dims
  (kwargs : gmap string Z) (self : Reshape) (x y : tensor A) :
  Reshape_init input_size equation shift_spec shift_dims kwargs = Ok self ->
  wf_tensor x ->
  forward self x = Ok y ->
  data y ≡ₚ data x /\ wf_tensor y /\ numel (shape y) = numel (shape x).
Proof.
  intros Hinit Hwf Hy. unfold forward in Hy. apply bind_Ok in Hy as (x1 & Hx1 & Hy).
  assert (H1 : data x1 ≡ₚ data x /\ wf_tensor x1).
  { destruct (shifts self) as [s|]; [| injection Hx1 as <-; auto].
    split; [exact (roll_Permutation _ _ _ _ Hwf Hx1) |].
    apply (roll_round_trip x x1 s (dims self) Hwf Hx1). }
  destruct H1 as [Hp1 Hwf1].
  assert (H2 : data y ≡ₚ data x1 /\ wf_tensor y).
  { destruct equation as [eq|].
    - destruct (Reshape_init_Ok _ _ _ _ _ _ Hinit)
        as (fw & bw & groups & Hf & _ & Hwfw & _).
      rewrite Hf in Hy. simpl in Hy.
      split; [exact (rearrange_apply_Permutation fw x1 y Hwfw Hwf1 Hy) |].
      exact (rearrange_apply_wf _ _ _ Hy).
    - destruct (Reshape_init_identity _ _ _ _ _ Hinit) as [Hf _].
      rewrite Hf in Hy. simpl in Hy. injection Hy as <-. auto. }
  destruct H2 as [Hp2 Hwfy].
  assert (Hp : data y ≡ₚ data x) by (etransitivity; eassumption).
  split; [exact Hp |]. split; [exact Hwfy |].
  unfold wf_tensor in Hwf, Hwfy. rewrite <- Hwf, <- Hwfy.
  apply Permutation_length, Hp.
Qed.

(** X7. [forward] moves elements and does nothing else: what a transform
    built by [Reshape] returns holds the elements of its input, each as often
    as the input does, and as many as its shape says. *)
Theorem forward_permutes {A : Type} input_size equation shift_spec shift_dims
  (kwargs : gmap string Z) (self : Reshape) (x y : tensor A) :
  Reshape_init input_size equation shift_spec shift_dims kwargs = Ok self ->
  wf_tensor x ->
  forward self x = Ok y ->
  data y ≡ₚ data x /\ wf_tensor y /\ numel (shape y) = numel (shape x).
Proof. apply forward_Permutation. Qed.

Lemma forward_permutes_witness :
  data shifted_output ≡ₚ data shifted_input
  /\ wf_tensor shifted_output
  /\ numel (shape shifted_output) = numel (shape shifted_input).
Proof.
  apply (forward_permutes [Some 2; Some 6] (Some "a (b c) -> (c a) b") (Some [1; -1])
           (Some [1; 0]) (<["b" := 2]> ∅) shifted_reshape shifted_input shifted_output).
  - vm_compute. reflexivity.
  - reflexivity.
  - vm_compute. reflexivity.
Defined.

(** X6. The round trip the other way: for a transform built by [Reshape]
    with positive hints, all of them among the inferred lengths (as they are
    when the input size has an entry for every group of the left side), and
    for a tensor [y] with as many elements as its shape says, if
    [inverse_forward] returns [x] on [y] then [forward] returns [y] on [x]. *)
Theorem inverse_then_forward {A : Type} input_size equation shift_spec shift_dims
  (kwargs : gmap string Z) (self : Reshape) (x y : tensor A) :
  Reshape_init input_size equation shift_spec shift_dims kwargs = Ok self ->
  map_Forall (fun _ v => 0 < v) kwargs ->
  (equation <> None -> included kwargs (dim_lengths self)) ->
  wf_tensor y ->
  inverse_forward self y = Ok x ->
  forward self x = Ok y.
Proof. apply inverse_forward_forward. Qed.

Lemma inverse_then_forward_witness : forward shifted_reshape shifted_input = Ok shifted_output.
Proof.
  apply (inverse_then_forward [Some 2; Some 6] (Some "a (b c) -> (c a) b") (Some [1; -1])
           (Some [1; 0]) (<["b" := 2]> ∅) shifted_reshape shifted_input shifted_output).
  - vm_compute. reflexivity.
  - apply (bool_decide_unpack _). vm_compute. exact I.
  - intros _ d v Hd. apply lookup_insert_Some in Hd as [[<- <-] | [_ Hd]];
      [vm_compute; reflexivity | rewrite lookup_empty in Hd; discriminate].
  - reflexivity.
  - vm_compute. reflexivity.
Defined.

(** Without the hypothesis on the hints the way forth can miss: an input
    size with no entry for the group, and the hint is not used on the way
    back. *)
Example uninferred_hint_breaks_return :
  let self := Reshape_init [] (Some "(a b) -> a b") None None (<["a" := 2]> ∅) in
  let y := Tensor [3; 4]%nat [1; 2; 3; 4; 5; 6; 7; 8; 9; 10; 11; 12] in
  (let* self := self in inverse_forward self y)
  = Ok (Tensor [12]%nat [1; 2; 3; 4; 5; 6; 7; 8; 9; 10; 11; 12])
  /\ (let* self := self in
      forward self (Tensor [12]%nat [1; 2; 3; 4; 5; 6; 7; 8; 9; 10; 11; 12]))
     = Ok (Tensor [2; 6]%nat [1; 2; 3; 4; 5; 6; 7; 8; 9; 10; 11; 12]).
Proof. split; vm_compute; reflexivity. Qed.

Lemma equation_needs_one_arrow_witness :
  Reshape_init [] (Some "a b") None None ∅ = Err ValueError
  /\ Reshape_init [] (Some "a->b->a") None None ∅ = Err ValueError.
Proof.
  split.
  - apply (proj1 (equation_needs_one_arrow [] None None ∅) "a b"). reflexivity.
  - apply (proj2 (equation_needs_one_arrow [] None None ∅) "a" "b" "a"); reflexivity.
Defined.

(** ** [Tensorize] *)

Lemma parse_fuel_malformed (fuel : nat) (s : list ascii) :
  raises_only (eq MalformedEquationError) (parse_fuel fuel s).
Proof.
  revert s. induction fuel as [|fuel IH]; intros [|c r]; cbn [parse_fuel];
    try (apply raises_only_Ok); try (apply raises_only_Err; reflexivity).
  destruct (Str.is_blank c); [apply IH |].
  destruct (Str.is_lparen c).
  - destruct (Str.span _ r) as [body [|c' rest]];
      [apply raises_only_Err; reflexivity |].
    apply raises_only_bind.
    + unfold parse_bracket. destruct (forallb _ body);
        [| apply raises_only_Err; reflexivity].
      destruct (Str.split_ws body); [apply raises_only_Err; reflexivity |].
      destruct (forallb _ _); [apply raises_only_Ok | apply raises_only_Err; reflexivity].
    + intros g. apply raises_only_bind; [apply IH | intros gs; apply raises_only_Ok].
  - destruct (Str.is_word c); [| apply raises_only_Err; reflexivity].
    destruct (Str.span _ r) as [w rest].
    destruct (is_identifier (c :: w)); [| apply raises_only_Err; reflexivity].
    apply raises_only_bind; [apply IH | intros gs; apply raises_only_Ok].
Qed.

Lemma parse_side_malformed (s : list ascii) :
  raises_only (eq MalformedEquationError) (parse_side s).
Proof.
  unfold parse_side. apply raises_only_bind; [apply parse_fuel_malformed | intros gs].
  apply raises_only_bind; [apply raises_only_guard; reflexivity | intros u].
  apply raises_only_Ok.
Qed.

(** Where [Tensorize] stops once its arguments have passed the assertions
    and the keywords are merged: at the equation. *)
Lemma Tensorize_equation_rejected input_size shift_spec shift_dims (kw : gmap string Z)
  (n : nat) :
  Reshape_init input_size (Some (Tensorize_equation n)) shift_spec shift_dims kw
  = Err MalformedEquationError.
Proof.
  unfold Reshape_init.
  change (Tensorize_equation n)
    with (left_equation n +:+ " -> " +:+ Tensorize_right n).
  rewrite equation_split.
  2: { apply all_chars_left_equation; [apply plain_no_dash | reflexivity..]. }
  2: { apply all_chars_Tensorize_right, plain_no_dash. }
  cbv zeta.
  enough (He : Rearrange_init (left_equation n +:+ " -> " +:+ Tensorize_right n) kw
               = Err MalformedEquationError) by (rewrite He; reflexivity).
  unfold Rearrange_init. rewrite equation_split.
  2: { apply all_chars_left_equation; [apply plain_no_dash | reflexivity..]. }
  2: { apply all_chars_Tensorize_right, plain_no_dash. }
  destruct (parse_side (Str.of_string (left_equation n) ++ [" "%char])) as [lft|e] eqn:Hl.
  2: { rewrite (parse_side_malformed _ e Hl). reflexivity. }
  destruct (parse_side (" "%char :: Str.of_string (Tensorize_right n))) as [rgt|e] eqn:Hr.
  2: { rewrite (parse_side_malformed _ e Hr). reflexivity. }
  cbn [bind].
  apply parse_side_Ok in Hl as [Hl _]. apply parse_side_Ok in Hr as [Hr _].
  assert (Hb : "b" ∈ concat lft).
  { unfold left_equation in Hl. rewrite of_string_app in Hl. simpl in Hl.
    apply parses_leading_b in Hl as (gs' & ->). left. }
  assert (Hnb : "b" ∉ concat rgt).
  { intros Hin.
    assert (Hc : "b"%char ∈ " "%char :: Str.of_string (Tensorize_right n)).
    { apply (parses_chars _ _ Hr "b"); [exact Hin | left]. }
    apply elem_of_cons in Hc as [Hc | Hc]; [discriminate |].
    apply list_elem_of_In in Hc.
    pose proof (all_chars_Tensorize_right not_b n plain_not_b) as Hall.
    apply (proj1 (forallb_forall _ _) Hall) in Hc. discriminate. }
  assert (Hg : forallb (fun d => bool_decide (d ∈ concat rgt)) (concat lft) = false).
  { apply not_true_iff_false. intros Hall.
    apply Hnb. apply list_elem_of_In in Hb.
    apply (proj1 (forallb_forall _ _) Hall), bool_decide_eq_true in Hb. exact Hb. }
  rewrite Hg. reflexivity.
Qed.

(** X8. No argument makes [Tensorize] return. Its equation has the axes [b]
    and [h] on the left side only, the assignment of the grid group to
    [right] having replaced ["(b h) "], and is rejected when the layer is
    built; before that only the two assertions and a keyword given twice
    can stop it. [SWTensorize], which builds its variants with [Tensorize],
    never returns either. *)
Theorem Tensorize_is_never_built input_size num_heads head_dim grid_size patch_size
  (kwargs : gmap string Z) :
  (forall shift_spec,
      exists e,
        Tensorize_init input_size num_heads head_dim grid_size patch_size shift_spec kwargs
        = Err e
        /\ (e = ConfigurationError \/ e = TypeError \/ e = MalformedEquationError))
  /\ (forall shift_specs,
        exists e,
          SWTensorize_init input_size num_heads head_dim grid_size patch_size
            shift_specs kwargs = Err e).
Proof.
  split.
  - intros shift_spec. unfold Tensorize_init, window_init.
    destruct (guard (negb (bool_decide (num_heads = None /\ head_dim = None))) _)
      as [u|e] eqn:Hg1.
    2: { apply guard_Err in Hg1 as [-> _]. simpl. eauto. }
    destruct (guard (negb (bool_decide (grid_size = None /\ patch_size = None))) _)
      as [u'|e] eqn:Hg2.
    2: { apply guard_Err in Hg2 as [-> _]. simpl. eauto. }
    cbn [bind]. unfold merge_kwargs. destruct (forallb _ _); cbn [bind]; [| eauto 6].
    rewrite Tensorize_equation_rejected. eauto 6.
  - intros shift_specs.
    destruct (SWTensorize_init input_size num_heads head_dim grid_size patch_size
                shift_specs kwargs) as [self|e] eqn:Hsw; [| eauto].
    exfalso. exact (SWTensorize_never_built _ _ _ _ _ _ _ _ Hsw).
Qed.

(** ** [Matricize] and the batch axis *)

(** X9. [Matricize] moves the heads to the batch axis. For a transform built
    with [num_heads], [forward] returns a batch of [B * max(num_heads, 1)]
    on a batch of [B], and [inverse_forward], for an input size of two
    entries or more, returns a batch of [B] on one of
    [B * max(num_heads, 1)]. *)
Theorem Matricize_batch_law {A : Type} input_size (heads : Z) head_dim grid_size patch_size
  shift_spec (kwargs : gmap string Z) (self : Reshape) :
  Matricize_init input_size (Some heads) head_dim grid_size patch_size shift_spec kwargs
    = Ok self ->
  (forall x y : tensor A,
      wf_tensor x -> forward self x = Ok y ->
      batch y = (batch x * Z.to_nat (Z.max heads 1))%nat)
  /\ (forall z t : tensor A,
        (2 <= length input_size)%nat -> inverse_forward self z = Ok t ->
        batch z = (batch t * Z.to_nat (Z.max heads 1))%nat).
Proof.
  intros Hinit. split.
  - intros x y Hwf Hy.
    destruct (Matricize_forward_batch _ _ _ _ _ _ _ _ x y Hinit Hwf Hy) as (h & Hb & Hh).
    rewrite Hb, (Hh heads eq_refl). reflexivity.
  - intros z t Hlen Ht.
    exact (Matricize_inverse_batch _ _ _ _ _ _ _ _ z t Hinit Hlen Ht).
Qed.

Lemma Matricize_batch_law_witness :
  (forall x y : tensor Z,
      wf_tensor x -> forward two_head_matricize x = Ok y -> batch y = (batch x * 2)%nat)
  /\ (forall z t : tensor Z,
        (2 <= 4)%nat -> inverse_forward two_head_matricize z = Ok t ->
        batch z = (batch t * 2)%nat).
Proof.
  apply (Matricize_batch_law [Some 1; Some 2; Some 2; Some 2] 2 None None (Some (SInt 2))
           (Some (ShInt 1)) ∅ two_head_matricize).
  vm_compute. reflexivity.
Defined.

(** ** How the shifted windows are built *)

Lemma default_shifts_Ok (patch_size : list (option Z)) (l : list (option shift_arg)) :
  default_shifts patch_size = Ok l ->
  exists halves, l = [None; Some (ShSeq halves)]
                 /\ Forall2 (fun p h => exists v, p = Some v /\ h = v / 2) patch_size halves.
Proof.
  unfold default_shifts. intros Hb. apply bind_Ok in Hb as (halves & Hh & [= <-]).
  exists halves. split; [reflexivity |]. apply mapR_Ok in Hh.
  eapply Forall2_impl; [exact Hh |]. intros [v|] h Hp; simpl in Hp; [| discriminate].
  injection Hp as <-. eauto.
Qed.

Lemma default_shifts_Err (patch_size : list (option Z)) (e : error) :
  default_shifts patch_size = Err e <-> e = TypeError /\ None ∈ patch_size.
Proof.
  unfold default_shifts. split.
  - intros Hb. apply bind_Err in Hb as [Hm | (halves & _ & Hb)]; [| discriminate].
    apply mapR_Err in Hm as ([v|] & Hin & Hv); [discriminate |].
    injection Hv as <-. auto.
  - intros [-> Hin].
    rewrite (mapR_one_error _ patch_size TypeError None); [reflexivity | | exact Hin | reflexivity].
    intros [v|] e He; [discriminate | congruence].
Qed.

(** X10. The edges of the shifted-window constructors. An empty list of
    shifts is an [IndexError] (there is no first variant to take the output
    size from), whatever the other arguments; with the shifts left to their
    default, a patch size that is [None], or has a [None] entry, is a
    [TypeError] (its half is asked for), and nothing else raises there. *)
Theorem SW_init_edge_cases (ctor : window_ctor) input_size num_heads head_dim grid_size
  patch_size (kwargs : gmap string Z) :
  SW_init ctor input_size num_heads head_dim grid_size patch_size (Some []) kwargs
  = Err IndexError
  /\ (None ∈ to_ntuple (length input_size - 2) patch_size ->
      SW_init ctor input_size num_heads head_dim grid_size patch_size None kwargs
      = Err TypeError).
Proof.
  split; [reflexivity |]. intros Hin. unfold SW_init.
  rewrite (proj2 (default_shifts_Err _ TypeError) (conj eq_refl Hin)). reflexivity.
Qed.

Lemma SW_init_edge_cases_witness :
  SW_init Matricize_init [Some 1; Some 2; Some 4; Some 4] (Some 2) None (Some (SInt 2)) None
    (Some []) ∅ = Err IndexError
  /\ SW_init Matricize_init [Some 1; Some 2; Some 4; Some 4] (Some 2) None (Some (SInt 2))
       None None ∅ = Err TypeError.
Proof.
  destruct (SW_init_edge_cases Matricize_init [Some 1; Some 2; Some 4; Some 4] (Some 2) None
              (Some (SInt 2)) None ∅) as [Hempty Hnone].
  split; [exact Hempty |]. apply Hnone. simpl. left.
Defined.

Lemma Reshape_init_fields input_size equation shift_spec shift_dims (kwargs : gmap string Z)
  (self : Reshape) :
  Reshape_init input_size equation shift_spec shift_dims kwargs = Ok self ->
  shifts self = shift_spec
  /\ dims self = match shift_spec with Some _ => shift_dims | None => None end.
Proof.
  unfold Reshape_init. destruct equation as [eq|]; [| intros [= <-]; auto].
  destruct (Str.split_arrow _) as [|l [|r [|? ?]]]; try discriminate.
  intros Hb. apply bind_Ok in Hb as (fw & _ & Hb).
  apply bind_Ok in Hb as (dl & _ & Hb). apply bind_Ok in Hb as (os & _ & Hb).
  apply bind_Ok in Hb as (bw & _ & [= <-]). auto.
Qed.

Lemma window_init_fields (equation : nat -> string) input_size num_heads head_dim
  grid_size patch_size shift_spec (kwargs : gmap string Z) (self : Reshape) :
  window_init equation input_size num_heads head_dim grid_size patch_size shift_spec kwargs
    = Ok self ->
  let n := (length input_size - 2)%nat in
  shifts self = shifts_to_ntuple n <$> shift_spec
  /\ dims self = match shift_spec with
                 | Some _ => Some (map (fun j => Z.of_nat j + 2) (seq 0 n))
                 | None => None
                 end.
Proof.
  intros Hb n. unfold window_init in Hb.
  apply bind_Ok in Hb as (u1 & _ & Hb). apply bind_Ok in Hb as (u2 & _ & Hb).
  apply bind_Ok in Hb as (kw & _ & Hinit).
  apply Reshape_init_fields in Hinit as [Hs Hd]. rewrite Hs, Hd.
  destruct shift_spec; auto.
Qed.

(** X11. The variants [SWMatricize] builds when no shifts are given: two,
    the first without any shift and the second rolled along every spatial
    axis (the axes 2, 3, ... and no other) by half the patch size of that
    axis, rounded down; the output size is that of the first. *)
Theorem SW_default_variants input_size num_heads head_dim grid_size patch_size
  (kwargs : gmap string Z) (self : ShiftedWindows) :
  SWMatricize_init input_size num_heads head_dim grid_size patch_size None kwargs = Ok self ->
  let n := (length input_size - 2)%nat in
  exists w0 w1 halves,
    shifted_windows self = [w0; w1]
    /\ Forall2 (fun p h => exists v, p = Some v /\ h = v / 2) (to_ntuple n patch_size) halves
    /\ shifts w0 = None /\ dims w0 = None
    /\ shifts w1 = Some halves
    /\ dims w1 = Some (map (fun j => Z.of_nat j + 2) (seq 0 n))
    /\ sw_output_size self = output_size w0.
Proof.
  intros Hb n. unfold SWMatricize_init, SW_init in Hb.
  apply bind_Ok in Hb as (ss & Hss & Hb).
  apply default_shifts_Ok in Hss as (halves & -> & Hhalves).
  apply bind_Ok in Hb as (ws & Hws & Hb). apply mapR_Ok in Hws.
  inversion Hws as [|? w0 ? ws' H0 Hws']; subst.
  inversion Hws' as [|? w1 ? ws'' H1 Hws'']; subst.
  inversion Hws''; subst. injection Hb as <-.
  apply window_init_fields in H0 as [Hs0 Hd0].
  apply window_init_fields in H1 as [Hs1 Hd1].
  exists w0, w1, halves. simpl in *. auto 10.
Qed.

Lemma SW_default_variants_witness :
  exists w0 w1 halves,
    shifted_windows two_head_windows = [w0; w1]
    /\ Forall2 (fun p h => exists v, p = Some v /\ h = v / 2) [Some 2; Some 2] halves
    /\ shifts w0 = None /\ dims w0 = None
    /\ shifts w1 = Some halves
    /\ dims w1 = Some [2; 3]
    /\ sw_output_size two_head_windows = output_size w0.
Proof.
  apply (SW_default_variants [Some 1; Some 2; Some 2; Some 2] (Some 2) None
           None (Some (SInt 2)) ∅ two_head_windows).
  vm_compute. reflexivity.
Defined.

(** X12. The shifted-window constructors check the pair of the heads only.
    They hand [grid_size] and [patch_size] on as tuples, which are never
    [None], so the second assertion of [Matricize] cannot fail: with
    [num_heads] or [head_dim] given there is no [ConfigurationError], also
    when neither [grid_size] nor [patch_size] is given; with neither of the
    heads pair and a first shift to build a variant for, there is one. *)
Theorem SW_init_checks_heads_only (equation : nat -> string) input_size num_heads head_dim
  grid_size patch_size (kwargs : gmap string Z) :
  (forall shift_specs,
      num_heads <> None \/ head_dim <> None ->
      SW_init (window_init equation) input_size num_heads head_dim grid_size patch_size
        shift_specs kwargs <> Err ConfigurationError)
  /\ (forall s shift_specs,
        num_heads = None -> head_dim = None ->
        SW_init (window_init equation) input_size num_heads head_dim grid_size patch_size
          (Some (s :: shift_specs)) kwargs = Err ConfigurationError).
Proof.
  split.
  - intros shift_specs Hheads He. unfold SW_init in He.
    apply bind_Err in He as [He | (ss & _ & He)].
    { destruct shift_specs; [discriminate |].
      apply default_shifts_Err in He as [He _]. discriminate. }
    apply bind_Err in He as [He | (ws & _ & He)]; [| destruct ws; discriminate].
    apply mapR_Err in He as (s & _ & He).
    apply window_init_configuration in He as [[Hn Hd] | [Hg _]]; [| discriminate].
    destruct Hheads; contradiction.
  - intros s shift_specs -> ->. unfold SW_init. cbn [bind mapR].
    unfold window_init at 1. reflexivity.
Qed.

Lemma SW_init_checks_heads_only_witness :
  SW_init (window_init Matricize_equation) [Some 1; Some 2; Some 4; Some 4] (Some 2) None
    None None (Some [None]) ∅ <> Err ConfigurationError
  /\ SW_init (window_init Matricize_equation) [Some 1; Some 2; Some 4; Some 4] None None
       None (Some (SInt 2)) (Some [None]) ∅ = Err ConfigurationError.
Proof.
  split.
  - apply (proj1 (SW_init_checks_heads_only Matricize_equation
                    [Some 1; Some 2; Some 4; Some 4] (Some 2) None None None ∅)).
    left. discriminate.
  - apply (proj2 (SW_init_checks_heads_only Matricize_equation
                    [Some 1; Some 2; Some 4; Some 4] None None None (Some (SInt 2)) ∅));
      reflexivity.
Defined.

(** X13. The batch law of [SWMatricize]. With [V] variants and [num_heads]
    given, [forward] returns a batch of [B * max(num_heads, 1) * V] on a
    batch of [B]; [inverse_forward], for an input size of two entries or
    more, returns a batch of [B] on a batch of [B * max(num_heads, 1) * V]. *)
Theorem SWMatricize_batch_law {A : Type} `{Scalar A} input_size (heads : Z) head_dim
  grid_size patch_size shift_specs (kwargs : gmap string Z) (self : ShiftedWindows) :
  SWMatricize_init input_size (Some heads) head_dim grid_size patch_size shift_specs kwargs
    = Ok self ->
  let V := length (shifted_windows self) in
  let h := Z.to_nat (Z.max heads 1) in
  (forall x y : tensor A,
      wf_tensor x -> SW_forward self x = Ok y -> batch y = (batch x * h * V)%nat)
  /\ (forall (z t : tensor A) (B : nat) (tail : list nat),
        (2 <= length input_size)%nat ->
        shape z = (B * h * V)%nat :: tail ->
        SW_inverse_forward self z = Ok t ->
        batch t = B).
Proof.
  intros Hinit V h. split.
  - intros x y Hwf Hy. exact (SWMatricize_forward_batch _ _ _ _ _ _ _ _ x y Hinit Hwf Hy).
  - intros z t B tail Hlen Hsh Ht.
    pose proof (SWMatricize_inverse_batch _ _ _ _ _ _ _ _ z t (B * h)%nat tail
                  Hinit Hlen Hsh Ht) as Hb.
    fold h in Hb.
    assert (Hh : (0 < h)%nat) by (unfold h; lia).
    nia.
Qed.

Lemma SWMatricize_batch_law_witness :
  (forall x y : tensor Z,
      wf_tensor x -> SW_forward two_head_windows x = Ok y ->
      batch y = (batch x * 2 * 2)%nat)
  /\ (forall (z t : tensor Z) (B : nat) (tail : list nat),
        (2 <= 4)%nat ->
        shape z = (B * 2 * 2)%nat :: tail ->
        SW_inverse_forward two_head_windows z = Ok t ->
        batch t = B).
Proof.
  apply (SWMatricize_batch_law (H := Z_scalar) [Some 1; Some 2; Some 2; Some 2] 2 None
           None (Some (SInt 2)) None ∅ two_head_windows).
  vm_compute. reflexivity.
Defined.

(** ** Through the shifted windows and back *)

Lemma SW_init_variants (ctor : window_ctor) input_size num_heads head_dim grid_size
  patch_size shift_specs (kwargs : gmap string Z) (self : ShiftedWindows) :
  SW_init ctor input_size num_heads head_dim grid_size patch_size shift_specs kwargs
    = Ok self ->
  let n := (length input_size - 2)%nat in
  shifted_windows self <> []
  /\ forall w, w ∈ shifted_windows self ->
       exists s, ctor input_size num_heads head_dim (Some (SSeq (to_ntuple n grid_size)))
                   (Some (SSeq (to_ntuple n patch_size))) s kwargs = Ok w.
Proof.
  intros Hb n. unfold SW_init in Hb. apply bind_Ok in Hb as (ss & _ & Hb).
  apply bind_Ok in Hb as (ws & Hws & Hb).
  destruct ws as [|w0 ws]; [discriminate |]. injection Hb as <-. simpl.
  split; [discriminate |]. intros w Hw. apply mapR_Ok in Hws.
  apply list_elem_of_lookup in Hw as [j Hj].
  destruct (Forall2_lookup_r _ _ _ _ _ Hws Hj) as (s & _ & Hs). eauto.
Qed.

Lemma Reshape_init_rearrange input_size equation shift_spec shift_dims
  (kwargs : gmap string Z) (self : Reshape) :
  Reshape_init input_size equation shift_spec shift_dims kwargs = Ok self ->
  rearrange self = match equation with
                   | Some eq => match Rearrange_init eq kwargs with
                                | Ok fw => Some fw
                                | Err _ => None
                                end
                   | None => None
                   end.
Proof.
  unfold Reshape_init. destruct equation as [eq|]; [| intros [= <-]; reflexivity].
  destruct (Str.split_arrow _) as [|l [|r [|? ?]]]; try discriminate.
  intros Hb. apply bind_Ok in Hb as (fw & Hfw & Hb).
  apply bind_Ok in Hb as (dl & _ & Hb). apply bind_Ok in Hb as (os & _ & Hb).
  apply bind_Ok in Hb as (bw & _ & [= <-]). rewrite Hfw. reflexivity.
Qed.

(** The variants of one wrapper differ in their shifts only. *)
Lemma window_init_same_layer (equation : nat -> string) input_size num_heads head_dim
  grid_size patch_size s1 s2 (kwargs : gmap string Z) (w1 w2 : Reshape) :
  window_init equation input_size num_heads head_dim grid_size patch_size s1 kwargs = Ok w1 ->
  window_init equation input_size num_heads head_dim grid_size patch_size s2 kwargs = Ok w2 ->
  rearrange w1 = rearrange w2.
Proof.
  unfold window_init. intros H1 H2.
  apply bind_Ok in H1 as (u1 & _ & H1). apply bind_Ok in H1 as (u2 & _ & H1).
  apply bind_Ok in H1 as (kw & Hkw & H1).
  apply bind_Ok in H2 as (u3 & _ & H2). apply bind_Ok in H2 as (u4 & _ & H2).
  apply bind_Ok in H2 as (kw' & Hkw' & H2).
  rewrite Hkw in Hkw'. injection Hkw' as <-.
  rewrite (Reshape_init_rearrange _ _ _ _ _ _ H1), (Reshape_init_rearrange _ _ _ _ _ _ H2).
  reflexivity.
Qed.

Lemma layer_apply_shape {A : Type} (l : option Rearrange) (x x' y y' : tensor A) :
  layer_apply l x = Ok y -> layer_apply l x' = Ok y' -> shape x = shape x' ->
  shape y = shape y'.
Proof.
  destruct l as [r|]; simpl; [| intros [= <-] [= <-] Hs; exact Hs].
  unfold rearrange_apply. intros Hy Hy' Hs. rewrite <- Hs in Hy'.
  apply bind_Ok in Hy as (env & Henv & Hy). apply bind_Ok in Hy as (d & _ & [= <-]).
  apply bind_Ok in Hy' as (env' & Henv' & Hy'). apply bind_Ok in Hy' as (d' & _ & [= <-]).
  rewrite Henv in Henv'. injection Henv' as <-. reflexivity.
Qed.

Lemma forward_shape {A : Type} (w1 w2 : Reshape) (x y1 y2 : tensor A) :
  rearrange w1 = rearrange w2 -> wf_tensor x ->
  forward w1 x = Ok y1 -> forward w2 x = Ok y2 -> shape y1 = shape y2.
Proof.
  unfold forward. intros Hr Hwf H1 H2.
  apply bind_Ok in H1 as (x1 & Hx1 & H1). apply bind_Ok in H2 as (x2 & Hx2 & H2).
  rewrite Hr in H1. apply (layer_apply_shape _ _ _ _ _ H1 H2).
  assert (Hs : forall (w : Reshape) (z : tensor A),
             match shifts w with Some s => roll x s (dims w) | None => Ok x end = Ok z ->
             shape z = shape x).
  { intros w z Hz. destruct (shifts w) as [s|]; [| injection Hz as <-; reflexivity].
    apply (roll_round_trip x z s (dims w) Hwf Hz). }
  rewrite (Hs w1 x1 Hx1), (Hs w2 x2 Hx2). reflexivity.
Qed.

Lemma concat_chunk {T : Type} (ls : list (list T)) (m j : nat) (l : list T) :
  Forall (fun l' => length l' = m) ls -> ls !! j = Some l ->
  take m (drop (j * m) (concat ls)) = l.
Proof.
  intros Hall. revert j. induction Hall as [|a ls Ha _ IH]; intros j Hj; [discriminate |].
  destruct j as [|j]; simpl in Hj |- *.
  - injection Hj as ->. rewrite drop_0, take_app_length'; [reflexivity | symmetry; exact Ha].
  - rewrite drop_app_ge by lia.
    replace (m + j * m - length a)%nat with (j * m)%nat by lia. apply IH, Hj.
Qed.

Lemma Forall2_functional {T U : Type} (R : T -> U -> Prop) (l : list T) (k1 k2 : list U) :
  (forall a b1 b2, R a b1 -> R a b2 -> b1 = b2) ->
  Forall2 R l k1 -> Forall2 R l k2 -> k1 = k2.
Proof.
  intros Hf H1. revert k2. induction H1 as [|a b l k Hab _ IH]; intros k2 H2;
    inversion H2; subst; [reflexivity |].
  f_equal; [eapply Hf; eassumption | apply IH; assumption].
Qed.

Lemma column_replicate {A : Type} (x : tensor A) (V i : nat) :
  V <> 0%nat -> column (replicate V x) i = replicate V <$> data x !! i.
Proof.
  intros HV. destruct V as [|V]; [congruence |]. clear HV.
  induction V as [|V IH].
  - simpl. destruct (data x !! i); reflexivity.
  - change (replicate (S (S V)) x) with (x :: replicate (S V) x).
    cbn [column]. rewrite IH. destruct (data x !! i); reflexivity.
Qed.

Section BackAndForth.
Context {A : Type} `{Scalar A}.

Lemma SW_inverse_of_forward input_size num_heads head_dim grid_size patch_size shift_specs
  (kwargs : gmap string Z) (self : ShiftedWindows) (x y : tensor A) :
  SWMatricize_init input_size num_heads head_dim grid_size patch_size shift_specs kwargs
    = Ok self ->
  map_Forall (fun _ v => 0 < v) kwargs ->
  consistent input_size (shape x) ->
  wf_tensor x ->
  SW_forward self x = Ok y ->
  let V := length (shifted_windows self) in
  SW_inverse_forward self y
  = Ok (Tensor (shape x) (map (fun a => averaged (replicate V a) V) (data x))).
Proof.
  intros Hinit Hpos Hcons Hwf Hy V.
  destruct (SW_init_variants _ _ _ _ _ _ _ _ _ Hinit) as [Hne Hws].
  apply SW_forward_Ok in Hy as (ys & tail & Hys & Hyne & Hst & Hsh & Hd).
  pose proof (SW_inverse_forward_chunks self y) as Hchunks. fold V in Hchunks.
  subst V. remember (shifted_windows self) as ws eqn:Ews. set (V := length ws) in *.
  assert (HV : V <> 0%nat) by (unfold V; destruct ws; [congruence | discriminate]).
  pose proof (Forall2_length _ _ _ Hys) as Hlen.
  (* every variant gives the input back *)
  assert (Hback : forall j w yj, ws !! j = Some w -> ys !! j = Some yj ->
                    forward w x = Ok yj /\ inverse_forward w yj = Ok x /\ wf_tensor yj).
  { intros j w yj Hw Hyj.
    destruct (Forall2_lookup_l _ _ _ _ _ Hys Hw) as (yj' & Hyj' & Hf).
    rewrite Hyj in Hyj'. injection Hyj' as <-.
    destruct (Hws w ltac:(apply list_elem_of_lookup; eauto)) as (s & Hctor).
    split; [exact Hf |].
    split; [exact (window_round_trip _ _ _ _ _ _ _ _ _ x yj Hctor Hpos Hcons Hwf Hf) |].
    unfold Matricize_init, window_init in Hctor.
    apply bind_Ok in Hctor as (u1 & _ & Hctor). apply bind_Ok in Hctor as (u2 & _ & Hctor).
    apply bind_Ok in Hctor as (kw & _ & Hctor).
    apply (forward_Permutation _ _ _ _ _ _ x yj Hctor Hwf Hf). }
  (* all variants return the same shape *)
  destruct ws as [|w0 ws']; [congruence |].
  destruct ys as [|y0 ys']; [discriminate |].
  set (n := batch y0).
  assert (Hshape : forall j yj, (y0 :: ys') !! j = Some yj -> shape yj = n :: tail).
  { intros j yj Hyj.
    destruct (lookup_lt_is_Some_2 (w0 :: ws') j) as [w Hw];
      [rewrite Hlen; eapply lookup_lt_Some, Hyj |].
    destruct (Hback j w yj Hw Hyj) as (Hf & _ & _).
    destruct (Hback 0%nat w0 y0 eq_refl eq_refl) as (Hf0 & _ & _).
    destruct (Hws w ltac:(apply list_elem_of_lookup; eauto)) as (s & Hctor).
    destruct (Hws w0 ltac:(left)) as (s0 & Hctor0).
    rewrite (forward_shape w w0 x yj y0
               (window_init_same_layer _ _ _ _ _ _ _ _ _ _ _ Hctor Hctor0) Hwf Hf Hf0).
    apply (proj1 (Forall_forall _ _) Hst y0). left. }
  assert (Hsum : sum_batches (y0 :: ys') = (n * V)%nat).
  { unfold V. rewrite Hlen. apply sum_batches_uniform, Forall_forall. intros yj Hyj.
    apply list_elem_of_lookup in Hyj as [j Hyj]. unfold batch.
    rewrite (Hshape j yj Hyj). reflexivity. }
  rewrite Hsum in Hsh.
  (* the chunks of the concatenation are the outputs of the variants *)
  assert (Hchunk : forall j yj, (y0 :: ys') !! j = Some yj -> chunk y j n = yj).
  { intros j yj Hyj. unfold chunk. rewrite Hsh. cbn [tl].
    destruct (lookup_lt_is_Some_2 (w0 :: ws') j) as [w Hw];
      [rewrite Hlen; eapply lookup_lt_Some, Hyj |].
    destruct (Hback j w yj Hw Hyj) as (_ & _ & Hwfj).
    rewrite Hd, <- (Nat.mul_assoc j n).
    rewrite (concat_chunk (map data (y0 :: ys')) (n * numel tail) j (data yj)).
    - rewrite <- (Hshape j yj Hyj). destruct yj; reflexivity.
    - apply Forall_forall. intros l Hl. apply list_elem_of_fmap in Hl as (t & -> & Ht).
      apply list_elem_of_lookup in Ht as [i Ht].
      destruct (lookup_lt_is_Some_2 (w0 :: ws') i) as [wi Hwi];
        [rewrite Hlen; eapply lookup_lt_Some, Ht |].
      destruct (Hback i wi t Hwi Ht) as (_ & _ & Hwft).
      unfold wf_tensor in Hwft. rewrite (Hshape i t Ht) in Hwft. exact Hwft.
    - rewrite list_lookup_fmap, Hyj. reflexivity. }
  assert (Hinv : inverted_chunks (w0 :: ws') y n 0 (replicate V x)).
  { unfold inverted_chunks. apply Forall2_same_length_lookup_2.
    - rewrite length_zip, length_seq, length_replicate. unfold V. lia.
    - intros j [i w] t Hj Ht. apply lookup_replicate in Ht as [-> _].
      apply lookup_zip_Some in Hj as [Hi Hw]. cbn [fst snd] in Hi, Hw.
      apply lookup_seq in Hi as [Hi _]. simpl in Hi. subst i. simpl.
      destruct (lookup_lt_is_Some_2 (y0 :: ys') j) as [yj Hyj];
        [rewrite <- Hlen; eapply lookup_lt_Some, Hw |].
      rewrite (Hchunk j yj Hyj). apply (Hback j w yj Hw Hyj). }
  destruct (Hchunks y n tail HV Hsh) as [_ Hex].
  destruct (Hex (replicate V x) (shape x) Hinv) as [y' Hy'].
  { apply Forall_forall. intros t Ht. apply elem_of_replicate in Ht as [-> _]. reflexivity. }
  rewrite Hy'. f_equal.
  destruct (Hchunks y' n tail HV Hsh) as [Hall _].
  destruct (Hall Hy') as (ts & Hts & Hshapes & Hdata).
  assert (ts = replicate V x) as ->.
  { unfold inverted_chunks in Hts, Hinv.
    eapply Forall2_functional; [| exact Hts | exact Hinv].
    intros a b1 b2 H1 H2. simpl in H1, H2. congruence. }
  destruct y' as [sh d]. cbn [shape data] in *. f_equal.
  - symmetry. apply (proj1 (Forall_forall _ _) Hshapes x), elem_of_replicate. auto.
  - apply list_eq. intros i. rewrite (Hdata i), list_lookup_fmap.
    rewrite (column_replicate x V i HV). destruct (data x !! i); reflexivity.
Qed.

(** X14. Through the shifted windows and back. For a wrapper built by
    [SWMatricize] with positive hints, and a tensor [x] that agrees with the
    input size, [inverse_forward] of what [forward] returns on [x] has the
    shape of [x] and holds, for every element [a] of [x], the sum of [V]
    copies of [a] (from [0.0] on) divided by [V], the number of variants:
    every variant gives [x] back, so the average is taken over equal
    tensors. *)
Theorem SW_round_trip input_size num_heads head_dim grid_size patch_size shift_specs
  (kwargs : gmap string Z) (self : ShiftedWindows) (x y : tensor A) :
  SWMatricize_init input_size num_heads head_dim grid_size patch_size shift_specs kwargs
    = Ok self ->
  map_Forall (fun _ v => 0 < v) kwargs ->
  consistent input_size (shape x) ->
  wf_tensor x ->
  SW_forward self x = Ok y ->
  let V := length (shifted_windows self) in
  SW_inverse_forward self y
  = Ok (Tensor (shape x) (map (fun a => averaged (replicate V a) V) (data x))).
Proof. apply SW_inverse_of_forward. Qed.

End BackAndForth.

Lemma SW_round_trip_witness :
  SW_inverse_forward two_head_windows
    (Tensor [4; 1; 1; 4]%nat [1; 2; 3; 4; 5; 6; 7; 8; 4; 3; 2; 1; 8; 7; 6; 5])
  = Ok (Tensor [1; 2; 2; 2]%nat
          (map (fun a => averaged (replicate 2 a) 2) [1; 2; 3; 4; 5; 6; 7; 8])).
Proof.
  apply (SW_round_trip (H := Z_scalar) [Some 1; Some 2; Some 2; Some 2] (Some 2) None
           None (Some (SInt 2)) None ∅ two_head_windows
           (Tensor [1; 2; 2; 2]%nat [1; 2; 3; 4; 5; 6; 7; 8])).
  - vm_compute. reflexivity.
  - apply (bool_decide_unpack _). vm_compute. exact I.
  - unfold consistent. simpl.
    repeat (constructor; [intros v [= <-]; split; [reflexivity | lia] |]). constructor.
  - reflexivity.
  - vm_compute. reflexivity.
Defined.

(** ** The output size a transform announces *)

Lemma Reshape_init_output_size input_size (equation : string) shift_spec shift_dims
  (kwargs : gmap string Z) (self : Reshape) :
  Reshape_init input_size (Some equation) shift_spec shift_dims kwargs = Ok self ->
  exists fw groups rgroups,
    rearrange self = Some fw /\ well_formed fw /\ re_lengths fw = kwargs
    /\ map group_dims groups = re_left fw
    /\ infer_loop groups input_size kwargs ∅ = Ok (dim_lengths self)
    /\ map group_dims rgroups = re_right fw
    /\ Forall2 (fun g o => group_size (dim_lengths self) (group_dims g) = Ok o)
               rgroups (output_size self).
Proof.
  unfold Reshape_init.
  destruct (Str.split_arrow (Str.of_string equation)) as [|l [|r [|? ?]]] eqn:Hsplit;
    try discriminate.
  intros Hb. apply bind_Ok in Hb as (fw & Hfw & Hb).
  apply bind_Ok in Hb as (dl & Hdl & Hb).
  apply bind_Ok in Hb as (os & Hos & Hb).
  apply bind_Ok in Hb as (bw & Hbw & [= <-]). simpl.
  apply Rearrange_init_Ok in Hfw as (sl & sr & Hsp & Hl & Hr & Hlen & Hwf).
  rewrite Hsplit in Hsp. injection Hsp as <- <-.
  exists fw, (findall (strip l)), (findall (strip r)).
  split; [reflexivity |]. split; [exact Hwf |]. split; [exact Hlen |].
  split; [unfold findall; apply parses_findall; [apply parses_strip, Hl | lia] |].
  split; [exact Hdl |].
  split; [unfold findall; apply parses_findall; [apply parses_strip, Hr | lia] |].
  apply mapR_Ok in Hos. exact Hos.
Qed.

Lemma forward_output_size {A : Type} input_size equation shift_spec shift_dims
  (kwargs : gmap string Z) (self : Reshape) (x y : tensor A) :
  Reshape_init input_size equation shift_spec shift_dims kwargs = Ok self ->
  map_Forall (fun _ v => 0 < v) kwargs ->
  consistent input_size (shape x) ->
  wf_tensor x ->
  forward self x = Ok y ->
  Forall2 (fun o n => forall v, o = Some v -> v = Z.of_nat n) (output_size self) (shape y).
Proof.
  intros Hinit Hpos Hcons Hwf Hy.
  unfold forward in Hy. apply bind_Ok in Hy as (x1 & Hx1 & Hy).
  assert (Hsh1 : shape x1 = shape x).
  { destruct (shifts self) as [s|]; [| injection Hx1 as <-; reflexivity].
    apply (roll_round_trip x x1 s (dims self) Hwf Hx1). }
  destruct equation as [eq|].
  2: { destruct (Reshape_init_identity _ _ _ _ _ Hinit) as [Hf _].
       rewrite Hf in Hy. simpl in Hy. injection Hy as <-. rewrite Hsh1.
       injection Hinit as <-. simpl.
       eapply Forall2_impl; [exact Hcons |]. intros o n Ho v Hv. apply (Ho v Hv). }
  destruct (Reshape_init_output_size _ _ _ _ _ _ Hinit)
    as (fw & groups & rgroups & Hf & Hwfw & Hlen & Hg & Hinfer & Hrg & Hos).
  rewrite Hf in Hy. simpl in Hy. unfold rearrange_apply in Hy.
  apply bind_Ok in Hy as (env & Henv & Hy). apply bind_Ok in Hy as (d1 & _ & [= <-]).
  destruct (resolve_axes_Ok fw (shape x1) env Hwfw Henv) as (Hinc & Hres & Hdef).
  assert (Hkw : sound env kwargs).
  { intros d v Hd. split; [apply Hinc; rewrite Hlen; exact Hd | exact (Hpos d v Hd)]. }
  assert (Hdl : sound env (dim_lengths self)).
  { apply (infer_loop_sound env kwargs groups Hkw input_size (shape x1) ∅).
    - rewrite Hg, <- Hlen. apply (wf_unknowns fw Hwfw).
    - rewrite Hg, <- Hlen. exact Hres.
    - rewrite Hsh1. exact Hcons.
    - intros d v Hd. rewrite lookup_empty in Hd. discriminate.
    - exact Hinfer. }
  simpl. rewrite <- Hrg, map_map. apply Forall2_fmap_r, Forall2_flip.
  eapply Forall2_impl; [exact Hos |]. intros g o Hgo v ->.
  apply group_size_Ok in Hgo as (vs & Hvs & ->).
  rewrite numel_zprod.
  - f_equal. clear -Hvs Hdl. induction Hvs as [|d v ds vs Hd _ IH]; [reflexivity |].
    simpl. rewrite IH. unfold extent. rewrite (proj1 (Hdl d v Hd)). reflexivity.
  - intros d Hd. apply list_elem_of_lookup in Hd as [i Hi].
    destruct (Forall2_lookup_l _ _ _ _ _ Hvs Hi) as (v & _ & Hv).
    destruct (Hdl d v Hv) as [He Hp]. unfold extent. rewrite He. simpl. lia.
Qed.

(** X15. The output size a transform announces is the shape [forward]
    returns. For a transform built by [Reshape] with positive hints and a
    tensor that agrees with the input size, the result of [forward] has one
    axis per entry of [output_size], and every entry that is not [None] is
    the extent of its axis. *)
Theorem output_size_is_forward_shape {A : Type} input_size equation shift_spec shift_dims
  (kwargs : gmap string Z) (self : Reshape) (x y : tensor A) :
  Reshape_init input_size equation shift_spec shift_dims kwargs = Ok self ->
  map_Forall (fun _ v => 0 < v) kwargs ->
  consistent input_size (shape x) ->
  wf_tensor x ->
  forward self x = Ok y ->
  Forall2 (fun o n => forall v, o = Some v -> v = Z.of_nat n) (output_size self) (shape y).
Proof. apply forward_output_size. Qed.

Lemma output_size_is_forward_shape_witness :
  Forall2 (fun o n => forall v, o = Some v -> v = Z.of_nat n)
          (output_size shifted_reshape) (shape shifted_output).
Proof.
  apply (output_size_is_forward_shape [Some 2; Some 6] (Some "a (b c) -> (c a) b")
           (Some [1; -1]) (Some [1; 0]) (<["b" := 2]> ∅) shifted_reshape shifted_input
           shifted_output).
  - vm_compute. reflexivity.
  - apply (bool_decide_unpack _). vm_compute. exact I.
  - unfold consistent, shifted_input. simpl.
    repeat (constructor; [intros v [= <-]; split; [reflexivity | lia] |]). constructor.
  - reflexivity.
  - vm_compute. reflexivity.
Defined.

(** What [forward] of a wrapper stacks: results of one shape, one per
    variant. *)
Lemma SW_forward_uniform {A : Type} input_size num_heads head_dim grid_size patch_size
  shift_specs (kwargs : gmap string Z) (self : ShiftedWindows) (x y : tensor A) :
  SWMatricize_init input_size num_heads head_dim grid_size patch_size shift_specs kwargs
    = Ok self ->
  wf_tensor x ->
  SW_forward self x = Ok y ->
  exists w0 ws y0 ys tail,
    shifted_windows self = w0 :: ws
    /\ sw_output_size self = output_size w0
    /\ (exists s, Matricize_init input_size num_heads head_dim
                    (Some (SSeq (to_ntuple (length input_size - 2) grid_size)))
                    (Some (SSeq (to_ntuple (length input_size - 2) patch_size))) s kwargs
                  = Ok w0)
    /\ forward w0 x = Ok y0
    /\ Forall2 (fun w yj => forward w x = Ok yj) ws ys
    /\ Forall (fun yj => shape yj = shape y0) ys
    /\ shape y0 = batch y0 :: tail
    /\ shape y = (batch y0 * length (shifted_windows self))%nat :: tail.
Proof.
  intros Hinit Hwf Hy.
  destruct (SW_init_variants _ _ _ _ _ _ _ _ _ Hinit) as [Hne Hws].
  assert (Hos : forall w0 ws, shifted_windows self = w0 :: ws ->
                              sw_output_size self = output_size w0).
  { intros w0 ws Hw. unfold SWMatricize_init, SW_init in Hinit.
    apply bind_Ok in Hinit as (ss & _ & Hinit). apply bind_Ok in Hinit as (l & _ & Hinit).
    destruct l as [|w l]; [discriminate |]. injection Hinit as <-.
    simpl in Hw. injection Hw as <- <-. reflexivity. }
  apply SW_forward_Ok in Hy as (ys & tail & Hys & Hyne & Hst & Hsh & Hd).
  destruct (shifted_windows self) as [|w0 ws] eqn:Ews; [congruence |].
  inversion Hys as [|? y0 ? ys' Hf0 Hys']; subst.
  destruct (Hws w0 ltac:(left)) as (s0 & Hctor0).
  assert (Hsame : Forall (fun yj => shape yj = shape y0) ys').
  { apply Forall_forall. intros yj Hyj. apply list_elem_of_lookup in Hyj as [j Hyj].
    destruct (Forall2_lookup_r _ _ _ _ _ Hys' Hyj) as (w & Hw & Hf).
    destruct (Hws w ltac:(right; apply list_elem_of_lookup; eauto)) as (s & Hctor).
    exact (forward_shape w w0 x yj y0
             (window_init_same_layer _ _ _ _ _ _ _ _ _ _ _ Hctor Hctor0) Hwf Hf Hf0). }
  exists w0, ws, y0, ys', tail.
  split; [reflexivity |]. split; [apply (Hos w0 ws eq_refl) |].
  split; [eauto |]. split; [exact Hf0 |]. split; [exact Hys' |]. split; [exact Hsame |].
  split; [apply (proj1 (Forall_forall _ _) Hst y0); left |].
  rewrite Hsh. f_equal.
  rewrite (sum_batches_uniform (y0 :: ys') (batch y0)).
  - rewrite (Forall2_length _ _ _ Hys). reflexivity.
  - constructor; [reflexivity |]. eapply Forall_impl; [exact Hsame |].
    intros yj Hyj. unfold batch. rewrite Hyj. reflexivity.
Qed.

(** X16. The output size a wrapper announces is that of one variant. For a
    wrapper built by [SWMatricize] with positive hints and a tensor that
    agrees with the input size, [forward] returns a tensor of shape
    [(n * V) :: tail], [V] being the number of variants, where
    [output_size] describes [n :: tail]: beyond the batch axis every entry
    of [output_size] that is not [None] is the extent [forward] returns,
    and on the batch axis [forward] returns [V] times the entry. *)
Theorem SW_output_size_is_one_variant {A : Type} input_size num_heads head_dim grid_size
  patch_size shift_specs (kwargs : gmap string Z) (self : ShiftedWindows)
  (x y : tensor A) :
  SWMatricize_init input_size num_heads head_dim grid_size patch_size shift_specs kwargs
    = Ok self ->
  map_Forall (fun _ v => 0 < v) kwargs ->
  consistent input_size (shape x) ->
  wf_tensor x ->
  SW_forward self x = Ok y ->
  exists (n : nat) (tail : list nat),
    shape y = (n * length (shifted_windows self))%nat :: tail
    /\ Forall2 (fun o m => forall v, o = Some v -> v = Z.of_nat m)
               (sw_output_size self) (n :: tail).
Proof.
  intros Hinit Hpos Hcons Hwf Hy.
  destruct (SW_forward_uniform _ _ _ _ _ _ _ _ x y Hinit Hwf Hy)
    as (w0 & ws & y0 & ys & tail & Hws & Hos & (s & Hctor) & Hf0 & _ & _ & Hsh0 & Hsh).
  exists (batch y0), tail. split; [exact Hsh |].
  rewrite Hos, <- Hsh0.
  unfold Matricize_init, window_init in Hctor.
  apply bind_Ok in Hctor as (u1 & _ & Hctor). apply bind_Ok in Hctor as (u2 & _ & Hctor).
  apply bind_Ok in Hctor as (kw & Hkw & Hctor).
  apply (forward_output_size _ _ _ _ _ _ x y0 Hctor); try assumption.
  apply (merge_kwargs_positive _ _ _ Hkw); [| exact Hpos].
  apply window_dims_lengths_positive.
Qed.

Lemma SW_output_size_is_one_variant_witness :
  exists (n : nat) (tail : list nat),
    [4; 1; 1; 4]%nat = (n * length (shifted_windows two_head_windows))%nat :: tail
    /\ Forall2 (fun o m => forall v, o = Some v -> v = Z.of_nat m)
               (sw_output_size two_head_windows) (n :: tail).
Proof.
  apply (SW_output_size_is_one_variant [Some 1; Some 2; Some 2; Some 2] (Some 2) None
           None (Some (SInt 2)) None ∅ two_head_windows
           (Tensor [1; 2; 2; 2]%nat [1; 2; 3; 4; 5; 6; 7; 8])
           (Tensor [4; 1; 1; 4]%nat [1; 2; 3; 4; 5; 6; 7; 8; 4; 3; 2; 1; 8; 7; 6; 5])).
  - vm_compute. reflexivity.
  - apply (bool_decide_unpack _). vm_compute. exact I.
  - unfold consistent. simpl.
    repeat (constructor; [intros v [= <-]; split; [reflexivity | lia] |]). constructor.
  - reflexivity.
  - vm_compute. reflexivity.
Defined.

(** ** Keywords given twice *)

(** X17. A keyword of the caller never replaces a length the constructor
    sets. Once the two assertions have passed, a keyword that names an axis
    for which [Matricize] or [Tensorize] has a length of its own ([h] with
    [num_heads], [d] with [head_dim], [g0], [p0], ... with the grid and the
    patch sizes), or that is one of [equation] and [dims], which the
    constructor passes on by keyword itself, makes the call of
    [Reshape.__init__] a [TypeError]. ([shifts] is a parameter of the
    constructor and so never among the further keywords.) *)
Theorem keyword_given_twice (equation : nat -> string) input_size num_heads head_dim
  grid_size patch_size shift_spec (kwargs : gmap string Z) (k : string) (v : Z) :
  num_heads <> None \/ head_dim <> None ->
  grid_size <> None \/ patch_size <> None ->
  kwargs !! k = Some v ->
  is_Some (window_dims_lengths (length input_size - 2) num_heads head_dim
             grid_size patch_size !! k)
  \/ k ∈ ["equation"; "dims"] ->
  window_init equation input_size num_heads head_dim grid_size patch_size shift_spec kwargs
  = Err TypeError.
Proof.
  intros Hheads Hsizes Hk Hdup. unfold window_init.
  rewrite bool_decide_eq_false_2 by (intros [? ?]; destruct Hheads; contradiction).
  rewrite bool_decide_eq_false_2 by (intros [? ?]; destruct Hsizes; contradiction).
  cbn [negb guard bind]. unfold merge_kwargs.
  set (dl := window_dims_lengths _ _ _ _ _) in *.
  assert (Hf : forallb (fun kv => bool_decide (dl !! fst kv = None)
                                  && negb (bool_decide (fst kv ∈ ["equation"; "shifts"; "dims"])))
                       (map_to_list kwargs) = false).
  { apply not_true_iff_false. intros Hall.
    assert (Hin : In (k, v) (map_to_list kwargs))
      by (apply list_elem_of_In, elem_of_map_to_list, Hk).
    pose proof (proj1 (forallb_forall _ _) Hall (k, v) Hin) as Hkv.
    simpl in Hkv. apply andb_true_iff in Hkv as [H1 H2].
    apply bool_decide_eq_true in H1. apply negb_true_iff, bool_decide_eq_false in H2.
    destruct Hdup as [[w Hw] | Hd]; [congruence |]. apply H2.
    apply elem_of_cons in Hd as [-> | Hd]; [left |].
    apply list_elem_of_singleton in Hd as ->. right. right. left. }
  rewrite Hf. reflexivity.
Qed.

Lemma keyword_given_twice_witness :
  window_init Matricize_equation [Some 1; Some 4; Some 8; Some 8] (Some 2) None
    None (Some (SInt 4)) None (<["h" := 4]> ∅) = Err TypeError.
Proof.
  apply (keyword_given_twice Matricize_equation [Some 1; Some 4; Some 8; Some 8] (Some 2) None
           None (Some (SInt 4)) None (<["h" := 4]> ∅) "h" 4).
  - left. discriminate.
  - right. discriminate.
  - reflexivity.
  - left. exists 2. vm_compute. reflexivity.
Defined.

(** ** The equation of [Matricize], read in full *)

Lemma span_all_stop (p : ascii -> bool) (a t : list ascii) (c : ascii) :
  forallb p a = true -> p c = false -> Str.span p (a ++ c :: t) = (a, c :: t).
Proof.
  intros Ha Hc. induction a as [|x a IH]; simpl.
  - rewrite Hc. reflexivity.
  - simpl in Ha. apply andb_true_iff in Ha as [Hx Ha]. rewrite Hx, (IH Ha). reflexivity.
Qed.

Lemma span_all_end (p : ascii -> bool) (a : list ascii) :
  forallb p a = true -> Str.span p a = (a, []).
Proof.
  intros Ha. induction a as [|x a IH]; simpl; [reflexivity |].
  simpl in Ha. apply andb_true_iff in Ha as [Hx Ha]. rewrite Hx, (IH Ha). reflexivity.
Qed.

Lemma split_ws_aux_word (w rest cur : list ascii) :
  forallb (fun c => negb (Str.is_space c)) w = true ->
  Str.split_ws_aux (w ++ rest) cur = Str.split_ws_aux rest (rev w ++ cur).
Proof.
  revert cur. induction w as [|c w IH]; intros cur Hw; [reflexivity |].
  simpl in Hw. apply andb_true_iff in Hw as [Hc Hw]. apply negb_true_iff in Hc.
  simpl. rewrite Hc, (IH _ Hw), <- app_assoc. reflexivity.
Qed.

Lemma split_ws_aux_end (cur : list ascii) :
  cur <> [] -> Str.split_ws_aux [] cur = [Str.to_string (rev cur)].
Proof. destruct cur; [congruence | reflexivity]. Qed.

Lemma split_ws_aux_blank (r cur : list ascii) :
  cur <> [] ->
  Str.split_ws_aux (" "%char :: r) cur = Str.to_string (rev cur) :: Str.split_ws_aux r [].
Proof. destruct cur; [congruence | reflexivity]. Qed.

(** A name: not empty, no white space in it. *)
Lemma split_ws_join (names : list string) :
  Forall (fun s => s <> "" /\ all_chars (fun c => negb (Str.is_space c)) s = true) names ->
  Str.split_ws (Str.of_string (Str.join_sp names)) = names.
Proof.
  unfold Str.split_ws.
  induction 1 as [|s names [Hne Hs] Hall IH]; [reflexivity |].
  assert (Hword : forall rest,
             Str.split_ws_aux (Str.of_string s ++ rest) []
             = Str.split_ws_aux rest (rev (Str.of_string s))).
  { intros rest. rewrite (split_ws_aux_word _ _ _ Hs), app_nil_r. reflexivity. }
  assert (Hrev : rev (Str.of_string s) <> []).
  { destruct s as [|c s]; [congruence |]. simpl. intros Hr.
    apply app_eq_nil in Hr as [_ Hr]. discriminate. }
  assert (Hback : Str.to_string (rev (rev (Str.of_string s))) = s).
  { rewrite rev_involutive. apply string_of_list_ascii_of_string. }
  destruct names as [|s' names].
  - change (Str.join_sp [s]) with s.
    rewrite <- (app_nil_r (Str.of_string s)), Hword, (split_ws_aux_end _ Hrev), Hback.
    reflexivity.
  - change (Str.join_sp (s :: s' :: names)) with (s +:+ " " +:+ Str.join_sp (s' :: names)).
    rewrite !of_string_app, Hword.
    change (Str.of_string " " ++ Str.of_string (Str.join_sp (s' :: names)))
      with (" "%char :: Str.of_string (Str.join_sp (s' :: names))).
    rewrite (split_ws_aux_blank _ _ Hrev), Hback, IH. reflexivity.
Qed.

Lemma of_nat_digits (i : nat) : all_chars Str.is_digit (Str.of_nat i) = true.
Proof. apply all_chars_uint. auto. Qed.

Lemma of_nat_inj (i j : nat) : Str.of_nat i = Str.of_nat j -> i = j.
Proof.
  unfold Str.of_nat. intros Heq.
  assert (Hu : Nat.to_uint i = Nat.to_uint j).
  { apply (f_equal NilEmpty.uint_of_string) in Heq. rewrite !NilEmpty.usu in Heq.
    congruence. }
  apply (f_equal Nat.of_uint) in Hu. rewrite !Unsigned.of_to in Hu. exact Hu.
Qed.

Lemma axis_inj (prefix : string) (i j : nat) : axis prefix i = axis prefix j -> i = j.
Proof.
  unfold axis. intros Heq. apply of_nat_inj.
  induction prefix as [|c prefix IH]; [exact Heq |].
  simpl in Heq. injection Heq as Heq. apply IH, Heq.
Qed.

Lemma digit_is_word (c : ascii) : Str.is_digit c = true -> Str.is_word c = true.
Proof. unfold Str.is_word. intros ->. apply orb_true_iff. left. apply orb_true_r. Qed.

Lemma digit_not_underscore (c : ascii) :
  Str.is_digit c = true -> Str.is_underscore c = false.
Proof. by_ascii c. Qed.

Lemma digit_not_space (c : ascii) : Str.is_digit c = true -> Str.is_space c = false.
Proof. by_ascii c. Qed.

Lemma last_Forall {T : Type} (P : T -> Prop) (l : list T) (c : T) :
  P c -> Forall P l -> P (List.last l c).
Proof.
  intros Hc Hl. induction Hl as [|a l Ha Hl IH]; [exact Hc |].
  destruct l as [|a' l]; [exact Ha | exact IH].
Qed.

(** A letter followed by digits is an identifier. *)
Lemma axis_is_identifier (prefix : ascii) (i : nat) :
  Str.is_alpha prefix = true ->
  is_identifier (Str.of_string (axis (String prefix "") i)) = true.
Proof.
  intros Hp. unfold axis.
  change (Str.of_string (String prefix "" +:+ Str.of_nat i))
    with (prefix :: Str.of_string (Str.of_nat i)).
  pose proof (of_nat_digits i) as Hd. unfold all_chars in Hd.
  set (ds := Str.of_string (Str.of_nat i)) in *.
  assert (Hall : Forall (fun c => Str.is_digit c = true) ds).
  { apply Forall_forall. intros c Hc. apply list_elem_of_In in Hc.
    exact (proj1 (forallb_forall _ _) Hd c Hc). }
  unfold is_identifier.
  assert (Hw : Str.is_word prefix = true).
  { unfold Str.is_word. rewrite Hp. reflexivity. }
  assert (Hnd : Str.is_digit prefix = false) by (revert Hp; by_ascii prefix).
  assert (Hnu : Str.is_underscore prefix = false) by (revert Hp; by_ascii prefix).
  apply andb_true_iff; split; [apply andb_true_iff; split; [apply andb_true_iff; split |] |].
  - cbn [forallb]. rewrite Hw. apply forallb_forall. intros c Hc. apply digit_is_word.
    exact (proj1 (forallb_forall _ _) Hd c Hc).
  - rewrite Hnd. reflexivity.
  - rewrite Hnu. reflexivity.
  - apply negb_true_iff.
    apply (last_Forall (fun c => Str.is_underscore c = false) (prefix :: ds) prefix Hnu).
    constructor; [exact Hnu |]. eapply Forall_impl; [exact Hall |].
    intros c Hc. apply digit_not_underscore, Hc.
Qed.

Lemma axis_no_space (prefix : ascii) (i : nat) :
  Str.is_alpha prefix = true ->
  axis (String prefix "") i <> ""
  /\ all_chars (fun c => negb (Str.is_space c)) (axis (String prefix "") i) = true.
Proof.
  intros Hp. split; [discriminate |].
  apply all_chars_axis.
  - intros c Hc. rewrite (digit_not_space c Hc). reflexivity.
  - unfold all_chars. simpl. rewrite andb_true_r. revert Hp. by_ascii prefix.
Qed.

Lemma identifier_word (w : list ascii) :
  is_identifier w = true -> w <> [] /\ forallb Str.is_word w = true.
Proof.
  unfold is_identifier. destruct w as [|c w]; [discriminate |]. intros Hid.
  split; [discriminate |].
  apply andb_true_iff in Hid as [Hid _]. apply andb_true_iff in Hid as [Hid _].
  apply andb_true_iff in Hid as [Hid _]. exact Hid.
Qed.

Lemma identifier_name (s : string) (p : ascii -> bool) :
  (forall c, Str.is_word c = true -> p c = true) ->
  is_identifier (Str.of_string s) = true -> s <> "" /\ all_chars p s = true.
Proof.
  intros Hp Hid. apply identifier_word in Hid as [Hne Hw]. split.
  - intros ->. apply Hne. reflexivity.
  - unfold all_chars. apply forallb_forall. intros c Hc.
    apply Hp, (proj1 (forallb_forall _ _) Hw c Hc).
Qed.

(** A pair of parentheses around names separated by one blank. *)
Lemma parses_group (names : list string) (rest : list ascii) (gs : list (list string)) :
  names <> [] ->
  Forall (fun s => is_identifier (Str.of_string s) = true) names ->
  parses rest gs ->
  parses ("("%char :: Str.of_string (Str.join_sp names) ++ ")"%char :: rest) (names :: gs).
Proof.
  intros Hne Hid Hrest.
  assert (Hall : forall p, (forall c, Str.is_word c = true -> p c = true) ->
                           p " "%char = true ->
                           all_chars p (Str.join_sp names) = true).
  { intros p Hp Hb. apply all_chars_join; [exact Hb |].
    eapply Forall_impl; [exact Hid |]. intros s Hs.
    apply (identifier_name s p Hp Hs). }
  apply (parses_bracket "("%char _ (Str.of_string (Str.join_sp names)) ")"%char rest);
    try reflexivity; [| | exact Hrest].
  - apply span_all_stop; [| reflexivity].
    apply (Hall (fun c => negb (Str.is_rparen c))); [| reflexivity].
    intros c Hc. rewrite (word_not_rparen c Hc). reflexivity.
  - unfold parse_bracket.
    assert (Hwb : forall c, Str.is_word c = true -> Str.is_word c || Str.is_blank c = true)
      by (intros c ->; reflexivity).
    pose proof (Hall (fun c => Str.is_word c || Str.is_blank c) Hwb eq_refl) as Hbody.
    unfold all_chars in Hbody. rewrite Hbody.
    rewrite split_ws_join.
    + destruct names as [|s names]; [congruence |].
      assert (Hf : forallb (fun t => is_identifier (Str.of_string t)) (s :: names) = true).
      { apply forallb_forall. intros t Ht. apply list_elem_of_In in Ht.
        exact (proj1 (Forall_forall _ _) Hid t Ht). }
      rewrite Hf. reflexivity.
    + eapply Forall_impl; [exact Hid |]. intros s Hs.
      apply (identifier_name s); [| exact Hs].
      intros c Hc. rewrite (word_not_space c Hc). reflexivity.
Qed.

Lemma grp_chars (i : nat) :
  Str.of_string ("(" +:+ axis "g" i +:+ " " +:+ axis "p" i +:+ ")")
  = "("%char :: Str.of_string (Str.join_sp [axis "g" i; axis "p" i]) ++ [")"%char].
Proof.
  change (Str.join_sp [axis "g" i; axis "p" i]) with (axis "g" i +:+ " " +:+ axis "p" i).
  rewrite !of_string_app. simpl. rewrite <- !app_assoc. reflexivity.
Qed.

Lemma parses_join_groups (l : list nat) (rest : list ascii) (gs : list (list string)) :
  parses rest gs ->
  parses (Str.of_string
            (Str.join_sp (map (fun i => "(" +:+ axis "g" i +:+ " " +:+ axis "p" i +:+ ")") l))
          ++ rest)
         (map (fun i => [axis "g" i; axis "p" i]) l ++ gs).
Proof.
  intros Hrest. induction l as [|i l IH]; [exact Hrest |].
  assert (Hid : Forall (fun s => is_identifier (Str.of_string s) = true)
                       [axis "g" i; axis "p" i]).
  { constructor; [apply (axis_is_identifier "g"); reflexivity |].
    constructor; [apply (axis_is_identifier "p"); reflexivity | constructor]. }
  destruct l as [|j l].
  - change (Str.join_sp (map _ [i]))
      with ("(" +:+ axis "g" i +:+ " " +:+ axis "p" i +:+ ")").
    rewrite grp_chars. cbn [app map]. rewrite <- app_assoc. cbn [app].
    apply parses_group; [discriminate | exact Hid | exact Hrest].
  - set (grp := fun i => "(" +:+ axis "g" i +:+ " " +:+ axis "p" i +:+ ")") in *.
    change (Str.join_sp (map grp (i :: j :: l)))
      with (grp i +:+ " " +:+ Str.join_sp (map grp (j :: l))).
    rewrite !of_string_app. unfold grp at 1. rewrite grp_chars.
    cbn [app map]. rewrite <- !app_assoc. cbn [app].
    apply parses_group; [discriminate | exact Hid |].
    apply parses_blank; [reflexivity |]. exact IH.
Qed.

Lemma parses_left_equation (n : nat) :
  parses (Str.of_string (left_equation n) ++ [" "%char])
         (["b"] :: ["h"; "d"] :: map (fun i => [axis "g" i; axis "p" i]) (seq 0 n)).
Proof.
  unfold left_equation. rewrite of_string_app.
  change (Str.of_string "b (h d) ")
    with ("b"%char :: " "%char :: "("%char :: Str.of_string (Str.join_sp ["h"; "d"])
          ++ [")"%char; " "%char]).
  cbn [app]. rewrite <- !app_assoc. cbn [app].
  eapply parses_word with (w := []);
    [reflexivity | reflexivity | reflexivity | reflexivity | reflexivity |].
  apply parses_blank; [reflexivity |].
  apply parses_group; [discriminate | repeat constructor |].
  apply parses_blank; [reflexivity |].
  rewrite <- (app_nil_r (map (fun i => [axis "g" i; axis "p" i]) (seq 0 n))).
  apply parses_join_groups. apply parses_blank; [reflexivity | constructor].
Qed.

Lemma parses_Matricize_right (n : nat) :
  n <> 0%nat ->
  parses (" "%char :: Str.of_string (Matricize_right n))
         [["b"; "h"]; map (axis "g") (seq 0 n); ["d"]; map (axis "p") (seq 0 n)].
Proof.
  intros Hn. unfold Matricize_right. rewrite !of_string_app.
  change (Str.of_string "(b h) ")
    with ("("%char :: Str.of_string (Str.join_sp ["b"; "h"]) ++ [")"%char; " "%char]).
  change (Str.of_string "(") with ["("%char].
  change (Str.of_string ") ") with [")"%char; " "%char].
  change (Str.of_string "d (") with ["d"%char; " "%char; "("%char].
  change (Str.of_string ")") with [")"%char].
  cbn [app]. rewrite <- !app_assoc. cbn [app].
  assert (Hids : forall prefix, Str.is_alpha prefix = true ->
             Forall (fun s => is_identifier (Str.of_string s) = true)
                    (map (axis (String prefix "")) (seq 0 n))).
  { intros prefix Hp. apply Forall_forall. intros s Hs.
    apply list_elem_of_fmap in Hs as (i & -> & _). apply axis_is_identifier, Hp. }
  assert (Hne : forall prefix, map (axis prefix) (seq 0 n) <> []).
  { intros prefix. destruct n; [congruence | discriminate]. }
  apply parses_blank; [reflexivity |].
  apply parses_group; [discriminate | repeat constructor |].
  apply parses_blank; [reflexivity |].
  rewrite <- ?app_assoc. cbn [app].
  apply parses_group; [apply Hne | apply (Hids "g"%char); reflexivity |].
  apply parses_blank; [reflexivity |].
  eapply parses_word with (w := []);
    [reflexivity | reflexivity | reflexivity | reflexivity | reflexivity |].
  apply parses_blank; [reflexivity |].
  rewrite <- ?app_assoc. cbn [app].
  apply parses_group; [apply Hne | apply (Hids "p"%char); reflexivity |].
  constructor.
Qed.

Lemma Matricize_init_layer input_size num_heads head_dim grid_size patch_size shift_spec
  (kwargs : gmap string Z) (self : Reshape) :
  Matricize_init input_size num_heads head_dim grid_size patch_size shift_spec kwargs
    = Ok self ->
  let n := (length input_size - 2)%nat in
  exists fw kw,
    merge_kwargs (window_dims_lengths n num_heads head_dim grid_size patch_size) kwargs = Ok kw
    /\ rearrange self = Some fw /\ well_formed fw /\ re_lengths fw = kw
    /\ re_left fw = ["b"] :: ["h"; "d"] :: map (fun i => [axis "g" i; axis "p" i]) (seq 0 n)
    /\ re_right fw = [["b"; "h"]; map (axis "g") (seq 0 n); ["d"]; map (axis "p") (seq 0 n)].
Proof.
  intros Hb n. unfold Matricize_init, window_init in Hb.
  apply bind_Ok in Hb as (u1 & _ & Hb). apply bind_Ok in Hb as (u2 & _ & Hb).
  apply bind_Ok in Hb as (kw & Hkw & Hinit). fold n in Hkw, Hinit.
  destruct (Reshape_init_layer _ _ _ _ _ _ Hinit)
    as (fw & sl & sr & Hfw & Hsplit & Hl & Hr & Hlen & Hwfw).
  change (Matricize_equation n)
    with (left_equation n +:+ " -> " +:+ Matricize_right n) in Hsplit.
  rewrite equation_split in Hsplit.
  2: { apply all_chars_left_equation; [apply plain_no_dash | reflexivity..]. }
  2: { apply all_chars_Matricize_right; [apply plain_no_dash | reflexivity..]. }
  injection Hsplit as <- <-.
  exists fw, kw. split; [exact Hkw |]. split; [exact Hfw |]. split; [exact Hwfw |].
  split; [exact Hlen |].
  split; [exact (parses_deterministic _ _ _ Hl (parses_left_equation n)) |].
  destruct (Nat.eq_dec n 0%nat) as [Hz | Hnz];
    [| exact (parses_deterministic _ _ _ Hr (parses_Matricize_right n Hnz))].
  exfalso. rewrite Hz in Hr.
  pose proof (parses_parse_fuel _ _ Hr _ (le_n _)) as Hp.
  vm_compute in Hp. discriminate.
Qed.

Lemma axis_not_letter (prefix c : ascii) (i : nat) :
  prefix <> c -> axis (String prefix "") i <> String c "".
Proof.
  intros Hne. unfold axis.
  change (String prefix "" +:+ Str.of_nat i) with (String prefix (Str.of_nat i)).
  intros Heq. injection Heq as H1 _. contradiction.
Qed.

Lemma axis_prefix_differs (p1 p2 : ascii) (i j : nat) :
  p1 <> p2 -> axis (String p1 "") i <> axis (String p2 "") j.
Proof.
  intros Hne. unfold axis.
  change (String p1 "" +:+ Str.of_nat i) with (String p1 (Str.of_nat i)).
  change (String p2 "" +:+ Str.of_nat j) with (String p2 (Str.of_nat j)).
  intros Heq. injection Heq as H1 _. contradiction.
Qed.

Lemma set_axes_lookup_before prefix (j : nat) (values : list (option Z))
  (dl : gmap string Z) (i : nat) :
  (i < j)%nat -> set_axes prefix j values dl !! axis prefix i = dl !! axis prefix i.
Proof.
  revert j dl. induction values as [|[v|] values IH]; intros j dl Hlt; simpl;
    [reflexivity | | apply IH; lia].
  rewrite IH by lia. apply lookup_insert_ne. intros Heq. apply axis_inj in Heq. lia.
Qed.

Lemma set_axes_lookup prefix (j : nat) (values : list (option Z)) (dl : gmap string Z)
  (i : nat) (v : Z) :
  values !! i = Some (Some v) ->
  set_axes prefix j values dl !! axis prefix (j + i) = Some (Z.max v 1).
Proof.
  revert j dl i. induction values as [|v0 values IH]; intros j dl i Hi; [discriminate |].
  destruct i as [|i]; simpl in Hi |- *.
  - injection Hi as ->. rewrite Nat.add_0_r, set_axes_lookup_before by lia.
    apply lookup_insert_eq.
  - replace (j + S i)%nat with (S j + i)%nat by lia. apply IH, Hi.
Qed.

Lemma window_dims_lengths_dim (n : nat) num_heads (v : Z) grid_size patch_size :
  window_dims_lengths n num_heads (Some v) grid_size patch_size !! "d" = Some (Z.max v 1).
Proof.
  unfold window_dims_lengths.
  rewrite !set_axes_lookup_other by (intros i; apply axis_not_letter; discriminate).
  apply lookup_insert_eq.
Qed.

Lemma window_dims_lengths_grid (n : nat) num_heads head_dim grid_size patch_size
  (i : nat) (v : Z) :
  to_ntuple n grid_size !! i = Some (Some v) ->
  window_dims_lengths n num_heads head_dim grid_size patch_size !! axis "g" i
  = Some (Z.max v 1).
Proof.
  intros Hi. unfold window_dims_lengths.
  rewrite set_axes_lookup_other by (intros k; apply axis_prefix_differs; discriminate).
  apply (set_axes_lookup "g" 0 _ _ i v Hi).
Qed.

Lemma window_dims_lengths_patch (n : nat) num_heads head_dim grid_size patch_size
  (i : nat) (v : Z) :
  to_ntuple n patch_size !! i = Some (Some v) ->
  window_dims_lengths n num_heads head_dim grid_size patch_size !! axis "p" i
  = Some (Z.max v 1).
Proof.
  intros Hi. unfold window_dims_lengths. apply (set_axes_lookup "p" 0 _ _ i v Hi).
Qed.

Lemma zip_with_map {T U V W : Type} (f : U -> V -> W) (G : T -> U) (P : T -> V)
  (l : list T) :
  zip_with f (map G l) (map P l) = map (fun i => f (G i) (P i)) l.
Proof. induction l as [|a l IH]; simpl; [reflexivity | rewrite IH; reflexivity]. Qed.

Lemma Matricize_forward_shapes {A : Type} input_size num_heads head_dim grid_size patch_size
  shift_spec (kwargs : gmap string Z) (self : Reshape) (x y : tensor A) :
  Matricize_init input_size num_heads head_dim grid_size patch_size shift_spec kwargs
    = Ok self ->
  wf_tensor x ->
  forward self x = Ok y ->
  let n := (length input_size - 2)%nat in
  exists (b h d : nat) (g p : list nat),
    length g = n /\ length p = n
    /\ shape x = b :: (h * d)%nat :: zip_with Nat.mul g p
    /\ shape y = [(b * h)%nat; numel g; d; numel p]
    /\ (forall v, num_heads = Some v -> h = Z.to_nat (Z.max v 1))
    /\ (forall v, head_dim = Some v -> d = Z.to_nat (Z.max v 1))
    /\ (forall i v, to_ntuple n grid_size !! i = Some (Some v) -> (i < n)%nat ->
                    g !! i = Some (Z.to_nat (Z.max v 1)))
    /\ (forall i v, to_ntuple n patch_size !! i = Some (Some v) -> (i < n)%nat ->
                    p !! i = Some (Z.to_nat (Z.max v 1))).
Proof.
  intros Hinit Hwf Hy n.
  destruct (Matricize_init_layer _ _ _ _ _ _ _ _ Hinit)
    as (fw & kw & Hkw & Hfw & Hwfw & Hlen & Hl & Hr).
  fold n in Hkw, Hl, Hr.
  unfold forward in Hy. apply bind_Ok in Hy as (x1 & Hx1 & Hy).
  rewrite Hfw in Hy. simpl in Hy.
  assert (Hsh1 : shape x1 = shape x).
  { destruct (shifts self) as [s|]; [| injection Hx1 as <-; reflexivity].
    apply (roll_round_trip x x1 s (dims self) Hwf Hx1). }
  destruct (rearrange_apply_shapes fw x1 y Hwfw Hy) as (env & Hinc & Hshx & Hshy).
  rewrite Hsh1, Hl in Hshx. rewrite Hr in Hshy.
  set (e := axis_len env) in *.
  exists (e "b"), (e "h"), (e "d"), (map (fun i => e (axis "g" i)) (seq 0 n)),
    (map (fun i => e (axis "p" i)) (seq 0 n)).
  assert (Hhint : forall k v, window_dims_lengths n num_heads head_dim grid_size patch_size
                                !! k = Some v -> e k = Z.to_nat v).
  { intros k v Hk. unfold e, axis_len.
    rewrite (Hinc k v); [reflexivity |]. rewrite Hlen.
    exact (merge_kwargs_lookup _ _ _ _ _ Hkw Hk). }
  split; [rewrite length_map, length_seq; reflexivity |].
  split; [rewrite length_map, length_seq; reflexivity |].
  split; [| split; [| split; [| split; [| split]]]].
  - rewrite Hshx. cbn [map numel fold_right]. rewrite zip_with_map, map_map, !Nat.mul_1_r.
    do 2 f_equal. apply map_ext. intros i. cbn [map numel fold_right].
    rewrite Nat.mul_1_r. reflexivity.
  - rewrite Hshy. cbn [map numel fold_right]. rewrite !map_map, !Nat.mul_1_r.
    reflexivity.
  - intros v ->. apply Hhint, window_dims_lengths_heads.
  - intros v ->. apply Hhint, window_dims_lengths_dim.
  - intros i v Hi Hlt. rewrite list_lookup_fmap, lookup_seq_lt by exact Hlt. simpl.
    f_equal. apply Hhint, window_dims_lengths_grid, Hi.
  - intros i v Hi Hlt. rewrite list_lookup_fmap, lookup_seq_lt by exact Hlt. simpl.
    f_equal. apply Hhint, window_dims_lengths_patch, Hi.
Qed.

(** X18. The shapes of [Matricize]. When a transform built by [Matricize]
    returns [y] on [x], the shape of [x] is
    [(b, h * d, g_0 * p_0, ..., g_{n-1} * p_{n-1})], one pair of grid and
    patch extents for each of the [n] spatial axes, and the shape of [y] is
    [(b * h, g_0 * ... * g_{n-1}, d, p_0 * ... * p_{n-1})]; [h], [d], [g_i]
    and [p_i] are the lengths the caller gave, taken to 1 where they are
    smaller, wherever the caller gave one. *)
Theorem Matricize_shapes {A : Type} input_size num_heads head_dim grid_size patch_size
  shift_spec (kwargs : gmap string Z) (self : Reshape) (x y : tensor A) :
  Matricize_init input_size num_heads head_dim grid_size patch_size shift_spec kwargs
    = Ok self ->
  wf_tensor x ->
  forward self x = Ok y ->
  let n := (length input_size - 2)%nat in
  exists (b h d : nat) (g p : list nat),
    length g = n /\ length p = n
    /\ shape x = b :: (h * d)%nat :: zip_with Nat.mul g p
    /\ shape y = [(b * h)%nat; numel g; d; numel p]
    /\ (forall v, num_heads = Some v -> h = Z.to_nat (Z.max v 1))
    /\ (forall v, head_dim = Some v -> d = Z.to_nat (Z.max v 1))
    /\ (forall i v, to_ntuple n grid_size !! i = Some (Some v) -> (i < n)%nat ->
                    g !! i = Some (Z.to_nat (Z.max v 1)))
    /\ (forall i v, to_ntuple n patch_size !! i = Some (Some v) -> (i < n)%nat ->
                    p !! i = Some (Z.to_nat (Z.max v 1))).
Proof. apply Matricize_forward_shapes. Qed.

Lemma Matricize_shapes_witness :
  exists y : tensor Z,
    forward two_head_matricize (Tensor [1; 2; 2; 2]%nat [1; 2; 3; 4; 5; 6; 7; 8]) = Ok y
    /\ exists (b h d : nat) (g p : list nat),
         length g = 2%nat /\ length p = 2%nat
         /\ [1; 2; 2; 2]%nat = b :: (h * d)%nat :: zip_with Nat.mul g p
         /\ shape y = [(b * h)%nat; numel g; d; numel p]
         /\ (forall v, Some 2 = Some v -> h = Z.to_nat (Z.max v 1))
         /\ (forall v, @None Z = Some v -> d = Z.to_nat (Z.max v 1))
         /\ (forall i v, to_ntuple 2 None !! i = Some (Some v) -> (i < 2)%nat ->
                         g !! i = Some (Z.to_nat (Z.max v 1)))
         /\ (forall i v, to_ntuple 2 (Some (SInt 2)) !! i = Some (Some v) -> (i < 2)%nat ->
                         p !! i = Some (Z.to_nat (Z.max v 1))).
Proof.
  eexists. split; [vm_compute; reflexivity |].
  apply (Matricize_shapes [Some 1; Some 2; Some 2; Some 2] (Some 2) None None
           (Some (SInt 2)) (Some (ShInt 1)) ∅ two_head_matricize
           (Tensor [1; 2; 2; 2]%nat [1; 2; 3; 4; 5; 6; 7; 8])).
  - vm_compute. reflexivity.
  - reflexivity.
  - vm_compute. reflexivity.
Defined.

(** ** Both ways through [Matricize] *)

(** Where the input size has an entry for every group of the left side,
    every hint is among the inferred lengths. *)
Lemma hints_inferred input_size (equation : string) shift_spec shift_dims
  (kwargs : gmap string Z) (self : Reshape) (fw : Rearrange) :
  Reshape_init input_size (Some equation) shift_spec shift_dims kwargs = Ok self ->
  rearrange self = Some fw ->
  (length (re_left fw) <= length input_size)%nat ->
  included kwargs (dim_lengths self).
Proof.
  intros Hinit Hfw Hlen.
  destruct (Reshape_init_Ok _ _ _ _ _ _ Hinit)
    as (fw' & bw & groups & Hf & _ & Hwfw & _ & Hlf & _ & _ & _ & Hg & Hinfer).
  rewrite Hfw in Hf. injection Hf as <-.
  intros d v Hd.
  assert (Hin : d ∈ concat (re_left fw)) by (apply (wf_hints fw Hwfw d v); congruence).
  apply list_elem_of_In, in_concat in Hin as (g & Hgin & Hdg).
  apply list_elem_of_In, list_elem_of_lookup in Hgin as [i Hi].
  rewrite <- Hg, list_lookup_fmap in Hi.
  destruct (groups !! i) as [grp|] eqn:Hgrp; [| discriminate]. injection Hi as Hi.
  destruct (lookup_lt_is_Some_2 input_size i) as [s Hs].
  { apply lookup_lt_Some in Hgrp. rewrite <- Hg, length_map in Hlen. lia. }
  apply (infer_loop_keeps groups input_size kwargs ∅ (dim_lengths self) i grp s d v);
    try assumption.
  - rewrite Hi. apply list_elem_of_In, Hdg.
  - intros j g' Hj Hg'.
    apply (NoDup_concat_later (map group_dims groups) i j (group_dims grp));
      [rewrite Hg; apply (wf_left_nodup fw Hwfw) | | | exact Hj |];
      rewrite ?list_lookup_fmap, ?Hgrp, ?Hg'; try reflexivity.
    rewrite Hi. apply list_elem_of_In, Hdg.
Qed.

(** X19. [Matricize] is undone in both directions. For a transform built by
    [Matricize] with positive keyword lengths: on a tensor [x] that agrees
    with the input size, [inverse_forward] returns [x] on what [forward]
    returns on [x]; and on any tensor [y] with as many elements as its
    shape says, [forward] returns [y] on what [inverse_forward] returns on
    [y], the input size having two entries or more. *)
Theorem Matricize_both_ways {A : Type} input_size num_heads head_dim grid_size patch_size
  shift_spec (kwargs : gmap string Z) (self : Reshape) :
  Matricize_init input_size num_heads head_dim grid_size patch_size shift_spec kwargs
    = Ok self ->
  map_Forall (fun _ v => 0 < v) kwargs ->
  (forall x y : tensor A,
      consistent input_size (shape x) -> wf_tensor x ->
      forward self x = Ok y -> inverse_forward self y = Ok x)
  /\ (forall x y : tensor A,
        (2 <= length input_size)%nat -> wf_tensor y ->
        inverse_forward self y = Ok x -> forward self x = Ok y).
Proof.
  intros Hinit Hpos. split.
  - intros x y Hcons Hwf Hy.
    exact (window_round_trip _ _ _ _ _ _ _ _ _ x y Hinit Hpos Hcons Hwf Hy).
  - intros x y Hlen2 Hwf Hx.
    destruct (Matricize_init_layer _ _ _ _ _ _ _ _ Hinit)
      as (fw & kw & Hkw & Hfw & Hwfw & Hlen & Hl & Hr).
    unfold Matricize_init, window_init in Hinit.
    apply bind_Ok in Hinit as (u1 & _ & Hinit). apply bind_Ok in Hinit as (u2 & _ & Hinit).
    apply bind_Ok in Hinit as (kw' & Hkw' & Hinit).
    assert (Hpos' : map_Forall (fun _ v => 0 < v) kw').
    { apply (merge_kwargs_positive _ _ _ Hkw'); [| exact Hpos].
      apply window_dims_lengths_positive. }
    apply (inverse_forward_forward _ _ _ _ _ _ x y Hinit Hpos'); [| exact Hwf | exact Hx].
    intros _. apply (hints_inferred _ _ _ _ _ _ fw Hinit Hfw).
    rewrite Hl. simpl. rewrite length_map, length_seq. lia.
Qed.

Lemma Matricize_both_ways_witness :
  (forall x y : tensor Z,
      consistent [Some 1; Some 2; Some 2; Some 2] (shape x) -> wf_tensor x ->
      forward two_head_matricize x = Ok y -> inverse_forward two_head_matricize y = Ok x)
  /\ (forall x y : tensor Z,
        (2 <= 4)%nat -> wf_tensor y ->
        inverse_forward two_head_matricize y = Ok x -> forward two_head_matricize x = Ok y).
Proof.
  apply (Matricize_both_ways [Some 1; Some 2; Some 2; Some 2] (Some 2) None None
           (Some (SInt 2)) (Some (ShInt 1)) ∅ two_head_matricize).
  - vm_compute. reflexivity.
  - apply (bool_decide_unpack _). vm_compute. exact I.
Defined.

(** ** Contractions *)

Lemma env_lookup (names : list string) (values : list nat) (j : nat) (l : string) (v : nat) :
  NoDup names -> names !! j = Some l -> values !! j = Some v ->
  (list_to_map (zip names values) : gmap string nat) !! l = Some v.
Proof.
  intros Hnd. revert values j. induction Hnd as [|a names Ha _ IH]; intros values j Hl Hv;
    [discriminate |].
  destruct values as [|w values]; [discriminate |].
  cbn [zip zip_with list_to_map foldr uncurry fst snd]. destruct j as [|j]; simpl in Hl, Hv.
  - injection Hl as ->. injection Hv as ->. apply lookup_insert_eq.
  - rewrite lookup_insert_ne; [exact (IH values j Hl Hv) |].
    intros ->. apply Ha, list_elem_of_lookup. eauto.
Qed.

Lemma bind_legs_cons (l : string) (n : nat) (legs : list string) (sh : list nat)
  (sizes : gmap string nat) :
  (forall v, sizes !! l = Some v -> v = n) ->
  bind_legs (l :: legs) (n :: sh) sizes = bind_legs legs sh (<[l := n]> sizes).
Proof.
  intros Hl. cbn [bind_legs]. destruct (sizes !! l) as [v|] eqn:Hv; [| reflexivity].
  rewrite (Hl v eq_refl) in Hv |- *. rewrite Nat.eqb_refl, (insert_id _ _ _ Hv). reflexivity.
Qed.

(** The leg names of the two functions. *)
Lemma leg_b_not_r : "b" <> "r".
Proof. discriminate. Qed.

Lemma leg_i_not_b (m : nat) : axis "i" m <> "b".
Proof. apply axis_not_letter. discriminate. Qed.

Lemma leg_i_not_r (m : nat) : axis "i" m <> "r".
Proof. apply axis_not_letter. discriminate. Qed.

Lemma contraction_legs_NoDup (j n : nat) :
  NoDup ("b" :: map (axis "i") (seq j n) ++ ["r"]).
Proof.
  apply NoDup_cons. split.
  - rewrite elem_of_app, list_elem_of_fmap, list_elem_of_singleton.
    intros [(m & Hm & _) | Hb]; [exact (leg_i_not_b m (eq_sym Hm)) | discriminate].
  - apply NoDup_app. split; [| split].
    + apply NoDup_fmap_2_strong; [| apply NoDup_seq].
      intros a b _ _ Hab. exact (axis_inj "i" a b Hab).
    + intros x Hx Hr. apply list_elem_of_fmap in Hx as (m & -> & _).
      apply list_elem_of_singleton in Hr. exact (leg_i_not_r m Hr).
    + apply NoDup_singleton.
Qed.

Lemma contraction_legs_NoDup_cp (j n : nat) : NoDup ("b" :: map (axis "i") (seq j n)).
Proof.
  pose proof (contraction_legs_NoDup j n) as Hnd.
  rewrite app_comm_cons in Hnd. apply NoDup_app in Hnd as [Hnd _]. exact Hnd.
Qed.

Section Contractions.
Context {A : Type} `{Scalar A}.
Local Open Scope nat_scope.

(** What the loop of the two functions has built. *)
Lemma contraction_loop (l : list (tensor A)) (j : nat) (args : list operand)
  (legs : list string) :
  fold_left (fun '(args, legs) '(m, u) =>
               (args ++ [(u, ["b"; axis "i" m; "r"])], legs ++ [axis "i" m]))
            (zip (seq j (length l)) l) (args, legs)
  = (args ++ zip_with (fun u m => (u, ["b"; axis "i" m; "r"])) l (seq j (length l)),
     legs ++ map (axis "i") (seq j (length l))).
Proof.
  revert j args legs. induction l as [|u l IH]; intros j args legs.
  - simpl. rewrite !app_nil_r. reflexivity.
  - cbn [length seq zip zip_with fold_left map]. rewrite IH, <- !app_assoc. reflexivity.
Qed.

Lemma contraction_args_eq (factor_matrices : list (tensor A)) :
  contraction_args factor_matrices
  = (zip_with (fun u m => (u, ["b"; axis "i" m; "r"])) factor_matrices
       (seq 0 (length factor_matrices)),
     "b" :: map (axis "i") (seq 0 (length factor_matrices))).
Proof. unfold contraction_args. rewrite contraction_loop. reflexivity. Qed.

Lemma tget_tabulate (sh idx : list nat) (f : list nat -> A) :
  in_bounds idx sh -> tget (tabulate sh f) idx = f idx.
Proof.
  intros Hb. unfold tget, tabulate. simpl.
  rewrite nth_lookup, list_lookup_fmap, lookup_seq_lt by (apply ravel_lt, Hb).
  simpl. rewrite unravel_ravel by exact Hb. reflexivity.
Qed.

Section Factors.

Variables (batch rank : nat).

(** The extents of the legs of factor matrices that share batch and rank. *)
Lemma leg_sizes_factors (fs : list (tensor A)) (extents : list nat) (j : nat)
  (sizes : gmap string nat) :
  Forall2 (fun u e => shape u = [batch; e; rank]) fs extents ->
  (forall v, sizes !! "b" = Some v -> v = batch) ->
  (forall v, sizes !! "r" = Some v -> v = rank) ->
  (forall m, j <= m -> sizes !! axis "i" m = None) ->
  exists sizes',
    leg_sizes (zip_with (fun u m => (u, ["b"; axis "i" m; "r"])) fs (seq j (length fs))) sizes
    = Ok sizes'
    /\ (forall k v, sizes !! k = Some v -> sizes' !! k = Some v)
    /\ (fs <> [] -> sizes' !! "b" = Some batch /\ sizes' !! "r" = Some rank)
    /\ (forall m e, extents !! m = Some e -> sizes' !! axis "i" (j + m) = Some e).
Proof.
  intros Hsh. revert j sizes.
  induction Hsh as [|u e fs extents Hu _ IH]; intros j sizes Hb Hr Hi.
  - exists sizes. split; [reflexivity |]. split; [auto |].
    split; [contradiction |]. intros m e Hm. discriminate.
  - cbn [length seq zip_with leg_sizes]. rewrite Hu.
    set (s1 := <["b" := batch]> sizes).
    set (s2 := <[axis "i" j := e]> s1).
    set (s3 := <["r" := rank]> s2).
    assert (Hbind : bind_legs ["b"; axis "i" j; "r"] [batch; e; rank] sizes = Ok s3).
    { rewrite bind_legs_cons by exact Hb. fold s1.
      rewrite bind_legs_cons.
      2: { intros v Hv. unfold s1 in Hv.
           rewrite lookup_insert_ne in Hv by (intros E; exact (leg_i_not_b j (eq_sym E))).
           rewrite Hi in Hv by lia. discriminate. }
      fold s2. rewrite bind_legs_cons; [reflexivity |].
      intros v Hv. unfold s2, s1 in Hv.
      rewrite lookup_insert_ne in Hv by apply leg_i_not_r.
      rewrite lookup_insert_ne in Hv by apply leg_b_not_r. exact (Hr v Hv). }
    rewrite Hbind. cbn [bind].
    assert (H3b : s3 !! "b" = Some batch).
    { unfold s3, s2, s1. rewrite lookup_insert_ne by (intros E; discriminate).
      rewrite lookup_insert_ne by apply leg_i_not_b. apply lookup_insert_eq. }
    assert (H3r : s3 !! "r" = Some rank) by apply lookup_insert_eq.
    assert (H3j : s3 !! axis "i" j = Some e).
    { unfold s3, s2. rewrite lookup_insert_ne by (intros E; exact (leg_i_not_r j (eq_sym E))).
      apply lookup_insert_eq. }
    assert (H3keep : forall k v, sizes !! k = Some v -> s3 !! k = Some v).
    { intros k v Hk. destruct (decide (k = "r")) as [-> | Hkr];
        [rewrite H3r, (Hr v Hk); reflexivity |].
      destruct (decide (k = axis "i" j)) as [-> | Hkj];
        [rewrite Hi in Hk by lia; discriminate |].
      destruct (decide (k = "b")) as [-> | Hkb];
        [rewrite H3b, (Hb v Hk); reflexivity |].
      unfold s3, s2, s1. rewrite !lookup_insert_ne by congruence. exact Hk. }
    destruct (IH (S j) s3) as (sizes' & Hsizes & Hkeep & _ & Hext).
    + intros v Hv. congruence.
    + intros v Hv. congruence.
    + intros m Hm. unfold s3, s2, s1.
      rewrite lookup_insert_ne by (intros E; exact (leg_i_not_r m (eq_sym E))).
      rewrite lookup_insert_ne by (intros E; apply axis_inj in E; lia).
      rewrite lookup_insert_ne by (intros E; exact (leg_i_not_b m (eq_sym E))).
      apply Hi. lia.
    + exists sizes'. split; [exact Hsizes |]. split; [auto |].
      split; [intros _; split; apply Hkeep; assumption |].
      intros [|m] e' Hm; simpl in Hm.
      * injection Hm as <-. rewrite Nat.add_0_r. apply Hkeep, H3j.
      * replace (j + S m) with (S j + m) by lia. apply Hext, Hm.
Qed.

(** The legs the operands have beside those of the output. *)
Lemma summed_legs (fs : list (tensor A)) (j : nat) (out : list string) :
  "b" ∈ out ->
  (forall m, j <= m < j + length fs -> axis "i" m ∈ out) ->
  filter (fun l => l ∉ out)
    (concat (map snd (zip_with (fun (u : tensor A) m => (u, ["b"; axis "i" m; "r"])) fs
                        (seq j (length fs)))))
  = if decide ("r" ∈ out) then [] else replicate (length fs) "r".
Proof.
  intros Hb. revert j. induction fs as [|u fs IH]; intros j Hi.
  - simpl. destruct (decide ("r" ∈ out)); reflexivity.
  - cbn [length seq zip_with map concat snd app].
    rewrite filter_cons_False by (intros Hn; exact (Hn Hb)).
    rewrite filter_cons_False by (intros Hn; apply Hn, Hi; simpl; lia).
    assert (Hrest := IH (S j) ltac:(intros m Hm; apply Hi; simpl; lia)).
    destruct (decide ("r" ∈ out)) as [Hr | Hr].
    + rewrite filter_cons_False by (intros Hn; exact (Hn Hr)). exact Hrest.
    + rewrite filter_cons_True by exact Hr. rewrite Hrest. reflexivity.
Qed.

Lemma remove_dups_replicate (n : nat) (x : string) :
  n <> 0 -> remove_dups (replicate n x) = [x].
Proof.
  destruct n as [|n]; [contradiction |]. intros _.
  induction n as [|n IH]; [reflexivity |].
  change (replicate (S (S n)) x) with (x :: replicate (S n) x).
  cbn [remove_dups].
  destruct (decide_rel elem_of x (replicate (S n) x)) as [_ | Hn];
    [exact IH | exfalso; apply Hn; left].
Qed.

(** The product of the entries, where the legs have the positions that the
    spec gives the factor matrices. *)
Lemma entry_product_outer (env : gmap string nat) (fs : list (tensor A)) (j b r : nat)
  (idx : list nat) :
  length idx = length fs ->
  env !! "b" = Some b -> env !! "r" = Some r ->
  (forall m i, idx !! m = Some i -> env !! axis "i" (j + m) = Some i) ->
  entry_product env (zip_with (fun u m => (u, ["b"; axis "i" m; "r"])) fs (seq j (length fs)))
  = spec_outer_product fs b idx r.
Proof.
  intros Hlen Hb Hr. revert j idx Hlen.
  induction fs as [|u fs IH]; intros j idx Hlen Hi; [reflexivity |].
  destruct idx as [|i idx]; [discriminate |]. injection Hlen as Hlen.
  assert (Hu : operand_entry env (u, ["b"; axis "i" j; "r"]) = tget u [b; i; r]).
  { unfold operand_entry. cbn [fst snd map]. rewrite Hb, Hr.
    pose proof (Hi 0 i eq_refl) as H0. rewrite Nat.add_0_r in H0. rewrite H0. reflexivity. }
  assert (Hrest : entry_product env
                    (zip_with (fun u m => (u, ["b"; axis "i" m; "r"])) fs
                       (seq (S j) (length fs)))
                  = spec_outer_product fs b idx r).
  { apply IH; [exact Hlen |]. intros m i' Hm.
    replace (S j + m) with (j + S m) by lia. apply Hi. exact Hm. }
  destruct fs as [|u' fs].
  - destruct idx; [| discriminate]. cbn. exact Hu.
  - destruct idx as [|i' idx]; [discriminate |].
    change (entry_product env
              (zip_with (fun u m => (u, ["b"; axis "i" m; "r"])) (u :: u' :: fs)
                 (seq j (length (u :: u' :: fs)))))
      with (mul (operand_entry env (u, ["b"; axis "i" j; "r"]))
              (entry_product env
                 (zip_with (fun u m => (u, ["b"; axis "i" m; "r"])) (u' :: fs)
                    (seq (S j) (length (u' :: fs)))))).
    rewrite Hu, Hrest. reflexivity.
Qed.

(** The positions the legs have when the output legs are at [b], [idx] and
    the rank leg at [r]. *)
Lemma factor_env (b r : nat) (idx : list nat) :
  let env : gmap string nat :=
    list_to_map (zip ("b" :: map (axis "i") (seq 0 (length idx)) ++ ["r"]) (b :: idx ++ [r])) in
  env !! "b" = Some b /\ env !! "r" = Some r
  /\ forall m i, idx !! m = Some i -> env !! axis "i" (0 + m) = Some i.
Proof.
  intros env. pose proof (contraction_legs_NoDup 0 (length idx)) as Hnd.
  split; [| split].
  - apply (env_lookup _ _ 0 "b" b Hnd); reflexivity.
  - apply (env_lookup _ _ (S (length idx)) "r" r Hnd).
    + change ((map (axis "i") (seq 0 (length idx)) ++ ["r"]) !! length idx = Some "r").
      rewrite lookup_app_r by (rewrite length_map, length_seq; lia).
      rewrite length_map, length_seq, Nat.sub_diag. reflexivity.
    + change ((idx ++ [r]) !! length idx = Some r).
      rewrite lookup_app_r by lia. rewrite Nat.sub_diag. reflexivity.
  - intros m i Hm. pose proof (lookup_lt_Some _ _ _ Hm) as Hlt.
    apply (env_lookup _ _ (S m) (axis "i" (0 + m)) i Hnd).
    + change ((map (axis "i") (seq 0 (length idx)) ++ ["r"]) !! m = Some (axis "i" (0 + m))).
      rewrite lookup_app_l by (rewrite length_map, length_seq; lia).
      rewrite list_lookup_fmap, lookup_seq_lt by lia. reflexivity.
    + change ((idx ++ [r]) !! m = Some i).
      rewrite lookup_app_l by lia. exact Hm.
Qed.

Lemma fold_add_ext (n : nat) (f g : nat -> A) (a : A) :
  (forall r, r < n -> f r = g r) ->
  fold_left (fun acc r => add acc (f r)) (seq 0 n) a
  = fold_left (fun acc r => add acc (g r)) (seq 0 n) a.
Proof.
  induction n as [|n IH]; intros Hfg; [reflexivity |].
  rewrite !seq_S, !fold_left_app. simpl. rewrite IH by (intros r Hr; apply Hfg; lia).
  rewrite (Hfg n) by lia. reflexivity.
Qed.

Section Shaped.

Variables (factor_matrices : list (tensor A)) (extents : list nat).
Hypothesis Hne : factor_matrices <> [].
Hypothesis Hsh : Forall2 (fun u e => shape u = [batch; e; rank]) factor_matrices extents.

Local Abbreviation M := (length factor_matrices).
Local Abbreviation ops :=
  (zip_with (fun (u : tensor A) m => (u, ["b"; axis "i" m; "r"])) factor_matrices (seq 0 M)).

Lemma shaped_length : length extents = M.
Proof. symmetry. exact (Forall2_length _ _ _ Hsh). Qed.

Lemma shaped_sizes :
  exists sizes,
    leg_sizes ops ∅ = Ok sizes
    /\ sizes !! "b" = Some batch /\ sizes !! "r" = Some rank
    /\ Forall2 (fun l n => sizes !! l = Some n) (map (axis "i") (seq 0 M)) extents.
Proof.
  destruct (leg_sizes_factors factor_matrices extents 0 ∅ Hsh)
    as (sizes & Hsizes & _ & Hbr & Hext);
    try (intros *; rewrite lookup_empty; discriminate).
  { intros m _. apply lookup_empty. }
  destruct (Hbr Hne) as [Hb Hr].
  exists sizes. split; [exact Hsizes |]. split; [exact Hb |]. split; [exact Hr |].
  apply Forall2_same_length_lookup_2.
  - rewrite length_map, length_seq, shaped_length. reflexivity.
  - intros m l e Hl He. rewrite list_lookup_fmap in Hl.
    pose proof (lookup_lt_Some _ _ _ He) as Hlt. rewrite shaped_length in Hlt.
    rewrite lookup_seq_lt in Hl by exact Hlt. injection Hl as <-.
    exact (Hext m e He).
Qed.

Lemma shaped_ops_cons : exists op ops', ops = op :: ops'.
Proof.
  destruct factor_matrices as [|u fs]; [contradiction |].
  cbn [length seq zip_with]. eauto.
Qed.

(** [cp] on factor matrices that share batch and rank. *)
Lemma cp_entries :
  exists c,
    cp factor_matrices = Ok c
    /\ shape c = batch :: extents
    /\ forall b idx, b < batch -> in_bounds idx extents ->
         tget c (b :: idx) = spec_rank_sum rank (spec_outer_product factor_matrices b idx).
Proof.
  destruct shaped_sizes as (sizes & Hsizes & Hb & Hr & Hext).
  destruct shaped_ops_cons as (op & ops' & Hops).
  unfold cp. rewrite contraction_args_eq. cbv iota. unfold contract.
  rewrite Hops. rewrite <- Hops.
  rewrite bool_decide_eq_true_2 by apply contraction_legs_NoDup_cp. cbn [guard bind].
  rewrite Hsizes. cbn [bind].
  rewrite (Forall2_mapR _ _ (batch :: extents)).
  2: { constructor; [rewrite Hb; reflexivity |].
       eapply Forall2_impl; [exact Hext |]. intros l n ->. reflexivity. }
  cbn [bind].
  rewrite summed_legs; [| left | ].
  2: { intros m Hm. right. apply list_elem_of_fmap. exists m. split; [reflexivity |].
       apply elem_of_seq. lia. }
  rewrite decide_False.
  2: { intros Hin. apply elem_of_cons in Hin as [Hin | Hin]; [discriminate |].
       apply list_elem_of_fmap in Hin as (m & Hm & _). exact (leg_i_not_r m (eq_sym Hm)). }
  rewrite remove_dups_replicate
    by (destruct factor_matrices; [contradiction | discriminate]).
  cbn [map]. rewrite Hr. cbn [default from_option id].
  eexists. split; [reflexivity |]. split; [reflexivity |].
  intros b idx Hlt Hidx.
  rewrite tget_tabulate by (constructor; assumption).
  unfold spec_rank_sum. replace (numel [rank]) with rank by (simpl; lia).
  apply fold_add_ext. intros r Hlt'.
  cbn [unravel numel fold_right]. rewrite Nat.div_1_r.
  pose proof (Forall2_length _ _ _ Hidx) as Hlen. rewrite shaped_length in Hlen.
  destruct (factor_env b r idx) as (Eb & Er & Ei). rewrite Hlen in Eb, Er, Ei.
  apply (entry_product_outer _ factor_matrices 0 b r idx);
    [exact Hlen | exact Eb | exact Er | exact Ei].
Qed.

(** [khatri_rao] on the same. *)
Lemma khatri_rao_entries :
  exists k,
    khatri_rao factor_matrices = Ok k
    /\ shape k = [batch; numel extents; rank]
    /\ wf_tensor k
    /\ forall b idx r, b < batch -> in_bounds idx extents -> r < rank ->
         tget k [b; ravel extents idx; r] = spec_outer_product factor_matrices b idx r.
Proof.
  destruct shaped_sizes as (sizes & Hsizes & Hb & Hr & Hext).
  destruct shaped_ops_cons as (op & ops' & Hops).
  unfold khatri_rao. rewrite contraction_args_eq. cbv iota. unfold contract.
  rewrite Hops. rewrite <- Hops.
  rewrite bool_decide_eq_true_2 by apply contraction_legs_NoDup. cbn [guard bind].
  rewrite Hsizes. cbn [bind].
  rewrite (Forall2_mapR _ _ (batch :: extents ++ [rank])).
  2: { constructor; [rewrite Hb; reflexivity |]. apply Forall2_app.
       - eapply Forall2_impl; [exact Hext |]. intros l n ->. reflexivity.
       - constructor; [rewrite Hr; reflexivity | constructor]. }
  cbn [bind].
  rewrite summed_legs; [| left | ].
  2: { intros m Hm. right. apply elem_of_app. left. apply list_elem_of_fmap.
       exists m. split; [reflexivity |]. apply elem_of_seq. lia. }
  rewrite decide_True.
  2: { right. apply elem_of_app. right. left. }
  cbn [remove_dups map].
  eexists. split; [reflexivity |].
  split; [unfold flatten_middle; cbn [shape tabulate];
          rewrite removelast_last, last_last; reflexivity |].
  split.
  { unfold wf_tensor, flatten_middle. cbn [shape data tabulate].
    rewrite removelast_last, last_last, length_map, length_seq.
    cbn [numel fold_right]. fold (numel (extents ++ [rank])). fold (numel extents).
    rewrite numel_app. simpl. lia. }
  intros b idx r Hlt Hidx Hlt'.
  pose proof (Forall2_length _ _ _ Hidx) as Hlen.
  assert (Hpos : ravel [batch; numel extents; rank] [b; ravel extents idx; r]
                 = ravel (batch :: extents ++ [rank]) (b :: idx ++ [r])).
  { simpl. rewrite ravel_snoc by exact Hlen. rewrite numel_app. simpl. lia. }
  assert (Hin : in_bounds (b :: idx ++ [r]) (batch :: extents ++ [rank])).
  { constructor; [exact Hlt | apply in_bounds_snoc; assumption]. }
  match goal with
  | |- tget (flatten_middle ?T) _ = _ =>
      assert (Hflat : tget (flatten_middle T) [b; ravel extents idx; r]
                      = tget T (b :: idx ++ [r]))
  end.
  { unfold flatten_middle, tget. cbn [shape data tabulate].
    rewrite removelast_last, last_last, Hpos. reflexivity. }
  rewrite Hflat, tget_tabulate by exact Hin.
  rewrite shaped_length in Hlen.
  destruct (factor_env b r idx) as (Eb & Er & Ei). rewrite Hlen in Eb, Er, Ei.
  apply (entry_product_outer _ factor_matrices 0 b r idx);
    [exact Hlen | exact Eb | exact Er | exact Ei].
Qed.

End Shaped.

End Factors.

(** C7. For M >= 1 factor matrices shaped (batch, extent_m, rank), [cp]
    returns a tensor of shape (batch, extent_0, ..., extent_{M-1}) and
    [khatri_rao] one of shape (batch, extent_0 * ... * extent_{M-1}, rank).
    The entry of [cp] at (b, i_0, ..., i_{M-1}) is the sum over the rank of
    the outer products, the products of the entries u_m[b, i_m, r]; the entry
    of [khatri_rao] at (b, flatten(i_0, ..., i_{M-1}), r), in row-major
    order, is the outer product of column r; so the entry of [cp] is the sum
    over r of the entries of [khatri_rao]. *)
Theorem cp_khatri_rao_consistent (factor_matrices : list (tensor A)) (batch rank : nat)
  (extents : list nat) :
  factor_matrices <> [] ->
  Forall2 (fun u e => shape u = [batch; e; rank]) factor_matrices extents ->
  exists c k,
    cp factor_matrices = Ok c /\ khatri_rao factor_matrices = Ok k
    /\ shape c = batch :: extents
    /\ shape k = [batch; numel extents; rank]
    /\ forall b idx, b < batch -> in_bounds idx extents ->
         tget c (b :: idx) = spec_rank_sum rank (spec_outer_product factor_matrices b idx)
         /\ (forall r, r < rank ->
               tget k [b; ravel extents idx; r] = spec_outer_product factor_matrices b idx r)
         /\ tget c (b :: idx)
            = spec_rank_sum rank (fun r => tget k [b; ravel extents idx; r]).
Proof.
  intros Hne Hsh.
  destruct (cp_entries batch rank factor_matrices extents Hne Hsh) as (c & Hc & Hcs & Hce).
  destruct (khatri_rao_entries batch rank factor_matrices extents Hne Hsh)
    as (k & Hk & Hks & _ & Hke).
  exists c, k. split; [exact Hc |]. split; [exact Hk |]. split; [exact Hcs |].
  split; [exact Hks |]. intros b idx Hb Hidx.
  split; [exact (Hce b idx Hb Hidx) |].
  split; [intros r Hr; exact (Hke b idx r Hb Hidx Hr) |].
  rewrite (Hce b idx Hb Hidx). unfold spec_rank_sum. apply fold_add_ext.
  intros r Hr. symmetry. exact (Hke b idx r Hb Hidx Hr).
Qed.

End Contractions.

Lemma cp_khatri_rao_consistent_witness :
  exists c k,
    cp (H := Z_scalar) [Tensor [1; 2; 2]%nat [1; 2; 3; 4]; Tensor [1; 3; 2]%nat [1; 0; 2; 1; 0; 5]]
    = Ok c
    /\ khatri_rao (H := Z_scalar)
         [Tensor [1; 2; 2]%nat [1; 2; 3; 4]; Tensor [1; 3; 2]%nat [1; 0; 2; 1; 0; 5]] = Ok k
    /\ shape c = [1; 2; 3]%nat
    /\ shape k = [1; numel [2; 3]%nat; 2]%nat
    /\ forall b idx, (b < 1)%nat -> in_bounds idx [2; 3]%nat ->
         tget c (b :: idx)
         = spec_rank_sum 2 (spec_outer_product
                              [Tensor [1; 2; 2]%nat [1; 2; 3; 4];
                               Tensor [1; 3; 2]%nat [1; 0; 2; 1; 0; 5]] b idx)
         /\ (forall r, (r < 2)%nat ->
               tget k [b; ravel [2; 3]%nat idx; r]
               = spec_outer_product
                   [Tensor [1; 2; 2]%nat [1; 2; 3; 4];
                    Tensor [1; 3; 2]%nat [1; 0; 2; 1; 0; 5]] b idx r)
         /\ tget c (b :: idx)
            = spec_rank_sum 2 (fun r => tget k [b; ravel [2; 3]%nat idx; r]).
Proof.
  apply (cp_khatri_rao_consistent (H := Z_scalar)
           [Tensor [1; 2; 2]%nat [1; 2; 3; 4]; Tensor [1; 3; 2]%nat [1; 0; 2; 1; 0; 5]]
           1 2 [2; 3]%nat).
  - discriminate.
  - repeat constructor.
Defined.


(** Two factor matrices of rank 2, of two and of three rows. *)
Example contraction_of_two_factors :
  cp (H := Z_scalar) [Tensor [1; 2; 2]%nat [1; 2; 3; 4]; Tensor [1; 3; 2]%nat [1; 0; 2; 1; 0; 5]]
  = Ok (Tensor [1; 2; 3]%nat [1; 4; 10; 3; 10; 20])
  /\ khatri_rao (H := Z_scalar)
       [Tensor [1; 2; 2]%nat [1; 2; 3; 4]; Tensor [1; 3; 2]%nat [1; 0; 2; 1; 0; 5]]
     = Ok (Tensor [1; 6; 2]%nat [1; 0; 2; 2; 0; 10; 3; 0; 6; 4; 0; 20]).
Proof. split; vm_compute; reflexivity. Qed.

(** ** A single factor matrix *)

Section SingleFactor.
Context {A : Type} `{Scalar A}.
Local Open Scope nat_scope.

Lemma tabulate_tget (u : tensor A) :
  wf_tensor u -> tabulate (shape u) (tget u) = u.
Proof.
  intros Hwf. unfold tabulate, tget. destruct u as [sh d]. simpl in *. f_equal.
  unfold wf_tensor in Hwf. simpl in Hwf. rewrite <- Hwf.
  apply list_eq. intros k. rewrite list_lookup_fmap.
  destruct (Nat.lt_ge_cases k (length d)) as [Hlt | Hge].
  - rewrite lookup_seq_lt by exact Hlt. simpl.
    rewrite ravel_unravel by (rewrite <- Hwf; exact Hlt).
    destruct (lookup_lt_is_Some_2 d k Hlt) as [v Hv].
    rewrite Hv. f_equal. apply nth_lookup_Some with (d := zero) in Hv. exact Hv.
  - rewrite lookup_seq_ge by exact Hge. rewrite lookup_ge_None_2 by exact Hge. reflexivity.
Qed.

(** Tensors of one shape with the same entries are the same tensor. *)
Lemma tensor_ext (t1 t2 : tensor A) :
  shape t1 = shape t2 -> wf_tensor t1 -> wf_tensor t2 ->
  (forall idx, in_bounds idx (shape t1) -> tget t1 idx = tget t2 idx) ->
  t1 = t2.
Proof.
  intros Hsh Hw1 Hw2 Hent.
  rewrite <- (tabulate_tget t1 Hw1), <- (tabulate_tget t2 Hw2), <- Hsh.
  unfold tabulate. f_equal. apply map_ext_in. intros k Hk.
  apply in_seq in Hk. apply Hent, unravel_in_bounds. lia.
Qed.

(** X20. With a single factor matrix [khatri_rao] is the identity: on one
    matrix of rank 3 with as many elements as its shape says, it returns the
    matrix itself. *)
Theorem khatri_rao_single (u : tensor A) (batch extent rank : nat) :
  shape u = [batch; extent; rank] ->
  wf_tensor u ->
  khatri_rao [u] = Ok u.
Proof.
  intros Hsh Hwf.
  destruct (khatri_rao_entries batch rank [u] [extent]) as (k & Hk & Hks & Hkwf & Hke);
    [discriminate | repeat constructor; exact Hsh |].
  rewrite Hk. f_equal.
  assert (Hshape : shape k = shape u).
  { rewrite Hks, Hsh. simpl. rewrite Nat.mul_1_r. reflexivity. }
  apply tensor_ext; [exact Hshape | exact Hkwf | exact Hwf |].
  intros idx Hidx. rewrite Hshape, Hsh in Hidx.
  inversion Hidx as [|b ? idx1 ? Hb H1]; subst.
  inversion H1 as [|i ? idx2 ? Hi H2]; subst.
  inversion H2 as [|r ? idx3 ? Hr H3]; subst.
  inversion H3; subst.
  pose proof (Hke b [i] r Hb ltac:(repeat constructor; exact Hi) Hr) as He.
  replace (ravel [extent] [i]) with i in He by (simpl; lia).
  exact He.
Qed.

End SingleFactor.

Lemma khatri_rao_single_witness :
  khatri_rao [Tensor [1; 2; 2]%nat [1; 2; 3; 4]] = Ok (Tensor [1; 2; 2]%nat [1; 2; 3; 4]).
Proof.
  apply (khatri_rao_single (H := Z_scalar) (Tensor [1; 2; 2]%nat [1; 2; 3; 4]) 1 2 2);
    reflexivity.
Defined.

(** ** Transposing the last two axes *)






Section Transposing.
Context {A : Type}.
Local Open Scope nat_scope.




End Transposing.


(** ** A spatial axis without a size *)

Lemma set_axes_lookup_unset prefix (j : nat) (values : list (option Z))
  (dl : gmap string Z) (i : nat) :
  (forall v, values !! i <> Some (Some v)) ->
  set_axes prefix j values dl !! axis prefix (j + i) = dl !! axis prefix (j + i).
Proof.
  revert j dl i. induction values as [|v0 values IH]; intros j dl i Hi; [reflexivity |].
  destruct i as [|i]; simpl.
  - rewrite Nat.add_0_r, set_axes_lookup_before by lia.
    destruct v0 as [v|]; [| reflexivity]. exfalso. exact (Hi v eq_refl).
  - replace (j + S i)%nat with (S j + i)%nat by lia. rewrite IH by exact Hi.
    destruct v0 as [v|]; [| reflexivity].
    apply lookup_insert_ne. intros Heq. apply axis_inj in Heq. lia.
Qed.

Lemma window_dims_lengths_unset (n : nat) num_heads head_dim grid_size patch_size (i : nat) :
  (forall v, to_ntuple n grid_size !! i <> Some (Some v)) ->
  (forall v, to_ntuple n patch_size !! i <> Some (Some v)) ->
  window_dims_lengths n num_heads head_dim grid_size patch_size !! axis "g" i = None
  /\ window_dims_lengths n num_heads head_dim grid_size patch_size !! axis "p" i = None.
Proof.
  intros Hg Hp. unfold window_dims_lengths.
  assert (Hbase : forall c k,
             c <> "h"%char -> c <> "d"%char ->
             (match head_dim with
              | Some m => <["d" := Z.max m 1]>
                            match num_heads with
                            | Some m' => <["h" := Z.max m' 1]> (∅ : gmap string Z)
                            | None => ∅
                            end
              | None => match num_heads with
                        | Some m' => <["h" := Z.max m' 1]> (∅ : gmap string Z)
                        | None => ∅
                        end
              end) !! axis (String c "") k = None).
  { intros c k Hh Hd.
    destruct head_dim, num_heads;
      rewrite ?lookup_insert_ne
        by (apply not_eq_sym, axis_not_letter; assumption);
      apply lookup_empty. }
  split.
  - rewrite set_axes_lookup_other by (intros k; apply axis_prefix_differs; discriminate).
    rewrite (set_axes_lookup_unset "g" 0 _ _ i Hg). apply Hbase; discriminate.
  - rewrite (set_axes_lookup_unset "p" 0 _ _ i Hp).
    rewrite set_axes_lookup_other by (intros k; apply axis_prefix_differs; discriminate).
    apply Hbase; discriminate.
Qed.

(** X22. A spatial axis needs a size of its own. The assertion on
    [grid_size] and [patch_size] looks at the two arguments as wholes; when
    it has passed and, for one of the spatial axes, neither argument has an
    entry that is not [None] and no keyword names its grid or patch axis,
    [Matricize] fails all the same, later and not with the
    [ConfigurationError]: the layer cannot tell the two lengths of that
    axis apart. *)
Theorem spatial_axis_needs_a_size input_size num_heads head_dim grid_size patch_size
  shift_spec (kwargs : gmap string Z) (i : nat) :
  let n := (length input_size - 2)%nat in
  num_heads <> None \/ head_dim <> None ->
  grid_size <> None \/ patch_size <> None ->
  (i < n)%nat ->
  (forall v, to_ntuple n grid_size !! i <> Some (Some v)) ->
  (forall v, to_ntuple n patch_size !! i <> Some (Some v)) ->
  kwargs !! axis "g" i = None -> kwargs !! axis "p" i = None ->
  exists e,
    Matricize_init input_size num_heads head_dim grid_size patch_size shift_spec kwargs
    = Err e
    /\ e <> ConfigurationError.
Proof.
  intros n Hheads Hsizes Hi Hg Hp Hkg Hkp.
  destruct (Matricize_init input_size num_heads head_dim grid_size patch_size shift_spec
              kwargs) as [self|e] eqn:Hinit.
  - exfalso.
    destruct (Matricize_init_layer _ _ _ _ _ _ _ _ Hinit)
      as (fw & kw & Hkw & Hfw & Hwfw & Hlen & Hl & Hr).
    fold n in Hkw, Hl.
    destruct (window_dims_lengths_unset n num_heads head_dim grid_size patch_size i Hg Hp)
      as [Hdg Hdp].
    assert (Hnone : kw !! axis "g" i = None /\ kw !! axis "p" i = None).
    { unfold merge_kwargs in Hkw. destruct (forallb _ _); [| discriminate].
      injection Hkw as <-. split; apply lookup_union_None; auto. }
    destruct Hnone as [Hng Hnp].
    pose proof (wf_unknowns fw Hwfw) as Hun. rewrite Hl, Hlen in Hun.
    apply Forall_cons in Hun as [_ Hun]. apply Forall_cons in Hun as [_ Hun].
    pose proof (proj1 (Forall_lookup _ _) Hun i [axis "g" i; axis "p" i]) as Hgrp.
    rewrite list_lookup_fmap, lookup_seq_lt in Hgrp by exact Hi.
    specialize (Hgrp eq_refl). unfold unknown_axes in Hgrp.
    rewrite !filter_cons, filter_nil in Hgrp.
    destruct (decide (kw !! axis "g" i = None)); [| contradiction].
    destruct (decide (kw !! axis "p" i = None)); [| contradiction].
    simpl in Hgrp. lia.
  - exists e. split; [reflexivity |]. intros ->.
    apply window_init_configuration in Hinit as [[Hn Hd] | [Hgs Hps]].
    + destruct Hheads; contradiction.
    + destruct Hsizes; contradiction.
Qed.

Lemma spatial_axis_needs_a_size_witness :
  exists e,
    Matricize_init [Some 1; Some 4; Some 8; Some 8] (Some 2) None
      (Some (SSeq [Some 2; None])) None None ∅ = Err e
    /\ e <> ConfigurationError.
Proof.
  apply (spatial_axis_needs_a_size [Some 1; Some 4; Some 8; Some 8] (Some 2) None
           (Some (SSeq [Some 2; None])) None None ∅ 1%nat).
  - left. discriminate.
  - left. discriminate.
  - simpl. lia.
  - intros v. discriminate.
  - intros v. discriminate.
  - reflexivity.
  - reflexivity.
Defined.

(** ** When [Matricize] returns *)

(** What makes [Rearrange] return. *)
Lemma Rearrange_init_intro (pattern : string) (kw : gmap string Z) (sl sr : list ascii)
  (L R : list (list string)) :
  Str.split_arrow (Str.of_string pattern) = [sl; sr] ->
  parses sl L -> parses sr R ->
  NoDup (concat L) -> NoDup (concat R) ->
  (forall d, d ∈ concat L <-> d ∈ concat R) ->
  (forall k v, kw !! k = Some v ->
               is_identifier (Str.of_string k) = true /\ k ∈ concat L) ->
  Forall (fun g => (length (unknown_axes kw g) <= 1)%nat) L ->
  Rearrange_init pattern kw = Ok {| re_left := L; re_right := R; re_lengths := kw |}.
Proof.
  intros Hsplit Hl Hr HndL HndR Hsame Hkeys Hun. unfold Rearrange_init. rewrite Hsplit.
  rewrite (proj2 (parse_side_Ok sl L) (conj Hl HndL)). cbn [bind].
  rewrite (proj2 (parse_side_Ok sr R) (conj Hr HndR)). cbn [bind].
  assert (H1 : forallb (fun d => bool_decide (d ∈ concat R)) (concat L)
               && forallb (fun d => bool_decide (d ∈ concat L)) (concat R) = true).
  { apply andb_true_iff. split; apply forallb_forall; intros d Hd;
      apply bool_decide_eq_true, Hsame, list_elem_of_In, Hd. }
  rewrite H1. cbn [guard bind].
  assert (H2 : forallb (fun kv => is_identifier (Str.of_string (fst kv))
                                  && bool_decide (fst kv ∈ concat L))
                       (map_to_list kw) = true).
  { apply forallb_forall. intros [k v] Hkv. apply list_elem_of_In in Hkv.
    apply elem_of_map_to_list in Hkv. destruct (Hkeys k v Hkv) as [Hid Hin].
    simpl. rewrite Hid. apply bool_decide_eq_true, Hin. }
  rewrite H2. cbn [guard bind].
  assert (H3 : forallb (fun g => Nat.leb (length (unknown_axes kw g)) 1) L = true).
  { apply forallb_forall. intros g Hg. apply list_elem_of_In in Hg.
    apply Nat.leb_le. exact (proj1 (Forall_forall _ _) Hun g Hg). }
  rewrite H3. reflexivity.
Qed.

(** The names on the two sides of the equation of [Matricize]. *)
Lemma concat_pairs_Permutation (l : list nat) :
  concat (map (fun i => [axis "g" i; axis "p" i]) l)
  ≡ₚ map (axis "g") l ++ map (axis "p") l.
Proof.
  induction l as [|i l IH]; [reflexivity |]. simpl. constructor.
  rewrite IH. apply Permutation_middle.
Qed.

Lemma Matricize_names_Permutation (n : nat) :
  concat (["b"] :: ["h"; "d"] :: map (fun i => [axis "g" i; axis "p" i]) (seq 0 n))
  ≡ₚ concat [["b"; "h"]; map (axis "g") (seq 0 n); ["d"]; map (axis "p") (seq 0 n)].
Proof.
  cbn [concat app]. rewrite app_nil_r. do 2 constructor.
  rewrite concat_pairs_Permutation.
  change ("d" :: map (axis "p") (seq 0 n)) with (["d"] ++ map (axis "p") (seq 0 n)).
  rewrite (app_assoc (map (axis "g") (seq 0 n)) ["d"]).
  rewrite <- (Permutation_cons_append (map (axis "g") (seq 0 n)) "d"). reflexivity.
Qed.

Lemma Matricize_names_right (n : nat) (k : string) :
  k ∈ concat [["b"; "h"]; map (axis "g") (seq 0 n); ["d"]; map (axis "p") (seq 0 n)]
  <-> k = "b" \/ k = "h" \/ k = "d"
      \/ (exists i, (i < n)%nat /\ k = axis "g" i)
      \/ (exists i, (i < n)%nat /\ k = axis "p" i).
Proof.
  cbn [concat app]. rewrite app_nil_r.
  rewrite !elem_of_cons, elem_of_app, elem_of_cons, !list_elem_of_fmap.
  split.
  - intros [-> | [-> | [(i & -> & Hi) | [-> | (i & -> & Hi)]]]]; auto.
    + apply elem_of_seq in Hi. right. right. right. left. exists i. split; [lia | reflexivity].
    + apply elem_of_seq in Hi. right. right. right. right. exists i. split; [lia | reflexivity].
  - intros [-> | [-> | [-> | [(i & Hi & ->) | (i & Hi & ->)]]]]; auto.
    + right. right. left. exists i. split; [reflexivity | apply elem_of_seq; lia].
    + right. right. right. right. exists i. split; [reflexivity | apply elem_of_seq; lia].
Qed.

Lemma Matricize_names_NoDup (n : nat) :
  NoDup (concat [["b"; "h"]; map (axis "g") (seq 0 n); ["d"]; map (axis "p") (seq 0 n)]).
Proof.
  cbn [concat app]. rewrite app_nil_r.
  assert (Hg : NoDup (map (axis "g") (seq 0 n))).
  { apply NoDup_fmap_2; [intros i j; apply axis_inj | apply NoDup_seq]. }
  assert (Hp : NoDup (map (axis "p") (seq 0 n))).
  { apply NoDup_fmap_2; [intros i j; apply axis_inj | apply NoDup_seq]. }
  assert (Hnot : forall (c : ascii) (k : string) (l : list nat),
             (forall i, axis (String c "") i <> k) -> k ∉ map (axis (String c "")) l).
  { intros c k l Hne Hin. apply list_elem_of_fmap in Hin as (i & -> & _).
    exact (Hne i eq_refl). }
  assert (Hdp : NoDup ("d" :: map (axis "p") (seq 0 n))).
  { constructor; [| exact Hp].
    apply (Hnot "p"%char). intros i. apply axis_not_letter. discriminate. }
  assert (Hgdp : NoDup (map (axis "g") (seq 0 n) ++ "d" :: map (axis "p") (seq 0 n))).
  { apply NoDup_app. split; [exact Hg |]. split; [| exact Hdp].
    intros k Hk Hk'. apply list_elem_of_fmap in Hk as (i & -> & _).
    apply elem_of_cons in Hk' as [Hk' | Hk'].
    - exact (axis_not_letter "g" "d" i ltac:(discriminate) Hk').
    - apply list_elem_of_fmap in Hk' as (j & Hj & _).
      exact (axis_prefix_differs "g" "p" i j ltac:(discriminate) Hj). }
  constructor; [| constructor; [| exact Hgdp]].
  - rewrite elem_of_cons, elem_of_app, elem_of_cons.
    intros [Hk | [Hk | [Hk | Hk]]]; try discriminate.
    + exact (Hnot "g"%char "b" _ ltac:(intros i; apply axis_not_letter; discriminate) Hk).
    + exact (Hnot "p"%char "b" _ ltac:(intros i; apply axis_not_letter; discriminate) Hk).
  - rewrite elem_of_app, elem_of_cons.
    intros [Hk | [Hk | Hk]]; try discriminate.
    + exact (Hnot "g"%char "h" _ ltac:(intros i; apply axis_not_letter; discriminate) Hk).
    + exact (Hnot "p"%char "h" _ ltac:(intros i; apply axis_not_letter; discriminate) Hk).
Qed.

Lemma Matricize_names_identifiers (n : nat) (k : string) :
  k ∈ concat [["b"; "h"]; map (axis "g") (seq 0 n); ["d"]; map (axis "p") (seq 0 n)] ->
  is_identifier (Str.of_string k) = true.
Proof.
  intros Hk. apply Matricize_names_right in Hk
    as [-> | [-> | [-> | [(i & _ & ->) | (i & _ & ->)]]]]; try reflexivity.
  - apply (axis_is_identifier "g"). reflexivity.
  - apply (axis_is_identifier "p"). reflexivity.
Qed.

(** The lengths the constructor hands on. *)
Lemma set_axes_lookup_Some prefix (j : nat) (values : list (option Z))
  (dl : gmap string Z) (k : string) (v : Z) :
  set_axes prefix j values dl !! k = Some v ->
  dl !! k = Some v
  \/ exists i w, values !! i = Some (Some w) /\ k = axis prefix (j + i) /\ v = Z.max w 1.
Proof.
  revert j dl. induction values as [|v0 values IH]; intros j dl Hk; [left; exact Hk |].
  simpl in Hk. apply IH in Hk as [Hk | (i & w & Hi & -> & ->)].
  - destruct v0 as [w0|]; [| left; exact Hk].
    destruct (decide (axis prefix j = k)) as [<- | Hne].
    + rewrite lookup_insert_eq in Hk. injection Hk as <-. right.
      exists 0%nat, w0. rewrite Nat.add_0_r. auto.
    + rewrite lookup_insert_ne in Hk by exact Hne. left. exact Hk.
  - right. exists (S i), w. split; [exact Hi |]. split; [f_equal; lia | reflexivity].
Qed.

Lemma window_dims_lengths_Some (n : nat) num_heads head_dim grid_size patch_size
  (k : string) (v : Z) :
  window_dims_lengths n num_heads head_dim grid_size patch_size !! k = Some v ->
  (k = "h" /\ exists w, num_heads = Some w /\ v = Z.max w 1)
  \/ (k = "d" /\ exists w, head_dim = Some w /\ v = Z.max w 1)
  \/ (exists i w, to_ntuple n grid_size !! i = Some (Some w)
                  /\ k = axis "g" i /\ v = Z.max w 1)
  \/ (exists i w, to_ntuple n patch_size !! i = Some (Some w)
                  /\ k = axis "p" i /\ v = Z.max w 1).
Proof.
  unfold window_dims_lengths. intros Hk.
  apply set_axes_lookup_Some in Hk as [Hk | (i & w & Hi & -> & ->)];
    [| right; right; right; eauto].
  apply set_axes_lookup_Some in Hk as [Hk | (i & w & Hi & -> & ->)];
    [| right; right; left; eauto].
  destruct head_dim as [hd|].
  - apply lookup_insert_Some in Hk as [[<- <-] | [_ Hk]]; [right; left; eauto |].
    destruct num_heads as [nh|]; [| rewrite lookup_empty in Hk; discriminate].
    apply lookup_insert_Some in Hk as [[<- <-] | [_ Hk]]; [left; eauto |].
    rewrite lookup_empty in Hk. discriminate.
  - destruct num_heads as [nh|]; [| rewrite lookup_empty in Hk; discriminate].
    apply lookup_insert_Some in Hk as [[<- <-] | [_ Hk]]; [left; eauto |].
    rewrite lookup_empty in Hk. discriminate.
Qed.

Lemma window_dims_lengths_head_None (n : nat) head_dim grid_size patch_size :
  window_dims_lengths n None head_dim grid_size patch_size !! "h" = None.
Proof.
  destruct (window_dims_lengths n None head_dim grid_size patch_size !! "h") as [v|] eqn:Hk;
    [| reflexivity].
  apply window_dims_lengths_Some in Hk
    as [(_ & w & Hw & _) | [(Hk & _) | [(i & w & _ & Hk & _) | (i & w & _ & Hk & _)]]];
    discriminate.
Qed.

Lemma window_dims_lengths_dim_None (n : nat) num_heads grid_size patch_size :
  window_dims_lengths n num_heads None grid_size patch_size !! "d" = None.
Proof.
  destruct (window_dims_lengths n num_heads None grid_size patch_size !! "d") as [v|] eqn:Hk;
    [| reflexivity].
  apply window_dims_lengths_Some in Hk
    as [(Hk & _) | [(_ & w & Hw & _) | [(i & w & _ & Hk & _) | (i & w & _ & Hk & _)]]];
    discriminate.
Qed.

Lemma window_dims_lengths_batch (n : nat) num_heads head_dim grid_size patch_size :
  window_dims_lengths n num_heads head_dim grid_size patch_size !! "b" = None.
Proof.
  destruct (window_dims_lengths n num_heads head_dim grid_size patch_size !! "b")
    as [v|] eqn:Hk; [| reflexivity].
  apply window_dims_lengths_Some in Hk
    as [(Hk & _) | [(Hk & _) | [(i & w & _ & Hk & _) | (i & w & _ & Hk & _)]]];
    discriminate.
Qed.

(** The entry of a spatial axis: the caller's, if there is one. *)
Lemma window_dims_lengths_axis (n : nat) num_heads head_dim grid_size patch_size (i : nat) :
  (i < length (to_ntuple n grid_size))%nat ->
  (i < length (to_ntuple n patch_size))%nat ->
  window_dims_lengths n num_heads head_dim grid_size patch_size !! axis "g" i
  = (fun v => Z.max v 1) <$> mjoin (to_ntuple n grid_size !! i)
  /\ window_dims_lengths n num_heads head_dim grid_size patch_size !! axis "p" i
     = (fun v => Z.max v 1) <$> mjoin (to_ntuple n patch_size !! i).
Proof.
  intros Hg Hp.
  destruct (lookup_lt_is_Some_2 _ _ Hg) as [vg Hvg].
  destruct (lookup_lt_is_Some_2 _ _ Hp) as [vp Hvp].
  rewrite Hvg, Hvp. cbn [mjoin option_join]. split.
  - destruct vg as [w|]; [apply window_dims_lengths_grid, Hvg |].
    unfold window_dims_lengths.
    rewrite set_axes_lookup_other by (intros k; apply axis_prefix_differs; discriminate).
    rewrite (set_axes_lookup_unset "g" 0 _ _ i) by (rewrite Hvg; discriminate).
    destruct head_dim, num_heads;
      rewrite ?lookup_insert_ne by (apply not_eq_sym, axis_not_letter; discriminate);
      apply lookup_empty.
  - destruct vp as [w|]; [apply window_dims_lengths_patch, Hvp |].
    unfold window_dims_lengths.
    rewrite (set_axes_lookup_unset "p" 0 _ _ i) by (rewrite Hvp; discriminate).
    rewrite set_axes_lookup_other by (intros k; apply axis_prefix_differs; discriminate).
    destruct head_dim, num_heads;
      rewrite ?lookup_insert_ne by (apply not_eq_sym, axis_not_letter; discriminate);
      apply lookup_empty.
Qed.

Lemma unknown_axes_pair (kw : gmap string Z) (a b : string) :
  is_Some (kw !! a) \/ is_Some (kw !! b) ->
  (length (unknown_axes kw [a; b]) <= 1)%nat.
Proof.
  intros Hk. unfold unknown_axes. rewrite !filter_cons, filter_nil.
  destruct (decide (kw !! a = None)) as [Ha | Ha], (decide (kw !! b = None)) as [Hb | Hb];
    simpl; try lia.
  destruct Hk as [[v Hv] | [v Hv]]; congruence.
Qed.

(** An axis without a hint gets a length only in a group of known size. *)
Lemma infer_loop_lookup_unhinted groups size (dl inferred res : gmap string Z)
  (d : string) (v : Z) :
  infer_loop groups size dl inferred = Ok res ->
  res !! d = Some v -> dl !! d = None ->
  inferred !! d = Some v
  \/ exists i group s, groups !! i = Some group /\ size !! i = Some (Some s)
                       /\ d ∈ group_dims group.
Proof.
  intros Hr Hv Hn. revert size inferred Hr.
  induction groups as [|g groups IH]; intros [|s size] inferred Hr; simpl in Hr;
    try (injection Hr as <-; left; exact Hv).
  assert (Hshift : (exists i group s', groups !! i = Some group /\ size !! i = Some (Some s')
                                       /\ d ∈ group_dims group) ->
                   exists i group s', (g :: groups) !! i = Some group
                                      /\ (s :: size) !! i = Some (Some s')
                                      /\ d ∈ group_dims group).
  { intros (i & group & s' & H1 & H2 & H3). exists (S i), group, s'. auto. }
  assert (Hcopy : forall inferred',
             infer_loop groups size dl (copy_known (group_dims g) dl inferred') = Ok res ->
             inferred' = inferred ->
             inferred !! d = Some v
             \/ exists i group s', (g :: groups) !! i = Some group
                                   /\ (s :: size) !! i = Some (Some s')
                                   /\ d ∈ group_dims group).
  { intros inferred' Hr' ->. destruct (IH _ _ Hr') as [Hi | Hex]; [| right; auto].
    apply copy_known_lookup in Hi as [Hi | [_ Hd]]; [left; exact Hi | congruence]. }
  destruct s as [s|]; [| exact (Hcopy inferred Hr eq_refl)].
  destruct (_ <? _); [exact (Hcopy inferred Hr eq_refl) |].
  destruct (_ =? _); [discriminate |].
  destruct (IH _ _ Hr) as [Hi | Hex]; [| right; auto].
  apply fill_dims_lookup in Hi as [Hi | [Hin _]]; [left; exact Hi |].
  right. exists 0%nat, g, s. auto.
Qed.

(** The two members of a group of known extent [s], one of them hinted at
    least: each gets its hint, or the floor quotient of [s] by the hint of
    the other. *)
Lemma infer_pair groups size (kw res : gmap string Z) (idx : nat) grp (a b : string) (s : Z) :
  (forall k v, kw !! k = Some v -> v <> 0) ->
  groups !! idx = Some grp -> group_dims grp = [a; b] ->
  size !! idx = Some (Some s) ->
  (forall j g, (idx < j)%nat -> groups !! j = Some g ->
               (a ∉ group_dims g) /\ (b ∉ group_dims g)) ->
  a <> b ->
  is_Some (kw !! a) \/ is_Some (kw !! b) ->
  infer_loop groups size kw ∅ = Ok res ->
  res !! a = Some (match kw !! a with Some v => v | None => s / default 1 (kw !! b) end)
  /\ res !! b = Some (match kw !! b with Some v => v | None => s / default 1 (kw !! a) end).
Proof.
  intros Hnz Hg Hdims Hs Hlater Hab Hhint Hr.
  assert (Hkeep : forall d v, d ∈ [a; b] -> kw !! d = Some v -> res !! d = Some v).
  { intros d v Hd Hv.
    apply (infer_loop_keeps groups size kw ∅ res idx grp (Some s) d v); try assumption.
    - rewrite Hdims. exact Hd.
    - intros j g Hj Hjg. destruct (Hlater j g Hj Hjg) as [Ha Hb].
      apply elem_of_cons in Hd as [-> | Hd]; [exact Ha |].
      apply elem_of_cons in Hd as [-> | Hd]; [exact Hb | inversion Hd]. }
  assert (Hfloor : forall d, unknown_axes kw [a; b] = [d] ->
                             res !! d = Some (s / known_product [a; b] kw)).
  { intros d Hu.
    destruct (infer_loop_floor groups size kw ∅ idx grp s d Hnz Hg Hs) as (res' & Hr' & Hd).
    - rewrite Hdims. exact Hu.
    - intros j g Hj Hjg. destruct (Hlater j g Hj Hjg) as [Ha Hb].
      assert (Hin : d ∈ unknown_axes kw [a; b]) by (rewrite Hu; left).
      apply list_elem_of_filter in Hin as [_ Hin].
      apply elem_of_cons in Hin as [-> | Hin]; [exact Ha |].
      apply elem_of_cons in Hin as [-> | Hin]; [exact Hb | inversion Hin].
    - rewrite Hdims in Hd. congruence. }
  unfold unknown_axes, known_product in Hfloor.
  rewrite !filter_cons, filter_nil, !omap_cons_eq in Hfloor.
  destruct (kw !! a) as [va|] eqn:Ha, (kw !! b) as [vb|] eqn:Hb.
  - split; apply Hkeep; [left | exact Ha | right; left | exact Hb].
  - split; [apply Hkeep; [left | exact Ha] |].
    destruct (decide (Some va = None)); [discriminate |].
    destruct (decide (@None Z = None)); [| congruence].
    rewrite (Hfloor b eq_refl). simpl. do 2 f_equal. lia.
  - split; [| apply Hkeep; [right; left | exact Hb]].
    destruct (decide (@None Z = None)); [| congruence].
    destruct (decide (Some vb = None)); [discriminate |].
    rewrite (Hfloor a eq_refl). simpl. do 2 f_equal. lia.
  - destruct Hhint as [[v Hv] | [v Hv]]; discriminate.
Qed.

(** A group of one member without a hint. *)
Lemma infer_single groups size (kw res : gmap string Z) (idx : nat) grp (a : string)
  (s : option Z) :
  (forall k v, kw !! k = Some v -> v <> 0) ->
  groups !! idx = Some grp -> group_dims grp = [a] ->
  size !! idx = Some s ->
  (forall j g, j <> idx -> groups !! j = Some g -> a ∉ group_dims g) ->
  kw !! a = None ->
  infer_loop groups size kw ∅ = Ok res ->
  res !! a = s.
Proof.
  intros Hnz Hg Hdims Hs Hother Ha Hr. destruct s as [s|].
  - destruct (infer_loop_floor groups size kw ∅ idx grp s a Hnz Hg Hs) as (res' & Hr' & Hd).
    + rewrite Hdims. unfold unknown_axes. rewrite filter_cons, filter_nil.
      destruct (decide (kw !! a = None)); [reflexivity | contradiction].
    + intros j g Hj Hjg. apply (Hother j g); [lia | exact Hjg].
    + rewrite Hdims in Hd. unfold known_product in Hd. rewrite omap_cons_eq, Ha in Hd.
      simpl in Hd. rewrite Z.div_1_r in Hd. congruence.
  - destruct (res !! a) as [v|] eqn:Hv; [| reflexivity]. exfalso.
    destruct (infer_loop_lookup_unhinted _ _ _ _ _ _ _ Hr Hv Ha)
      as [He | (i & group & s' & Hi & Hsi & Hin)].
    + rewrite lookup_empty in He. discriminate.
    + destruct (decide (i = idx)) as [-> | Hne]; [congruence |].
      exact (Hother i group Hne Hi Hin).
Qed.

Lemma group_size_all (dl : gmap string Z) (name : nat -> string) (f : nat -> Z)
  (l : list nat) :
  l <> [] -> (forall i, i ∈ l -> dl !! name i = Some (f i)) ->
  group_size dl (map name l) = Ok (Some (zprod (map f l))).
Proof.
  intros Hne Hall. unfold group_size.
  assert (Ho : omap (fun d => dl !! d) (map name l) = map f l).
  { clear Hne. induction l as [|i l IH]; [reflexivity |].
    cbn [map]. rewrite omap_cons_eq, (Hall i ltac:(left)), IH; [reflexivity |].
    intros j Hj. apply Hall. right. exact Hj. }
  assert (Hf : forallb (fun d => bool_decide (is_Some (dl !! d))) (map name l) = true).
  { apply forallb_forall. intros d Hd. apply list_elem_of_In in Hd.
    apply list_elem_of_fmap in Hd as (i & -> & Hi). apply bool_decide_eq_true.
    rewrite (Hall i Hi). eauto. }
  rewrite Hf, Ho, reduce_mul_zprod; [reflexivity |].
  destruct l; [congruence | discriminate].
Qed.

Lemma unknown_axes_all (dl : gmap string Z) (g : list string) :
  (forall d, d ∈ g -> is_Some (dl !! d)) -> unknown_axes dl g = [].
Proof.
  intros Hall. unfold unknown_axes. induction g as [|d g IH]; [reflexivity |].
  rewrite filter_cons. destruct (decide (dl !! d = None)) as [Hn | _].
  - destruct (Hall d ltac:(left)) as [v Hv]. congruence.
  - apply IH. intros d' Hd'. apply Hall. right. exact Hd'.
Qed.

Lemma unknown_axes_length (dl : gmap string Z) (g : list string) :
  (length (unknown_axes dl g) <= length g)%nat.
Proof. unfold unknown_axes. apply length_filter. Qed.

Lemma imap_as_map {T U : Type} (f : nat -> T -> U) (l : list T) (x : T) :
  imap f l = map (fun i => f i (default x (l !! i))) (seq 0 (length l)).
Proof.
  revert f. induction l as [|a l IH]; intros f; [reflexivity |].
  cbn [imap length seq map]. f_equal. rewrite IH, <- seq_shift, map_map. reflexivity.
Qed.

Lemma seq_not_nil (n : nat) : n <> 0%nat -> seq 0 n <> [].
Proof. destruct n; [contradiction | discriminate]. Qed.

Lemma Reshape_init_intro input_size (equation : string) shift_spec shift_dims
  (kw dl : gmap string Z) (sl sr : list ascii) (fw bw : Rearrange)
  (osz : list (option Z)) :
  Str.split_arrow (Str.of_string equation) = [sl; sr] ->
  Rearrange_init equation kw = Ok fw ->
  infer_dims (strip sl) input_size kw = Ok dl ->
  compute_size (strip sr) dl = Ok osz ->
  Rearrange_init (strip sr +:+ " -> " +:+ strip sl) dl = Ok bw ->
  exists self, Reshape_init input_size (Some equation) shift_spec shift_dims kw = Ok self
               /\ output_size self = osz /\ dim_lengths self = dl.
Proof.
  intros Hsplit Hfw Hdl Hosz Hbw. unfold Reshape_init.
  rewrite Hsplit, Hfw. cbn [bind]. rewrite Hdl. cbn [bind]. rewrite Hosz. cbn [bind].
  rewrite Hbw. cbn [bind]. eexists. split; [reflexivity |]. split; reflexivity.
Qed.

Section Returning.

Variables (bsz : option Z) (C : Z) (spatial : list Z).
Variables (num_heads head_dim : option Z) (grid_size patch_size : option size_arg).

(* The names of [Matricize.__init__] and of the equation it writes. *)
Local Abbreviation n := (length spatial).
Local Abbreviation isz := (bsz :: Some C :: map Some spatial).
Local Abbreviation tg := (to_ntuple n grid_size).
Local Abbreviation tp := (to_ntuple n patch_size).
Local Abbreviation kw := (window_dims_lengths n num_heads head_dim grid_size patch_size).
Local Abbreviation L := (["b"] :: ["h"; "d"] :: map (fun i => [axis "g" i; axis "p" i]) (seq 0 n)).
Local Abbreviation R := ([["b"; "h"]; map (axis "g") (seq 0 n); ["d"]; map (axis "p") (seq 0 n)]).
Local Abbreviation sl := (Str.of_string (left_equation n) ++ [" "%char]).
Local Abbreviation sr := (" "%char :: Str.of_string (Matricize_right n)).

Hypothesis Hn : n <> 0%nat.
Hypothesis Hheads : num_heads <> None \/ head_dim <> None.
Hypothesis Hg : length tg = n.
Hypothesis Hp : length tp = n.
Hypothesis Haxes : forall i, (i < n)%nat ->
  is_Some (mjoin (tg !! i)) \/ is_Some (mjoin (tp !! i)).

Lemma returning_kw_h : kw !! "h" = (fun v => Z.max v 1) <$> num_heads.
Proof.
  destruct num_heads as [v|].
  - apply window_dims_lengths_heads.
  - apply window_dims_lengths_head_None.
Qed.

Lemma returning_kw_d : kw !! "d" = (fun v => Z.max v 1) <$> head_dim.
Proof.
  destruct head_dim as [v|].
  - apply window_dims_lengths_dim.
  - apply window_dims_lengths_dim_None.
Qed.

Lemma returning_kw_axis (i : nat) :
  (i < n)%nat ->
  kw !! axis "g" i = (fun v => Z.max v 1) <$> mjoin (tg !! i)
  /\ kw !! axis "p" i = (fun v => Z.max v 1) <$> mjoin (tp !! i).
Proof.
  intros Hi. apply window_dims_lengths_axis; lia.
Qed.

Lemma returning_kw_nonzero (k : string) (v : Z) : kw !! k = Some v -> v <> 0.
Proof.
  intros Hk. pose proof (window_dims_lengths_positive n num_heads head_dim
                           grid_size patch_size k v Hk) as Hpos.
  simpl in Hpos. lia.
Qed.

Lemma returning_heads_hinted : is_Some (kw !! "h") \/ is_Some (kw !! "d").
Proof.
  rewrite returning_kw_h, returning_kw_d.
  destruct num_heads, head_dim; simpl; eauto.
  destruct Hheads; congruence.
Qed.

Lemma returning_axis_hinted (i : nat) :
  (i < n)%nat -> is_Some (kw !! axis "g" i) \/ is_Some (kw !! axis "p" i).
Proof.
  intros Hi. destruct (returning_kw_axis i Hi) as [-> ->].
  destruct (Haxes i Hi) as [[v ->] | [v ->]]; simpl; eauto.
Qed.

Lemma returning_same_names (d : string) : d ∈ concat L <-> d ∈ concat R.
Proof. rewrite (Matricize_names_Permutation n). reflexivity. Qed.

Lemma returning_NoDup_left : NoDup (concat L).
Proof.
  rewrite (Matricize_names_Permutation n). apply Matricize_names_NoDup.
Qed.

Lemma returning_split :
  Str.split_arrow (Str.of_string (Matricize_equation n)) = [sl; sr].
Proof.
  change (Matricize_equation n)
    with (left_equation n +:+ " -> " +:+ Matricize_right n).
  apply equation_split.
  - apply all_chars_left_equation; [apply plain_no_dash | reflexivity..].
  - apply all_chars_Matricize_right; [apply plain_no_dash | reflexivity..].
Qed.

Lemma returning_forward_layer :
  Rearrange_init (Matricize_equation n) kw
  = Ok {| re_left := L; re_right := R; re_lengths := kw |}.
Proof.
  apply (Rearrange_init_intro _ _ sl sr).
  - exact returning_split.
  - apply parses_left_equation.
  - apply parses_Matricize_right, Hn.
  - exact returning_NoDup_left.
  - apply Matricize_names_NoDup.
  - exact returning_same_names.
  - intros k v Hk.
    assert (Hin : k ∈ concat R).
    { apply Matricize_names_right.
      apply window_dims_lengths_Some in Hk
        as [[-> _] | [[-> _] | [(i & w & Hi & -> & _) | (i & w & Hi & -> & _)]]]; auto.
      - right. right. right. left. exists i. split; [| reflexivity].
        apply lookup_lt_Some in Hi. lia.
      - right. right. right. right. exists i. split; [| reflexivity].
        apply lookup_lt_Some in Hi. lia. }
    split; [exact (Matricize_names_identifiers n k Hin) |].
    apply returning_same_names, Hin.
  - repeat apply Forall_cons_2.
    + apply unknown_axes_length.
    + apply unknown_axes_pair, returning_heads_hinted.
    + apply Forall_forall. intros g Hgin. apply list_elem_of_fmap in Hgin as (i & -> & Hi).
      apply elem_of_seq in Hi. apply unknown_axes_pair, returning_axis_hinted. lia.
Qed.

Lemma returning_left_groups : map group_dims (findall (strip sl)) = L.
Proof.
  unfold findall. apply parses_findall; [| apply le_n].
  apply parses_strip, parses_left_equation.
Qed.

Lemma returning_right_groups : map group_dims (findall (strip sr)) = R.
Proof.
  unfold findall. apply parses_findall; [| apply le_n].
  apply parses_strip, parses_Matricize_right, Hn.
Qed.

Lemma returning_settled (own other : option Z) (s : Z) :
  match (fun v => Z.max v 1) <$> own with
  | Some v => v
  | None => s / default 1 ((fun v => Z.max v 1) <$> other)
  end = settled_length own other s.
Proof. destruct own, other; reflexivity. Qed.

Lemma returning_inferred :
  exists dl, infer_dims (strip sl) isz kw = Ok dl
    /\ dl !! "b" = bsz
    /\ dl !! "h" = Some (settled_length num_heads head_dim C)
    /\ dl !! "d" = Some (settled_length head_dim num_heads C)
    /\ (forall i s, spatial !! i = Some s ->
          dl !! axis "g" i
          = Some (settled_length (mjoin (tg !! i)) (mjoin (tp !! i)) s)
          /\ dl !! axis "p" i
             = Some (settled_length (mjoin (tp !! i)) (mjoin (tg !! i)) s))
    /\ (forall k v, dl !! k = Some v -> k ∈ concat L).
Proof.
  unfold infer_dims.
  destruct (infer_loop_total (findall (strip sl)) isz kw ∅ returning_kw_nonzero)
    as [dl Hdl].
  exists dl. split; [exact Hdl |].
  pose proof returning_left_groups as Hgroups.
  assert (Hlook : forall idx g, L !! idx = Some g ->
            exists grp, findall (strip sl) !! idx = Some grp /\ group_dims grp = g).
  { intros idx g Hi. rewrite <- Hgroups, list_lookup_fmap in Hi.
    destruct (findall (strip sl) !! idx) as [grp|]; [| discriminate].
    injection Hi as Hi. eauto. }
  assert (Hlater : forall idx g d j g', L !! idx = Some g -> d ∈ g -> (idx < j)%nat ->
            findall (strip sl) !! j = Some g' -> d ∉ group_dims g').
  { intros idx g d j g' Hi Hd Hj Hg'.
    apply (NoDup_concat_later L idx j g (group_dims g') d returning_NoDup_left Hi);
      [| exact Hj | exact Hd].
    rewrite <- Hgroups, list_lookup_fmap, Hg'. reflexivity. }
  split; [| split; [| split; [| split]]].
  - destruct (Hlook 0%nat ["b"] eq_refl) as (grp & Hgrp & Hdims).
    apply (infer_single _ isz kw dl 0%nat grp "b" bsz returning_kw_nonzero Hgrp Hdims eq_refl);
      [| apply window_dims_lengths_batch | exact Hdl].
    intros j g Hj Hjg. apply (Hlater 0%nat ["b"] "b" j g eq_refl); [left | lia | exact Hjg].
  - destruct (Hlook 1%nat ["h"; "d"] eq_refl) as (grp & Hgrp & Hdims).
    destruct (infer_pair _ isz kw dl 1%nat grp "h" "d" C returning_kw_nonzero Hgrp Hdims
                eq_refl) as [Hh _]; [| discriminate | exact returning_heads_hinted
                | exact Hdl |].
    + intros j g Hj Hjg. split.
      * apply (Hlater 1%nat ["h"; "d"] "h" j g eq_refl); [left | lia | exact Hjg].
      * apply (Hlater 1%nat ["h"; "d"] "d" j g eq_refl); [right; left | lia | exact Hjg].
    + rewrite Hh, returning_kw_h, returning_kw_d, returning_settled. reflexivity.
  - destruct (Hlook 1%nat ["h"; "d"] eq_refl) as (grp & Hgrp & Hdims).
    destruct (infer_pair _ isz kw dl 1%nat grp "h" "d" C returning_kw_nonzero Hgrp Hdims
                eq_refl) as [_ Hd]; [| discriminate | exact returning_heads_hinted
                | exact Hdl |].
    + intros j g Hj Hjg. split.
      * apply (Hlater 1%nat ["h"; "d"] "h" j g eq_refl); [left | lia | exact Hjg].
      * apply (Hlater 1%nat ["h"; "d"] "d" j g eq_refl); [right; left | lia | exact Hjg].
    + rewrite Hd, returning_kw_h, returning_kw_d, returning_settled. reflexivity.
  - intros i s Hi.
    assert (Hin : (i < n)%nat) by (apply lookup_lt_Some in Hi; exact Hi).
    assert (HL : L !! (2 + i)%nat = Some [axis "g" i; axis "p" i]).
    { change (map (fun j => [axis "g" j; axis "p" j]) (seq 0 n) !! i
                        = Some [axis "g" i; axis "p" i]).
      rewrite list_lookup_fmap, lookup_seq_lt by exact Hin. reflexivity. }
    destruct (Hlook _ _ HL) as (grp & Hgrp & Hdims).
    destruct (infer_pair _ isz kw dl (2 + i)%nat grp (axis "g" i) (axis "p" i) s
                returning_kw_nonzero Hgrp Hdims) as [Hgi Hpi].
    + change (map Some spatial !! i = Some (Some s)).
      rewrite list_lookup_fmap, Hi. reflexivity.
    + intros j g Hj Hjg. split.
      * apply (Hlater _ _ (axis "g" i) j g HL); [left | lia | exact Hjg].
      * apply (Hlater _ _ (axis "p" i) j g HL); [right; left | lia | exact Hjg].
    + apply axis_prefix_differs. discriminate.
    + apply returning_axis_hinted, Hin.
    + exact Hdl.
    + destruct (returning_kw_axis i Hin) as [Hkg Hkp].
      rewrite Hgi, Hpi, Hkg, Hkp, !returning_settled. split; reflexivity.
  - intros k v Hk.
    destruct (infer_loop_lookup _ _ _ _ _ _ _ Hdl Hk) as [He | [(i & grp & Hi & _ & Hd) _]].
    + rewrite lookup_empty in He. discriminate.
    + apply list_elem_of_In, in_concat. exists (group_dims grp). split.
      * apply list_elem_of_In. rewrite <- Hgroups. apply list_elem_of_fmap.
        exists grp. split; [reflexivity |]. apply list_elem_of_lookup. eauto.
      * apply list_elem_of_In, Hd.
Qed.

Section Settled.

Variables (dl : gmap string Z) (h d : Z) (G P : nat -> Z).
Hypothesis Hdb : dl !! "b" = bsz.
Hypothesis Hdh : dl !! "h" = Some h.
Hypothesis Hdd : dl !! "d" = Some d.
Hypothesis Hdg : forall i, (i < n)%nat -> dl !! axis "g" i = Some (G i).
Hypothesis Hdp : forall i, (i < n)%nat -> dl !! axis "p" i = Some (P i).
Hypothesis Hkeys : forall k v, dl !! k = Some v -> k ∈ concat L.

Lemma returning_batch_group :
  group_size dl ["b"; "h"] = Ok ((fun B => B * h) <$> bsz).
Proof.
  unfold group_size. cbn [forallb]. rewrite !omap_cons_eq, Hdb, Hdh.
  destruct bsz as [B|]; reflexivity.
Qed.

Lemma returning_computed :
  compute_size (strip sr) dl
  = Ok [(fun B => B * h) <$> bsz; Some (zprod (map G (seq 0 n))); Some d;
        Some (zprod (map P (seq 0 n)))].
Proof.
  unfold compute_size. pose proof returning_right_groups as Hgroups.
  destruct (findall (strip sr)) as [|r0 [|r1 [|r2 [|r3 [|r4 rs]]]]]; try discriminate.
  injection Hgroups as H0 H1 H2 H3.
  cbn [mapR]. rewrite H0, H1, H2, H3, returning_batch_group. cbn [bind].
  rewrite (group_size_all dl (axis "g") G (seq 0 n)).
  2: { apply seq_not_nil, Hn. }
  2: { intros i Hi. apply elem_of_seq in Hi. apply Hdg. lia. }
  cbn [bind].
  assert (Hd1 : group_size dl ["d"] = Ok (Some (zprod [d]))).
  { apply (group_size_all dl (fun _ => "d") (fun _ => d) [0%nat]);
      [discriminate | intros; exact Hdd]. }
  rewrite Hd1. cbn [bind].
  rewrite (group_size_all dl (axis "p") P (seq 0 n)).
  2: { apply seq_not_nil, Hn. }
  2: { intros i Hi. apply elem_of_seq in Hi. apply Hdp. lia. }
  cbn [bind map zprod foldr]. rewrite Z.mul_1_r. reflexivity.
Qed.

Lemma returning_backward_layer :
  Rearrange_init (strip sr +:+ " -> " +:+ strip sl) dl
  = Ok {| re_left := R; re_right := L; re_lengths := dl |}.
Proof.
  assert (Hr : parses (Str.of_string (strip sr)) R)
    by (apply parses_strip, parses_Matricize_right, Hn).
  assert (Hl : parses (Str.of_string (strip sl)) L)
    by (apply parses_strip, parses_left_equation).
  apply (Rearrange_init_intro _ _ (Str.of_string (strip sr) ++ [" "%char])
           (" "%char :: Str.of_string (strip sl))).
  - rewrite !of_string_app.
    apply split_arrow_join; eapply parses_no_dash; eassumption.
  - apply parses_snoc_blank; [exact Hr | reflexivity].
  - apply parses_blank; [reflexivity | exact Hl].
  - apply Matricize_names_NoDup.
  - exact returning_NoDup_left.
  - intros k. symmetry. apply returning_same_names.
  - intros k v Hk. apply Hkeys, returning_same_names in Hk.
    split; [exact (Matricize_names_identifiers n k Hk) | exact Hk].
  - repeat apply Forall_cons_2; [| | | | apply Forall_nil_2].
    + apply unknown_axes_pair. right. rewrite Hdh. eauto.
    + rewrite unknown_axes_all; [apply Nat.le_0_l |].
      intros k Hk. apply list_elem_of_fmap in Hk as (i & -> & Hi).
      apply elem_of_seq in Hi. rewrite Hdg by lia. eauto.
    + apply unknown_axes_length.
    + rewrite unknown_axes_all; [apply Nat.le_0_l |].
      intros k Hk. apply list_elem_of_fmap in Hk as (i & -> & Hi).
      apply elem_of_seq in Hi. rewrite Hdp by lia. eauto.
Qed.

End Settled.

Lemma returning_Ok (shift_spec : option shift_arg) :
  exists self,
    Matricize_init isz num_heads head_dim grid_size patch_size shift_spec ∅ = Ok self
    /\ output_size self
       = [(fun B => B * settled_length num_heads head_dim C) <$> bsz;
          Some (zprod (imap (fun i s => settled_length (mjoin (tg !! i))
                                          (mjoin (tp !! i)) s) spatial));
          Some (settled_length head_dim num_heads C);
          Some (zprod (imap (fun i s => settled_length (mjoin (tp !! i))
                                          (mjoin (tg !! i)) s) spatial))].
Proof.
  destruct returning_inferred as (dl & Hdl & Hb & Hh & Hd & Hax & Hkeys).
  unfold Matricize_init, window_init.
  assert (H1 : negb (bool_decide (num_heads = None /\ head_dim = None)) = true).
  { apply negb_true_iff, bool_decide_eq_false. intros [H1 H2].
    destruct Hheads; contradiction. }
  assert (H2 : negb (bool_decide (grid_size = None /\ patch_size = None)) = true).
  { apply negb_true_iff, bool_decide_eq_false. intros [H2 H3].
    assert (H0 : (0 < n)%nat) by lia.
    destruct (Haxes 0%nat H0) as [[v Hv] | [v Hv]];
      [rewrite H2 in Hv | rewrite H3 in Hv];
      cbn [to_ntuple] in Hv; destruct spatial; try (simpl in H0; lia); discriminate. }
  rewrite H1, H2. cbn [guard bind].
  assert (Hlen : (length isz - 2)%nat = n).
  { cbn [length]. rewrite length_map. lia. }
  rewrite Hlen.
  assert (Hm : merge_kwargs kw ∅ = Ok kw).
  { unfold merge_kwargs. rewrite map_to_list_empty. cbn [forallb].
    rewrite (right_id_L ∅ (∪)). reflexivity. }
  rewrite Hm. cbn [bind].
  set (G := fun i => settled_length (mjoin (tg !! i)) (mjoin (tp !! i))
                       (default 0 (spatial !! i))).
  set (P := fun i => settled_length (mjoin (tp !! i)) (mjoin (tg !! i))
                       (default 0 (spatial !! i))).
  assert (Hsp : forall i, (i < n)%nat ->
                  dl !! axis "g" i = Some (G i) /\ dl !! axis "p" i = Some (P i)).
  { intros i Hi. destruct (lookup_lt_is_Some_2 spatial i Hi) as [s Hs].
    unfold G, P. rewrite Hs. exact (Hax i s Hs). }
  assert (Hc : compute_size (strip sr) dl
               = Ok [(fun B => B * settled_length num_heads head_dim C) <$> bsz;
                     Some (zprod (map G (seq 0 n)));
                     Some (settled_length head_dim num_heads C);
                     Some (zprod (map P (seq 0 n)))]).
  { apply (returning_computed dl _ _ G P);
      first [assumption | intros i Hi; apply Hsp; exact Hi]. }
  assert (Hbw : Rearrange_init (strip sr +:+ " -> " +:+ strip sl) dl
                = Ok {| re_left := R; re_right := L; re_lengths := dl |}).
  { apply (returning_backward_layer dl (settled_length num_heads head_dim C) G P);
      first [assumption | eassumption | intros i Hi; apply Hsp; exact Hi]. }
  destruct (Reshape_init_intro isz (Matricize_equation n)
              (shifts_to_ntuple n <$> shift_spec)
              match shift_spec with
              | Some _ => Some (map (fun j => Z.of_nat j + 2) (seq 0 n))
              | None => None
              end kw dl sl sr _ _ _
              returning_split returning_forward_layer Hdl Hc Hbw)
    as (self & Hself & Hout & _).
  exists self. split; [exact Hself |]. rewrite Hout.
  rewrite !(imap_as_map _ _ 0). reflexivity.
Qed.

End Returning.

(** X23. [Matricize] returns whenever the size of the input names the
    channels and every spatial axis, one of [num_heads] and [head_dim] is
    given, the grid and patch sizes have one entry per spatial axis, one of the
    two given on each, and no further keyword is passed. Every axis then has a
    length: the hint, raised to 1, or the floor quotient of the size of its
    group by the hint of the other member; [output_size] is the batch times
    the heads (unknown with the batch), the product of the grid lengths, the
    head dimension and the product of the patch lengths. *)
Theorem Matricize_returns (bsz : option Z) (C : Z) (spatial : list Z)
  (num_heads head_dim : option Z) (grid_size patch_size : option size_arg)
  (shift_spec : option shift_arg) :
  let n := length spatial in
  let grid := to_ntuple n grid_size in
  let patch := to_ntuple n patch_size in
  n <> 0%nat ->
  num_heads <> None \/ head_dim <> None ->
  length grid = n -> length patch = n ->
  (forall i, (i < n)%nat -> is_Some (mjoin (grid !! i)) \/ is_Some (mjoin (patch !! i))) ->
  exists self,
    Matricize_init (bsz :: Some C :: map Some spatial) num_heads head_dim
      grid_size patch_size shift_spec ∅ = Ok self
    /\ output_size self
       = [(fun B => B * settled_length num_heads head_dim C) <$> bsz;
          Some (zprod (imap (fun i s => settled_length (mjoin (grid !! i))
                                          (mjoin (patch !! i)) s) spatial));
          Some (settled_length head_dim num_heads C);
          Some (zprod (imap (fun i s => settled_length (mjoin (patch !! i))
                                          (mjoin (grid !! i)) s) spatial))].
Proof.
  intros n grid patch Hn Hheads Hg Hp Haxes.
  exact (returning_Ok bsz C spatial num_heads head_dim grid_size patch_size
           Hn Hheads Hg Hp Haxes shift_spec).
Qed.

(** Heads and a grid given, on an input of size [(None, 6, 9, 8)]: the head
    dimension and the patches are floor quotients. *)
Lemma Matricize_returns_witness :
  exists self,
    Matricize_init [None; Some 6; Some 9; Some 8] (Some 2) None
      (Some (SSeq [Some 2; None])) (Some (SSeq [None; Some 3])) (Some (ShInt 1)) ∅
    = Ok self
    /\ output_size self = [None; Some 4; Some 3; Some 12].
Proof.
  apply (Matricize_returns None 6 [9; 8] (Some 2) None
           (Some (SSeq [Some 2; None])) (Some (SSeq [None; Some 3])) (Some (ShInt 1))).
  - discriminate.
  - left. discriminate.
  - reflexivity.
  - reflexivity.
  - intros [|[|i]] Hi; [left; eexists; reflexivity | right; eexists; reflexivity |].
    simpl in Hi. lia.
Defined.

(** ** Hints below one *)

Lemma window_dims_lengths_clamped (n : nat) num_heads head_dim grid_size patch_size :
  hints_clamped n num_heads head_dim grid_size patch_size
    (window_dims_lengths n num_heads head_dim grid_size patch_size).
Proof.
  unfold hints_clamped. repeat split.
  - intros v -> Hv. rewrite window_dims_lengths_heads. f_equal. lia.
  - intros v -> Hv. rewrite window_dims_lengths_dim. f_equal. lia.
  - intros i v Hi Hv. rewrite (window_dims_lengths_grid _ _ _ _ _ i v Hi). f_equal. lia.
  - intros i v Hi Hv. rewrite (window_dims_lengths_patch _ _ _ _ _ i v Hi). f_equal. lia.
Qed.

Lemma hints_clamped_included (n : nat) num_heads head_dim grid_size patch_size
  (sub env : gmap string Z) :
  included sub env ->
  hints_clamped n num_heads head_dim grid_size patch_size sub ->
  hints_clamped n num_heads head_dim grid_size patch_size env.
Proof.
  intros Hinc (Hh & Hd & Hg & Hp). unfold hints_clamped. repeat split.
  - intros v Hv Hle. apply Hinc, (Hh v Hv Hle).
  - intros v Hv Hle. apply Hinc, (Hd v Hv Hle).
  - intros i v Hv Hle. apply Hinc, (Hg i v Hv Hle).
  - intros i v Hv Hle. apply Hinc, (Hp i v Hv Hle).
Qed.

(** Past the two assertions, and with no further keyword, a constructor is
    the call of [Reshape.__init__] with the lengths it has set. *)
Lemma window_init_call (equation : nat -> string) input_size num_heads head_dim
  grid_size patch_size shift_spec :
  num_heads <> None \/ head_dim <> None ->
  grid_size <> None \/ patch_size <> None ->
  let n := (length input_size - 2)%nat in
  window_init equation input_size num_heads head_dim grid_size patch_size shift_spec ∅
  = Reshape_init input_size (Some (equation n)) (shifts_to_ntuple n <$> shift_spec)
      match shift_spec with
      | Some _ => Some (map (fun j => Z.of_nat j + 2) (seq 0 n))
      | None => None
      end
      (window_dims_lengths n num_heads head_dim grid_size patch_size).
Proof.
  intros Hheads Hsizes n. unfold window_init.
  rewrite bool_decide_eq_false_2 by (intros [? ?]; destruct Hheads; contradiction).
  rewrite bool_decide_eq_false_2 by (intros [? ?]; destruct Hsizes; contradiction).
  cbn [negb guard bind]. fold n. unfold merge_kwargs.
  rewrite map_to_list_empty. cbn [forallb bind]. rewrite (right_id_L ∅ (∪)). reflexivity.
Qed.

(** C10. A non-positive numHeads, headDim or per-axis gridSize / patchSize
    entry is not rejected. Both constructors give its axis the length 1
    ([max(value, 1)]) among the lengths they set, and past the two assertions
    they are the call of [Reshape.__init__] with those lengths; construction
    of [Matricize] with such values is construction with 1 in their place.
    [Matricize] is then built, and the transform has the length 1 for the
    axis, whenever the input size is known from the channels on, heads or
    head dimension are given, every spatial axis has a grid or a patch length
    and no further keyword is passed. *)
Theorem nonpositive_hints_clamped input_size num_heads head_dim grid_size patch_size
  shift_spec :
  let n := (length input_size - 2)%nat in
  let dl := window_dims_lengths n num_heads head_dim grid_size patch_size in
  let shifts := shifts_to_ntuple n <$> shift_spec in
  let dims := match shift_spec with
              | Some _ => Some (map (fun j => Z.of_nat j + 2) (seq 0 n))
              | None => None
              end in
  hints_clamped n num_heads head_dim grid_size patch_size dl
  /\ (num_heads <> None \/ head_dim <> None ->
      grid_size <> None \/ patch_size <> None ->
      Matricize_init input_size num_heads head_dim grid_size patch_size shift_spec ∅
      = Reshape_init input_size (Some (Matricize_equation n)) shifts dims dl
      /\ Tensorize_init input_size num_heads head_dim grid_size patch_size shift_spec ∅
         = Reshape_init input_size (Some (Tensorize_equation n)) shifts dims dl)
  /\ (forall kwargs : gmap string Z,
        Matricize_init input_size num_heads head_dim grid_size patch_size shift_spec kwargs
        = Matricize_init input_size (to_one <$> num_heads) (to_one <$> head_dim)
            (size_to_one grid_size) (size_to_one patch_size) shift_spec kwargs)
  /\ (forall bsz C spatial,
        input_size = bsz :: Some C :: map Some spatial ->
        spatial <> [] ->
        num_heads <> None \/ head_dim <> None ->
        length (to_ntuple n grid_size) = n -> length (to_ntuple n patch_size) = n ->
        (forall i, (i < n)%nat -> is_Some (mjoin (to_ntuple n grid_size !! i))
                                  \/ is_Some (mjoin (to_ntuple n patch_size !! i))) ->
        exists self,
          Matricize_init input_size num_heads head_dim grid_size patch_size shift_spec ∅
          = Ok self
          /\ hints_clamped n num_heads head_dim grid_size patch_size (dim_lengths self)).
Proof.
  intros n dl shifts dims.
  split; [apply window_dims_lengths_clamped |].
  split; [intros Hheads Hsizes; split; apply window_init_call; assumption |].
  split; [intros kwargs; symmetry; apply window_init_to_one |].
  intros bsz C spatial Hsz Hne Hheads Hg Hp Haxes.
  assert (Hn : n = length spatial).
  { unfold n. rewrite Hsz. cbn [length]. rewrite length_map. lia. }
  assert (Hpos : length spatial <> 0%nat) by (destruct spatial; [contradiction | discriminate]).
  destruct (returning_Ok bsz C spatial num_heads head_dim grid_size patch_size Hpos Hheads)
    with (shift_spec := shift_spec) as (self & Hself & _);
    try (rewrite <- Hn; assumption).
  rewrite <- Hsz in Hself. exists self. split; [exact Hself |].
  apply (hints_clamped_included _ _ _ _ _ dl); [| apply window_dims_lengths_clamped].
  destruct (Matricize_init_layer _ _ _ _ _ _ _ _ Hself)
    as (fw & kw & Hkw & Hfw & _ & _ & Hleft & _).
  fold n in Hkw, Hleft.
  assert (Hsizes : grid_size <> None \/ patch_size <> None).
  { destruct grid_size; [left; discriminate |]. destruct patch_size; [right; discriminate |].
    exfalso. assert (H0 : (0 < n)%nat) by lia.
    destruct (Haxes 0%nat H0) as [[v Hv] | [v Hv]]; cbn [to_ntuple] in Hv;
      destruct n; try lia; discriminate. }
  unfold Matricize_init in Hself.
  rewrite (window_init_call _ _ _ _ _ _ _ Hheads Hsizes) in Hself. fold n dl in Hself.
  apply (hints_inferred _ _ _ _ _ _ fw Hself Hfw).
  rewrite Hleft. cbn [length]. rewrite length_map, length_seq. unfold n. lia.
Qed.

(** No heads and patches of minus three, on an input of size (1, 4, 8, 8). *)
Lemma nonpositive_hints_clamped_witness :
  exists self,
    Matricize_init [Some 1; Some 4; Some 8; Some 8] (Some 0) None None
      (Some (SInt (-3))) None ∅ = Ok self
    /\ dim_lengths self !! "h" = Some 1
    /\ dim_lengths self !! "p0" = Some 1
    /\ dim_lengths self !! "p1" = Some 1
    /\ output_size self = [Some 1; Some 64; Some 4; Some 1].
Proof.
  destruct (nonpositive_hints_clamped [Some 1; Some 4; Some 8; Some 8] (Some 0) None None
              (Some (SInt (-3))) None) as (_ & _ & _ & Hbuilt).
  destruct (Hbuilt (Some 1) 4 [8; 8] eq_refl) as (self & Hself & Hh & _ & _ & Hp).
  - discriminate.
  - left. discriminate.
  - reflexivity.
  - reflexivity.
  - intros [|[|i]] Hi; [right; eexists; reflexivity | right; eexists; reflexivity |].
    simpl in Hi. lia.
  - exists self. split; [exact Hself |].
    split; [exact (Hh 0 eq_refl ltac:(lia)) |].
    split; [exact (Hp 0%nat (-3) eq_refl ltac:(lia)) |].
    split; [exact (Hp 1%nat (-3) eq_refl ltac:(lia)) |].
    vm_compute in Hself. injection Hself as <-. reflexivity.
Defined.
